(** * Project Control: the priorities-document core of [src/main.ts]

    A shallow embedding of the path helpers, the priorities-file parser and
    writer, the text-level synchronisation functions, the in-memory move
    operations of the dashboard, and the dashboard's write queue.

    JavaScript strings are sequences of UTF-16 code units; they are modelled
    as [list N].  Regular expressions are modelled by a small backtracking
    matcher that returns every way of matching in the engine's priority
    order, so that the first element is the match JavaScript reports. *)

From Stdlib Require Import String Ascii.
From Stdlib Require Import List NArith ZArith Bool Arith Lia.
From Stdlib Require Import Permutation DecimalString.
Import ListNotations.

Set Implicit Arguments.

(* ================================================================== *)
(** ** JavaScript strings *)
(* ================================================================== *)

Module JS.

Definition jsstring := list N.

(** String literals.  The escapes of the source's literals are kept:
    backslash-n is U+000A, backslash-r is U+000D, a doubled backslash is one
    backslash. *)
Fixpoint unescape (l : list N) : list N :=
  match l with
  | 92%N :: 110%N :: rest => 10%N :: unescape rest
  | 92%N :: 114%N :: rest => 13%N :: unescape rest
  | 92%N :: 92%N :: rest => 92%N :: unescape rest
  | c :: rest => c :: unescape rest
  | [] => []
  end.

Definition lit (s : string) : jsstring :=
  unescape (map N_of_ascii (list_ascii_of_string s)).

Fixpoint eqb (a b : jsstring) : bool :=
  match a, b with
  | [], [] => true
  | x :: a', y :: b' => N.eqb x y && eqb a' b'
  | _, _ => false
  end.

(** A string is truthy when it is not empty. *)
Definition truthy (s : jsstring) : bool :=
  match s with [] => false | _ :: _ => true end.

(** LineTerminator: LF, CR, LS, PS. *)
Definition is_line_terminator (c : N) : bool :=
  N.eqb c 10 || N.eqb c 13 || N.eqb c 8232 || N.eqb c 8233.

(** WhiteSpace and LineTerminator: what [trim] strips and what the class
    backslash-s matches. *)
Definition is_space (c : N) : bool :=
  N.eqb c 9 || N.eqb c 10 || N.eqb c 11 || N.eqb c 12 || N.eqb c 13 ||
  N.eqb c 32 || N.eqb c 160 || N.eqb c 5760 ||
  (N.leb 8192 c && N.leb c 8202) ||
  N.eqb c 8232 || N.eqb c 8233 || N.eqb c 8239 || N.eqb c 8287 ||
  N.eqb c 12288 || N.eqb c 65279.

Fixpoint trimStart (s : jsstring) : jsstring :=
  match s with
  | c :: rest => if is_space c then trimStart rest else s
  | [] => []
  end.

Definition trimEnd (s : jsstring) : jsstring := rev (trimStart (rev s)).

Definition trim (s : jsstring) : jsstring := trimEnd (trimStart s).

Fixpoint startsWith (s p : jsstring) : bool :=
  match p, s with
  | [], _ => true
  | x :: p', y :: s' => N.eqb x y && startsWith s' p'
  | _ :: _, [] => false
  end.

(** [indexOf] as a position, when the pattern occurs. *)
Fixpoint find (s p : jsstring) : option nat :=
  if startsWith s p then Some 0
  else match s with
       | [] => None
       | _ :: rest => option_map S (find rest p)
       end.

(** [s.indexOf(p)]: the first position, or -1. *)
Definition indexOf (s p : jsstring) : Z :=
  match find s p with Some i => Z.of_nat i | None => (-1)%Z end.

Fixpoint findLast (s p : jsstring) : option nat :=
  match s with
  | [] => if startsWith s p then Some 0 else None
  | _ :: rest =>
      match findLast rest p with
      | Some i => Some (S i)
      | None => if startsWith s p then Some 0 else None
      end
  end.

(** [s.lastIndexOf(p)]: the last position, or -1. *)
Definition lastIndexOf (s p : jsstring) : Z :=
  match findLast s p with Some i => Z.of_nat i | None => (-1)%Z end.

Definition clamp (len : nat) (i : Z) : nat :=
  Nat.min len (Z.to_nat i).

(** [s.substring(a, b)]: both ends clamped to the string, swapped when
    [a > b]. *)
Definition substring (s : jsstring) (a b : Z) : jsstring :=
  let a' := clamp (length s) a in
  let b' := clamp (length s) b in
  let lo := Nat.min a' b' in
  let hi := Nat.max a' b' in
  firstn (hi - lo) (skipn lo s).

(** [s.substring(a)]. *)
Definition substringFrom (s : jsstring) (a : Z) : jsstring :=
  skipn (clamp (length s) a) s.

Definition sliceIndex (len : nat) (i : Z) : nat :=
  if (i <? 0)%Z then Z.to_nat (Z.max 0 (Z.of_nat len + i)) else clamp len i.

(** [s.slice(a, b)]: a negative end counts from the end of the string. *)
Definition slice (s : jsstring) (a b : Z) : jsstring :=
  let a' := sliceIndex (length s) a in
  let b' := sliceIndex (length s) b in
  firstn (b' - a') (skipn a' s).

(** [s.slice(a)]. *)
Definition sliceFrom (s : jsstring) (a : Z) : jsstring :=
  skipn (sliceIndex (length s) a) s.

(** [s.split(sep)] for a separator of one code unit; never empty. *)
Fixpoint split (sep : N) (s : jsstring) : list jsstring :=
  match s with
  | [] => [[]]
  | c :: rest =>
      if N.eqb c sep then [] :: split sep rest
      else match split sep rest with
           | cur :: more => (c :: cur) :: more
           | [] => [[c]]
           end
  end.

(** [parts.join(sep)]. *)
Fixpoint join (sep : jsstring) (parts : list jsstring) : jsstring :=
  match parts with
  | [] => []
  | [p] => p
  | p :: more => p ++ sep ++ join sep more
  end.

End JS.

Abbreviation jsstring := JS.jsstring.

(* ================================================================== *)
(** ** Regular expressions *)
(* ================================================================== *)

Module Re.

Inductive regex : Type :=
| Eps
| Cls (p : N -> bool)      (* one code unit: a literal, a class, the dot *)
| Seq (a b : regex)
| Alt (a b : regex)        (* a|b, a first *)
| Star (a : regex)         (* greedy a* *)
| Bol                      (* ^ *)
| Eol                      (* $ *)
| Grp (i : nat) (a : regex). (* capturing group number i *)

(** The matcher's position in the input: the code units before it (nearest
    first), those after it, and the groups captured so far. *)
Record mstate : Type := MState {
  m_before : list N;
  m_after : list N;
  m_caps : list (nat * jsstring)
}.

Definition at_bol (multiline : bool) (st : mstate) : bool :=
  match m_before st with
  | [] => true
  | c :: _ => multiline && JS.is_line_terminator c
  end.

Definition at_eol (multiline : bool) (st : mstate) : bool :=
  match m_after st with
  | [] => true
  | c :: _ => multiline && JS.is_line_terminator c
  end.

(** What was consumed between two positions of one run. *)
Definition consumed (st st' : mstate) : jsstring :=
  firstn (length (m_after st) - length (m_after st')) (m_after st).

(** Greedy iteration: one more round first, stopping here last.  A round
    that consumes nothing is rejected, as in the language. *)
Fixpoint star_iter (step : mstate -> list mstate) (fuel : nat) (st : mstate)
  : list mstate :=
  match fuel with
  | O => [st]
  | S f =>
      flat_map (fun st' =>
                  if length (m_after st') <? length (m_after st)
                  then star_iter step f st' else [])
               (step st) ++ [st]
  end.

(** Every way of matching [r] at [st], in backtracking order. *)
Fixpoint ends (multiline : bool) (r : regex) (st : mstate) : list mstate :=
  match r with
  | Eps => [st]
  | Cls p =>
      match m_after st with
      | c :: rest =>
          if p c then [MState (c :: m_before st) rest (m_caps st)] else []
      | [] => []
      end
  | Seq a b => flat_map (ends multiline b) (ends multiline a st)
  | Alt a b => ends multiline a st ++ ends multiline b st
  | Star a => star_iter (ends multiline a) (S (length (m_after st))) st
  | Bol => if at_bol multiline st then [st] else []
  | Eol => if at_eol multiline st then [st] else []
  | Grp i a =>
      map (fun st' =>
             MState (m_before st') (m_after st')
                    ((i, consumed st st') :: m_caps st'))
          (ends multiline a st)
  end.

(** A successful match: the text skipped before it, the matched text and
    the position after it. *)
Record result : Type := Result {
  r_skipped : jsstring;
  r_matched : jsstring;
  r_end : mstate
}.

Definition r_index (m : result) : nat := length (r_skipped m).

Fixpoint group (i : nat) (caps : list (nat * jsstring)) : option jsstring :=
  match caps with
  | [] => None
  | (j, s) :: rest => if Nat.eqb i j then Some s else group i rest
  end.

Definition r_group (i : nat) (m : result) : option jsstring :=
  group i (m_caps (r_end m)).

(** The leftmost match at or after the current position. *)
Fixpoint search (multiline : bool) (r : regex) (before after : list N)
  : option result :=
  match ends multiline r (MState before after []) with
  | e :: _ =>
      Some (Result [] (consumed (MState before after []) e) e)
  | [] =>
      match after with
      | [] => None
      | c :: rest =>
          match search multiline r (c :: before) rest with
          | Some m => Some (Result (c :: r_skipped m) (r_matched m) (r_end m))
          | None => None
          end
      end
  end.

(** [s.match(re)] and [re.exec(s)] without the g flag. *)
Definition exec (multiline : bool) (r : regex) (s : jsstring) : option result :=
  search multiline r [] s.

(** [s.replace(re, repl)] without the g flag. *)
Definition replace (multiline : bool) (r : regex) (repl s : jsstring)
  : jsstring :=
  match exec multiline r s with
  | None => s
  | Some m => r_skipped m ++ repl ++ m_after (r_end m)
  end.

(** The loop of the g flag: after a match the search resumes behind it; an
    empty match advances by one code unit. *)
Fixpoint replace_loop (fuel : nat) (multiline : bool) (r : regex)
  (repl : jsstring) (before after : list N) : jsstring :=
  match fuel with
  | O => after
  | S f =>
      match search multiline r before after with
      | None => after
      | Some m =>
          let e := r_end m in
          match r_matched m, m_after e with
          | [], [] => r_skipped m ++ repl
          | [], c :: rest =>
              r_skipped m ++ repl ++
                c :: replace_loop f multiline r repl (c :: m_before e) rest
          | _ :: _, _ =>
              r_skipped m ++ repl ++
                replace_loop f multiline r repl (m_before e) (m_after e)
          end
      end
  end.

(** [s.replace(re, repl)] with the g flag. *)
Definition replaceGlobal (multiline : bool) (r : regex) (repl s : jsstring)
  : jsstring :=
  replace_loop (S (length s)) multiline r repl [] s.

Fixpoint match_loop (fuel : nat) (multiline : bool) (r : regex)
  (before after : list N) : list jsstring :=
  match fuel with
  | O => []
  | S f =>
      match search multiline r before after with
      | None => []
      | Some m =>
          let e := r_end m in
          match r_matched m, m_after e with
          | [], [] => [[]]
          | [], c :: rest =>
              [] :: match_loop f multiline r (c :: m_before e) rest
          | _ :: _, _ =>
              r_matched m :: match_loop f multiline r (m_before e) (m_after e)
          end
      end
  end.

(** [s.match(re)] with the g flag: every matched text; [null] is the empty
    list. *)
Definition matchGlobal (multiline : bool) (r : regex) (s : jsstring)
  : list jsstring :=
  match_loop (S (length s)) multiline r [] s.

(** Pattern syntax. *)
Definition chr (c : N) : regex := Cls (N.eqb c).
Definition dot : regex := Cls (fun c => negb (JS.is_line_terminator c)).
Definition plus (a : regex) : regex := Seq a (Star a).
Definition opt (a : regex) : regex := Alt a Eps.
Definition seqs (l : list regex) : regex := fold_right Seq Eps l.
Definition str (s : jsstring) : regex := seqs (map chr s).

End Re.

(* ================================================================== *)
(** ** Path utility functions *)
(* ================================================================== *)

Definition slash : N := 47%N.
Definition backslash : N := 92%N.

(** [/\\/g] *)
Definition re_backslash : Re.regex := Re.chr backslash.
(** [/\/+$/] *)
Definition re_trailing_slashes : Re.regex :=
  Re.Seq (Re.plus (Re.chr slash)) Re.Eol.
(** [/\/+/g] *)
Definition re_slashes : Re.regex := Re.plus (Re.chr slash).

Definition normalizePath (path : jsstring) : jsstring :=
  if negb (JS.truthy path) then []
  else
    Re.replaceGlobal false re_slashes [slash]
      (Re.replace false re_trailing_slashes []
         (Re.replaceGlobal false re_backslash [slash] path)).

Definition getProjectNameFromPath (fullPath projectFolder : jsstring)
  : option jsstring :=
  let normalizedPath := normalizePath fullPath in
  let normalizedProjectFolder := normalizePath projectFolder in
  if negb (JS.truthy normalizedProjectFolder)
     || negb (JS.startsWith normalizedPath (normalizedProjectFolder ++ [slash]))
  then None
  else
    let relativePath :=
      JS.substringFrom normalizedPath
        (Z.of_nat (length normalizedProjectFolder) + 1) in
    let projectName := hd [] (JS.split slash relativePath) in
    if JS.truthy projectName then Some projectName else None.

(* ================================================================== *)
(** ** The priorities document: data model *)
(* ================================================================== *)

(** [oid] stands for the identity of the JavaScript object: the dashboard
    compares entries with [===] and [indexOf].  The fields [project] and
    [frontmatter] hold host objects that none of the functions below reads
    after parsing; they are left out. *)
Record PriorityEntry : Type := {
  oid : nat;
  projectName : jsstring;
  emoji : jsstring;
  alias : option jsstring
}.

Record Subsection : Type := {
  subsectionName : jsstring;
  entries : list PriorityEntry
}.

Inductive SectionItem : Type :=
| ItemSubsection (subsection : Subsection)
| ItemEntry (entry : PriorityEntry).

Record PrioritySection : Type := {
  sectionName : jsstring;
  orderedItems : list SectionItem
}.

Record DashboardData : Type := {
  sections : list PrioritySection;
  unlisted : list jsstring
}.

(** What the parser reads from the host besides the file: for a project
    name, the [emoji] attribute of its main file's frontmatter when there
    is one, and the names of the projects carrying the project-page tag. *)
Record Metadata : Type := {
  frontmatterEmoji : jsstring -> option jsstring;
  taggedProjects : list jsstring
}.

Definition noMetadata : Metadata :=
  {| frontmatterEmoji := fun _ => None; taggedProjects := [] |}.

(* ================================================================== *)
(** ** parsePrioritiesFile *)
(* ================================================================== *)

Definition LF : N := 10%N.

(** [/^## (.+)$/] *)
Definition sectionRegex : Re.regex :=
  Re.seqs [Re.Bol; Re.str (JS.lit "## "); Re.Grp 1 (Re.plus Re.dot); Re.Eol].

(** [/^### (.+)$/] *)
Definition subsectionRegex : Re.regex :=
  Re.seqs [Re.Bol; Re.str (JS.lit "### "); Re.Grp 1 (Re.plus Re.dot); Re.Eol].

Definition notBracketOrBar (c : N) : bool := negb (N.eqb c 93 || N.eqb c 124).
Definition notBracket (c : N) : bool := negb (N.eqb c 93).

(** [/\[\[([^\]|]+)(?:\|([^\]]+))?\]\]/] *)
Definition linkRegex : Re.regex :=
  Re.seqs [Re.str (JS.lit "[[");
           Re.Grp 1 (Re.plus (Re.Cls notBracketOrBar));
           Re.opt (Re.seqs [Re.chr 124; Re.Grp 2 (Re.plus (Re.Cls notBracket))]);
           Re.str (JS.lit "]]")].

(** [/^-\s*/] *)
Definition dashRegex : Re.regex :=
  Re.seqs [Re.Bol; Re.chr 45; Re.Star (Re.Cls JS.is_space)].

(** The loop's variables.  In the source [currentSection] is the last
    element of [sections] and is mutated in place; here [ps_sections] holds
    the sections pushed before it and the result appends it. *)
Record ParseState : Type := {
  ps_sections : list PrioritySection;
  currentSection : option PrioritySection;
  currentSubsection : option Subsection;
  foundProjectNames : list jsstring;
  nextOid : nat
}.

Definition initialState : ParseState :=
  {| ps_sections := []; currentSection := None; currentSubsection := None;
     foundProjectNames := []; nextOid := 0 |}.

Definition pushItem (s : PrioritySection) (it : SectionItem) : PrioritySection :=
  {| sectionName := sectionName s; orderedItems := orderedItems s ++ [it] |}.

Definition pushEntry (sub : Subsection) (e : PriorityEntry) : Subsection :=
  {| subsectionName := subsectionName sub; entries := entries sub ++ [e] |}.

Definition optionList {A : Type} (o : option A) : list A :=
  match o with Some x => [x] | None => [] end.

Definition groupText (i : nat) (m : Re.result) : jsstring :=
  match Re.r_group i m with Some s => s | None => [] end.

(** [a || b] on strings. *)
Definition orElse (a : option jsstring) (b : jsstring) : jsstring :=
  match a with
  | Some s => if JS.truthy s then s else b
  | None => b
  end.

(** [a || null] on an optional string. *)
Definition orNull (a : option jsstring) : option jsstring :=
  match a with
  | Some s => if JS.truthy s then Some s else None
  | None => None
  end.

(** The loop body, after the test for the separator. *)
Definition parseLine (md : Metadata) (st : ParseState) (line : jsstring)
  : ParseState :=
  match Re.exec false sectionRegex line with
  | Some sectionMatch =>
      (* flush the current subsection into the current section *)
      let '(cur, sub) :=
        match currentSection st, currentSubsection st with
        | Some s, Some sub => (Some (pushItem s (ItemSubsection sub)), None)
        | cs, csub => (cs, csub)
        end in
      {| ps_sections := ps_sections st ++ optionList cur;
         currentSection :=
           Some {| sectionName := groupText 1 sectionMatch;
                   orderedItems := [] |};
         currentSubsection := sub;
         foundProjectNames := foundProjectNames st;
         nextOid := nextOid st |}
  | None =>
      match Re.exec false subsectionRegex line with
      | Some subsectionMatch =>
          match currentSection st with
          | None => st
          | Some s =>
              {| ps_sections := ps_sections st;
                 currentSection :=
                   Some match currentSubsection st with
                        | Some sub => pushItem s (ItemSubsection sub)
                        | None => s
                        end;
                 currentSubsection :=
                   Some {| subsectionName := groupText 1 subsectionMatch;
                           entries := [] |};
                 foundProjectNames := foundProjectNames st;
                 nextOid := nextOid st |}
          end
      | None =>
          match Re.exec false linkRegex line, currentSection st with
          | Some linkMatch, Some s =>
              let projectName := groupText 1 linkMatch in
              let alias := orNull (Re.r_group 2 linkMatch) in
              let beforeLink :=
                JS.substring line 0 (JS.indexOf line (JS.lit "[[")) in
              let emojiPart :=
                JS.trim (Re.replace false dashRegex [] beforeLink) in
              let entry :=
                {| oid := nextOid st;
                   projectName := projectName;
                   emoji := orElse (frontmatterEmoji md projectName) emojiPart;
                   alias := alias |} in
              {| ps_sections := ps_sections st;
                 currentSection :=
                   Some match currentSubsection st with
                        | Some _ => s
                        | None => pushItem s (ItemEntry entry)
                        end;
                 currentSubsection :=
                   match currentSubsection st with
                   | Some sub => Some (pushEntry sub entry)
                   | None => None
                   end;
                 foundProjectNames := foundProjectNames st ++ [projectName];
                 nextOid := S (nextOid st) |}
          | _, _ => st
          end
      end
  end.

Definition isSeparatorLine (line : jsstring) : bool :=
  JS.eqb (JS.trim line) (JS.lit "---").

(** [for (const line of content.split('\n'))] with its [break]. *)
Fixpoint parseLines (md : Metadata) (st : ParseState) (lines : list jsstring)
  : ParseState :=
  match lines with
  | [] => st
  | line :: rest =>
      if isSeparatorLine line then st
      else parseLines md (parseLine md st line) rest
  end.

Definition contains (names : list jsstring) (n : jsstring) : bool :=
  existsb (JS.eqb n) names.

(** After the loop: flush the final subsection, compute the unlisted
    projects. *)
Definition finishParse (md : Metadata) (st : ParseState) : DashboardData :=
  let cur :=
    match currentSection st, currentSubsection st with
    | Some s, Some sub => Some (pushItem s (ItemSubsection sub))
    | cs, _ => cs
    end in
  {| sections := ps_sections st ++ optionList cur;
     unlisted :=
       filter (fun p => negb (contains (foundProjectNames st) p))
              (taggedProjects md) |}.

Definition parseContent (md : Metadata) (content : jsstring) : DashboardData :=
  finishParse md (parseLines md initialState (JS.split LF content)).

(** The file is [None] when the vault has no priorities file. *)
Definition parsePrioritiesFile (md : Metadata) (file : option jsstring)
  : option DashboardData :=
  match file with
  | None => None
  | Some content => Some (parseContent md content)
  end.

(* ================================================================== *)
(** ** writePrioritiesFile *)
(* ================================================================== *)

Definition formatPriorityEntry (entry : PriorityEntry) : jsstring :=
  let emojiPart :=
    if JS.truthy (emoji entry) then emoji entry ++ JS.lit " " else [] in
  let linkPart :=
    match orNull (alias entry) with
    | Some a =>
        JS.lit "[[" ++ projectName entry ++ JS.lit "|" ++ a ++ JS.lit "]]"
    | None => JS.lit "[[" ++ projectName entry ++ JS.lit "]]"
    end in
  JS.lit "- " ++ emojiPart ++ linkPart.

Definition itemLines (item : SectionItem) : list jsstring :=
  match item with
  | ItemSubsection sub =>
      (JS.lit "### " ++ subsectionName sub) ::
      map formatPriorityEntry (entries sub)
  | ItemEntry e => [formatPriorityEntry e]
  end.

Definition sectionLines (section : PrioritySection) : list jsstring :=
  (JS.lit "## " ++ sectionName section) ::
  flat_map itemLines (orderedItems section) ++ [[]].

(** The rebuilt section content, one line per element. *)
Definition rebuiltLines (data : DashboardData) : list jsstring :=
  flat_map sectionLines (sections data).

(** Everything from the first [\n---] onward, or the empty string. *)
Definition suffixOf (currentContent : jsstring) : jsstring :=
  let separatorIndex := JS.indexOf currentContent (JS.lit "\n---") in
  if (0 <=? separatorIndex)%Z
  then JS.substringFrom currentContent separatorIndex
  else [].

Definition writeContent (data : DashboardData) (currentContent : jsstring)
  : jsstring :=
  JS.join [LF] (rebuiltLines data) ++ suffixOf currentContent.

Definition writePrioritiesFile (data : DashboardData) (file : option jsstring)
  : option jsstring :=
  match file with
  | None => None
  | Some currentContent => Some (writeContent data currentContent)
  end.

(* ================================================================== *)
(** ** Text-level edits of the priorities file *)
(* ================================================================== *)

(** The patterns below are built with [new RegExp] from a template in which
    the project name went through [escapeRegex]; every metacharacter of the
    name is escaped there, so the compiled pattern matches the name
    literally and is modelled by [Re.str]. *)

(** [^.*\[\[NAME\]\].*$] with flags gm *)
Definition plainLinkLine (projectName : jsstring) : Re.regex :=
  Re.seqs [Re.Bol; Re.Star Re.dot; Re.str (JS.lit "[["); Re.str projectName;
           Re.str (JS.lit "]]"); Re.Star Re.dot; Re.Eol].

(** [^.*\[\[NAME\|[^\]]+\]\].*$] with flags gm *)
Definition aliasLinkLine (projectName : jsstring) : Re.regex :=
  Re.seqs [Re.Bol; Re.Star Re.dot; Re.str (JS.lit "[["); Re.str projectName;
           Re.chr 124; Re.plus (Re.Cls notBracket);
           Re.str (JS.lit "]]"); Re.Star Re.dot; Re.Eol].

(** [/\n{3,}/g] *)
Definition blankLinesRegex : Re.regex :=
  Re.seqs [Re.chr LF; Re.chr LF; Re.chr LF; Re.Star (Re.chr LF)].

Definition removeFromPriorities (projectName : jsstring)
  (file : option jsstring) : option jsstring :=
  match file with
  | None => None
  | Some content =>
      let content := Re.replaceGlobal true (plainLinkLine projectName) [] content in
      let content := Re.replaceGlobal true (aliasLinkLine projectName) [] content in
      (* clean up empty lines *)
      Some (Re.replaceGlobal false blankLinesRegex (JS.lit "\n\n") content)
  end.

(** [^## SECTION$] with flag m, for a section name that is a string without
    pattern syntax characters ([regexMeta]): the pattern matches the name.
    [moveProjectInPriorities] escapes the name, and [addToPriorities], which
    interpolates it as it is, is called with [Additional] and with the
    sections of [statusSectionMap]; the inherited members that
    [getStatusSection] returns have [memberHeaderLine]. *)
Definition sectionHeaderLine (section : jsstring) : Re.regex :=
  Re.seqs [Re.Bol; Re.str (JS.lit "## "); Re.str section; Re.Eol].

Definition addToPriorities (projectName section : jsstring)
  (emoji : option jsstring) (file : option jsstring) : option jsstring :=
  match file with
  | None => None
  | Some content =>
      let emojiPart :=
        match orNull emoji with Some e => e ++ JS.lit " " | None => [] end in
      match Re.exec true (sectionHeaderLine section) content with
      | Some m =>
          let insertPos :=
            Z.of_nat (Re.r_index m + length (Re.r_matched m)) in
          let newEntry :=
            JS.lit "\n- " ++ emojiPart ++ JS.lit "[[" ++ projectName
              ++ JS.lit "]]" in
          Some (JS.slice content 0 insertPos ++ newEntry
                  ++ JS.sliceFrom content insertPos)
      | None =>
          (* add to end before the separator *)
          let separatorIndex := JS.lastIndexOf content (JS.lit "---") in
          if (0 <? separatorIndex)%Z
          then Some (JS.slice content 0 separatorIndex
                       ++ JS.lit "## " ++ section ++ JS.lit "\n- " ++ emojiPart
                       ++ JS.lit "[[" ++ projectName ++ JS.lit "]]\n\n"
                       ++ JS.sliceFrom content separatorIndex)
          else Some content
      end
  end.

(** [^( .*\[\[NAME(\|[^\]]+)?\]\].* )$] with flags gm (spaces added) *)
Definition projectLinePattern (projectName : jsstring) : Re.regex :=
  Re.seqs [Re.Bol;
           Re.Grp 1 (Re.seqs [Re.Star Re.dot; Re.str (JS.lit "[[");
                              Re.str projectName;
                              Re.opt (Re.Grp 2 (Re.seqs [Re.chr 124;
                                                   Re.plus (Re.Cls notBracket)]));
                              Re.str (JS.lit "]]"); Re.Star Re.dot]);
           Re.Eol].

Definition moveProjectInPriorities (projectName targetSection : jsstring)
  (file : option jsstring) : option jsstring :=
  match file with
  | None => None
  | Some content =>
      match Re.matchGlobal true (projectLinePattern projectName) content with
      | [] =>
          (* project not in priorities, just add it *)
          addToPriorities projectName targetSection None file
      | projectLine :: _ =>
          (* remove the project from its current location *)
          let content :=
            Re.replaceGlobal true (projectLinePattern projectName) [] content in
          let content :=
            Re.replaceGlobal false blankLinesRegex (JS.lit "\n\n") content in
          match Re.exec true (sectionHeaderLine targetSection) content with
          | Some m =>
              let insertPos :=
                Z.of_nat (Re.r_index m + length (Re.r_matched m)) in
              Some (JS.slice content 0 insertPos ++ JS.lit "\n" ++ projectLine
                      ++ JS.sliceFrom content insertPos)
          | None =>
              (* section doesn't exist, create it before the separator *)
              let separatorIndex := JS.lastIndexOf content (JS.lit "---") in
              if (0 <? separatorIndex)%Z
              then Some (JS.slice content 0 separatorIndex
                           ++ JS.lit "## " ++ targetSection ++ JS.lit "\n"
                           ++ projectLine ++ JS.lit "\n\n"
                           ++ JS.sliceFrom content separatorIndex)
              else Some (content ++ JS.lit "\n## " ++ targetSection
                           ++ JS.lit "\n" ++ projectLine ++ JS.lit "\n")
          end
      end
  end.

(** The own properties of [statusSectionMap]. *)
Definition statusSectionMap : list (jsstring * jsstring) :=
  [ (JS.lit "active", JS.lit "Active");
    (JS.lit "coming-soon", JS.lit "Coming Soon");
    (JS.lit "deferred", JS.lit "Deferred Effort");
    (JS.lit "on-hold", JS.lit "On Hold") ].

Fixpoint lookup (k : jsstring) (m : list (jsstring * jsstring))
  : option jsstring :=
  match m with
  | [] => None
  | (k', v) :: rest => if JS.eqb k k' then Some v else lookup k rest
  end.

(** The names an object literal inherits from [Object.prototype]. *)
Definition inheritedNames : list jsstring :=
  [ JS.lit "constructor"; JS.lit "hasOwnProperty"; JS.lit "isPrototypeOf";
    JS.lit "propertyIsEnumerable"; JS.lit "toLocaleString";
    JS.lit "toString"; JS.lit "valueOf"; JS.lit "__proto__";
    JS.lit "__defineGetter__"; JS.lit "__defineSetter__";
    JS.lit "__lookupGetter__"; JS.lit "__lookupSetter__" ].

(** What [table[key]] gives on an object literal: the own string, an
    inherited member, which is truthy and no string, or [undefined]. *)
Inductive Member : Type :=
| Own (value : jsstring)
| Inherited
| Missing.

Definition member (table : list (jsstring * jsstring)) (key : jsstring)
  : Member :=
  match lookup key table with
  | Some v => Own v
  | None => if contains inheritedNames key then Inherited else Missing
  end.

(** [statusSectionMap[status] || null]: the section of an own key; for a
    name the object literal inherits, the inherited member, which is truthy
    and which the function returns although it is no string; [null], here
    [Missing], for any other status. *)
Definition getStatusSection (status : jsstring) : Member :=
  match member statusSectionMap status with
  | Own v => if JS.truthy v then Own v else Missing
  | Inherited => Inherited
  | Missing => Missing
  end.

(** The text a template literal gives for the inherited member of the
    name: [[object Object]] for [__proto__], which is [Object.prototype];
    for the functions, the text V8 gives for a built-in function;
    [constructor] is the function [Object]. *)
Definition memberText (name : jsstring) : jsstring :=
  if JS.eqb name (JS.lit "__proto__") then JS.lit "[object Object]"
  else
    JS.lit "function "
      ++ (if JS.eqb name (JS.lit "constructor") then JS.lit "Object" else name)
      ++ JS.lit "() { [native code] }".

(** A class [[...]] of the code units listed. *)
Definition oneOf (s : jsstring) : Re.regex :=
  Re.Cls (fun c => existsb (N.eqb c) s).

(** [^## TEXT$] with flag m for the text of an inherited member, which
    [addToPriorities] interpolates unescaped: the brackets are a class, the
    parentheses an empty group, the braces stand for themselves. *)
Definition memberHeaderLine (name : jsstring) : Re.regex :=
  if JS.eqb name (JS.lit "__proto__")
  then Re.seqs [Re.Bol; Re.str (JS.lit "## "); oneOf (JS.lit "object Object");
                Re.Eol]
  else
    Re.seqs [Re.Bol;
             Re.str (JS.lit "## function "
                       ++ (if JS.eqb name (JS.lit "constructor")
                           then JS.lit "Object" else name));
             Re.Grp 1 Re.Eps; Re.str (JS.lit " { ");
             oneOf (JS.lit "native code"); Re.str (JS.lit " }"); Re.Eol].

(** [addToPriorities(projectName, section)] when [section] is the inherited
    member of the name. *)
Definition addMemberToPriorities (projectName name : jsstring)
  (file : option jsstring) : option jsstring :=
  match file with
  | None => None
  | Some content =>
      match Re.exec true (memberHeaderLine name) content with
      | Some m =>
          let insertPos :=
            Z.of_nat (Re.r_index m + length (Re.r_matched m)) in
          let newEntry :=
            JS.lit "\n- " ++ JS.lit "[[" ++ projectName ++ JS.lit "]]" in
          Some (JS.slice content 0 insertPos ++ newEntry
                  ++ JS.sliceFrom content insertPos)
      | None =>
          let separatorIndex := JS.lastIndexOf content (JS.lit "---") in
          if (0 <? separatorIndex)%Z
          then Some (JS.slice content 0 separatorIndex
                       ++ JS.lit "## " ++ memberText name ++ JS.lit "\n- "
                       ++ JS.lit "[[" ++ projectName ++ JS.lit "]]\n\n"
                       ++ JS.sliceFrom content separatorIndex)
          else Some content
      end
  end.

(** [moveProjectInPriorities(projectName, targetSection)] when
    [targetSection] is the inherited member of the name.  For a project
    that is listed, [escapeRegex] calls [replace] on the member, which has
    none: the call throws before anything is written. *)
Definition moveMemberInPriorities (projectName name : jsstring)
  (file : option jsstring) : option jsstring :=
  match file with
  | None => None
  | Some content =>
      match Re.matchGlobal true (projectLinePattern projectName) content with
      | [] => addMemberToPriorities projectName name file
      | _ :: _ => Some content
      end
  end.

Definition syncProjectStatusToPriorities (projectName newStatus : jsstring)
  (file : option jsstring) : option jsstring :=
  if JS.eqb newStatus (JS.lit "complete")
  then removeFromPriorities projectName file
  else match getStatusSection newStatus with
       | Own targetSection =>
           moveProjectInPriorities projectName targetSection file
       | Inherited => moveMemberInPriorities projectName newStatus file
       | Missing => file
       end.

(* ================================================================== *)
(** ** In-memory moves *)
(* ================================================================== *)

(** [a === b] on entry objects. *)
Definition sameObject (a b : PriorityEntry) : bool := Nat.eqb (oid a) (oid b).

(** [entries.indexOf(entry)], when it is not -1. *)
Fixpoint indexOfEntry (es : list PriorityEntry) (entry : PriorityEntry)
  : option nat :=
  match es with
  | [] => None
  | e :: rest =>
      if sameObject e entry then Some 0
      else option_map S (indexOfEntry rest entry)
  end.

(** [arr.splice(i, 1)] *)
Definition splice1 {A : Type} (i : nat) (l : list A) : list A :=
  firstn i l ++ skipn (S i) l.

(** [arr.splice(i, 0, x)] *)
Definition spliceIn {A : Type} (i : nat) (x : A) (l : list A) : list A :=
  firstn i l ++ x :: skipn i l.

Definition withEntries (sub : Subsection) (es : list PriorityEntry)
  : Subsection :=
  {| subsectionName := subsectionName sub; entries := es |}.

Definition withItems (s : PrioritySection) (items : list SectionItem)
  : PrioritySection :=
  {| sectionName := sectionName s; orderedItems := items |}.

(** The loop of [removeEntryFromSection] from one index on: the items from
    there, after the removal. *)
Fixpoint removeEntryFromItems (items : list SectionItem)
  (entry : PriorityEntry) : list SectionItem :=
  match items with
  | [] => []
  | item :: rest =>
      match item with
      | ItemEntry e =>
          if sameObject e entry then rest
          else item :: removeEntryFromItems rest entry
      | ItemSubsection sub =>
          match indexOfEntry (entries sub) entry with
          | Some idx =>
              ItemSubsection (withEntries sub (splice1 idx (entries sub)))
                :: rest
          | None => item :: removeEntryFromItems rest entry
          end
      end
  end.

Definition removeEntryFromSection (section : PrioritySection)
  (entry : PriorityEntry) : PrioritySection :=
  withItems section (removeEntryFromItems (orderedItems section) entry).

(** [entries.findIndex(e => e.projectName === projectName)] with the entry
    found there. *)
Fixpoint findIndexByName (es : list PriorityEntry) (name : jsstring)
  : option (nat * PriorityEntry) :=
  match es with
  | [] => None
  | e :: rest =>
      if JS.eqb (projectName e) name then Some (0, e)
      else match findIndexByName rest name with
           | Some (i, x) => Some (S i, x)
           | None => None
           end
  end.

(** The inner loop of [moveProjectToSubsection] over one section's items:
    the entry found and the items after its removal. *)
Fixpoint takeFromItems (items : list SectionItem) (name : jsstring)
  : option (PriorityEntry * list SectionItem) :=
  match items with
  | [] => None
  | item :: rest =>
      let continue :=
        match takeFromItems rest name with
        | Some (e, rest') => Some (e, item :: rest')
        | None => None
        end in
      match item with
      | ItemEntry e =>
          if JS.eqb (projectName e) name then Some (e, rest) else continue
      | ItemSubsection sub =>
          match findIndexByName (entries sub) name with
          | Some (idx, e) =>
              Some (e, ItemSubsection
                         (withEntries sub (splice1 idx (entries sub))) :: rest)
          | None => continue
          end
      end
  end.

(** The outer loop: the entry found, the index of its section, and the
    sections after its removal. *)
Fixpoint takeFromSections (secs : list PrioritySection) (name : jsstring)
  : option (PriorityEntry * nat * list PrioritySection) :=
  match secs with
  | [] => None
  | section :: rest =>
      match takeFromItems (orderedItems section) name with
      | Some (e, items') => Some (e, 0, withItems section items' :: rest)
      | None =>
          match takeFromSections rest name with
          | Some (e, si, rest') => Some (e, S si, section :: rest')
          | None => None
          end
      end
  end.

Definition isSubsection (item : SectionItem) : bool :=
  match item with ItemSubsection _ => true | ItemEntry _ => false end.

Definition isSubsectionNamed (g : jsstring) (item : SectionItem) : bool :=
  match item with
  | ItemSubsection sub => JS.eqb (subsectionName sub) g
  | ItemEntry _ => false
  end.

(** [items.findIndex(pred)], when it is not -1. *)
Fixpoint findIndex {A : Type} (pred : A -> bool) (l : list A) : option nat :=
  match l with
  | [] => None
  | x :: rest =>
      if pred x then Some 0 else option_map S (findIndex pred rest)
  end.

(** [items.find(pred)] followed by a push onto the subsection found; the
    item is updated where it sits. *)
Fixpoint pushIntoSubsection (g : jsstring) (entry : PriorityEntry)
  (items : list SectionItem) : option (list SectionItem) :=
  match items with
  | [] => None
  | item :: rest =>
      match item with
      | ItemSubsection sub =>
          if JS.eqb (subsectionName sub) g
          then Some (ItemSubsection (pushEntry sub entry) :: rest)
          else option_map (cons item) (pushIntoSubsection g entry rest)
      | ItemEntry _ =>
          option_map (cons item) (pushIntoSubsection g entry rest)
      end
  end.

(** The second half of [moveProjectToSubsection] on the found section. *)
Definition placeEntry (section : PrioritySection)
  (targetGroup : option jsstring) (foundEntry : PriorityEntry)
  : PrioritySection :=
  match orNull targetGroup with
  | Some g =>
      match pushIntoSubsection g foundEntry (orderedItems section) with
      | Some items' => withItems section items'
      | None =>
          (* subsection doesn't exist in this section, add as top-level *)
          pushItem section (ItemEntry foundEntry)
      end
  | None =>
      (* no group - insert before first subsection *)
      let insertIdx :=
        match findIndex isSubsection (orderedItems section) with
        | Some i => i
        | None => length (orderedItems section)
        end in
      withItems section
        (spliceIn insertIdx (ItemEntry foundEntry) (orderedItems section))
  end.

Fixpoint updateAt {A : Type} (i : nat) (f : A -> A) (l : list A) : list A :=
  match l, i with
  | [], _ => []
  | x :: rest, O => f x :: rest
  | x :: rest, S j => x :: updateAt j f rest
  end.

(** The edit of [moveProjectToSubsection] on the parsed data; [None] when
    the function returns before writing. *)
Definition moveInData (data : DashboardData) (name : jsstring)
  (targetGroup : option jsstring) : option DashboardData :=
  match takeFromSections (sections data) name with
  | None => None
  | Some (foundEntry, foundSectionIdx, secs) =>
      Some {| sections :=
                updateAt foundSectionIdx
                  (fun section => placeEntry section targetGroup foundEntry)
                  secs;
              unlisted := unlisted data |}
  end.

Definition moveProjectToSubsection (md : Metadata) (name : jsstring)
  (targetGroup : option jsstring) (file : option jsstring) : option jsstring :=
  match parsePrioritiesFile md file with
  | None => file
  | Some data =>
      match moveInData data name targetGroup with
      | None => file
      | Some data' => writePrioritiesFile data' file
      end
  end.

(* ================================================================== *)
(** ** The write queue of the dashboard *)
(* ================================================================== *)

(** Promises and the event loop, as far as [enqueueWrite] uses them.  The
    microtask that resolves the promise of [then] with the promise of the
    job, and the microtask that resumes a job after an [await], are folded
    into the step before them. *)

Module WriteQueue.
Section Model.

(** The resource the jobs work on (the file and the frontmatter) and the
    local variables of a job. *)
Variables Shared Local : Type.

(** One awaited host call of a job together with the code up to the next
    [await]: it reads and updates the resource and the job's variables,
    or fails, which throws inside the job. *)
Definition action : Type := Shared -> Local -> option (Shared * Local).

(** An async function passed to [enqueueWrite]. *)
Record job : Type := Job { j_local : Local; j_actions : list action }.

(** Promise objects, named by the place that creates them and the number of
    the job: [Promise.resolve()], the result of [then], the result of
    [catch], the promise of a call of the job. *)
Inductive pid : Type :=
| PInit
| PThen (k : nat)
| PCatch (k : nat)
| PCall (k : nat).

Definition pid_eqb (a b : pid) : bool :=
  match a, b with
  | PInit, PInit => true
  | PThen i, PThen j => Nat.eqb i j
  | PCatch i, PCatch j => Nat.eqb i j
  | PCall i, PCall j => Nat.eqb i j
  | _, _ => false
  end.

(** What a promise does when it settles. *)
Inductive reaction : Type :=
| ThenCall (fn : nat) (derived : pid)  (* from p.then(fn) *)
| CatchReport (derived : pid)          (* from p.catch(err => report) *)
| Adopt (derived : pid).               (* derived was resolved with p *)

Inductive pstate : Type :=
| Pending (reactions : list reaction)
| Fulfilled
| Rejected.

Inductive event : Type :=
| Started (k : nat)
| Completed (k : nat) (ok : bool)
| Reported.

(** A call of a job that is suspended at an [await]. *)
Record activation : Type := Activation {
  a_job : nat;
  a_promise : pid;
  a_local : Local;
  a_rest : list action
}.

Record sys : Type := Sys {
  store : pid -> pstate;
  microtasks : list (reaction * bool);
  running : list activation;
  writeQueue : pid;
  jobs : list job;
  shared : Shared;
  trace : list event
}.

Definition upd (p : pid) (v : pstate) (s : pid -> pstate) : pid -> pstate :=
  fun q => if pid_eqb p q then v else s q.

Definition setStore (f : (pid -> pstate) -> pid -> pstate) (st : sys) : sys :=
  Sys (f (store st)) (microtasks st) (running st) (writeQueue st) (jobs st)
      (shared st) (trace st).

Definition pushMicrotasks (ts : list (reaction * bool)) (st : sys) : sys :=
  Sys (store st) (microtasks st ++ ts) (running st) (writeQueue st) (jobs st)
      (shared st) (trace st).

Definition setMicrotasks (ts : list (reaction * bool)) (st : sys) : sys :=
  Sys (store st) ts (running st) (writeQueue st) (jobs st) (shared st)
      (trace st).

Definition setRunning (r : list activation) (st : sys) : sys :=
  Sys (store st) (microtasks st) r (writeQueue st) (jobs st) (shared st)
      (trace st).

Definition setWriteQueue (p : pid) (st : sys) : sys :=
  Sys (store st) (microtasks st) (running st) p (jobs st) (shared st)
      (trace st).

Definition addJob (j : job) (st : sys) : sys :=
  Sys (store st) (microtasks st) (running st) (writeQueue st) (jobs st ++ [j])
      (shared st) (trace st).

Definition setShared (s : Shared) (st : sys) : sys :=
  Sys (store st) (microtasks st) (running st) (writeQueue st) (jobs st) s
      (trace st).

Definition log (e : event) (st : sys) : sys :=
  Sys (store st) (microtasks st) (running st) (writeQueue st) (jobs st)
      (shared st) (trace st ++ [e]).

(** A new pending promise. *)
Definition alloc (p : pid) (st : sys) : sys := setStore (upd p (Pending [])) st.

(** Settling a pending promise queues its reactions; a settled promise
    stays as it is. *)
Definition settle (p : pid) (ok : bool) (st : sys) : sys :=
  match store st p with
  | Pending rs =>
      pushMicrotasks (map (fun r => (r, ok)) rs)
        (setStore (upd p (if ok then Fulfilled else Rejected)) st)
  | _ => st
  end.

(** Registering a reaction: kept while the promise is pending, queued at
    once when it is settled. *)
Definition subscribe (p : pid) (r : reaction) (st : sys) : sys :=
  match store st p with
  | Pending rs => setStore (upd p (Pending (rs ++ [r]))) st
  | Fulfilled => pushMicrotasks [(r, true)] st
  | Rejected => pushMicrotasks [(r, false)] st
  end.

(** [this.writeQueue = this.writeQueue.then(fn).catch(err => ...)] *)
Definition enqueueWrite (fn : job) (st : sys) : sys :=
  let k := length (jobs st) in
  let st := addJob fn st in
  let thenPromise := PThen k in
  let st := subscribe (writeQueue st) (ThenCall k thenPromise)
              (alloc thenPromise st) in
  let catchPromise := PCatch k in
  let st := subscribe thenPromise (CatchReport catchPromise)
              (alloc catchPromise st) in
  setWriteQueue catchPromise st.

(** Calling job [k]: it runs to its first [await], or to its end when it
    has none. *)
Definition callJob (k : nat) (j : job) (st : sys) : sys :=
  let st := log (Started k) (alloc (PCall k) st) in
  match j_actions j with
  | [] => settle (PCall k) true (log (Completed k true) st)
  | _ :: _ =>
      setRunning (running st
                    ++ [Activation k (PCall k) (j_local j) (j_actions j)]) st
  end.

(** One reaction job from the microtask queue. *)
Definition runReaction (r : reaction) (ok : bool) (st : sys) : sys :=
  match r, ok with
  | ThenCall fn derived, true =>
      match nth_error (jobs st) fn with
      | Some j => subscribe (PCall fn) (Adopt derived) (callJob fn j st)
      | None => st
      end
  | ThenCall _ derived, false => settle derived false st
  | CatchReport derived, true => settle derived true st
  | CatchReport derived, false => settle derived true (log Reported st)
  | Adopt derived, _ => settle derived ok st
  end.

Fixpoint removeAt {A : Type} (i : nat) (l : list A) : list A :=
  match l, i with
  | [], _ => []
  | _ :: rest, O => rest
  | x :: rest, S j => x :: removeAt j rest
  end.

Fixpoint replaceAt {A : Type} (i : nat) (y : A) (l : list A) : list A :=
  match l, i with
  | [], _ => []
  | _ :: rest, O => y :: rest
  | x :: rest, S j => x :: replaceAt j y rest
  end.

(** The host finishes the call that activation [i] awaits. *)
Definition resume (i : nat) (a : activation) (st : sys) : sys :=
  match a_rest a with
  | [] => st
  | act :: rest =>
      match act (shared st) (a_local a) with
      | None =>
          settle (a_promise a) false
            (log (Completed (a_job a) false)
               (setRunning (removeAt i (running st)) st))
      | Some (s', l') =>
          let st := setShared s' st in
          match rest with
          | [] =>
              settle (a_promise a) true
                (log (Completed (a_job a) true)
                   (setRunning (removeAt i (running st)) st))
          | _ :: _ =>
              setRunning
                (replaceAt i (Activation (a_job a) (a_promise a) l' rest)
                   (running st)) st
          end
      end
  end.

Inductive step : sys -> sys -> Prop :=
| StepEnqueue fn st :
    step st (enqueueWrite fn st)
| StepMicrotask r ok rest st :
    microtasks st = (r, ok) :: rest ->
    step st (runReaction r ok (setMicrotasks rest st))
| StepHost i a st :
    nth_error (running st) i = Some a ->
    step st (resume i a st).

(** Steps of the event loop other than a call of [enqueueWrite]. *)
Inductive quietStep : sys -> sys -> Prop :=
| QuietMicrotask r ok rest st :
    microtasks st = (r, ok) :: rest ->
    quietStep st (runReaction r ok (setMicrotasks rest st))
| QuietHost i a st :
    nth_error (running st) i = Some a ->
    quietStep st (resume i a st).

Inductive quietSteps : sys -> sys -> Prop :=
| QuietDone st : quietSteps st st
| QuietNext st st' st'' :
    quietStep st st' -> quietSteps st' st'' -> quietSteps st st''.

(** [private writeQueue: Promise<void> = Promise.resolve()] *)
Definition initial (s0 : Shared) : sys :=
  Sys (fun p => match p with PInit => Fulfilled | _ => Pending [] end)
      [] [] PInit [] s0 [].

Inductive reachable (s0 : Shared) : sys -> Prop :=
| ReachInitial : reachable s0 (initial s0)
| ReachStep st st' : reachable s0 st -> step st st' -> reachable s0 st'.

(** The states the queue reaches when the jobs [js] are submitted, in that
    order, at any moments of a run of the event loop. *)
Inductive submitted (s0 : Shared) : list job -> sys -> Prop :=
| SubmittedNone : submitted s0 [] (initial s0)
| SubmittedJob js fn st :
    submitted s0 js st -> submitted s0 (js ++ [fn]) (enqueueWrite fn st)
| SubmittedStep js st st' :
    submitted s0 js st -> quietStep st st' -> submitted s0 js st'.

(** A job run on its own, from start to end or to its first failure. *)
Fixpoint runActions (acts : list action) (s : Shared) (l : Local) : Shared :=
  match acts with
  | [] => s
  | act :: rest =>
      match act s l with
      | None => s
      | Some (s', l') => runActions rest s' l'
      end
  end.

Definition runJob (s : Shared) (j : job) : Shared :=
  runActions (j_actions j) s (j_local j).

(** The jobs run one after the other. *)
Definition runInOrder (js : list job) (s0 : Shared) : Shared :=
  fold_left runJob js s0.

(** No job starts before every job queued before it has completed. *)
Definition serial (tr : list event) : Prop :=
  forall k t1 t2,
    tr = t1 ++ Started k :: t2 ->
    forall i, i < k -> exists ok, In (Completed i ok) t1.

(** Every completion in the trace, and every suspended call, belongs to a
    job whose start is in the trace. *)
Definition startsLogged (st : sys) : Prop :=
  (forall k ok, In (Completed k ok) (trace st) -> In (Started k) (trace st)) /\
  (forall a, In a (running st) -> In (Started (a_job a)) (trace st)).

(** *** The invariant of the queue *)

(** Where the queue stands: nothing to do, the call of the next job is
    queued, the job is suspended at an [await], its result is being passed
    on to the promise of [then], and to the promise of [catch]. *)
Inductive phase : Type :=
| Idle
| Ready
| Running (a : activation)
| Adopting (ok : bool)
| Catching (ok : bool).

(** The promise job [k] waits for. *)
Definition predecessor (k : nat) : pid :=
  match k with O => PInit | S i => PCatch i end.

Definition successors (n k : nat) : list reaction :=
  if k <? n then [ThenCall k (PThen k)] else [].

(** The state of the queue when the jobs before [m] are done and job [m],
    if there is one, is in phase [ph]. *)
Definition Inv (s0 : Shared) (st : sys) (m : nat) (ph : phase) : Prop :=
  let n := length (jobs st) in
  m <= n /\
  writeQueue st = predecessor n /\
  store st (predecessor m) = Fulfilled /\
  (forall k, m <= k < n -> store st (PCatch k) = Pending (successors n (S k))) /\
  (forall k, m < k < n -> store st (PThen k) = Pending [CatchReport (PCatch k)]) /\
  serial (trace st) /\
  (forall i, i < m -> exists ok, In (Completed i ok) (trace st)) /\
  match ph with
  | Idle =>
      m = n /\ microtasks st = [] /\ running st = [] /\
      shared st = runInOrder (jobs st) s0
  | Ready =>
      m < n /\ microtasks st = [(ThenCall m (PThen m), true)] /\
      running st = [] /\
      store st (PThen m) = Pending [CatchReport (PCatch m)] /\
      shared st = runInOrder (firstn m (jobs st)) s0
  | Running a =>
      m < n /\ microtasks st = [] /\ running st = [a] /\
      a_job a = m /\ a_promise a = PCall m /\ a_rest a <> [] /\
      store st (PCall m) = Pending [Adopt (PThen m)] /\
      store st (PThen m) = Pending [CatchReport (PCatch m)] /\
      runActions (a_rest a) (shared st) (a_local a) =
      runInOrder (firstn (S m) (jobs st)) s0
  | Adopting ok =>
      m < n /\ microtasks st = [(Adopt (PThen m), ok)] /\ running st = [] /\
      store st (PThen m) = Pending [CatchReport (PCatch m)] /\
      (exists ok', In (Completed m ok') (trace st)) /\
      shared st = runInOrder (firstn (S m) (jobs st)) s0
  | Catching ok =>
      m < n /\ microtasks st = [(CatchReport (PCatch m), ok)] /\
      running st = [] /\
      (exists ok', In (Completed m ok') (trace st)) /\
      shared st = runInOrder (firstn (S m) (jobs st)) s0
  end.

End Model.

Arguments Idle {Shared Local}.
Arguments Ready {Shared Local}.
Arguments Adopting {Shared Local} ok.
Arguments Catching {Shared Local} ok.

(** *** A run of the event loop *)

(** The next quiet step when there is one: the first microtask, else the
    first suspended call. *)
Definition quietNext {Shared Local : Type} (st : sys Shared Local)
  : option (sys Shared Local) :=
  match microtasks st with
  | (r, ok) :: rest => Some (runReaction r ok (setMicrotasks rest st))
  | [] =>
      match running st with
      | a :: _ => Some (resume 0 a st)
      | [] => None
      end
  end.

Fixpoint runLoop {Shared Local : Type} (fuel : nat) (st : sys Shared Local)
  : sys Shared Local :=
  match fuel with
  | O => st
  | S f => match quietNext st with Some st' => runLoop f st' | None => st end
  end.

(** Jobs on a file of numbers: read it, write it with a number appended,
    or fail to write. *)
Definition readFile : action (list nat) (list nat) := fun s _ => Some (s, s).
Definition failingWrite : action (list nat) (list nat) := fun _ _ => None.
Definition writeAppended (x : nat) : action (list nat) (list nat) :=
  fun _ l => Some (l ++ [x], l).

(** Two jobs queued back to back; the write of the first fails. *)
Definition twoJobs : sys (list nat) (list nat) :=
  enqueueWrite (Job [] [readFile; writeAppended 2])
    (enqueueWrite (Job [] [readFile; failingWrite]) (initial (list nat) [7])).

(** Two jobs called at once, without the queue. *)
Definition twoCalls : sys (list nat) (list nat) :=
  let j1 := Job [] [readFile; writeAppended 1] in
  let j2 := Job [] [readFile; writeAppended 2] in
  callJob 1 j2 (callJob 0 j1 (addJob j2 (addJob j1 (initial (list nat) [7])))).

End WriteQueue.

Unset Implicit Arguments.

(* ================================================================== *)
(** ** Closed forms used in the proofs *)
(* ================================================================== *)

Definition isSlash (c : N) : bool := N.eqb slash c.

Definition toSlash (c : N) : N := if N.eqb backslash c then slash else c.

Fixpoint dropSlashes (s : jsstring) : jsstring :=
  match s with
  | c :: rest => if isSlash c then dropSlashes rest else s
  | [] => []
  end.

(** Drop the trailing run of slashes. *)
Fixpoint stripTrailing (s : jsstring) : jsstring :=
  match s with
  | [] => []
  | c :: rest =>
      if forallb isSlash (c :: rest) then [] else c :: stripTrailing rest
  end.

(** Keep one slash of every run of slashes. *)
Fixpoint collapse (s : jsstring) : jsstring :=
  match s with
  | [] => []
  | c :: rest =>
      if isSlash c
      then match rest with
           | c2 :: _ => if isSlash c2 then collapse rest else c :: collapse rest
           | [] => [c]
           end
      else c :: collapse rest
  end.

Fixpoint lastIsSlash (s : jsstring) : bool :=
  match s with
  | [] => false
  | c :: rest => match rest with [] => isSlash c | _ :: _ => lastIsSlash rest end
  end.

Fixpoint hasDoubleSlash (s : jsstring) : bool :=
  match s with
  | [] => false
  | c :: rest =>
      match rest with
      | [] => false
      | c2 :: _ => (isSlash c && isSlash c2) || hasDoubleSlash rest
      end
  end.

(** *** The trailing region *)

(** The lines from the first separator line on. *)
Fixpoint fromSeparator (lines : list jsstring) : list jsstring :=
  match lines with
  | [] => []
  | l :: rest => if isSeparatorLine l then lines else fromSeparator rest
  end.

(** Everything from the first separator line onward; empty without one. *)
Definition trailingRegion (text : jsstring) : jsstring :=
  JS.join [LF] (fromSeparator (JS.split LF text)).

Definition writtenLineShape (l : jsstring) : Prop :=
  l = [] \/ (exists r, l = 35%N :: r) \/ (exists r, l = 45%N :: 32%N :: r).

(** The texts whose trailing region the writer keeps: those without a
    separator line, and those in which a line other than the first begins
    with [---] and has no separator line before it. *)
Definition keepsRegion (text : jsstring) : Prop :=
  Forall (fun l => JS.trim l <> JS.lit "---") (JS.split LF text) \/
  exists head tail,
    text = head ++ LF :: tail /\
    Forall (fun l => JS.trim l <> JS.lit "---") (JS.split LF head) /\
    JS.startsWith tail (JS.lit "---") = true.

(** *** What the in-memory moves do *)

(** The entry object occurs in the item. *)
Definition occursIn (entry : PriorityEntry) (item : SectionItem) : bool :=
  match item with
  | ItemEntry e => sameObject e entry
  | ItemSubsection sub => existsb (fun e => sameObject e entry) (entries sub)
  end.

Definition named (name : jsstring) (e : PriorityEntry) : bool :=
  JS.eqb (projectName e) name.

Definition itemHasName (name : jsstring) (item : SectionItem) : bool :=
  match item with
  | ItemEntry e => named name e
  | ItemSubsection sub => existsb (named name) (entries sub)
  end.

Definition sectionHasName (name : jsstring) (s : PrioritySection) : bool :=
  existsb (itemHasName name) (orderedItems s).

(** [removedFirst name items e items']: [e] is the first entry called [name]
    in [items], top-level or inside a subsection, and [items'] is [items]
    without it. *)
Inductive removedFirst (name : jsstring)
  : list SectionItem -> PriorityEntry -> list SectionItem -> Prop :=
| RemovedTopLevel pre e post :
    (forall it, In it pre -> itemHasName name it = false) ->
    projectName e = name ->
    removedFirst name (pre ++ ItemEntry e :: post) e (pre ++ post)
| RemovedNested pre sub es1 e es2 post :
    (forall it, In it pre -> itemHasName name it = false) ->
    entries sub = es1 ++ e :: es2 ->
    (forall x, In x es1 -> named name x = false) ->
    projectName e = name ->
    removedFirst name (pre ++ ItemSubsection sub :: post) e
      (pre ++ ItemSubsection {| subsectionName := subsectionName sub;
                                entries := es1 ++ es2 |} :: post).

(** Appended to the first subsection called [g], or to the top level when
    there is none. *)
Inductive placedInGroup (g : jsstring) (e : PriorityEntry)
  : list SectionItem -> list SectionItem -> Prop :=
| PlacedInGroup pre sub post :
    (forall it, In it pre -> isSubsectionNamed g it = false) ->
    subsectionName sub = g ->
    placedInGroup g e (pre ++ ItemSubsection sub :: post)
      (pre ++ ItemSubsection {| subsectionName := subsectionName sub;
                                entries := entries sub ++ [e] |} :: post)
| PlacedFallback items :
    (forall it, In it items -> isSubsectionNamed g it = false) ->
    placedInGroup g e items (items ++ [ItemEntry e]).

(** Inserted at the top level just before the first subsection, or at the
    end when there is none. *)
Inductive placedUngrouped (e : PriorityEntry)
  : list SectionItem -> list SectionItem -> Prop :=
| PlacedBeforeSubsection pre sub post :
    (forall it, In it pre -> isSubsection it = false) ->
    placedUngrouped e (pre ++ ItemSubsection sub :: post)
      (pre ++ ItemEntry e :: ItemSubsection sub :: post)
| PlacedAtEnd items :
    (forall it, In it items -> isSubsection it = false) ->
    placedUngrouped e items (items ++ [ItemEntry e]).

(** What a move does, given which target groups select the group branch. *)
Definition movesAs (select : option jsstring -> option jsstring)
  (data : DashboardData) (name : jsstring) (targetGroup : option jsstring)
  : Prop :=
  exists before section after e items' items'',
    sections data = before ++ section :: after /\
    (forall s, In s before -> sectionHasName name s = false) /\
    removedFirst name (orderedItems section) e items' /\
    match select targetGroup with
    | Some g => placedInGroup g e items' items''
    | None => placedUngrouped e items' items''
    end /\
    moveInData data name targetGroup =
    Some {| sections :=
              before ++ {| sectionName := sectionName section;
                           orderedItems := items'' |} :: after;
            unlisted := unlisted data |}.

(** In the words of the specification: the group branch for every target
    group that is not null. *)
Definition nonNull (targetGroup : option jsstring) : option jsstring :=
  targetGroup.

(** *** The matcher on classes and links *)

(** The positions a greedy class iteration can stop at, longest first. *)
Fixpoint runStates (p : N -> bool) (b a : list N) (c : list (nat * jsstring))
  : list Re.mstate :=
  match a with
  | x :: a' =>
      if p x then runStates p (x :: b) a' c ++ [Re.MState b a c]
      else [Re.MState b a c]
  | [] => [Re.MState b a c]
  end.

Fixpoint takeWhile (p : N -> bool) (s : list N) : list N :=
  match s with
  | x :: s' => if p x then x :: takeWhile p s' else []
  | [] => []
  end.

Fixpoint dropWhile (p : N -> bool) (s : list N) : list N :=
  match s with
  | x :: s' => if p x then dropWhile p s' else s
  | [] => []
  end.

(** The class of the dot. *)
Definition dotp (c : N) : bool := negb (JS.is_line_terminator c).

(** The optional alias at one position: the alias and the text after the
    closing brackets. *)
Definition aliasAt (r1 : list N) : option (jsstring * list N) :=
  match r1 with
  | x :: r2 =>
      if N.eqb 124 x then
        match takeWhile notBracket r2 with
        | [] => None
        | al =>
            if JS.startsWith (dropWhile notBracket r2) (JS.lit "]]")
            then Some (al, skipn 2 (dropWhile notBracket r2))
            else None
        end
      else None
  | [] => None
  end.

(** What [linkRegex] finds at one position: the name, the alias, and the
    text after the link. *)
Definition linkAt (a : list N)
  : option (jsstring * option jsstring * list N) :=
  if JS.startsWith a (JS.lit "[[") then
    match takeWhile notBracketOrBar (skipn 2 a) with
    | [] => None
    | name =>
        let r1 := dropWhile notBracketOrBar (skipn 2 a) in
        match aliasAt r1 with
        | Some (al, rest) => Some (name, Some al, rest)
        | None =>
            if JS.startsWith r1 (JS.lit "]]")
            then Some (name, None, skipn 2 r1) else None
        end
    end
  else None.

(** The groups of a link match, last captured first. *)
Definition linkCaps (name : jsstring) (al : option jsstring)
  : list (nat * jsstring) :=
  match al with
  | Some x => [(2, x); (1, name)]
  | None => [(1, name)]
  end.

(** The parts of [linkRegex] behind the name. *)
Definition linkTail : Re.regex := Re.Seq (Re.str (JS.lit "]]")) Re.Eps.
Definition linkAlias : Re.regex :=
  Re.seqs [Re.chr 124; Re.Grp 2 (Re.plus (Re.Cls notBracket))].

(** The leftmost link of a line. *)
Fixpoint firstLink (a : list N) : option (jsstring * option jsstring) :=
  match linkAt a with
  | Some (name, al, _) => Some (name, al)
  | None =>
      match a with
      | [] => None
      | _ :: rest => firstLink rest
      end
  end.

(** The text of a link. *)
Definition linkText (name : jsstring) (al : option jsstring) : jsstring :=
  JS.lit "[[" ++ name ++
  match al with
  | Some x => JS.lit "|" ++ x ++ JS.lit "]]"
  | None => JS.lit "]]"
  end.

(** What the pattern admits as name and alias. *)
Definition linkParts (name : jsstring) (al : option jsstring) : Prop :=
  name <> [] /\ forallb notBracketOrBar name = true /\
  match al with
  | Some x => x <> [] /\ forallb notBracket x = true
  | None => True
  end.

(** No white space at either end. *)
Definition trimmed (s : jsstring) : Prop :=
  JS.trimStart s = s /\ JS.trimStart (rev s) = rev s.

(** *** The round trip *)

(** Frontmatter emoji that the writer can put on a line: no line feed, no
    two opening brackets. *)
Definition cleanMetadata (md : Metadata) : Prop :=
  forall name e,
    frontmatterEmoji md name = Some e ->
    ~ In LF e /\ JS.find e (JS.lit "[[") = None.

(** The entry [parseLine] builds from a line and its link match. *)
Definition entryOfLine (md : Metadata) (n : nat) (line : jsstring)
  (linkMatch : Re.result) : PriorityEntry :=
  let projectName := groupText 1 linkMatch in
  let alias := orNull (Re.r_group 2 linkMatch) in
  let beforeLink := JS.substring line 0 (JS.indexOf line (JS.lit "[[")) in
  let emojiPart := JS.trim (Re.replace false dashRegex [] beforeLink) in
  {| oid := n;
     projectName := projectName;
     emoji := orElse (frontmatterEmoji md projectName) emojiPart;
     alias := alias |}.

(** The lines the writer emits for what one parsed line contributed. *)
Definition rewritten (md : Metadata) (st : ParseState) (line : jsstring)
  : list jsstring :=
  match Re.exec false sectionRegex line with
  | Some m => [JS.lit "## " ++ groupText 1 m]
  | None =>
      match Re.exec false subsectionRegex line with
      | Some m =>
          match currentSection st with
          | Some _ => [JS.lit "### " ++ groupText 1 m]
          | None => []
          end
      | None =>
          match Re.exec false linkRegex line, currentSection st with
          | Some m, Some _ =>
              [formatPriorityEntry (entryOfLine md (nextOid st) line m)]
          | _, _ => []
          end
      end
  end.

(** The emoji as [formatPriorityEntry] writes it. *)
Definition writtenEmoji (e : jsstring) : jsstring :=
  if JS.truthy e then e ++ JS.lit " " else [].

(** The state after an entry line. *)
Definition addEntry (st : ParseState) (s : PrioritySection)
  (entry : PriorityEntry) : ParseState :=
  {| ps_sections := ps_sections st;
     currentSection :=
       Some match currentSubsection st with
            | Some _ => s
            | None => pushItem s (ItemEntry entry)
            end;
     currentSubsection :=
       match currentSubsection st with
       | Some sub => Some (pushEntry sub entry)
       | None => None
       end;
     foundProjectNames := foundProjectNames st ++ [projectName entry];
     nextOid := S (nextOid st) |}.

(** The written lines without the blank line that ends a section. *)
Definition contentLines (data : DashboardData) : list jsstring :=
  flat_map (fun s => (JS.lit "## " ++ sectionName s) ::
                     flat_map itemLines (orderedItems s))
           (sections data).

(** The parser holds a subsection only inside a section. *)
Definition subsectionInSection (st : ParseState) : Prop :=
  currentSection st = None -> currentSubsection st = None.

(** The lines the parser reads: those before the first separator line. *)
Fixpoint beforeSeparator (lines : list jsstring) : list jsstring :=
  match lines with
  | [] => []
  | l :: rest => if isSeparatorLine l then [] else l :: beforeSeparator rest
  end.

(* ================================================================== *)
(** ** Further functions of [src/main.ts], and what their proofs use *)
(* ================================================================== *)

(** [countSectionEntries] *)
Definition countSectionEntries (section : PrioritySection) : nat :=
  fold_left
    (fun count item =>
       match item with
       | ItemEntry _ => S count
       | ItemSubsection sub => count + length (entries sub)
       end)
    (orderedItems section) 0.

(** The loop of [insertEntryNearTarget] from one index on: the items from
    there after the insertion, or [None] when the loop ends without one. *)
Fixpoint insertNearInItems (items : list SectionItem)
  (newEntry targetEntry : PriorityEntry) (insertBefore : bool)
  : option (list SectionItem) :=
  match items with
  | [] => None
  | item :: rest =>
      match item with
      | ItemEntry e =>
          if sameObject e targetEntry
          then Some (if insertBefore
                     then ItemEntry newEntry :: item :: rest
                     else item :: ItemEntry newEntry :: rest)
          else option_map (cons item)
                 (insertNearInItems rest newEntry targetEntry insertBefore)
      | ItemSubsection sub =>
          match indexOfEntry (entries sub) targetEntry with
          | Some subIdx =>
              let idx := if insertBefore then subIdx else S subIdx in
              Some (ItemSubsection
                      (withEntries sub (spliceIn idx newEntry (entries sub)))
                      :: rest)
          | None =>
              option_map (cons item)
                (insertNearInItems rest newEntry targetEntry insertBefore)
          end
      end
  end.

Definition insertEntryNearTarget (section : PrioritySection)
  (newEntry targetEntry : PriorityEntry) (insertBefore : bool)
  : PrioritySection :=
  match insertNearInItems (orderedItems section) newEntry targetEntry
          insertBefore with
  | Some items' => withItems section items'
  | None => pushItem section (ItemEntry newEntry)
  end.

(** How a listener ends: normally, or by a TypeError on a section that is
    [undefined]; either way with the document as the listener left it. *)
Inductive Outcome : Type :=
| Done (data : DashboardData)
| Threw (data : DashboardData).

Definition withSections (data : DashboardData)
  (secs : list PrioritySection) : DashboardData :=
  {| sections := secs; unlisted := unlisted data |}.

(** The [drop] listener of an entry row, from the reading of the drag state
    to the last change of the document. *)
Definition dropOnEntry (data : DashboardData)
  (fromSectionIdx sectionIndex : nat) (draggedEntry entry : PriorityEntry)
  (insertBefore : bool) : Outcome :=
  match nth_error (sections data) fromSectionIdx with
  | None => Threw data
  | Some _ =>
      let removed :=
        updateAt fromSectionIdx
          (fun fromSection => removeEntryFromSection fromSection draggedEntry)
          (sections data) in
      match nth_error (sections data) sectionIndex with
      | None => Threw (withSections data removed)
      | Some _ =>
          Done (withSections data
                  (updateAt sectionIndex
                     (fun toSection =>
                        insertEntryNearTarget toSection draggedEntry entry
                          insertBefore)
                     removed))
      end
  end.

(** The status menu of an entry: value, label, target section. *)
Definition statusChoices : list (jsstring * jsstring * jsstring) :=
  [ (JS.lit "active", JS.lit "Active", JS.lit "Active");
    (JS.lit "coming-soon", JS.lit "Coming Soon", JS.lit "Coming Soon");
    (JS.lit "deferred", JS.lit "Deferred", JS.lit "Deferred Effort");
    (JS.lit "on-hold", JS.lit "On Hold", JS.lit "On Hold") ].

(** The click listener of a status choice, as far as it changes the
    sections: the move of the entry between sections in memory. *)
Definition chooseStatus (data : DashboardData) (sectionIndex : nat)
  (entry : PriorityEntry) (targetSection : jsstring) : Outcome :=
  if JS.truthy targetSection then
    match findIndex (fun sec => JS.eqb (sectionName sec) targetSection)
            (sections data) with
    | Some toIdx =>
        if negb (Nat.eqb toIdx sectionIndex) then
          match nth_error (sections data) sectionIndex with
          | None => Threw data
          | Some _ =>
              Done (withSections data
                      (updateAt toIdx
                         (fun sec => pushItem sec (ItemEntry entry))
                         (updateAt sectionIndex
                            (fun sec => removeEntryFromSection sec entry)
                            (sections data))))
          end
        else Done data
    | None => Done data
    end
  else Done data.

(** The entries of an item, of a section and of a document, in the order
    of the file. *)
Definition itemEntries (item : SectionItem) : list PriorityEntry :=
  match item with
  | ItemEntry e => [e]
  | ItemSubsection sub => entries sub
  end.

Definition sectionEntries (s : PrioritySection) : list PriorityEntry :=
  flat_map itemEntries (orderedItems s).

Definition allEntries (data : DashboardData) : list PriorityEntry :=
  flat_map sectionEntries (sections data).

Definition holds (entry : PriorityEntry) (s : PrioritySection) : bool :=
  existsb (occursIn entry) (orderedItems s).

Definition sampleEntry (n : nat) (name : string) : PriorityEntry :=
  {| oid := n; projectName := JS.lit name; emoji := []; alias := None |}.

Definition sampleSection : PrioritySection :=
  {| sectionName := JS.lit "Active";
     orderedItems :=
       [ ItemEntry (sampleEntry 0 "Alpha");
         ItemSubsection
           {| subsectionName := JS.lit "Growth";
              entries := [sampleEntry 1 "Beta"; sampleEntry 2 "Gamma"] |} ] |}.

Definition sampleData : DashboardData :=
  {| sections :=
       [ sampleSection;
         {| sectionName := JS.lit "On Hold";
            orderedItems := [ItemEntry (sampleEntry 3 "Delta")] |} ];
     unlisted := [] |}.

(** [arr.indexOf(key)] on strings, when it is not -1. *)
Fixpoint indexOfString (arr : list jsstring) (key : jsstring) : option nat :=
  match arr with
  | [] => None
  | s :: rest =>
      if JS.eqb s key then Some 0 else option_map S (indexOfString rest key)
  end.

(** [toggleCollapsed] on [settings.collapsedSections]; [saveSettings]
    stores the array as it is. *)
Definition toggleCollapsed (arr : list jsstring) (key : jsstring)
  (collapsed : bool) : list jsstring :=
  match indexOfString arr key with
  | None => if collapsed then arr ++ [key] else arr
  | Some idx => if collapsed then arr else splice1 idx arr
  end.

(** The callback of [updateFrontmatter]: the frontmatter object as a map
    from keys to values, the updates as [Object.entries] lists them, with
    [None] for a value that is [null] or [undefined]. *)
Definition updateFrontmatter {V : Type} (updates : list (jsstring * option V))
  (frontmatter : jsstring -> option V) : jsstring -> option V :=
  fold_left
    (fun fm kv k => if JS.eqb k (fst kv) then snd kv else fm k)
    updates frontmatter.

(** Number to string for an integer, as a template literal prints it. *)
Definition numberToString (z : Z) : jsstring :=
  map N_of_ascii (list_ascii_of_string (NilZero.string_of_int (Z.to_int z))).

(** [formatRelativeTime], with [Date.now()] as a parameter.  Time stamps are
    integers of milliseconds below 2^53, where the quotients are exact
    enough for [Math.floor] to give the integer quotient. *)
Definition formatRelativeTime (now timestamp : Z) : jsstring :=
  if (timestamp =? 0)%Z then []
  else
    let diff := (now - timestamp)%Z in
    let minutes := (diff / 60000)%Z in
    if (minutes <? 60)%Z then numberToString minutes ++ JS.lit "m"
    else
      let hours := (minutes / 60)%Z in
      if (hours <? 24)%Z then numberToString hours ++ JS.lit "h"
      else
        let days := (hours / 24)%Z in
        if (days <? 14)%Z then numberToString days ++ JS.lit "d"
        else
          let weeks := (days / 7)%Z in
          if (weeks <? 8)%Z then numberToString weeks ++ JS.lit "w"
          else
            let months := (days / 30)%Z in
            numberToString months ++ JS.lit "mo".

(** The own properties of [SECTION_STATUS_MAP]. *)
Definition SECTION_STATUS_MAP : list (jsstring * jsstring) :=
  [ (JS.lit "Active", JS.lit "active");
    (JS.lit "Coming Soon", JS.lit "coming-soon");
    (JS.lit "Deferred Effort", JS.lit "deferred");
    (JS.lit "On Hold", JS.lit "on-hold") ].

(** [SECTION_STATUS_MAP[section.name]], the status a drop into the section
    writes to the frontmatter. *)
Definition statusOfSection (name : jsstring) : Member :=
  member SECTION_STATUS_MAP name.

Record ProjectControlSettings : Type := {
  projectFolder : jsstring;
  archiveFolder : jsstring;
  prioritiesFile : jsstring;
  collapsedSections : list jsstring
}.

(** The default of [prioritiesFile] holds, between the slash and the space,
    the four code units U+00F0 U+0178 U+2019 U+00AB, as the source file has
    them. *)
Definition DEFAULT_SETTINGS : ProjectControlSettings :=
  {| projectFolder := JS.lit "10 - Project";
     archiveFolder := JS.lit "80 - Archive";
     prioritiesFile :=
       JS.lit "10 - Project/" ++ [240%N; 376%N; 8217%N; 171%N]
         ++ JS.lit " Project Priorities.md";
     collapsedSections := [] |}.

(** [!s || s.trim() === ''] *)
Definition isBlank (s : jsstring) : bool :=
  negb (JS.truthy s) || JS.eqb (JS.trim s) [].

Definition quoted (s : jsstring) : jsstring := [34%N] ++ s ++ [34%N].

Definition setProjectFolder (v : jsstring) (s : ProjectControlSettings)
  : ProjectControlSettings :=
  {| projectFolder := v; archiveFolder := archiveFolder s;
     prioritiesFile := prioritiesFile s;
     collapsedSections := collapsedSections s |}.

Definition setArchiveFolder (v : jsstring) (s : ProjectControlSettings)
  : ProjectControlSettings :=
  {| projectFolder := projectFolder s; archiveFolder := v;
     prioritiesFile := prioritiesFile s;
     collapsedSections := collapsedSections s |}.

Definition setPrioritiesFile (v : jsstring) (s : ProjectControlSettings)
  : ProjectControlSettings :=
  {| projectFolder := projectFolder s; archiveFolder := archiveFolder s;
     prioritiesFile := v;
     collapsedSections := collapsedSections s |}.

(** The text of a correction: LABEL reset to, and the default in double
    quotes. *)
Definition resetNotice (label default : jsstring) : jsstring :=
  label ++ JS.lit " reset to " ++ quoted default.

(** [validateSettings]: the settings afterwards, [needsSave], and the
    corrections that the notice lists. *)
Definition validateSettings (settings : ProjectControlSettings)
  : ProjectControlSettings * bool * list jsstring :=
  let needsSave := false in
  let corrections : list jsstring := [] in
  (* validate projectFolder *)
  let '(settings, needsSave, corrections) :=
    if isBlank (projectFolder settings)
    then (setProjectFolder (projectFolder DEFAULT_SETTINGS) settings, true,
          corrections ++ [resetNotice (JS.lit "Project folder")
                            (projectFolder DEFAULT_SETTINGS)])
    else (settings, needsSave, corrections) in
  (* validate archiveFolder *)
  let '(settings, needsSave, corrections) :=
    if isBlank (archiveFolder settings)
    then (setArchiveFolder (archiveFolder DEFAULT_SETTINGS) settings, true,
          corrections ++ [resetNotice (JS.lit "Archive folder")
                            (archiveFolder DEFAULT_SETTINGS)])
    else (settings, needsSave, corrections) in
  (* validate prioritiesFile *)
  let '(settings, needsSave, corrections) :=
    if isBlank (prioritiesFile settings)
    then (setPrioritiesFile (prioritiesFile DEFAULT_SETTINGS) settings, true,
          corrections ++ [resetNotice (JS.lit "Priorities file")
                            (prioritiesFile DEFAULT_SETTINGS)])
    else (settings, needsSave, corrections) in
  (* normalize paths *)
  let normalizedProjectFolder := normalizePath (projectFolder settings) in
  let '(settings, needsSave) :=
    if negb (JS.eqb normalizedProjectFolder (projectFolder settings))
    then (setProjectFolder normalizedProjectFolder settings, true)
    else (settings, needsSave) in
  let normalizedArchiveFolder := normalizePath (archiveFolder settings) in
  let '(settings, needsSave) :=
    if negb (JS.eqb normalizedArchiveFolder (archiveFolder settings))
    then (setArchiveFolder normalizedArchiveFolder settings, true)
    else (settings, needsSave) in
  let normalizedPrioritiesFile := normalizePath (prioritiesFile settings) in
  let '(settings, needsSave) :=
    if negb (JS.eqb normalizedPrioritiesFile (prioritiesFile settings))
    then (setPrioritiesFile normalizedPrioritiesFile settings, true)
    else (settings, needsSave) in
  (settings, needsSave, corrections).

(** One setting of [validateSettings] on its own: the value afterwards and
    whether it has to be saved. *)
Definition validateSetting (value default : jsstring) : jsstring * bool :=
  let '(value1, needsSave1) :=
    if isBlank value then (default, true) else (value, false) in
  let normalized := normalizePath value1 in
  if negb (JS.eqb normalized value1)
  then (normalized, true)
  else (value1, needsSave1).

(** The entry a line adds to the document, if any. *)
Definition lineEntries (md : Metadata) (st : ParseState) (line : jsstring)
  : list PriorityEntry :=
  match Re.exec false sectionRegex line with
  | Some _ => []
  | None =>
      match Re.exec false subsectionRegex line with
      | Some _ => []
      | None =>
          match Re.exec false linkRegex line, currentSection st with
          | Some m, Some _ => [entryOfLine md (nextOid st) line m]
          | _, _ => []
          end
      end
  end.

(** Top-level entries first, subsections after them. *)
Definition entriesThenSubsections (items : list SectionItem) : Prop :=
  exists es subs, items = map ItemEntry es ++ map ItemSubsection subs.

Definition entryFromLine (e : PriorityEntry) : Prop :=
  projectName e <> [] /\
  forallb notBracketOrBar (projectName e) = true /\
  ~ In LF (projectName e) /\
  match alias e with
  | Some a => a <> [] /\ forallb notBracket a = true /\ ~ In LF a
  | None => True
  end.

Definition entriesOnly (items : list SectionItem) : Prop :=
  exists es, items = map ItemEntry es.

Definition shapedState (st : ParseState) : Prop :=
  Forall (fun s => entriesThenSubsections (orderedItems s)) (ps_sections st) /\
  match currentSection st with
  | Some s =>
      match currentSubsection st with
      | None => entriesOnly (orderedItems s)
      | Some _ => entriesThenSubsections (orderedItems s)
      end
  | None => True
  end.

(** The line terminators other than the line feed: CR, LS and PS. *)
Definition otherTerminator (c : N) : bool :=
  N.eqb c 13 || N.eqb c 8232 || N.eqb c 8233.

(** What a pattern matches at a position: [L before w rest] says that the
    pattern can consume [w] when [before] (nearest first) precedes it and
    [rest] follows it. *)
Definition matchesAs (ml : bool) (r : Re.regex)
  (L : list N -> jsstring -> list N -> Prop) : Prop :=
  forall b a c,
    (forall e, In e (Re.ends ml r (Re.MState b a c)) ->
       exists w rest, a = w ++ rest /\ L b w rest /\
                      Re.m_before e = rev w ++ b /\ Re.m_after e = rest) /\
    (forall w rest, a = w ++ rest -> L b w rest ->
       exists e, In e (Re.ends ml r (Re.MState b a c)) /\
                 Re.m_before e = rev w ++ b /\ Re.m_after e = rest).

(** A pattern that matches whole lines: a match starts at the beginning of
    a line, is not empty, and ends at the end of a line behind a code unit
    that is no line terminator. *)
Definition lineAnchored (P : Re.regex) : Prop :=
  forall b a e,
    In e (Re.ends true P (Re.MState b a [])) ->
    Re.at_bol true (Re.MState b a []) = true /\
    Re.at_eol true e = true /\
    (exists x t, Re.m_before e = x :: t /\ dotp x = true) /\
    exists w, w <> [] /\ a = w ++ Re.m_after e.

(** The pattern matches at the beginning of every line that [hit] holds
    of. *)
Definition matchesLines (P : Re.regex) (hit : jsstring -> Prop) : Prop :=
  forall b l rest,
    Re.at_bol true (Re.MState b (l ++ rest) []) = true ->
    forallb dotp l = true ->
    (rest = [] \/ exists r, rest = LF :: r) ->
    hit l ->
    Re.ends true P (Re.MState b (l ++ rest) []) <> [].

(** The link of a project without an alias, and with one. *)
Definition plainLink (name k : jsstring) : Prop := k = linkText name None.

Definition aliasLink (name k : jsstring) : Prop :=
  exists al,
    k = linkText name (Some al) /\ al <> [] /\ forallb notBracket al = true.

(** A text that holds one of the strings [K]. *)
Definition holdsOneOf (K : jsstring -> Prop) (l : jsstring) : Prop :=
  exists x k y, K k /\ l = x ++ k ++ y.

(** What a pattern [^.*K.*$] matches: a link with text of one line on both
    sides, between the beginning and the end of a line. *)
Definition linkLine (K : jsstring -> Prop) (b : list N) (w : jsstring)
  (rest : list N) : Prop :=
  Re.at_bol true (Re.MState b [] []) = true /\
  Re.at_eol true (Re.MState [] rest []) = true /\
  exists x k y,
    K k /\ w = x ++ k ++ y /\
    forallb dotp x = true /\ forallb dotp y = true.

(** The text of the lines in front of a line, and of those behind it. *)
Definition linesBefore (lines : list jsstring) : jsstring :=
  flat_map (fun l => l ++ [LF]) lines.

Definition linesAfter (lines : list jsstring) : jsstring :=
  flat_map (fun l => LF :: l) lines.

(** The characters that [escapeRegex] escapes: the syntax characters of a
    pattern.  A string without them stands for itself in a pattern. *)
Definition regexMeta (c : N) : bool :=
  existsb (N.eqb c) [46; 42; 43; 63; 94; 36; 123; 125; 40; 41; 124; 91; 93; 92]%N.

(** The entry line that [addToPriorities] writes. *)
Definition newEntryLine (projectName : jsstring) (emoji : option jsstring)
  : jsstring :=
  JS.lit "- " ++
  match orNull emoji with Some e => e ++ JS.lit " " | None => [] end ++
  JS.lit "[[" ++ projectName ++ JS.lit "]]".

(** The section has the given name and begins with an entry of the
    project. *)
Definition headsWith (section name : jsstring) (s : PrioritySection) : Prop :=
  sectionName s = section /\
  exists e rest, orderedItems s = ItemEntry e :: rest /\ projectName e = name.

(** The parser holds such a section, finished or current. *)
Definition holdsHeaded (section name : jsstring) (st : ParseState) : Prop :=
  (exists s, currentSection st = Some s /\ headsWith section name s) \/
  Exists (headsWith section name) (ps_sections st).

(** [\[\[NAME(\|[^\]]+)?\]\]], the name escaped by [escapeRegex] *)
Definition projectPattern (projectName : jsstring) : Re.regex :=
  Re.seqs [Re.str (JS.lit "[["); Re.str projectName;
           Re.opt (Re.Grp 1 (Re.seqs [Re.chr 124;
                                      Re.plus (Re.Cls notBracket)]));
           Re.str (JS.lit "]]")].

(** The loop of [getProjectCurrentSection] over the lines, with its
    [return]. *)
Fixpoint sectionOfLines (projectName : jsstring) (lines : list jsstring)
  (currentSection : option jsstring) : option jsstring :=
  match lines with
  | [] => None
  | line :: rest =>
      (* check for section headers *)
      let currentSection :=
        match Re.exec false sectionRegex line with
        | Some sectionMatch => Some (groupText 1 sectionMatch)
        | None => currentSection
        end in
      (* check if this line contains the project link *)
      match Re.exec false (projectPattern projectName) line with
      | Some _ => currentSection
      | None => sectionOfLines projectName rest currentSection
      end
  end.

(** [None] is [null]: no priorities file, no line with the link, or a link
    before the first section header. *)
Definition getProjectCurrentSection (projectName : jsstring)
  (file : option jsstring) : option jsstring :=
  match file with
  | None => None
  | Some content => sectionOfLines projectName (JS.split LF content) None
  end.

(** A link of the project, plain or with an alias. *)
Definition projectLink (name k : jsstring) : Prop :=
  plainLink name k \/ aliasLink name k.

(* ================================================================== *)
(** * Proofs *)
(* ================================================================== *)

(** ** The matcher on the patterns of [normalizePath] *)

Module ReFacts.
Import Re.

Lemma search_miss ml r before c rest :
  ends ml r (MState before (c :: rest) []) = [] ->
  search ml r before (c :: rest) =
  match search ml r (c :: before) rest with
  | Some m => Some (Result (c :: r_skipped m) (r_matched m) (r_end m))
  | None => None
  end.
Proof. intros H. simpl. rewrite H. reflexivity. Qed.

Lemma search_hit ml r before after e tl :
  ends ml r (MState before after []) = e :: tl ->
  search ml r before after =
  Some (Result [] (consumed (MState before after []) e) e).
Proof. intros H. destruct after; simpl; rewrite H; reflexivity. Qed.

(** A position where the pattern does not match is copied by the loop. *)
Lemma replace_loop_miss f ml r repl before c rest :
  ends ml r (MState before (c :: rest) []) = [] ->
  replace_loop (S f) ml r repl before (c :: rest) =
  c :: replace_loop (S f) ml r repl (c :: before) rest.
Proof.
  intros H. cbn [replace_loop]. rewrite (search_miss _ _ _ _ _ H).
  destruct (search ml r (c :: before) rest) as [m|]; [|reflexivity].
  cbn [r_end r_matched r_skipped].
  destruct (r_matched m); destruct (m_after (r_end m)); reflexivity.
Qed.

Lemma replace_loop_hit f ml r repl before after e tl x xs :
  ends ml r (MState before after []) = e :: tl ->
  consumed (MState before after []) e = x :: xs ->
  replace_loop (S f) ml r repl before after =
  repl ++ replace_loop f ml r repl (m_before e) (m_after e).
Proof.
  intros H Hc. cbn [replace_loop]. rewrite (search_hit _ _ _ _ _ _ H).
  cbn [r_end r_matched r_skipped]. rewrite Hc. reflexivity.
Qed.

Lemma ends_chr ml c before after caps :
  ends ml (chr c) (MState before after caps) =
  match after with
  | x :: rest => if N.eqb c x then [MState (x :: before) rest caps] else []
  | [] => []
  end.
Proof. reflexivity. Qed.

(** [/\\/g]: every backslash becomes a slash. *)
Lemma replace_backslashes f before s :
  length s < f ->
  replace_loop f false re_backslash [slash] before s = map toSlash s.
Proof.
  revert f before. induction s as [|c rest IH]; intros f before Hf.
  - destruct f; reflexivity.
  - destruct f as [|f]; [simpl in Hf; lia|]. simpl in Hf.
    unfold re_backslash in *.
    destruct (N.eqb backslash c) eqn:E.
    + rewrite replace_loop_hit
        with (e := MState (c :: before) rest []) (tl := []) (x := c) (xs := []).
      * cbn [m_before m_after map app]. rewrite IH by lia.
        unfold toSlash. rewrite E. reflexivity.
      * rewrite ends_chr, E. reflexivity.
      * unfold consumed. cbn [m_after length].
        replace (S (length rest) - length rest) with 1 by lia. reflexivity.
    + rewrite replace_loop_miss by (rewrite ends_chr, E; reflexivity).
      rewrite IH by lia.
      cbn [map]. unfold toSlash. rewrite E. reflexivity.
Qed.

Lemma star_slash_then_eol after : forall before caps fuel,
  length after < fuel ->
  flat_map (ends false Eol)
    (star_iter (ends false (chr slash)) fuel (MState before after caps)) =
  if forallb isSlash after then [MState (rev after ++ before) [] caps] else [].
Proof.
  induction after as [|c rest IH]; intros before caps fuel Hf;
    (destruct fuel as [|f]; [simpl in Hf; lia|]); cbn [star_iter].
  - rewrite ends_chr. reflexivity.
  - rewrite ends_chr. cbn [forallb]. unfold isSlash at 1.
    destruct (N.eqb slash c) eqn:E.
    + cbn [flat_map m_after length].
      replace (length rest <? S (length rest)) with true
        by (symmetry; apply Nat.ltb_lt; lia).
      rewrite app_nil_r, flat_map_app, IH by (simpl in Hf; lia).
      cbn [flat_map ends at_eol m_after andb app].
      rewrite app_nil_r. cbn [rev]. rewrite <- app_assoc. reflexivity.
    + reflexivity.
Qed.

Lemma ends_trailing before after caps :
  ends false re_trailing_slashes (MState before after caps) =
  if JS.truthy after && forallb isSlash after
  then [MState (rev after ++ before) [] caps] else [].
Proof.
  unfold re_trailing_slashes, plus. cbn [ends]. rewrite ends_chr.
  destruct after as [|c rest]; [reflexivity|].
  cbn [JS.truthy andb forallb]. unfold isSlash at 1.
  destruct (N.eqb slash c) eqn:E; [|reflexivity].
  cbn [flat_map m_after]. rewrite app_nil_r.
  rewrite star_slash_then_eol by lia.
  cbn [andb rev]. rewrite <- app_assoc. reflexivity.
Qed.

Lemma search_trailing s : forall before,
  match search false re_trailing_slashes before s with
  | Some m => r_skipped m ++ m_after (r_end m)
  | None => s
  end = stripTrailing s.
Proof.
  induction s as [|c rest IH]; intros before.
  - reflexivity.
  - cbn [stripTrailing].
    pose proof (ends_trailing before (c :: rest) []) as He.
    cbn [JS.truthy andb] in He.
    destruct (forallb isSlash (c :: rest)).
    + rewrite (search_hit _ _ _ _ _ _ He). reflexivity.
    + rewrite (search_miss _ _ _ _ _ He). specialize (IH (c :: before)).
      destruct (search false re_trailing_slashes (c :: before) rest);
        cbn [r_skipped r_end app] in *; rewrite <- IH; reflexivity.
Qed.

(** [/\/+$/]: the trailing run of slashes goes. *)
Lemma replace_trailing s :
  replace false re_trailing_slashes [] s = stripTrailing s.
Proof.
  unfold replace, exec. rewrite <- (search_trailing s []).
  destruct (search false re_trailing_slashes [] s); reflexivity.
Qed.

Lemma dropSlashes_length s : length (dropSlashes s) <= length s.
Proof.
  induction s as [|c rest IH]; simpl; [lia|].
  destruct (isSlash c); simpl; lia.
Qed.

Lemma star_slash_head ml after : forall before caps fuel,
  length after < fuel ->
  exists b' tl,
    star_iter (ends ml (chr slash)) fuel (MState before after caps) =
    MState b' (dropSlashes after) caps :: tl.
Proof.
  induction after as [|c rest IH]; intros before caps fuel Hf;
    (destruct fuel as [|f]; [simpl in Hf; lia|]); cbn [star_iter].
  - rewrite ends_chr. exists before, []. reflexivity.
  - rewrite ends_chr. cbn [dropSlashes]. unfold isSlash.
    destruct (N.eqb slash c) eqn:E.
    + cbn [flat_map m_after length].
      replace (length rest <? S (length rest)) with true
        by (symmetry; apply Nat.ltb_lt; lia).
      destruct (IH (c :: before) caps f) as (b' & tl & H);
        [simpl in Hf; lia|].
      rewrite H. exists b'. eexists. reflexivity.
    + exists before, []. reflexivity.
Qed.

Lemma collapse_slash c rest :
  isSlash c = true -> collapse (c :: rest) = slash :: collapse (dropSlashes rest).
Proof.
  intros Hc. assert (c = slash) by (symmetry; apply N.eqb_eq, Hc). subst c.
  clear Hc. induction rest as [|c2 rest IH]; [reflexivity|].
  cbn [collapse dropSlashes].
  change (isSlash slash) with true. cbn iota.
  destruct (isSlash c2) eqn:E2.
  - assert (c2 = slash) by (symmetry; apply N.eqb_eq, E2). subst c2.
    rewrite <- IH. cbn [collapse]. change (isSlash slash) with true.
    reflexivity.
  - cbn [collapse]. rewrite E2. reflexivity.
Qed.

(** [/\/+/g]: every run of slashes becomes one slash. *)
Lemma replace_slashes n : forall s f before,
  length s <= n -> length s < f ->
  replace_loop f false re_slashes [slash] before s = collapse s.
Proof.
  induction n as [|n IH]; intros s f before Hn Hf.
  - destruct s; [|simpl in Hn; lia]. destruct f; reflexivity.
  - destruct s as [|c rest]; [destruct f; reflexivity|].
    destruct f as [|f]; [simpl in Hf; lia|]. simpl in Hn, Hf.
    assert (Hends : ends false re_slashes (MState before (c :: rest) []) =
                    if isSlash c
                    then star_iter (ends false (chr slash)) (S (length rest))
                           (MState (c :: before) rest [])
                    else []).
    { unfold re_slashes, plus. cbn [ends]. rewrite ends_chr. unfold isSlash.
      destruct (N.eqb slash c); [|reflexivity].
      cbn [flat_map m_after]. rewrite app_nil_r. reflexivity. }
    destruct (isSlash c) eqn:E.
    + destruct (star_slash_head false rest (c :: before) [] (S (length rest)))
        as (b' & tl & H); [lia|].
      rewrite H in Hends.
      pose proof (dropSlashes_length rest) as Hd.
      rewrite replace_loop_hit
        with (e := MState b' (dropSlashes rest) []) (tl := tl) (x := c)
             (xs := firstn (length rest - length (dropSlashes rest)) rest).
      * cbn [m_before m_after]. rewrite IH by lia.
        rewrite collapse_slash by assumption. reflexivity.
      * exact Hends.
      * unfold consumed. cbn [m_after length].
        replace (S (length rest) - length (dropSlashes rest))
          with (S (length rest - length (dropSlashes rest))) by lia.
        reflexivity.
    + rewrite replace_loop_miss by exact Hends.
      rewrite IH by lia.
      cbn [collapse]. rewrite E. reflexivity.
Qed.

End ReFacts.

(** ** [normalizePath] in closed form *)

Lemma normalizePath_closed p :
  normalizePath p = collapse (stripTrailing (map toSlash p)).
Proof.
  unfold normalizePath. destruct p as [|c rest]; [reflexivity|].
  cbn [JS.truthy negb]. unfold Re.replaceGlobal.
  rewrite ReFacts.replace_backslashes by lia.
  rewrite ReFacts.replace_trailing.
  apply ReFacts.replace_slashes with (n := length (stripTrailing (map toSlash (c :: rest)))); lia.
Qed.

(** ** Properties of the closed form *)

Lemma isSlash_eq c : isSlash c = true <-> c = slash.
Proof. unfold isSlash. rewrite N.eqb_eq. split; congruence. Qed.

Lemma toSlash_not_backslash c : toSlash c <> backslash.
Proof.
  unfold toSlash. destruct (N.eqb backslash c) eqn:E.
  - discriminate.
  - apply N.eqb_neq in E. congruence.
Qed.

Lemma toSlash_id s : ~ In backslash s -> map toSlash s = s.
Proof.
  induction s as [|c rest IH]; intros H; [reflexivity|].
  cbn [map]. rewrite IH by (intros Hin; apply H; right; exact Hin).
  unfold toSlash. destruct (N.eqb backslash c) eqn:E; [|reflexivity].
  apply N.eqb_eq in E. exfalso. apply H. left. congruence.
Qed.

Lemma stripTrailing_incl s x : In x (stripTrailing s) -> In x s.
Proof.
  induction s as [|c rest IH]; [intros []|].
  cbn [stripTrailing]. destruct (forallb isSlash (c :: rest)); [intros []|].
  intros [H|H]; [left; exact H|right; apply IH, H].
Qed.

Lemma collapse_incl s x : In x (collapse s) -> In x s.
Proof.
  induction s as [|c rest IH]; [intros []|].
  cbn [collapse]. destruct (isSlash c).
  - destruct rest as [|c2 rest']; [intros H; exact H|].
    destruct (isSlash c2).
    + intros H. right. apply IH, H.
    + intros [H|H]; [left; exact H|right; apply IH, H].
  - intros [H|H]; [left; exact H|right; apply IH, H].
Qed.

Lemma lastIsSlash_app t : lastIsSlash (t ++ [slash]) = true.
Proof.
  induction t as [|c rest IH]; [reflexivity|].
  cbn [app lastIsSlash]. destruct (rest ++ [slash]) eqn:E.
  - destruct rest; discriminate.
  - exact IH.
Qed.

Lemma hasDoubleSlash_app a b : hasDoubleSlash (a ++ slash :: slash :: b) = true.
Proof.
  induction a as [|c rest IH]; [reflexivity|].
  cbn [app hasDoubleSlash]. destruct (rest ++ slash :: slash :: b) eqn:E.
  - destruct rest; discriminate.
  - rewrite IH. apply orb_true_r.
Qed.

Lemma allSlashes_last s :
  s <> [] -> forallb isSlash s = true -> lastIsSlash s = true.
Proof.
  induction s as [|c rest IH]; [congruence|]. intros _ H.
  cbn [forallb] in H. apply andb_prop in H as [Hc Hr].
  cbn [lastIsSlash]. destruct rest as [|c2 rest']; [exact Hc|].
  apply IH; [discriminate|exact Hr].
Qed.

Lemma stripTrailing_nil s :
  stripTrailing s = [] -> s = [] \/ forallb isSlash s = true.
Proof.
  destruct s as [|c rest]; [left; reflexivity|].
  cbn [stripTrailing]. destruct (forallb isSlash (c :: rest)); [right; reflexivity|].
  discriminate.
Qed.

Lemma stripTrailing_last s : lastIsSlash (stripTrailing s) = false.
Proof.
  induction s as [|c rest IH]; [reflexivity|].
  cbn [stripTrailing]. destruct (forallb isSlash (c :: rest)) eqn:E; [reflexivity|].
  cbn [lastIsSlash]. destruct (stripTrailing rest) eqn:Es; [|exact IH].
  apply stripTrailing_nil in Es as [->|Hr].
  - cbn [forallb] in E. rewrite andb_true_r in E. exact E.
  - cbn [forallb] in E. rewrite Hr, andb_true_r in E. exact E.
Qed.

Lemma stripTrailing_id s : lastIsSlash s = false -> stripTrailing s = s.
Proof.
  induction s as [|c rest IH]; [reflexivity|]. intros H.
  cbn [stripTrailing]. destruct (forallb isSlash (c :: rest)) eqn:E.
  - apply allSlashes_last in E; [congruence|discriminate].
  - f_equal. destruct rest as [|c2 rest']; [reflexivity|]. apply IH, H.
Qed.

Lemma collapse_hd s : hd_error (collapse s) = hd_error s.
Proof.
  induction s as [|c rest IH]; [reflexivity|].
  cbn [collapse]. destruct (isSlash c) eqn:E; [|reflexivity].
  destruct rest as [|c2 rest']; [reflexivity|].
  destruct (isSlash c2) eqn:E2; [|reflexivity].
  rewrite IH. apply isSlash_eq in E, E2. subst. reflexivity.
Qed.

Lemma collapse_last s : lastIsSlash (collapse s) = lastIsSlash s.
Proof.
  induction s as [|c rest IH]; [reflexivity|].
  cbn [collapse]. destruct rest as [|c2 rest'].
  - destruct (isSlash c); reflexivity.
  - assert (Hne : collapse (c2 :: rest') <> []).
    { pose proof (collapse_hd (c2 :: rest')) as Hh.
      destruct (collapse (c2 :: rest')); [discriminate|discriminate]. }
    destruct (isSlash c); [destruct (isSlash c2)|]; try exact IH;
      cbn [lastIsSlash]; destruct (collapse (c2 :: rest')); try congruence; exact IH.
Qed.

Lemma collapse_no_double s : hasDoubleSlash (collapse s) = false.
Proof.
  induction s as [|c rest IH]; [reflexivity|].
  cbn [collapse]. pose proof (collapse_hd rest) as Hh.
  destruct (isSlash c) eqn:E.
  - destruct rest as [|c2 rest']; [reflexivity|].
    destruct (isSlash c2) eqn:E2; [exact IH|].
    cbn [hasDoubleSlash]. destruct (collapse (c2 :: rest')) as [|d tl]; [reflexivity|].
    cbn [hd_error] in Hh. injection Hh as ->. rewrite E2, andb_false_r. exact IH.
  - cbn [hasDoubleSlash]. destruct (collapse rest); [reflexivity|].
    rewrite E. exact IH.
Qed.

Lemma collapse_id s : hasDoubleSlash s = false -> collapse s = s.
Proof.
  induction s as [|c rest IH]; [reflexivity|]. intros H.
  cbn [hasDoubleSlash] in H. cbn [collapse].
  destruct rest as [|c2 rest']; [destruct (isSlash c); reflexivity|].
  apply orb_false_elim in H as [Hc Hr].
  destruct (isSlash c); [destruct (isSlash c2); [discriminate|]|];
    f_equal; apply IH, Hr.
Qed.

Lemma normalizePath_no_backslash p : ~ In backslash (normalizePath p).
Proof.
  rewrite normalizePath_closed. intros H.
  apply collapse_incl, stripTrailing_incl, in_map_iff in H as (c & Hc & _).
  exact (toSlash_not_backslash c Hc).
Qed.

Lemma normalizePath_last p : lastIsSlash (normalizePath p) = false.
Proof.
  rewrite normalizePath_closed, collapse_last. apply stripTrailing_last.
Qed.

Lemma normalizePath_no_double p : hasDoubleSlash (normalizePath p) = false.
Proof. rewrite normalizePath_closed. apply collapse_no_double. Qed.

Lemma normalizePath_idempotent_clean_aux p :
  (forall t, normalizePath p <> t ++ [slash]) /\
  (forall a b, normalizePath p <> a ++ slash :: slash :: b).
Proof.
  split.
  - intros t H. pose proof (normalizePath_last p) as Hl.
    rewrite H, lastIsSlash_app in Hl. discriminate.
  - intros a b H. pose proof (normalizePath_no_double p) as Hd.
    rewrite H, hasDoubleSlash_app in Hd. discriminate.
Qed.

(** C10: [normalizePath] is idempotent, and its result has no backslash, does
    not end with a slash, and has no two slashes in a row. *)
Theorem normalizePath_idempotent_clean : forall p : jsstring,
  normalizePath (normalizePath p) = normalizePath p /\
  ~ In backslash (normalizePath p) /\
  (forall t, normalizePath p <> t ++ [slash]) /\
  (forall a b, normalizePath p <> a ++ slash :: slash :: b).
Proof.
  intros p. repeat split.
  - rewrite (normalizePath_closed (normalizePath p)).
    rewrite toSlash_id by apply normalizePath_no_backslash.
    rewrite stripTrailing_id by apply normalizePath_last.
    apply collapse_id, normalizePath_no_double.
  - apply normalizePath_no_backslash.
  - apply normalizePath_idempotent_clean_aux.
  - apply normalizePath_idempotent_clean_aux.
Qed.

(** ** [getProjectNameFromPath] *)

Lemma startsWith_prefix s p :
  JS.startsWith s p = true <-> exists rest, s = p ++ rest.
Proof.
  revert s. induction p as [|x p IH]; intros s.
  - destruct s; split; intros; try reflexivity; eexists; reflexivity.
  - destruct s as [|y s]; cbn [JS.startsWith].
    + split; [discriminate|]. intros [rest H]. discriminate.
    + rewrite andb_true_iff, N.eqb_eq, IH. split.
      * intros [-> [rest ->]]. exists rest. reflexivity.
      * intros [rest H]. injection H as -> ->. split; [reflexivity|].
        exists rest. reflexivity.
Qed.

Lemma split_nonempty sep s : JS.split sep s <> [].
Proof.
  destruct s as [|c rest]; cbn [JS.split]; [discriminate|].
  destruct (N.eqb c sep); [discriminate|].
  destruct (JS.split sep rest); discriminate.
Qed.

(** The first element of [s.split(sep)] is the text before the first
    separator. *)
Lemma split_hd sep s :
  exists rest,
    s = hd [] (JS.split sep s) ++ rest /\
    ~ In sep (hd [] (JS.split sep s)) /\
    (rest = [] \/ exists r, rest = sep :: r).
Proof.
  induction s as [|c s IH].
  - exists []. repeat split; [intros []|left; reflexivity].
  - cbn [JS.split]. destruct (N.eqb c sep) eqn:E.
    + apply N.eqb_eq in E. subst c. exists (sep :: s).
      repeat split; [intros []|right; exists s; reflexivity].
    + apply N.eqb_neq in E. destruct IH as (rest & Hs & Hn & Hr).
      pose proof (split_nonempty sep s) as Hne.
      destruct (JS.split sep s) as [|cur more]; [congruence|].
      cbn [hd] in *. exists rest. repeat split.
      * cbn [app]. f_equal. exact Hs.
      * intros [H|H]; [congruence|exact (Hn H)].
      * exact Hr.
Qed.

Lemma truthy_nonempty s : JS.truthy s = true <-> s <> [].
Proof. destruct s; split; intros; try discriminate; try reflexivity; congruence. Qed.

Lemma substringFrom_app a rest :
  JS.substringFrom (a ++ rest) (Z.of_nat (length a)) = rest.
Proof.
  unfold JS.substringFrom, JS.clamp. rewrite Nat2Z.id, length_app.
  rewrite Nat.min_r by lia.
  rewrite skipn_app, skipn_all, Nat.sub_diag. reflexivity.
Qed.

(** C9: [getProjectNameFromPath] returns null unless the normalized path
    extends the normalized project folder and a slash; it returns null when
    the project folder normalizes to the empty string; a result that is not
    null is the non-empty first path segment after the project folder. *)
Theorem getProjectNameFromPath_spec : forall fullPath projectFolder : jsstring,
  (normalizePath projectFolder = [] ->
   getProjectNameFromPath fullPath projectFolder = None) /\
  (forall name,
     getProjectNameFromPath fullPath projectFolder = Some name ->
     name <> [] /\ ~ In slash name /\
     exists rest,
       normalizePath fullPath =
         normalizePath projectFolder ++ [slash] ++ name ++ rest /\
       (rest = [] \/ exists r, rest = slash :: r)) /\
  (getProjectNameFromPath fullPath projectFolder = None ->
   normalizePath projectFolder = [] \/
   forall rest,
     normalizePath fullPath <> normalizePath projectFolder ++ [slash] ++ rest).
Proof.
  intros fullPath projectFolder. unfold getProjectNameFromPath.
  pose proof (normalizePath_idempotent_clean_aux fullPath) as [Hlast Hdbl].
  remember (normalizePath fullPath) as np eqn:Enp.
  remember (normalizePath projectFolder) as nf eqn:Enf.
  destruct (JS.truthy nf) eqn:Ht; cbn [negb orb].
  2:{ assert (nf = []) as -> by (destruct nf; [reflexivity|discriminate]).
      split; [reflexivity|]. split; [discriminate|]. left. reflexivity. }
  apply truthy_nonempty in Ht.
  destruct (JS.startsWith np (nf ++ [slash])) eqn:Hs; cbn [negb].
  2:{ split; [reflexivity|]. split; [discriminate|].
      intros _. right. intros rest Hr.
      assert (JS.startsWith np (nf ++ [slash]) = true); [|congruence].
      apply startsWith_prefix. exists rest. rewrite Hr, <- app_assoc. reflexivity. }
  apply startsWith_prefix in Hs as [rel Hrel].
  assert (Hsub : JS.substringFrom np (Z.of_nat (length nf) + 1) = rel).
  { rewrite Hrel. replace (Z.of_nat (length nf) + 1)%Z
      with (Z.of_nat (length (nf ++ [slash])))
      by (rewrite length_app; simpl; lia).
    apply substringFrom_app. }
  rewrite Hsub. clear Hsub.
  destruct (split_hd slash rel) as (rest & Hsplit & Hnoslash & Hrest).
  set (name := hd [] (JS.split slash rel)) in *.
  assert (Hname : name <> []).
  { intros Hn. rewrite Hn in Hsplit. cbn [app] in Hsplit. subst rel.
    destruct Hrest as [->|[r ->]].
    - apply (Hlast nf). rewrite Hrel, app_nil_r. reflexivity.
    - apply (Hdbl nf r). rewrite Hrel, <- app_assoc. reflexivity. }
  apply truthy_nonempty in Hname as Ht'. rewrite Ht'.
  split; [congruence|]. split; [|discriminate].
  intros n [= <-]. split; [exact Hname|]. split; [exact Hnoslash|].
  exists rest. split; [|exact Hrest].
    rewrite Hrel, <- app_assoc, <- Hsplit. reflexivity.
Qed.

Lemma getProjectNameFromPath_spec_witness :
  let fullPath := JS.lit "10 - Project\\Foo//bar.md" in
  let projectFolder := JS.lit "10 - Project/" in
  getProjectNameFromPath fullPath projectFolder = Some (JS.lit "Foo") /\
  JS.lit "Foo" <> [] /\ ~ In slash (JS.lit "Foo") /\
  exists rest,
    normalizePath fullPath =
      normalizePath projectFolder ++ [slash] ++ JS.lit "Foo" ++ rest /\
    (rest = [] \/ exists r, rest = slash :: r).
Proof.
  cbv zeta.
  assert (H : getProjectNameFromPath (JS.lit "10 - Project\\Foo//bar.md")
                (JS.lit "10 - Project/") = Some (JS.lit "Foo"))
    by (vm_compute; reflexivity).
  split; [exact H|].
  exact (proj1 (proj2 (getProjectNameFromPath_spec _ _)) _ H).
Defined.

(** ** The separator line of the parser *)

Lemma jseqb_eq a b : JS.eqb a b = true <-> a = b.
Proof.
  revert b. induction a as [|x a IH]; intros [|y b]; cbn [JS.eqb];
    try (split; [discriminate|discriminate]); [split; reflexivity|].
  rewrite andb_true_iff, N.eqb_eq, IH. split.
  - intros [-> ->]. reflexivity.
  - intros [= -> ->]. split; reflexivity.
Qed.

Lemma isSeparatorLine_true line :
  isSeparatorLine line = true <-> JS.trim line = JS.lit "---".
Proof. apply jseqb_eq. Qed.

Lemma isSeparatorLine_false line :
  isSeparatorLine line = false <-> JS.trim line <> JS.lit "---".
Proof.
  rewrite <- isSeparatorLine_true. destruct (isSeparatorLine line); split;
    congruence.
Qed.

Lemma parseLines_no_separator md lines : forall st,
  Forall (fun l => JS.trim l <> JS.lit "---") lines ->
  parseLines md st lines = fold_left (parseLine md) lines st.
Proof.
  induction lines as [|l rest IH]; intros st H; [reflexivity|].
  inversion H as [|? ? Hl Hrest]; subst.
  apply isSeparatorLine_false in Hl.
  cbn [parseLines fold_left]. rewrite Hl. apply IH, Hrest.
Qed.

Lemma parseLines_stops md pre : forall st sep post,
  Forall (fun l => JS.trim l <> JS.lit "---") pre ->
  JS.trim sep = JS.lit "---" ->
  parseLines md st (pre ++ sep :: post) = fold_left (parseLine md) pre st.
Proof.
  induction pre as [|l rest IH]; intros st sep post H Hsep.
  - apply isSeparatorLine_true in Hsep. cbn [app parseLines fold_left].
    rewrite Hsep. reflexivity.
  - inversion H as [|? ? Hl Hrest]; subst.
    apply isSeparatorLine_false in Hl.
    cbn [app parseLines fold_left]. rewrite Hl. apply IH; assumption.
Qed.

(** C7, amended: the parser stops at the first line that is [---] after
    trimming.  Whatever that line and the lines after it are, the parsed
    document is the one built from the lines before it; without such a line
    every line is processed. *)
Theorem parse_stops_at_trimmed_separator :
  forall (md : Metadata) (text : jsstring),
    (forall pre sep post,
       JS.split LF text = pre ++ sep :: post ->
       Forall (fun l => JS.trim l <> JS.lit "---") pre ->
       JS.trim sep = JS.lit "---" ->
       parseContent md text =
       finishParse md (fold_left (parseLine md) pre initialState)) /\
    (Forall (fun l => JS.trim l <> JS.lit "---") (JS.split LF text) ->
     parseContent md text =
     finishParse md
       (fold_left (parseLine md) (JS.split LF text) initialState)).
Proof.
  intros md text. unfold parseContent. split.
  - intros pre sep post Hsplit Hpre Hsep. rewrite Hsplit.
    f_equal. apply parseLines_stops; assumption.
  - intros H. f_equal. apply parseLines_no_separator, H.
Qed.

Lemma parse_stops_at_trimmed_separator_witness :
  let text := JS.lit "## A\n- [[P]]\n --- \n## B" in
  parseContent noMetadata text =
  finishParse noMetadata
    (fold_left (parseLine noMetadata) [JS.lit "## A"; JS.lit "- [[P]]"]
       initialState).
Proof.
  cbv zeta.
  apply (proj1 (parse_stops_at_trimmed_separator noMetadata _))
    with (sep := JS.lit " --- ") (post := [JS.lit "## B"]).
  - vm_compute. reflexivity.
  - constructor; [vm_compute; discriminate|].
    constructor; [vm_compute; discriminate|]. constructor.
  - vm_compute. reflexivity.
Defined.

(** C7 as stated fails: a line that is [---] only after trimming stops the
    parser too, so a section on a line before the first line that is exactly
    [---] is not parsed. *)
Lemma parse_stops_before_exact_separator :
  let text := JS.lit "## A\n ---\n## B\n---\nnotes" in
  let pre := [JS.lit "## A"; JS.lit " ---"; JS.lit "## B"] in
  JS.split LF text = pre ++ JS.lit "---" :: [JS.lit "notes"] /\
  ~ In (JS.lit "---") pre /\
  map sectionName (sections (parseContent noMetadata text)) = [JS.lit "A"] /\
  map sectionName
    (sections (finishParse noMetadata
                 (fold_left (parseLine noMetadata) pre initialState))) =
    [JS.lit "A"; JS.lit "B"] /\
  parseContent noMetadata text <>
  finishParse noMetadata (fold_left (parseLine noMetadata) pre initialState).
Proof.
  cbv zeta. split; [vm_compute; reflexivity|].
  split.
  { intros H. repeat (destruct H as [H|H]; [vm_compute in H; discriminate|]).
    exact H. }
  split; [vm_compute; reflexivity|].
  split; [vm_compute; reflexivity|].
  intros H. apply (f_equal (fun d => length (sections d))) in H.
  vm_compute in H. discriminate.
Qed.

(** ** [removeEntryFromSection] *)

Lemma indexOfEntry_none es entry :
  indexOfEntry es entry = None ->
  existsb (fun e => sameObject e entry) es = false.
Proof.
  induction es as [|e rest IH]; [reflexivity|]. cbn [indexOfEntry existsb].
  destruct (sameObject e entry); [discriminate|].
  destruct (indexOfEntry rest entry); [discriminate|]. intros _. apply IH.
  reflexivity.
Qed.

Lemma indexOfEntry_some es entry idx :
  indexOfEntry es entry = Some idx ->
  exists es1 e es2,
    es = es1 ++ e :: es2 /\
    (forall x, In x es1 -> sameObject x entry = false) /\
    sameObject e entry = true /\
    splice1 idx es = es1 ++ es2.
Proof.
  revert idx. induction es as [|e rest IH]; intros idx; [discriminate|].
  cbn [indexOfEntry]. destruct (sameObject e entry) eqn:E.
  - intros [= <-]. exists [], e, rest. repeat split; [intros x []|exact E].
  - destruct (indexOfEntry rest entry) as [j|]; [|discriminate].
    intros [= <-]. destruct (IH j eq_refl) as (es1 & x & es2 & -> & Hn & Hx & Hs).
    exists (e :: es1), x, es2. repeat split.
    + intros y [<-|Hy]; [exact E|apply Hn, Hy].
    + exact Hx.
    + unfold splice1 in *. cbn [firstn skipn app]. f_equal. exact Hs.
Qed.

Lemma removeEntryFromItems_spec items entry :
  ((forall item, In item items -> occursIn entry item = false) /\
   removeEntryFromItems items entry = items)
  \/
  (exists pre e post,
     items = pre ++ ItemEntry e :: post /\
     (forall item, In item pre -> occursIn entry item = false) /\
     sameObject e entry = true /\
     removeEntryFromItems items entry = pre ++ post)
  \/
  (exists pre sub es1 e es2 post,
     items = pre ++ ItemSubsection sub :: post /\
     entries sub = es1 ++ e :: es2 /\
     (forall item, In item pre -> occursIn entry item = false) /\
     (forall x, In x es1 -> sameObject x entry = false) /\
     sameObject e entry = true /\
     removeEntryFromItems items entry =
     pre ++ ItemSubsection (withEntries sub (es1 ++ es2)) :: post).
Proof.
  induction items as [|item rest IH].
  - left. split; [intros ? []|reflexivity].
  - cbn [removeEntryFromItems].
    assert (Hcons : occursIn entry item = false ->
      ((forall it, In it (item :: rest) -> occursIn entry it = false) /\
       item :: removeEntryFromItems rest entry = item :: rest)
      \/
      (exists pre e post,
         item :: rest = pre ++ ItemEntry e :: post /\
         (forall it, In it pre -> occursIn entry it = false) /\
         sameObject e entry = true /\
         item :: removeEntryFromItems rest entry = pre ++ post)
      \/
      (exists pre sub es1 e es2 post,
         item :: rest = pre ++ ItemSubsection sub :: post /\
         entries sub = es1 ++ e :: es2 /\
         (forall it, In it pre -> occursIn entry it = false) /\
         (forall x, In x es1 -> sameObject x entry = false) /\
         sameObject e entry = true /\
         item :: removeEntryFromItems rest entry =
         pre ++ ItemSubsection (withEntries sub (es1 ++ es2)) :: post)).
    { intros Hitem.
      destruct IH as [[Hn Heq]|[(pre & e & post & -> & Hn & He & Heq)
                               |(pre & sub & es1 & e & es2 & post & -> & Hes & Hn & Hn1 & He & Heq)]].
      - left. split; [|rewrite Heq; reflexivity].
        intros it [<-|Hit]; [exact Hitem|apply Hn, Hit].
      - right. left. exists (item :: pre), e, post. repeat split.
        + intros it [<-|Hit]; [exact Hitem|apply Hn, Hit].
        + exact He.
        + rewrite Heq. reflexivity.
      - right. right. exists (item :: pre), sub, es1, e, es2, post.
        repeat split; try assumption.
        + intros it [<-|Hit]; [exact Hitem|apply Hn, Hit].
        + rewrite Heq. reflexivity. }
    destruct item as [sub|e].
    + destruct (indexOfEntry (entries sub) entry) as [idx|] eqn:Ei.
      * apply indexOfEntry_some in Ei as (es1 & e & es2 & Hes & Hn1 & He & Hs).
        right. right. exists [], sub, es1, e, es2, rest.
        repeat split; try assumption; [intros ? []|].
        cbn [app]. rewrite Hs. reflexivity.
      * apply Hcons. cbn [occursIn]. apply indexOfEntry_none, Ei.
    + destruct (sameObject e entry) eqn:E.
      * right. left. exists [], e, rest. repeat split; [intros ? []|exact E].
      * apply Hcons. exact E.
Qed.

(** C8: [removeEntryFromSection] removes the first occurrence of the entry
    object, scanning the ordered items and, inside a subsection, its
    entries; the other items stay as they are, and a section without the
    entry is unchanged. *)
Theorem removeEntryFromSection_first_match :
  forall (section : PrioritySection) (entry : PriorityEntry),
    sectionName (removeEntryFromSection section entry) = sectionName section /\
    (((forall item, In item (orderedItems section) ->
                    occursIn entry item = false) /\
      removeEntryFromSection section entry = section)
     \/
     (exists pre e post,
        orderedItems section = pre ++ ItemEntry e :: post /\
        (forall item, In item pre -> occursIn entry item = false) /\
        sameObject e entry = true /\
        orderedItems (removeEntryFromSection section entry) = pre ++ post)
     \/
     (exists pre sub es1 e es2 post,
        orderedItems section = pre ++ ItemSubsection sub :: post /\
        entries sub = es1 ++ e :: es2 /\
        (forall item, In item pre -> occursIn entry item = false) /\
        (forall x, In x es1 -> sameObject x entry = false) /\
        sameObject e entry = true /\
        orderedItems (removeEntryFromSection section entry) =
        pre ++ ItemSubsection
                 {| subsectionName := subsectionName sub;
                    entries := es1 ++ es2 |} :: post)).
Proof.
  intros [name items] entry. split; [reflexivity|].
  unfold removeEntryFromSection, withItems. cbn [orderedItems sectionName].
  destruct (removeEntryFromItems_spec items entry) as [[Hn Heq]|[H|H]].
  - left. split; [exact Hn|]. rewrite Heq. reflexivity.
  - right. left. exact H.
  - right. right. exact H.
Qed.

(** ** [moveProjectToSubsection] *)

Lemma findIndexByName_none es name :
  findIndexByName es name = None -> existsb (named name) es = false.
Proof.
  induction es as [|e rest IH]; [reflexivity|].
  cbn [findIndexByName existsb]. unfold named at 1.
  destruct (JS.eqb (projectName e) name); [discriminate|].
  destruct (findIndexByName rest name) as [[i x]|]; [discriminate|].
  intros _. apply IH. reflexivity.
Qed.

Lemma findIndexByName_some es name idx e :
  findIndexByName es name = Some (idx, e) ->
  exists es1 es2,
    es = es1 ++ e :: es2 /\
    (forall x, In x es1 -> named name x = false) /\
    projectName e = name /\
    splice1 idx es = es1 ++ es2.
Proof.
  revert idx. induction es as [|x rest IH]; intros idx; [discriminate|].
  cbn [findIndexByName]. destruct (JS.eqb (projectName x) name) eqn:E.
  - intros [= <- <-]. exists [], rest.
    repeat split; [intros ? []|apply jseqb_eq, E].
  - destruct (findIndexByName rest name) as [[j y]|]; [|discriminate].
    intros [= <- <-]. destruct (IH j eq_refl) as (es1 & es2 & -> & Hn & He & Hs).
    exists (x :: es1), es2. repeat split.
    + intros z [<-|Hz]; [exact E|apply Hn, Hz].
    + exact He.
    + unfold splice1 in *. cbn [firstn skipn app]. f_equal. exact Hs.
Qed.

Lemma takeFromItems_none items name :
  takeFromItems items name = None ->
  existsb (itemHasName name) items = false.
Proof.
  induction items as [|item rest IH]; [reflexivity|].
  cbn [takeFromItems existsb]. destruct item as [sub|e]; cbn [itemHasName].
  - destruct (findIndexByName (entries sub) name) as [[i x]|] eqn:Ef;
      [discriminate|].
    rewrite (findIndexByName_none _ _ Ef).
    destruct (takeFromItems rest name) as [[x r]|]; [discriminate|].
    intros _. apply IH. reflexivity.
  - unfold named. destruct (JS.eqb (projectName e) name); [discriminate|].
    destruct (takeFromItems rest name) as [[x r]|]; [discriminate|].
    intros _. apply IH. reflexivity.
Qed.

Lemma existsb_false_In {A : Type} (f : A -> bool) l :
  existsb f l = false -> forall x, In x l -> f x = false.
Proof.
  induction l as [|y rest IH]; [intros _ ? []|].
  cbn [existsb]. intros H x [<-|Hx].
  - apply orb_false_elim in H. apply H.
  - apply IH; [|exact Hx]. apply orb_false_elim in H. apply H.
Qed.

Lemma removedFirst_cons name item items e items' :
  itemHasName name item = false ->
  removedFirst name items e items' ->
  removedFirst name (item :: items) e (item :: items').
Proof.
  intros Hitem H. destruct H as [pre x post Hn Hx|pre sub es1 x es2 post Hn Hes Hn1 Hx].
  - apply (RemovedTopLevel name (item :: pre) x post); [|exact Hx].
    intros it [<-|Hit]; [exact Hitem|apply Hn, Hit].
  - apply (RemovedNested name (item :: pre) sub es1 x es2 post); try assumption.
    intros it [<-|Hit]; [exact Hitem|apply Hn, Hit].
Qed.

Lemma takeFromItems_some items name : forall e items',
  takeFromItems items name = Some (e, items') ->
  removedFirst name items e items'.
Proof.
  induction items as [|item rest IH]; intros e items'; [discriminate|].
  cbn [takeFromItems]. destruct item as [sub|x].
  - destruct (findIndexByName (entries sub) name) as [[i y]|] eqn:Ef.
    + intros [= <- <-].
      apply findIndexByName_some in Ef as (es1 & es2 & Hes & Hn & Hy & Hs).
      unfold withEntries. rewrite Hs.
      apply (RemovedNested name [] sub es1 y es2 rest); try assumption.
      intros ? [].
    + destruct (takeFromItems rest name) as [[y r]|]; [|discriminate].
      intros [= <- <-]. apply removedFirst_cons; [|apply IH; reflexivity].
      cbn [itemHasName]. apply findIndexByName_none, Ef.
  - destruct (JS.eqb (projectName x) name) eqn:E.
    + intros [= <- <-]. apply (RemovedTopLevel name [] x rest).
      * intros ? [].
      * apply jseqb_eq, E.
    + destruct (takeFromItems rest name) as [[y r]|]; [|discriminate].
      intros [= <- <-]. apply removedFirst_cons; [exact E|apply IH; reflexivity].
Qed.

Lemma takeFromSections_none secs name :
  takeFromSections secs name = None ->
  existsb (sectionHasName name) secs = false.
Proof.
  induction secs as [|s rest IH]; [reflexivity|].
  cbn [takeFromSections existsb].
  destruct (takeFromItems (orderedItems s) name) as [[e r]|] eqn:Et;
    [discriminate|].
  unfold sectionHasName at 1. rewrite (takeFromItems_none _ _ Et).
  destruct (takeFromSections rest name) as [[[e si] r]|]; [discriminate|].
  intros _. apply IH. reflexivity.
Qed.

Lemma takeFromSections_some secs name : forall e si secs',
  takeFromSections secs name = Some (e, si, secs') ->
  exists before section after items',
    secs = before ++ section :: after /\
    (forall s, In s before -> sectionHasName name s = false) /\
    removedFirst name (orderedItems section) e items' /\
    si = length before /\
    secs' = before ++ withItems section items' :: after.
Proof.
  induction secs as [|s rest IH]; intros e si secs'; [discriminate|].
  cbn [takeFromSections].
  destruct (takeFromItems (orderedItems s) name) as [[x r]|] eqn:Et.
  - intros [= <- <- <-]. exists [], s, rest, r.
    repeat split; [intros ? []|apply takeFromItems_some, Et].
  - destruct (takeFromSections rest name) as [[[x j] r]|]; [|discriminate].
    intros [= <- <- <-].
    destruct (IH x j r eq_refl) as (before & section & after & items' & -> & Hn & Hr & -> & ->).
    exists (s :: before), section, after, items'. repeat split; try assumption.
    intros s' [<-|Hs']; [|apply Hn, Hs'].
    apply takeFromItems_none, Et.
Qed.

Lemma updateAt_middle {A : Type} (f : A -> A) before x after :
  updateAt (length before) f (before ++ x :: after) = before ++ f x :: after.
Proof.
  induction before as [|y rest IH]; [reflexivity|].
  cbn [length app updateAt]. f_equal. exact IH.
Qed.

Lemma pushIntoSubsection_spec g e items :
  match pushIntoSubsection g e items with
  | Some items' => placedInGroup g e items items'
  | None => forall it, In it items -> isSubsectionNamed g it = false
  end.
Proof.
  induction items as [|item rest IH]; [intros ? []|].
  cbn [pushIntoSubsection].
  assert (Hskip : isSubsectionNamed g item = false ->
    match option_map (cons item) (pushIntoSubsection g e rest) with
    | Some items' => placedInGroup g e (item :: rest) items'
    | None => forall it, In it (item :: rest) -> isSubsectionNamed g it = false
    end).
  { intros Hitem. destruct (pushIntoSubsection g e rest) as [r|]; cbn [option_map].
    - destruct IH as [pre sub post Hn Hg|items Hn].
      + apply (PlacedInGroup g e (item :: pre) sub post); [|exact Hg].
        intros it [<-|Hit]; [exact Hitem|apply Hn, Hit].
      + apply (PlacedFallback g e (item :: items)).
        intros it [<-|Hit]; [exact Hitem|apply Hn, Hit].
    - intros it [<-|Hit]; [exact Hitem|apply IH, Hit]. }
  destruct item as [sub|x]; [|apply Hskip; reflexivity].
  destruct (JS.eqb (subsectionName sub) g) eqn:E; [|apply Hskip; exact E].
  apply (PlacedInGroup g e [] sub rest); [intros ? []|apply jseqb_eq, E].
Qed.

Lemma findIndex_isSubsection e items :
  placedUngrouped e items
    (spliceIn match findIndex isSubsection items with
              | Some i => i
              | None => length items
              end (ItemEntry e) items).
Proof.
  induction items as [|item rest IH].
  - apply (PlacedAtEnd e []). intros ? [].
  - cbn [findIndex]. destruct (isSubsection item) eqn:E.
    + destruct item as [sub|x]; [|discriminate].
      apply (PlacedBeforeSubsection e [] sub rest). intros ? [].
    + assert (Hidx : match option_map S (findIndex isSubsection rest) with
                     | Some i => i
                     | None => length (item :: rest)
                     end =
                     S match findIndex isSubsection rest with
                       | Some i => i
                       | None => length rest
                       end)
        by (destruct (findIndex isSubsection rest); reflexivity).
      rewrite Hidx. unfold spliceIn in *. cbn [firstn skipn app].
      destruct IH as [pre sub post Hn|items Hn].
      * apply (PlacedBeforeSubsection e (item :: pre) sub post).
        intros it [<-|Hit]; [exact E|apply Hn, Hit].
      * apply (PlacedAtEnd e (item :: items)).
        intros it [<-|Hit]; [exact E|apply Hn, Hit].
Qed.

Lemma placeEntry_spec section targetGroup e :
  sectionName (placeEntry section targetGroup e) = sectionName section /\
  match orNull targetGroup with
  | Some g =>
      placedInGroup g e (orderedItems section)
        (orderedItems (placeEntry section targetGroup e))
  | None =>
      placedUngrouped e (orderedItems section)
        (orderedItems (placeEntry section targetGroup e))
  end.
Proof.
  unfold placeEntry. destruct (orNull targetGroup) as [g|].
  - pose proof (pushIntoSubsection_spec g e (orderedItems section)) as H.
    destruct (pushIntoSubsection g e (orderedItems section)) as [items'|].
    + split; [reflexivity|exact H].
    + split; [reflexivity|]. apply PlacedFallback, H.
  - split; [reflexivity|]. apply findIndex_isSubsection.
Qed.

Lemma moveInData_movesAs data name targetGroup :
  existsb (sectionHasName name) (sections data) = true ->
  movesAs orNull data name targetGroup.
Proof.
  intros Hhas. unfold movesAs, moveInData.
  destruct (takeFromSections (sections data) name) as [[[e si] secs']|] eqn:Et.
  2:{ apply takeFromSections_none in Et. congruence. }
  apply takeFromSections_some in Et
    as (before & section & after & items' & Hsecs & Hn & Hr & -> & ->).
  destruct (placeEntry_spec (withItems section items') targetGroup e) as [Hname Hplace].
  exists before, section, after, e, items',
    (orderedItems (placeEntry (withItems section items') targetGroup e)).
  repeat split; try assumption.
  rewrite updateAt_middle. f_equal. f_equal. f_equal. f_equal.
  destruct (placeEntry (withItems section items') targetGroup e) as [n its].
  cbn [sectionName orderedItems] in *. rewrite Hname. reflexivity.
Qed.

(** C5, amended: when the parsed document has an entry with the project
    name, [moveProjectToSubsection] takes the first such entry out of its
    container and puts it back into the same section: for a target group
    that is neither null nor the empty string, at the end of the first
    subsection with that name, or at the end of the top level when the
    section has no such subsection; for null or the empty string, at the
    top level just before the first subsection, or at the end when the
    section has none.  The result is written with [writePrioritiesFile]. *)
Theorem moveProjectToSubsection_places :
  forall (md : Metadata) (content name : jsstring)
         (targetGroup : option jsstring),
    existsb (sectionHasName name) (sections (parseContent md content)) = true ->
    exists before section after e items' items'',
      sections (parseContent md content) = before ++ section :: after /\
      (forall s, In s before -> sectionHasName name s = false) /\
      removedFirst name (orderedItems section) e items' /\
      match targetGroup with
      | Some (c :: g) => placedInGroup (c :: g) e items' items''
      | Some [] | None => placedUngrouped e items' items''
      end /\
      moveProjectToSubsection md name targetGroup (Some content) =
      Some (writeContent
              {| sections :=
                   before ++ {| sectionName := sectionName section;
                                orderedItems := items'' |} :: after;
                 unlisted := unlisted (parseContent md content) |}
              content).
Proof.
  intros md content name targetGroup Hhas.
  destruct (moveInData_movesAs _ _ targetGroup Hhas)
    as (before & section & after & e & items' & items'' & Hs & Hn & Hr & Hp & Hm).
  exists before, section, after, e, items', items''.
  repeat split; try assumption.
  - destruct targetGroup as [[|c g]|]; exact Hp.
  - unfold moveProjectToSubsection. cbn [parsePrioritiesFile].
    rewrite Hm. reflexivity.
Qed.

Lemma moveProjectToSubsection_places_witness :
  let content := JS.lit "## Active\n- [[Alpha|al]]\n### G\n- [[Beta]]\n---\nx" in
  let name := JS.lit "Alpha" in
  let g := JS.lit "G" in
  exists before section after e items' items'',
    sections (parseContent noMetadata content) = before ++ section :: after /\
    (forall s, In s before -> sectionHasName name s = false) /\
    removedFirst name (orderedItems section) e items' /\
    placedInGroup g e items' items'' /\
    moveProjectToSubsection noMetadata name (Some g) (Some content) =
    Some (writeContent
            {| sections :=
                 before ++ {| sectionName := sectionName section;
                              orderedItems := items'' |} :: after;
               unlisted := unlisted (parseContent noMetadata content) |}
            content).
Proof.
  cbv zeta.
  apply (moveProjectToSubsection_places noMetadata
           (JS.lit "## Active\n- [[Alpha|al]]\n### G\n- [[Beta]]\n---\nx")
           (JS.lit "Alpha") (Some (JS.lit "G"))).
  vm_compute. reflexivity.
Defined.

(** C5 as stated fails: the empty string is a target group that is not null,
    yet the entry is inserted before the first subsection and not appended
    behind it. *)
Lemma empty_target_group_is_ungrouped :
  let content := JS.lit "## Active\n### G\n- [[Alpha]]\n" in
  existsb (sectionHasName (JS.lit "Alpha"))
          (sections (parseContent noMetadata content)) = true /\
  moveProjectToSubsection noMetadata (JS.lit "Alpha") (Some []) (Some content) =
    Some (JS.lit "## Active\n- [[Alpha]]\n### G\n") /\
  ~ movesAs nonNull (parseContent noMetadata content) (JS.lit "Alpha") (Some []).
Proof.
  cbv zeta. split; [vm_compute; reflexivity|]. split; [vm_compute; reflexivity|].
  intros (before & section & after & e & items' & items'' & Hs & _ & _ & Hp & Hm).
  match type of Hs with
  | ?l = _ => let v := eval vm_compute in l in
              replace l with v in Hs by (vm_compute; reflexivity)
  end.
  match type of Hm with
  | ?l = _ => let v := eval vm_compute in l in
              replace l with v in Hm by (vm_compute; reflexivity)
  end.
  destruct before as [|b before].
  2:{ injection Hs as _ Hs. destruct before; discriminate. }
  cbn [app] in Hs, Hm. injection Hs as <- <-. injection Hm as Hm.
  unfold nonNull in Hp. inversion Hp as [pre sub post Hn Hg H1 H2|items Hn H1 H2].
  - rewrite <- H2 in Hm. destruct pre as [|p1 [|p2 pre]]; cbn [app] in Hm.
    + discriminate.
    + injection Hm as _ Hm _. rewrite Hg in Hm. discriminate.
    + injection Hm as _ _ Hm. destruct pre; discriminate.
  - rewrite <- H2 in Hm.
    destruct items' as [|i1 [|i2 [|i3 items']]]; cbn [app] in Hm;
      discriminate.
Qed.

(** ** Round trip through the writer *)

(** C1 fails on the code: the writer keeps everything from the first line
    that merely starts with [---], while the parser reads on until a line
    that is [---] after trimming.  The sections behind such a line are
    written twice. *)
Theorem roundtrip_breaks_on_dash_line :
  let x := JS.lit "## A\n----\n## B" in
  let data := parseContent noMetadata x in
  map sectionName (sections data) = [JS.lit "A"; JS.lit "B"] /\
  writeContent data x = JS.lit "## A\n\n## B\n\n----\n## B" /\
  map sectionName (sections (parseContent noMetadata (writeContent data x))) =
    [JS.lit "A"; JS.lit "B"; JS.lit "B"] /\
  sections (parseContent noMetadata (writeContent data x)) <> sections data.
Proof.
  cbv zeta. split; [vm_compute; reflexivity|].
  split; [vm_compute; reflexivity|]. split; [vm_compute; reflexivity|].
  intros H. apply (f_equal (@length _)) in H. vm_compute in H. discriminate.
Qed.

(** ** Status synchronisation *)

(** C3 fails on the code: for a project that is not listed, a file without
    the target section and without [---] is left as it is, although the
    sibling branch of [moveProjectInPriorities] appends the section at the
    end in that situation.  A section created before the last [---] of a
    file with two of them lands behind the first, where the parser does not
    read. *)
Theorem sync_leaves_project_out_of_its_section :
  (let file := Some (JS.lit "## On Hold\n") in
   syncProjectStatusToPriorities (JS.lit "Alpha") (JS.lit "active") file = file /\
   syncProjectStatusToPriorities (JS.lit "Alpha") (JS.lit "active")
     (Some (JS.lit "## On Hold\n- [[Alpha]]\n")) =
     Some (JS.lit "## On Hold\n\n\n## Active\n- [[Alpha]]\n")) /\
  (let text := JS.lit "## Active\n- [[Alpha]]\n---\nnotes\n---\nmore" in
   let text' :=
     JS.lit "## Active\n\n---\nnotes\n## On Hold\n- [[Alpha]]\n\n---\nmore" in
   syncProjectStatusToPriorities (JS.lit "Alpha") (JS.lit "on-hold") (Some text) =
     Some text' /\
   sections (parseContent noMetadata text') =
     [{| sectionName := JS.lit "Active"; orderedItems := [] |}]).
Proof.
  cbv zeta. split; (split; [vm_compute; reflexivity|]); vm_compute; reflexivity.
Qed.

(** C6 fails on the code: the section that is missing is created before the
    last occurrence of [---], here inside a line of four dashes.  The first
    call leaves the entry in its old section, the second call moves it. *)
Theorem sync_twice_differs_from_once :
  let file := Some (JS.lit "## Active\n- [[Alpha]]\n----\n") in
  let sync := syncProjectStatusToPriorities (JS.lit "Alpha") (JS.lit "on-hold") in
  let alpha := {| oid := 0; projectName := JS.lit "Alpha"; emoji := [];
                  alias := None |} in
  sync file = Some (JS.lit "## Active\n\n-## On Hold\n- [[Alpha]]\n\n---\n") /\
  sync (sync file) =
    Some (JS.lit "## Active\n\n-## On Hold\n\n## On Hold\n- [[Alpha]]\n\n---\n") /\
  option_map (fun c => sections (parseContent noMetadata c)) (sync file) =
    Some [{| sectionName := JS.lit "Active";
             orderedItems := [ItemEntry alpha] |}] /\
  option_map (fun c => sections (parseContent noMetadata c)) (sync (sync file)) =
    Some [{| sectionName := JS.lit "Active"; orderedItems := [] |};
          {| sectionName := JS.lit "On Hold";
             orderedItems := [ItemEntry alpha] |}].
Proof.
  cbv zeta. split; [vm_compute; reflexivity|].
  split; [vm_compute; reflexivity|]. split; vm_compute; reflexivity.
Qed.

(** A status that names a member the object literal inherits: the member
    goes where the section name is expected.  For a project that is not
    listed the header written is the text of the member; for a listed
    project the call throws and the file stays as it is; a status of
    neither kind changes nothing. *)
Example sync_with_inherited_status :
  getStatusSection (JS.lit "constructor") = Inherited /\
  syncProjectStatusToPriorities (JS.lit "Alpha") (JS.lit "constructor")
    (Some (JS.lit "## Active\n---\nnotes")) =
    Some (JS.lit "## Active\n## function Object() { [native code] }\n- [[Alpha]]\n\n---\nnotes") /\
  syncProjectStatusToPriorities (JS.lit "Alpha") (JS.lit "toString")
    (Some (JS.lit "## Active\n- [[Alpha]]\n---\nnotes")) =
    Some (JS.lit "## Active\n- [[Alpha]]\n---\nnotes") /\
  getStatusSection (JS.lit "archived") = Missing /\
  syncProjectStatusToPriorities (JS.lit "Alpha") (JS.lit "archived")
    (Some (JS.lit "## Active\n---\nnotes")) =
    Some (JS.lit "## Active\n---\nnotes").
Proof. repeat split; vm_compute; reflexivity. Qed.

(** ** The trailing region *)

Lemma split_app_LF a b :
  JS.split LF (a ++ LF :: b) = JS.split LF a ++ JS.split LF b.
Proof.
  induction a as [|c a IH]; [reflexivity|].
  cbn [app JS.split]. destruct (N.eqb c LF).
  - rewrite IH. reflexivity.
  - rewrite IH. pose proof (split_nonempty LF a) as Hne.
    destruct (JS.split LF a); [congruence|reflexivity].
Qed.

Lemma join_split s : JS.join [LF] (JS.split LF s) = s.
Proof.
  induction s as [|c s IH]; [reflexivity|].
  cbn [JS.split]. pose proof (split_nonempty LF s) as Hne.
  destruct (N.eqb c LF) eqn:E.
  - apply N.eqb_eq in E. subst c.
    destruct (JS.split LF s) as [|cur more]; [congruence|].
    cbn [JS.join app] in *. rewrite IH. reflexivity.
  - destruct (JS.split LF s) as [|cur more]; [congruence|].
    cbn [JS.join] in *. destruct more; cbn [app]; rewrite <- IH; reflexivity.
Qed.

Lemma split_single l : ~ In LF l -> JS.split LF l = [l].
Proof.
  induction l as [|c l IH]; intros H; [reflexivity|].
  cbn [JS.split]. destruct (N.eqb c LF) eqn:E.
  - apply N.eqb_eq in E. exfalso. apply H. left. exact E.
  - rewrite IH by (intros Hin; apply H; right; exact Hin). reflexivity.
Qed.

Lemma split_join lines :
  lines <> [] -> Forall (fun l => ~ In LF l) lines ->
  JS.split LF (JS.join [LF] lines) = lines.
Proof.
  induction lines as [|l rest IH]; [congruence|]. intros _ H.
  inversion H as [|? ? Hl Hrest]; subst.
  destruct rest as [|l2 more].
  - cbn [JS.join]. apply split_single, Hl.
  - change (JS.join [LF] (l :: l2 :: more))
      with (l ++ LF :: JS.join [LF] (l2 :: more)).
    rewrite split_app_LF, split_single by exact Hl.
    rewrite IH by (try discriminate; exact Hrest). reflexivity.
Qed.

Lemma fromSeparator_skip pre lines :
  Forall (fun l => JS.trim l <> JS.lit "---") pre ->
  fromSeparator (pre ++ lines) = fromSeparator lines.
Proof.
  induction pre as [|l rest IH]; intros H; [reflexivity|].
  inversion H as [|? ? Hl Hrest]; subst. apply isSeparatorLine_false in Hl.
  cbn [app fromSeparator]. rewrite Hl. apply IH, Hrest.
Qed.

Lemma fromSeparator_here lines :
  JS.trim (hd [] lines) = JS.lit "---" -> fromSeparator lines = lines.
Proof.
  destruct lines as [|l rest]; [reflexivity|]. cbn [hd fromSeparator].
  intros H. apply isSeparatorLine_true in H. rewrite H. reflexivity.
Qed.

Lemma trimStart_suffix s : exists w, s = w ++ JS.trimStart s.
Proof.
  induction s as [|c s IH].
  - exists []. reflexivity.
  - cbn [JS.trimStart]. destruct (JS.is_space c).
    + destruct IH as [w Hw]. exists (c :: w). cbn [app]. f_equal. exact Hw.
    + exists []. reflexivity.
Qed.

Lemma trimEnd_prefix s : exists w, s = JS.trimEnd s ++ w.
Proof.
  unfold JS.trimEnd. destruct (trimStart_suffix (rev s)) as [w Hw].
  exists (rev w). rewrite <- rev_app_distr, <- Hw, rev_involutive. reflexivity.
Qed.

(** A line that does not begin with white space and is a separator begins
    with three dashes. *)
Lemma separator_starts_with_dashes c l :
  JS.is_space c = false ->
  JS.trim (c :: l) = JS.lit "---" ->
  exists w, c :: l = JS.lit "---" ++ w.
Proof.
  intros Hc H. unfold JS.trim in H. cbn [JS.trimStart] in H. rewrite Hc in H.
  destruct (trimEnd_prefix (c :: l)) as [w Hw]. rewrite H in Hw.
  exists w. exact Hw.
Qed.

Lemma writtenLineShape_not_separator l :
  writtenLineShape l -> JS.trim l <> JS.lit "---".
Proof.
  intros [->|[[r ->]|[r ->]]] H.
  - vm_compute in H. discriminate.
  - apply separator_starts_with_dashes in H as [w Hw]; [|reflexivity].
    vm_compute in Hw. discriminate.
  - apply separator_starts_with_dashes in H as [w Hw]; [|reflexivity].
    vm_compute in Hw. discriminate.
Qed.

Lemma rebuiltLines_shape data : Forall writtenLineShape (rebuiltLines data).
Proof.
  unfold rebuiltLines. apply Forall_flat_map, Forall_forall. intros s _.
  unfold sectionLines. constructor.
  { right. left. eexists. reflexivity. }
  apply Forall_app. split; [|constructor; [left; reflexivity|constructor]].
  apply Forall_flat_map, Forall_forall. intros item _.
  destruct item as [sub|e]; cbn [itemLines].
  - constructor; [right; left; eexists; reflexivity|].
    apply Forall_map, Forall_forall. intros e _.
    right. right. eexists. reflexivity.
  - constructor; [|constructor]. right. right. eexists. reflexivity.
Qed.

Lemma find_separator head tail :
  JS.find head (JS.lit "\n---") = None ->
  JS.startsWith tail (JS.lit "---") = true ->
  JS.find (head ++ LF :: tail) (JS.lit "\n---") = Some (length head).
Proof.
  intros Hhead Htail. induction head as [|c h IH].
  - cbn [app length]. change (JS.lit "\n---") with (LF :: JS.lit "---").
    cbn [JS.find JS.startsWith]. rewrite Htail. reflexivity.
  - cbn [JS.find] in Hhead.
    destruct (JS.startsWith (c :: h) (JS.lit "\n---")) eqn:Es; [discriminate|].
    destruct (JS.find h (JS.lit "\n---")) eqn:Ef; [discriminate|].
    cbn [app length JS.find]. rewrite (IH eq_refl). cbn [option_map].
    destruct (JS.startsWith (c :: h ++ LF :: tail) (JS.lit "\n---")) eqn:Es2;
      [|reflexivity].
    exfalso. apply startsWith_prefix in Es2 as [rest Hrest].
    change (JS.lit "\n---") with [10%N; 45%N; 45%N; 45%N] in *.
    unfold LF in Hrest.
    destruct h as [|h1 [|h2 [|h3 h]]]; cbn [app] in Hrest; try discriminate.
    injection Hrest as -> -> -> -> _.
    assert (Ht : JS.startsWith (10%N :: 45%N :: 45%N :: 45%N :: h)
                   [10%N; 45%N; 45%N; 45%N] = true)
      by (apply startsWith_prefix; exists h; reflexivity).
    congruence.
Qed.

Lemma suffixOf_separator head tail :
  JS.find head (JS.lit "\n---") = None ->
  JS.startsWith tail (JS.lit "---") = true ->
  suffixOf (head ++ LF :: tail) = LF :: tail.
Proof.
  intros Hhead Htail. unfold suffixOf, JS.indexOf.
  rewrite (find_separator _ _ Hhead Htail).
  replace (0 <=? Z.of_nat (length head))%Z with true
    by (symmetry; apply Z.leb_le; lia).
  apply substringFrom_app.
Qed.

(** C2 as stated fails.  [removeFromPriorities] edits the whole text: a line
    of the trailing region that links the project is emptied.  The writer
    itself drops a trailing region that begins on the first line. *)
Lemma trailing_region_altered :
  (let text := JS.lit "## Active\n- [[Alpha]]\n---\nsee [[Alpha]]\nend" in
   let text' := JS.lit "## Active\n\n---\n\nend" in
   trailingRegion text = JS.lit "---\nsee [[Alpha]]\nend" /\
   removeFromPriorities (JS.lit "Alpha") (Some text) = Some text' /\
   trailingRegion text' = JS.lit "---\n\nend" /\
   trailingRegion text' <> trailingRegion text) /\
  (let text := JS.lit "---\nnotes" in
   trailingRegion text = text /\
   writeContent (parseContent noMetadata text) text = [] /\
   trailingRegion (writeContent (parseContent noMetadata text) text) <>
   trailingRegion text).
Proof.
  cbv zeta. split.
  - split; [vm_compute; reflexivity|]. split; [vm_compute; reflexivity|].
    split; [vm_compute; reflexivity|]. vm_compute. discriminate.
  - split; [vm_compute; reflexivity|]. split; [vm_compute; reflexivity|].
    vm_compute. discriminate.
Qed.

(** ** The round trip where the separators agree *)

(** *** The matcher on headers and links *)

Module MatcherFacts.
Import Re.
Import ReFacts.

Lemma ends_seq ml a b st :
  ends ml (Seq a b) st = flat_map (ends ml b) (ends ml a st).
Proof. reflexivity. Qed.

Lemma ends_alt ml a b st : ends ml (Alt a b) st = ends ml a st ++ ends ml b st.
Proof. reflexivity. Qed.

Lemma ends_star ml a st :
  ends ml (Star a) st = star_iter (ends ml a) (S (length (m_after st))) st.
Proof. reflexivity. Qed.

Lemma ends_grp ml i a st :
  ends ml (Grp i a) st =
  map (fun st' => MState (m_before st') (m_after st')
                    ((i, consumed st st') :: m_caps st'))
      (ends ml a st).
Proof. reflexivity. Qed.

Lemma ends_cls ml p b a c :
  ends ml (Cls p) (MState b a c) =
  match a with
  | x :: rest => if p x then [MState (x :: b) rest c] else []
  | [] => []
  end.
Proof. reflexivity. Qed.

Lemma ends_eps ml st : ends ml Eps st = [st].
Proof. reflexivity. Qed.

Lemma startsWith_nil a : JS.startsWith a [] = true.
Proof. destruct a; reflexivity. Qed.

(** A literal string matches when the input starts with it. *)
Lemma ends_str ml s : forall b a c,
  ends ml (str s) (MState b a c) =
  if JS.startsWith a s
  then [MState (rev s ++ b) (skipn (length s) a) c] else [].
Proof.
  induction s as [|x s IH]; intros b a c.
  - rewrite startsWith_nil. reflexivity.
  - change (str (x :: s)) with (Seq (chr x) (str s)).
    cbn [ends]. rewrite ends_chr. destruct a as [|y a]; [reflexivity|].
    cbn [JS.startsWith]. destruct (N.eqb x y) eqn:E; [|reflexivity].
    apply N.eqb_eq in E. subst y. cbn [flat_map andb]. rewrite app_nil_r, IH.
    destruct (JS.startsWith a s); [|reflexivity].
    cbn [rev length skipn]. rewrite <- app_assoc. reflexivity.
Qed.

Lemma star_cls ml p a : forall fuel b c,
  length a < fuel ->
  star_iter (ends ml (Cls p)) fuel (MState b a c) = runStates p b a c.
Proof.
  induction a as [|x a IH]; intros fuel b c Hf;
    (destruct fuel as [|f]; [simpl in Hf; lia|]); cbn [star_iter ends m_after].
  - reflexivity.
  - cbn [runStates m_before m_caps]. destruct (p x); [|reflexivity].
    cbn [flat_map m_after length].
    replace (length a <? S (length a)) with true
      by (symmetry; apply Nat.ltb_lt; lia).
    rewrite app_nil_r, IH by (simpl in Hf; lia). reflexivity.
Qed.

Lemma takeWhile_dropWhile p s : takeWhile p s ++ dropWhile p s = s.
Proof.
  induction s as [|x s IH]; [reflexivity|]. cbn [takeWhile dropWhile].
  destruct (p x); [cbn [app]; rewrite IH|]; reflexivity.
Qed.

Lemma takeWhile_all p s : forallb p (takeWhile p s) = true.
Proof.
  induction s as [|x s IH]; [reflexivity|]. cbn [takeWhile].
  destruct (p x) eqn:E; [|reflexivity]. cbn [forallb]. rewrite E, IH. reflexivity.
Qed.

(** When what follows fails in front of a code unit of the class, only the
    longest run is left. *)
Lemma runStates_longest p (k : mstate -> list mstate) c a : forall b,
  (forall b' x rest, p x = true -> k (MState b' (x :: rest) c) = []) ->
  flat_map k (runStates p b a c) =
  k (MState (rev (takeWhile p a) ++ b) (dropWhile p a) c).
Proof.
  induction a as [|x a IH]; intros b Hk.
  - cbn [runStates flat_map]. apply app_nil_r.
  - cbn [runStates takeWhile dropWhile]. destruct (p x) eqn:E.
    + rewrite flat_map_app, IH by exact Hk. cbn [flat_map].
      rewrite (Hk b x a E). cbn [rev]. rewrite !app_nil_r, <- app_assoc.
      reflexivity.
    + cbn [flat_map]. apply app_nil_r.
Qed.

Lemma runStates_head p c a : forall b,
  exists tl,
    runStates p b a c =
    MState (rev (takeWhile p a) ++ b) (dropWhile p a) c :: tl.
Proof.
  induction a as [|x a IH]; intros b.
  - exists []. reflexivity.
  - cbn [runStates takeWhile dropWhile]. destruct (p x).
    + destruct (IH (x :: b)) as [tl H]. rewrite H. eexists.
      cbn [rev app]. rewrite <- app_assoc. reflexivity.
    + exists []. reflexivity.
Qed.

(** A pattern anchored at the start matches at the start or not at all. *)
Lemma search_anchored r : forall a b,
  b <> [] -> search false (Seq Bol r) b a = None.
Proof.
  induction a as [|x a IH]; intros b Hb.
  - cbn [search ends at_bol m_before]. destruct b; [congruence|reflexivity].
  - cbn [search ends at_bol m_before]. destruct b as [|y b]; [congruence|].
    cbn [andb flat_map]. rewrite IH by discriminate. reflexivity.
Qed.

Lemma exec_anchored r l :
  exec false (Seq Bol r) l =
  match ends false r (MState [] l []) with
  | e :: _ => Some (Result [] (consumed (MState [] l []) e) e)
  | [] => None
  end.
Proof.
  unfold exec. destruct l as [|x l]; cbn [search ends at_bol m_before flat_map];
    rewrite app_nil_r; destruct (ends false r _); try reflexivity.
  rewrite search_anchored by discriminate. reflexivity.
Qed.

Lemma flat_map_singleton {A : Type} (l : list A) :
  flat_map (fun x => [x]) l = l.
Proof. induction l as [|x l IH]; [reflexivity|]. cbn [flat_map app]. f_equal. exact IH. Qed.

Lemma flat_map_map' {A B C : Type} (f : B -> list C) (g : A -> B) l :
  flat_map f (map g l) = flat_map (fun x => f (g x)) l.
Proof.
  induction l as [|x l IH]; [reflexivity|]. cbn [map flat_map]. rewrite IH.
  reflexivity.
Qed.

Lemma dropWhile_length p s : length (dropWhile p s) <= length s.
Proof.
  induction s as [|x s IH]; [cbn; lia|]. cbn [dropWhile].
  destruct (p x); cbn [length]; lia.
Qed.

Lemma firstn_takeWhile p s :
  firstn (length s - length (dropWhile p s)) s = takeWhile p s.
Proof.
  induction s as [|x s IH]; [reflexivity|]. cbn [dropWhile takeWhile].
  destruct (p x).
  - pose proof (dropWhile_length p s).
    replace (length (x :: s) - length (dropWhile p s))
      with (S (length s - length (dropWhile p s))) by (cbn [length]; lia).
    cbn [firstn]. rewrite IH. reflexivity.
  - rewrite Nat.sub_diag. reflexivity.
Qed.

(** A capturing group around [p+], followed by something that fails in
    front of a code unit of [p]: the group takes the longest run. *)
Lemma group_plus_longest ml i p (K : mstate -> list mstate) b a c :
  (forall b' x rest caps, p x = true -> K (MState b' (x :: rest) caps) = []) ->
  flat_map K (ends ml (Grp i (plus (Cls p))) (MState b a c)) =
  match takeWhile p a with
  | [] => []
  | _ :: _ =>
      K (MState (rev (takeWhile p a) ++ b) (dropWhile p a)
           ((i, takeWhile p a) :: c))
  end.
Proof.
  intros HK. unfold plus. rewrite ends_grp, ends_seq, ends_cls.
  destruct a as [|x a]; [reflexivity|]. cbn [takeWhile dropWhile].
  destruct (p x) eqn:E; [|reflexivity].
  cbn [flat_map]. rewrite app_nil_r, ends_star. cbn [m_after].
  rewrite star_cls by lia.
  rewrite flat_map_map'.
  rewrite (runStates_longest p _ c a (x :: b)).
  - cbn [m_before m_after m_caps]. unfold consumed. cbn [m_after].
    pose proof (firstn_takeWhile p (x :: a)) as Hf.
    cbn [dropWhile takeWhile] in Hf. rewrite E in Hf. rewrite Hf.
    cbn [rev]. rewrite <- app_assoc. reflexivity.
  - intros b' y rest Hy. cbn [m_before m_after m_caps]. apply HK, Hy.
Qed.

(** [^PREFIX(.+)$]: a match is the whole line, and the group is what
    follows the prefix. *)
Lemma exec_header pre l :
  exec false (seqs [Bol; str pre; Grp 1 (plus dot); Eol]) l =
  if JS.startsWith l pre
  then match takeWhile dotp (skipn (length pre) l),
             dropWhile dotp (skipn (length pre) l) with
       | _ :: _, [] =>
           Some (Result [] l
                   (MState (rev (skipn (length pre) l) ++ rev pre) []
                      [(1, skipn (length pre) l)]))
       | _, _ => None
       end
  else None.
Proof.
  change (seqs [Bol; str pre; Grp 1 (plus dot); Eol])
    with (Seq Bol (Seq (str pre) (Seq (Grp 1 (plus dot)) (Seq Eol Eps)))).
  rewrite exec_anchored, ends_seq, ends_str.
  destruct (JS.startsWith l pre) eqn:Es; [|reflexivity].
  cbn [flat_map]. rewrite app_nil_r.
  set (l' := skipn (length pre) l).
  change dot with (Cls dotp). rewrite ends_seq.
  rewrite (group_plus_longest false 1 dotp (ends false (Seq Eol Eps))).
  2:{ intros b' x rest caps _. reflexivity. }
  pose proof (takeWhile_dropWhile dotp l') as Htd.
  destruct (takeWhile dotp l') as [|y t] eqn:Et; [reflexivity|].
  destruct (dropWhile dotp l') as [|z d] eqn:Ed; [|reflexivity].
  cbn [ends at_eol m_after flat_map app]. rewrite app_nil_r in Htd.
  rewrite Htd. unfold consumed. cbn [m_after length].
  rewrite Nat.sub_0_r, firstn_all, app_nil_r. reflexivity.
Qed.

Lemma exec_header_sound pre l m :
  exec false (seqs [Bol; str pre; Grp 1 (plus dot); Eol]) l = Some m ->
  l = pre ++ groupText 1 m.
Proof.
  rewrite exec_header. destruct (JS.startsWith l pre) eqn:Es; [|discriminate].
  apply startsWith_prefix in Es as [rest ->].
  rewrite skipn_app, skipn_all, Nat.sub_diag. cbn [skipn app].
  destruct (takeWhile dotp rest); [discriminate|].
  destruct (dropWhile dotp rest); [|discriminate].
  intros [= <-]. reflexivity.
Qed.

Lemma exec_header_none pre l :
  JS.startsWith l pre = false ->
  exec false (seqs [Bol; str pre; Grp 1 (plus dot); Eol]) l = None.
Proof. intros H. rewrite exec_header, H. reflexivity. Qed.

Lemma ends_seq_eps ml a st : ends ml (Seq a Eps) st = ends ml a st.
Proof. rewrite ends_seq. exact (flat_map_singleton _). Qed.

Lemma ends_linkTail b a c :
  ends false linkTail (MState b a c) =
  if JS.startsWith a (JS.lit "]]")
  then [MState (rev (JS.lit "]]") ++ b) (skipn 2 a) c] else [].
Proof. unfold linkTail. rewrite ends_seq_eps, ends_str. reflexivity. Qed.

Lemma linkTail_fails b x rest c :
  notBracket x = true -> ends false linkTail (MState b (x :: rest) c) = [].
Proof.
  intros H. rewrite ends_linkTail.
  change (JS.lit "]]") with [93%N; 93%N]. cbn [JS.startsWith].
  unfold notBracket in H. apply negb_true_iff in H.
  rewrite N.eqb_sym, H. reflexivity.
Qed.

Lemma notBracketOrBar_split x :
  notBracketOrBar x = true -> N.eqb x 93 = false /\ N.eqb x 124 = false.
Proof.
  unfold notBracketOrBar. intros H. apply negb_true_iff, orb_false_elim in H.
  exact H.
Qed.

Lemma ends_linkAlias b a c :
  flat_map (ends false linkTail) (ends false linkAlias (MState b a c)) =
  match aliasAt a with
  | Some (al, rest) =>
      [MState (rev (JS.lit "]]") ++ rev al ++ 124%N :: b) rest ((2, al) :: c)]
  | None => []
  end.
Proof.
  unfold linkAlias, aliasAt.
  change (seqs [chr 124; Grp 2 (plus (Cls notBracket))])
    with (Seq (chr 124) (Seq (Grp 2 (plus (Cls notBracket))) Eps)).
  rewrite ends_seq, ends_chr. destruct a as [|x r2]; [reflexivity|].
  destruct (N.eqb 124 x) eqn:E; [|reflexivity].
  cbn [flat_map]. rewrite app_nil_r.
  replace (ends false (Seq (Grp 2 (plus (Cls notBracket))) Eps) (MState (x :: b) r2 c))
    with (ends false (Grp 2 (plus (Cls notBracket))) (MState (x :: b) r2 c))
    by (symmetry; apply ends_seq_eps).
  rewrite (group_plus_longest false 2 notBracket (ends false linkTail)).
  - apply N.eqb_eq in E. subst x.
    destruct (takeWhile notBracket r2) as [|y t]; [reflexivity|].
    rewrite ends_linkTail.
    destruct (JS.startsWith (dropWhile notBracket r2) (JS.lit "]]")); reflexivity.
  - intros b' y rest caps Hy. apply linkTail_fails, Hy.
Qed.

Lemma linkRest_fails b x rest c :
  notBracketOrBar x = true ->
  ends false (Seq (opt linkAlias) linkTail) (MState b (x :: rest) c) = [].
Proof.
  intros H. apply notBracketOrBar_split in H as [H1 H2].
  rewrite ends_seq. unfold opt. rewrite ends_alt, flat_map_app, ends_linkAlias.
  unfold aliasAt. rewrite N.eqb_sym, H2. rewrite ends_eps. cbn [flat_map app].
  rewrite app_nil_r. apply linkTail_fails. unfold notBracket. rewrite H1.
  reflexivity.
Qed.

Lemma ends_link b a c :
  match linkAt a with
  | Some (name, al, rest) =>
      exists b', ends false linkRegex (MState b a c) =
                 [MState b' rest (linkCaps name al ++ c)]
  | None => ends false linkRegex (MState b a c) = []
  end.
Proof.
  unfold linkAt.
  change linkRegex
    with (Seq (str (JS.lit "[["))
            (Seq (Grp 1 (plus (Cls notBracketOrBar)))
               (Seq (opt linkAlias) linkTail))).
  rewrite ends_seq, ends_str.
  destruct (JS.startsWith a (JS.lit "[[")); [|reflexivity].
  cbn [flat_map]. rewrite app_nil_r.
  change (length (JS.lit "[[")) with 2.
  set (a1 := skipn 2 a). rewrite ends_seq.
  rewrite (group_plus_longest false 1 notBracketOrBar
             (ends false (Seq (opt linkAlias) linkTail))).
  2:{ intros b' y rest caps Hy. apply linkRest_fails, Hy. }
  destruct (takeWhile notBracketOrBar a1) as [|y t] eqn:Et; [reflexivity|].
  rewrite ends_seq. unfold opt. rewrite ends_alt, flat_map_app, ends_linkAlias.
  rewrite ends_eps. cbn [flat_map]. rewrite app_nil_r, ends_linkTail.
  destruct (aliasAt (dropWhile notBracketOrBar a1)) as [[al rest]|] eqn:Ea.
  - unfold aliasAt in Ea.
    destruct (dropWhile notBracketOrBar a1) as [|x r2]; [discriminate|].
    destruct (N.eqb 124 x) eqn:E; [|discriminate].
    apply N.eqb_eq in E. subst x.
    change (JS.startsWith (124%N :: r2) (JS.lit "]]")) with false.
    eexists. reflexivity.
  - destruct (JS.startsWith (dropWhile notBracketOrBar a1) (JS.lit "]]"));
      [eexists|]; reflexivity.
Qed.

Lemma search_link a : forall b,
  match firstLink a with
  | Some (name, al) =>
      exists m, search false linkRegex b a = Some m /\
                r_group 1 m = Some name /\ r_group 2 m = al
  | None => search false linkRegex b a = None
  end.
Proof.
  induction a as [|x a IH]; intros b.
  - pose proof (ends_link b [] []) as H. cbn [firstLink search].
    destruct (linkAt []) as [[[name al] rest]|].
    + destruct H as [b' ->]. eexists. split; [reflexivity|].
      destruct al; split; reflexivity.
    + rewrite H. reflexivity.
  - pose proof (ends_link b (x :: a) []) as H. cbn [firstLink search].
    destruct (linkAt (x :: a)) as [[[name al] rest]|].
    + destruct H as [b' ->]. eexists. split; [reflexivity|].
      destruct al; split; reflexivity.
    + rewrite H. specialize (IH (x :: b)).
      destruct (firstLink a) as [[name al]|].
      * destruct IH as [m [-> [H1 H2]]]. eexists. split; [reflexivity|].
        split; assumption.
      * rewrite IH. reflexivity.
Qed.

Lemma takeWhile_app p s x rest :
  forallb p s = true -> p x = false ->
  takeWhile p (s ++ x :: rest) = s /\ dropWhile p (s ++ x :: rest) = x :: rest.
Proof.
  intros Hs Hx. induction s as [|y s IH]; cbn [app takeWhile dropWhile].
  - rewrite Hx. split; reflexivity.
  - cbn [forallb] in Hs. apply andb_true_iff in Hs as [Hy Hs]. rewrite Hy.
    destruct (IH Hs) as [-> ->]. split; reflexivity.
Qed.

Lemma dropWhile_head p s x rest : dropWhile p s = x :: rest -> p x = false.
Proof.
  induction s as [|y s IH]; cbn [dropWhile]; [discriminate|].
  destruct (p y) eqn:E; [exact IH|]. intros [= <- _]. exact E.
Qed.

Lemma skipn_startsWith a p :
  JS.startsWith a p = true -> a = p ++ skipn (length p) a.
Proof.
  intros H. apply startsWith_prefix in H as [rest ->].
  rewrite skipn_app, skipn_all, Nat.sub_diag. reflexivity.
Qed.

Lemma aliasAt_sound r1 al rest :
  aliasAt r1 = Some (al, rest) ->
  r1 = JS.lit "|" ++ al ++ JS.lit "]]" ++ rest /\
  al <> [] /\ forallb notBracket al = true.
Proof.
  unfold aliasAt. destruct r1 as [|x r2]; [discriminate|].
  destruct (N.eqb 124 x) eqn:E; [|discriminate]. apply N.eqb_eq in E. subst x.
  pose proof (takeWhile_dropWhile notBracket r2) as Htd.
  pose proof (takeWhile_all notBracket r2) as Hall.
  destruct (takeWhile notBracket r2) as [|y t]; [discriminate|].
  destruct (JS.startsWith (dropWhile notBracket r2) (JS.lit "]]")) eqn:Es;
    [|discriminate].
  intros H. assert (Hal : y :: t = al) by congruence.
  assert (Hr : skipn 2 (dropWhile notBracket r2) = rest) by congruence.
  subst al rest. clear H. apply skipn_startsWith in Es.
  change (length (JS.lit "]]")) with 2 in Es.
  split; [|split; [discriminate|exact Hall]].
  rewrite <- Es, Htd. reflexivity.
Qed.

Lemma linkAt_sound a name al rest :
  linkAt a = Some (name, al, rest) ->
  a = linkText name al ++ rest /\ linkParts name al.
Proof.
  unfold linkAt, linkText, linkParts.
  destruct (JS.startsWith a (JS.lit "[[")) eqn:Es; [|discriminate].
  apply skipn_startsWith in Es. change (length (JS.lit "[[")) with 2 in Es.
  pose proof (takeWhile_dropWhile notBracketOrBar (skipn 2 a)) as Htd.
  pose proof (takeWhile_all notBracketOrBar (skipn 2 a)) as Hall.
  destruct (takeWhile notBracketOrBar (skipn 2 a)) as [|y t]; [discriminate|].
  cbv zeta.
  destruct (aliasAt (dropWhile notBracketOrBar (skipn 2 a)))
    as [[x rest']|] eqn:Ea.
  - intros H. assert (Hn : y :: t = name) by congruence.
    assert (Hal : Some x = al) by congruence.
    assert (Hr : rest' = rest) by congruence. subst name al rest'. clear H.
    apply aliasAt_sound in Ea as [Ea [Hx Hxa]].
    split; [|split; [discriminate|split; [exact Hall|split; assumption]]].
    rewrite Es at 1. rewrite <- Htd, Ea, <- !app_assoc. reflexivity.
  - destruct (JS.startsWith (dropWhile notBracketOrBar (skipn 2 a)) (JS.lit "]]"))
      eqn:Es2; [|discriminate].
    intros H. assert (Hn : y :: t = name) by congruence.
    assert (Hal : None = al) by congruence.
    assert (Hr : skipn 2 (dropWhile notBracketOrBar (skipn 2 a)) = rest)
      by congruence.
    subst name al rest. clear H. apply skipn_startsWith in Es2.
    change (length (JS.lit "]]")) with 2 in Es2.
    split; [|split; [discriminate|split; [exact Hall|exact I]]].
    rewrite Es at 1. rewrite <- Htd, Es2 at 1. rewrite <- !app_assoc.
    reflexivity.
Qed.

Lemma linkAt_linkText name al rest :
  linkParts name al ->
  linkAt (linkText name al ++ rest) = Some (name, al, rest).
Proof.
  intros [Hn [Hna Hal]]. unfold linkAt, linkText.
  change (JS.lit "[[") with [91%N; 91%N]. cbn [app JS.startsWith N.eqb Pos.eqb andb skipn].
  rewrite startsWith_nil.
  destruct al as [x|].
  - destruct Hal as [Hx Hxa].
    change (JS.lit "|") with [124%N]. change (JS.lit "]]") with [93%N; 93%N].
    rewrite <- !app_assoc. cbn [app].
    destruct (takeWhile_app notBracketOrBar name 124 (x ++ 93%N :: 93%N :: rest) Hna eq_refl)
      as [-> ->].
    destruct name as [|n0 name]; [congruence|]. cbv zeta.
    unfold aliasAt. cbn [N.eqb Pos.eqb].
    destruct (takeWhile_app notBracket x 93 (93%N :: rest) Hxa eq_refl)
      as [-> ->].
    destruct x as [|x0 x]; [congruence|].
    change (JS.lit "]]") with [93%N; 93%N].
    cbn [JS.startsWith N.eqb Pos.eqb andb skipn]. rewrite startsWith_nil.
    reflexivity.
  - change (JS.lit "]]") with [93%N; 93%N]. rewrite <- !app_assoc. cbn [app].
    destruct (takeWhile_app notBracketOrBar name 93 (93%N :: rest) Hna eq_refl)
      as [-> ->].
    destruct name as [|n0 name]; [congruence|]. cbv zeta.
    unfold aliasAt. cbn [JS.startsWith N.eqb Pos.eqb andb skipn].
    rewrite startsWith_nil. reflexivity.
Qed.

Lemma firstLink_sound a : forall name al,
  firstLink a = Some (name, al) ->
  linkParts name al /\ exists p q, a = p ++ linkText name al ++ q.
Proof.
  induction a as [|x a IH]; intros name al; cbn [firstLink].
  - destruct (linkAt []) as [[[n' al'] rest]|] eqn:E; [|discriminate].
    intros [= <- <-]. apply linkAt_sound in E as [E Hp].
    split; [exact Hp|]. exists [], rest. exact E.
  - destruct (linkAt (x :: a)) as [[[n' al'] rest]|] eqn:E.
    + intros [= <- <-]. apply linkAt_sound in E as [E Hp].
      split; [exact Hp|]. exists [], rest. exact E.
    + intros H. apply IH in H as [Hp [p [q Hq]]]. split; [exact Hp|].
      exists (x :: p), q. rewrite Hq. reflexivity.
Qed.

(** No link starts inside a prefix that holds no [[. *)
Lemma linkAt_needs_brackets a :
  JS.startsWith a (JS.lit "[[") = false -> linkAt a = None.
Proof. unfold linkAt. intros ->. reflexivity. Qed.

Lemma firstLink_skip p : forall rest,
  JS.find (p ++ rest) (JS.lit "[[") = Some (length p) ->
  firstLink (p ++ rest) = firstLink rest.
Proof.
  induction p as [|x p IH]; intros rest H; [reflexivity|].
  cbn [app JS.find length] in H.
  destruct (JS.startsWith (x :: p ++ rest) (JS.lit "[[")) eqn:Es; [discriminate|].
  destruct (JS.find (p ++ rest) (JS.lit "[[")) as [k|] eqn:Ef; [|discriminate].
  cbn [option_map] in H. injection H as ->.
  cbn [app firstLink]. rewrite (linkAt_needs_brackets _ Es). apply IH, Ef.
Qed.

(** [/^-\s*/] removes a leading dash and the white space behind it. *)
Lemma dropWhile_space s : dropWhile JS.is_space s = JS.trimStart s.
Proof.
  induction s as [|x s IH]; [reflexivity|]. cbn [dropWhile JS.trimStart].
  rewrite IH. reflexivity.
Qed.

Lemma replace_dash l :
  replace false dashRegex [] l =
  match l with
  | x :: l' => if N.eqb 45 x then JS.trimStart l' else l
  | [] => []
  end.
Proof.
  unfold replace.
  change dashRegex
    with (Seq Bol (Seq (chr 45) (Seq (Star (Cls JS.is_space)) Eps))).
  rewrite exec_anchored, ends_seq, ends_chr. destruct l as [|x l']; [reflexivity|].
  destruct (N.eqb 45 x); [|reflexivity].
  cbn [flat_map]. rewrite app_nil_r, ends_seq_eps, ends_star. cbn [m_after].
  rewrite star_cls by lia.
  destruct (runStates_head JS.is_space [] l' [x]) as [tl ->].
  cbn [r_skipped r_end m_after app]. apply dropWhile_space.
Qed.

End MatcherFacts.

(** *** Occurrences of the opening brackets *)

Import MatcherFacts.

Lemma startsWith_app s v p :
  JS.startsWith s p = true -> JS.startsWith (s ++ v) p = true.
Proof.
  intros H. apply startsWith_prefix in H as [rest ->].
  apply startsWith_prefix. exists (rest ++ v). rewrite app_assoc. reflexivity.
Qed.

Lemma startsWith_app_false s v p :
  JS.startsWith (s ++ v) p = false -> JS.startsWith s p = false.
Proof.
  intros H. destruct (JS.startsWith s p) eqn:E; [|reflexivity].
  rewrite (startsWith_app _ v _ E) in H. discriminate.
Qed.

Lemma find_none_suffix w s p :
  JS.find (w ++ s) p = None -> JS.find s p = None.
Proof.
  induction w as [|x w IH]; intros H; [exact H|]. apply IH.
  cbn [app JS.find] in H.
  destruct (JS.startsWith (x :: w ++ s) p); [discriminate|].
  destruct (JS.find (w ++ s) p); [discriminate|reflexivity].
Qed.

Lemma find_nil p : p <> [] -> JS.find [] p = None.
Proof. destruct p; [congruence|reflexivity]. Qed.

Lemma find_none_prefix s v p :
  p <> [] -> JS.find (s ++ v) p = None -> JS.find s p = None.
Proof.
  intros Hp. induction s as [|x s IH]; intros H; [apply find_nil, Hp|].
  cbn [app JS.find] in *.
  destruct (JS.startsWith (x :: s ++ v) p) eqn:Es; [discriminate|].
  rewrite (startsWith_app_false (x :: s) v p Es).
  destruct (JS.find (s ++ v) p); [discriminate|].
  rewrite (IH eq_refl). reflexivity.
Qed.

Lemma find_firstn p : p <> [] -> forall l k,
  JS.find l p = Some k -> JS.find (firstn k l) p = None.
Proof.
  intros Hp. induction l as [|x l IH]; intros k H.
  - rewrite firstn_nil. apply find_nil, Hp.
  - cbn [JS.find] in H. destruct (JS.startsWith (x :: l) p) eqn:Es.
    + injection H as <-. apply find_nil, Hp.
    + destruct (JS.find l p) as [k'|] eqn:Ef; [|discriminate].
      injection H as <-. cbn [firstn JS.find].
      rewrite <- (firstn_skipn k' l) in Es.
      rewrite (startsWith_app_false (x :: firstn k' l) _ p Es).
      rewrite (IH k' eq_refl). reflexivity.
Qed.

Lemma find_here s p : JS.startsWith s p = true -> JS.find s p = Some 0.
Proof. intros H. destruct s; cbn [JS.find]; rewrite H; reflexivity. Qed.

Lemma find_later c s p :
  JS.startsWith (c :: s) p = false ->
  JS.find (c :: s) p = option_map S (JS.find s p).
Proof. intros H. cbn [JS.find]. rewrite H. reflexivity. Qed.

Lemma find_brackets_after e c tail :
  JS.find e (JS.lit "[[") = None -> N.eqb 91 c = false ->
  JS.find (e ++ c :: JS.lit "[[" ++ tail) (JS.lit "[[") = Some (S (length e)).
Proof.
  change (JS.lit "[[") with [91%N; 91%N]. intros He Hc.
  change ([91%N; 91%N] ++ tail) with (91%N :: 91%N :: tail).
  induction e as [|x e IH].
  - cbn [app length]. rewrite find_later, find_here; [reflexivity| |].
    + cbn [JS.startsWith N.eqb Pos.eqb andb]. apply startsWith_nil.
    + cbn [JS.startsWith]. rewrite Hc. reflexivity.
  - cbn [JS.find] in He.
    destruct (JS.startsWith (x :: e) [91%N; 91%N]) eqn:Es; [discriminate|].
    destruct (JS.find e [91%N; 91%N]) eqn:Ef; [discriminate|].
    cbn [app length]. rewrite find_later, (IH eq_refl); [reflexivity|].
    cbn [JS.startsWith] in *. destruct (N.eqb 91 x); [|reflexivity].
    destruct e as [|y e]; cbn [app andb JS.startsWith] in *.
    + rewrite Hc. reflexivity.
    + destruct (N.eqb 91 y); [|reflexivity]. rewrite startsWith_nil in Es.
      discriminate.
Qed.

(** *** Trimming *)

Lemma trimStart_idem s : JS.trimStart (JS.trimStart s) = JS.trimStart s.
Proof.
  induction s as [|x s IH]; [reflexivity|]. cbn [JS.trimStart].
  destruct (JS.is_space x) eqn:E; [exact IH|]. cbn [JS.trimStart]. rewrite E.
  reflexivity.
Qed.

Lemma trimStart_head x s :
  JS.trimStart (x :: s) = x :: s -> JS.is_space x = false.
Proof.
  cbn [JS.trimStart]. destruct (JS.is_space x); [|reflexivity]. intros H.
  destruct (trimStart_suffix s) as [w Hw]. rewrite H in Hw.
  apply (f_equal (@length _)) in Hw. rewrite length_app in Hw.
  cbn [length] in Hw. lia.
Qed.

Lemma trim_trimmed s : trimmed (JS.trim s).
Proof.
  unfold trimmed, JS.trim, JS.trimEnd. rewrite rev_involutive, trimStart_idem.
  split; [|reflexivity].
  destruct (trimStart_suffix (rev (JS.trimStart s))) as [w Hw].
  set (z := JS.trimStart (rev (JS.trimStart s))) in *.
  apply (f_equal (@rev _)) in Hw. rewrite rev_involutive, rev_app_distr in Hw.
  destruct (rev z) as [|c r]; [reflexivity|].
  pose proof (trimStart_idem s) as Hi. rewrite Hw in Hi. cbn [app] in Hi.
  apply trimStart_head in Hi. cbn [JS.trimStart]. rewrite Hi. reflexivity.
Qed.

Lemma trim_with_space e :
  trimmed e -> e <> [] -> JS.trim (JS.trimStart (e ++ JS.lit " ")) = e.
Proof.
  intros [Hs He] Hne. destruct e as [|x e]; [congruence|].
  pose proof (trimStart_head _ _ Hs) as Hx.
  assert (H1 : JS.trimStart ((x :: e) ++ JS.lit " ") = (x :: e) ++ JS.lit " ")
    by (cbn [app JS.trimStart]; rewrite Hx; reflexivity).
  unfold JS.trim, JS.trimEnd. rewrite !H1, rev_app_distr.
  change (rev (JS.lit " ")) with [32%N]. cbn [app JS.trimStart].
  change (JS.is_space 32) with true. cbn iota. rewrite He.
  apply rev_involutive.
Qed.

Lemma noBrackets_trim s :
  JS.find s (JS.lit "[[") = None -> JS.find (JS.trim s) (JS.lit "[[") = None.
Proof.
  intros H. unfold JS.trim.
  destruct (trimStart_suffix s) as [w Hw]. rewrite Hw in H.
  apply find_none_suffix in H.
  destruct (trimEnd_prefix (JS.trimStart s)) as [v Hv]. rewrite Hv in H.
  apply find_none_prefix in H; [exact H|discriminate].
Qed.

Lemma noBrackets_dash s :
  JS.find s (JS.lit "[[") = None ->
  JS.find (Re.replace false dashRegex [] s) (JS.lit "[[") = None.
Proof.
  intros H. rewrite replace_dash. destruct s as [|x s]; [exact H|].
  destruct (N.eqb 45 x); [|exact H].
  destruct (trimStart_suffix s) as [w Hw].
  apply (find_none_suffix (x :: w)). cbn [app]. rewrite <- Hw. exact H.
Qed.

Lemma find_le p : forall l k, JS.find l p = Some k -> k <= length l.
Proof.
  induction l as [|x l IH]; intros k H; cbn [JS.find] in H.
  - destruct (JS.startsWith [] p); [|discriminate]. injection H as <-. lia.
  - destruct (JS.startsWith (x :: l) p); [injection H as <-; lia|].
    destruct (JS.find l p) as [k'|] eqn:E; [|discriminate].
    injection H as <-. specialize (IH k' eq_refl). cbn [length]. lia.
Qed.

Lemma substring_prefix s k :
  k <= length s -> JS.substring s 0 (Z.of_nat k) = firstn k s.
Proof.
  intros H. unfold JS.substring, JS.clamp. rewrite Nat2Z.id.
  change (Z.to_nat 0) with 0. rewrite Nat.min_0_r.
  replace (Nat.min (length s) k) with k by lia.
  cbn [Nat.min Nat.max skipn]. rewrite Nat.sub_0_r. reflexivity.
Qed.

Lemma beforeLink_noBrackets l :
  JS.find (JS.substring l 0 (JS.indexOf l (JS.lit "[["))) (JS.lit "[[") = None.
Proof.
  unfold JS.indexOf. destruct (JS.find l (JS.lit "[[")) as [k|] eqn:E.
  - rewrite substring_prefix by (eapply find_le; exact E).
    apply find_firstn; [discriminate|exact E].
  - unfold JS.substring, JS.clamp. change (Z.to_nat (-1)) with 0.
    change (Z.to_nat 0) with 0. rewrite Nat.min_0_r. reflexivity.
Qed.

(** *** One line, written back and parsed again *)

Lemma orElse_same a b b' :
  (orElse a b = b -> b' = b) -> orElse a b' = orElse a b.
Proof.
  destruct a as [[|x e]|]; cbn [orElse JS.truthy]; intros H;
    try reflexivity; apply H; reflexivity.
Qed.

Lemma orElse_noBrackets md name b :
  cleanMetadata md -> JS.find b (JS.lit "[[") = None ->
  JS.find (orElse (frontmatterEmoji md name) b) (JS.lit "[[") = None.
Proof.
  intros Hmd Hb. destruct (frontmatterEmoji md name) as [e|] eqn:E; [|exact Hb].
  cbn [orElse]. destruct (JS.truthy e); [|exact Hb]. apply (Hmd name e E).
Qed.

Lemma orNull_linkParts name al : linkParts name al -> orNull al = al.
Proof.
  intros [_ [_ H]]. destruct al as [[|x a]|]; [|reflexivity|reflexivity].
  destruct H as [H _]. congruence.
Qed.

Lemma firstLink_here a name al rest :
  linkAt a = Some (name, al, rest) -> firstLink a = Some (name, al).
Proof. intros H. destruct a; cbn [firstLink]; rewrite H; reflexivity. Qed.

Lemma formatPriorityEntry_text n name e al :
  linkParts name al ->
  formatPriorityEntry
    {| oid := n; projectName := name; emoji := e; alias := al |} =
  (JS.lit "- " ++ writtenEmoji e) ++ linkText name al.
Proof.
  intros Hp. unfold formatPriorityEntry, writtenEmoji, linkText.
  cbn [emoji alias projectName]. rewrite (orNull_linkParts _ _ Hp).
  rewrite <- !app_assoc. destruct al; reflexivity.
Qed.

Lemma written_find e tail :
  JS.find e (JS.lit "[[") = None ->
  JS.find ((JS.lit "- " ++ writtenEmoji e) ++ JS.lit "[[" ++ tail) (JS.lit "[[") =
  Some (length (JS.lit "- " ++ writtenEmoji e)).
Proof.
  intros He. unfold writtenEmoji. change (JS.lit "- ") with [45%N; 32%N].
  destruct e as [|x e]; cbn [JS.truthy].
  - cbn [app length]. rewrite !find_later by reflexivity.
    rewrite find_here; [reflexivity|].
    change (JS.lit "[[") with [91%N; 91%N].
    cbn [JS.startsWith N.eqb Pos.eqb andb]. apply startsWith_nil.
  - change (JS.lit " ") with [32%N]. rewrite <- !app_assoc.
    change ([45%N; 32%N] ++ (x :: e) ++ [32%N] ++ JS.lit "[[" ++ tail)
      with (45%N :: 32%N :: (x :: e) ++ 32%N :: JS.lit "[[" ++ tail).
    rewrite !find_later by reflexivity.
    rewrite find_brackets_after by (try exact He; reflexivity).
    cbn [option_map app length]. rewrite length_app. cbn [length].
    f_equal. lia.
Qed.

Lemma written_emoji md name b e :
  e = orElse (frontmatterEmoji md name) (JS.trim b) ->
  orElse (frontmatterEmoji md name)
    (JS.trim (Re.replace false dashRegex [] (JS.lit "- " ++ writtenEmoji e))) = e.
Proof.
  intros He. rewrite He at 2. apply orElse_same. intros Hb.
  rewrite Hb in He. subst e. rewrite replace_dash.
  change (JS.lit "- ") with [45%N; 32%N]. cbn [app N.eqb Pos.eqb].
  change (JS.trimStart (32%N :: ?x)) with (JS.trimStart x).
  unfold writtenEmoji. destruct (JS.trim b) as [|x t] eqn:Et; cbn [JS.truthy].
  - reflexivity.
  - rewrite <- Et. apply trim_with_space; [apply trim_trimmed|].
    rewrite Et. discriminate.
Qed.

Lemma formatted_not_section e :
  Re.exec false sectionRegex (formatPriorityEntry e) = None.
Proof. apply exec_header_none. reflexivity. Qed.

Lemma formatted_not_subsection e :
  Re.exec false subsectionRegex (formatPriorityEntry e) = None.
Proof. apply exec_header_none. reflexivity. Qed.

Lemma entry_reparse md n l m :
  cleanMetadata md ->
  Re.exec false linkRegex l = Some m ->
  exists m',
    Re.exec false linkRegex (formatPriorityEntry (entryOfLine md n l m)) =
      Some m' /\
    entryOfLine md n (formatPriorityEntry (entryOfLine md n l m)) m' =
      entryOfLine md n l m.
Proof.
  intros Hmd Hm. unfold Re.exec in Hm.
  pose proof (search_link l []) as Hs.
  destruct (firstLink l) as [[name al]|] eqn:Ef; [|congruence].
  destruct Hs as [m0 [Hm0 [H1 H2]]].
  assert (m0 = m) by congruence. subst m0. clear Hm0.
  apply firstLink_sound in Ef as [Hp _].
  unfold entryOfLine at 1 3 4. unfold groupText. rewrite H1, H2.
  rewrite (orNull_linkParts _ _ Hp). cbv zeta.
  set (b := Re.replace false dashRegex []
              (JS.substring l 0 (JS.indexOf l (JS.lit "[[")))).
  set (e := orElse (frontmatterEmoji md name) (JS.trim b)).
  assert (He : JS.find e (JS.lit "[[") = None)
    by (apply orElse_noBrackets; [exact Hmd|];
        apply noBrackets_trim, noBrackets_dash, beforeLink_noBrackets).
  rewrite (formatPriorityEntry_text _ _ _ _ Hp).
  set (pre := JS.lit "- " ++ writtenEmoji e).
  assert (Hfind : JS.find (pre ++ linkText name al) (JS.lit "[[") =
                  Some (length pre))
    by (unfold linkText; apply written_find, He).
  pose proof (search_link (pre ++ linkText name al) []) as Hs.
  rewrite (firstLink_skip _ _ Hfind) in Hs.
  assert (Hl : firstLink (linkText name al) = Some (name, al)).
  { apply (firstLink_here _ name al []).
    pose proof (linkAt_linkText name al [] Hp) as H.
    rewrite app_nil_r in H. exact H. }
  rewrite Hl in Hs.
  destruct Hs as [m' [Hm' [H1' H2']]]. exists m'. split; [exact Hm'|].
  unfold entryOfLine, groupText. rewrite H1', H2'.
  rewrite (orNull_linkParts _ _ Hp). cbv zeta. f_equal.
  unfold JS.indexOf. rewrite Hfind.
  rewrite substring_prefix by (rewrite length_app; lia).
  rewrite firstn_app, firstn_all, Nat.sub_diag. cbn [firstn].
  rewrite app_nil_r. apply (written_emoji md name b e). reflexivity.
Qed.

Lemma parseLine_entry md st l m s :
  Re.exec false sectionRegex l = None ->
  Re.exec false subsectionRegex l = None ->
  Re.exec false linkRegex l = Some m ->
  currentSection st = Some s ->
  parseLine md st l = addEntry st s (entryOfLine md (nextOid st) l m).
Proof.
  intros H1 H2 H3 H4. unfold parseLine. rewrite H1, H2, H3, H4. reflexivity.
Qed.

Lemma parseLine_blank md st : parseLine md st [] = st.
Proof.
  unfold parseLine.
  replace (Re.exec false sectionRegex []) with (@None Re.result)
    by (vm_compute; reflexivity).
  replace (Re.exec false subsectionRegex []) with (@None Re.result)
    by (vm_compute; reflexivity).
  replace (Re.exec false linkRegex []) with (@None Re.result)
    by (vm_compute; reflexivity).
  reflexivity.
Qed.

(** Writing back what a line contributed and parsing that again has the
    effect of the line. *)
Lemma reparse_line md st l :
  cleanMetadata md ->
  fold_left (parseLine md) (rewritten md st l) st = parseLine md st l.
Proof.
  intros Hmd. unfold rewritten.
  destruct (Re.exec false sectionRegex l) as [m|] eqn:Hs.
  { pose proof (exec_header_sound (JS.lit "## ") l m Hs) as Hl.
    rewrite <- Hl. reflexivity. }
  destruct (Re.exec false subsectionRegex l) as [m|] eqn:Hsub.
  { pose proof (exec_header_sound (JS.lit "### ") l m Hsub) as Hl.
    rewrite <- Hl. destruct (currentSection st) eqn:Ec; [reflexivity|].
    unfold parseLine. rewrite Hs, Hsub, Ec. reflexivity. }
  destruct (Re.exec false linkRegex l) as [m|] eqn:Hm.
  2:{ unfold parseLine. rewrite Hs, Hsub, Hm. reflexivity. }
  destruct (currentSection st) as [s|] eqn:Ec.
  2:{ unfold parseLine. rewrite Hs, Hsub, Hm, Ec. reflexivity. }
  destruct (entry_reparse md (nextOid st) l m Hmd Hm) as [m' [Hm' He]].
  cbn [fold_left].
  rewrite (parseLine_entry md st l m s Hs Hsub Hm Ec).
  rewrite (parseLine_entry md st _ m' s (formatted_not_section _)
             (formatted_not_subsection _) Hm' Ec).
  rewrite He. reflexivity.
Qed.

(** *** The written lines, section by section *)

Lemma fold_rebuilt md data : forall st,
  fold_left (parseLine md) (rebuiltLines data) st =
  fold_left (parseLine md) (contentLines data) st.
Proof.
  unfold rebuiltLines, contentLines.
  induction (sections data) as [|s rest IH]; intros st; [reflexivity|].
  cbn [flat_map]. unfold sectionLines at 1.
  rewrite !fold_left_app. cbn [fold_left]. rewrite fold_left_app.
  cbn [fold_left]. rewrite parseLine_blank. apply IH.
Qed.

Lemma subsectionInSection_step md st l :
  subsectionInSection st -> subsectionInSection (parseLine md st l).
Proof.
  unfold subsectionInSection, parseLine. intros H.
  destruct (Re.exec false sectionRegex l).
  { destruct (currentSection st), (currentSubsection st); discriminate. }
  destruct (Re.exec false subsectionRegex l).
  { destruct (currentSection st); [discriminate|].
    intros _. exact (H eq_refl). }
  destruct (Re.exec false linkRegex l); [|exact H].
  destruct (currentSection st); [discriminate|].
  intros _. exact (H eq_refl).
Qed.

Ltac lines_eq :=
  repeat first
    [ progress cbn [sections currentSection currentSubsection ps_sections
                    optionList pushItem pushEntry flat_map sectionName
                    orderedItems itemLines subsectionName entries map app]
    | rewrite flat_map_app
    | rewrite map_app
    | rewrite app_nil_r
    | rewrite <- app_assoc ];
  reflexivity.

Lemma contentLines_step md st l :
  subsectionInSection st ->
  contentLines (finishParse md (parseLine md st l)) =
  contentLines (finishParse md st) ++ rewritten md st l.
Proof.
  unfold subsectionInSection, contentLines, finishParse, parseLine, rewritten.
  intros H.
  destruct (Re.exec false sectionRegex l) as [m|].
  { destruct (currentSection st) as [s|], (currentSubsection st) as [sub|];
      try (specialize (H eq_refl); discriminate); lines_eq. }
  destruct (Re.exec false subsectionRegex l) as [m|].
  { destruct (currentSection st) as [s|] eqn:Ec;
      [|rewrite ?Ec, !app_nil_r; reflexivity].
    destruct (currentSubsection st) as [sub|]; lines_eq. }
  destruct (Re.exec false linkRegex l) as [m|];
    [|rewrite !app_nil_r; reflexivity].
  destruct (currentSection st) as [s|] eqn:Ec;
    [|rewrite ?Ec, !app_nil_r; reflexivity].
  fold (entryOfLine md (nextOid st) l m).
  destruct (currentSubsection st) as [sub|]; lines_eq.
Qed.

(** *** No line feed inside a written line *)

Lemma in_firstn {A : Type} (x : A) n l : In x (firstn n l) -> In x l.
Proof.
  intros H. rewrite <- (firstn_skipn n l). apply in_or_app. left. exact H.
Qed.

Lemma in_skipn {A : Type} (x : A) n l : In x (skipn n l) -> In x l.
Proof.
  intros H. rewrite <- (firstn_skipn n l). apply in_or_app. right. exact H.
Qed.

Lemma in_trimStart c s : In c (JS.trimStart s) -> In c s.
Proof.
  intros H. destruct (trimStart_suffix s) as [w Hw]. rewrite Hw.
  apply in_or_app. right. exact H.
Qed.

Lemma in_trim c s : In c (JS.trim s) -> In c s.
Proof.
  unfold JS.trim. intros H. apply in_trimStart.
  destruct (trimEnd_prefix (JS.trimStart s)) as [w Hw]. rewrite Hw.
  apply in_or_app. left. exact H.
Qed.

Lemma in_dash c s : In c (Re.replace false dashRegex [] s) -> In c s.
Proof.
  rewrite replace_dash. destruct s as [|x s]; [intros H; exact H|].
  destruct (N.eqb 45 x); [|intros H; exact H].
  intros H. right. apply in_trimStart, H.
Qed.

Lemma in_substring c s a b : In c (JS.substring s a b) -> In c s.
Proof. unfold JS.substring. intros H. eapply in_skipn, in_firstn, H. Qed.

Lemma entryOfLine_shape md n l m :
  Re.exec false linkRegex l = Some m ->
  exists name al,
    linkParts name al /\ (exists p q, l = p ++ linkText name al ++ q) /\
    entryOfLine md n l m =
      {| oid := n; projectName := name;
         emoji :=
           orElse (frontmatterEmoji md name)
             (JS.trim (Re.replace false dashRegex []
                         (JS.substring l 0 (JS.indexOf l (JS.lit "[[")))));
         alias := al |}.
Proof.
  intros Hm. unfold Re.exec in Hm. pose proof (search_link l []) as Hs.
  destruct (firstLink l) as [[name al]|] eqn:Ef; [|congruence].
  destruct Hs as [m0 [Hm0 [H1 H2]]].
  assert (m0 = m) by congruence. subst m0.
  apply firstLink_sound in Ef as [Hp Hl]. exists name, al.
  split; [exact Hp|]. split; [exact Hl|].
  unfold entryOfLine, groupText. rewrite H1, H2, (orNull_linkParts _ _ Hp).
  reflexivity.
Qed.

Lemma rewritten_noLF md st l :
  cleanMetadata md -> ~ In LF l ->
  Forall (fun x => ~ In LF x) (rewritten md st l).
Proof.
  intros Hmd Hl. unfold rewritten.
  destruct (Re.exec false sectionRegex l) as [m|] eqn:Hs.
  { rewrite <- (exec_header_sound (JS.lit "## ") l m Hs).
    constructor; [exact Hl|constructor]. }
  destruct (Re.exec false subsectionRegex l) as [m|] eqn:Hsub.
  { rewrite <- (exec_header_sound (JS.lit "### ") l m Hsub).
    destruct (currentSection st); constructor; [exact Hl|constructor]. }
  destruct (Re.exec false linkRegex l) as [m|] eqn:Hm; [|constructor].
  destruct (currentSection st) as [s|]; [|constructor].
  constructor; [|constructor].
  destruct (entryOfLine_shape md (nextOid st) l m Hm)
    as [name [al [Hp [[p [q Hpq]] ->]]]].
  rewrite (formatPriorityEntry_text _ _ _ _ Hp).
  intros Hin. apply in_app_or in Hin as [Hin|Hin].
  - apply in_app_or in Hin as [Hin|Hin].
    + unfold LF in Hin. cbn in Hin. destruct Hin as [Hin|[Hin|[]]]; discriminate.
    + unfold writtenEmoji in Hin.
      destruct (JS.truthy _) eqn:Et; [|exact Hin].
      apply in_app_or in Hin as [Hin|Hin].
      * destruct (frontmatterEmoji md name) as [e|] eqn:Ee; cbn [orElse] in Hin.
        -- destruct (JS.truthy e).
           ++ apply (proj1 (Hmd name e Ee)), Hin.
           ++ apply Hl. eapply in_substring, in_dash, in_trim, Hin.
        -- apply Hl. eapply in_substring, in_dash, in_trim, Hin.
      * unfold LF in Hin. cbn in Hin. destruct Hin as [Hin|[]]; discriminate.
  - apply Hl. rewrite Hpq. apply in_or_app. right. apply in_or_app. left.
    exact Hin.
Qed.

(** *** Parsing the written lines gives the state back *)

Lemma reparse_state md (L : list jsstring) :
  cleanMetadata md -> Forall (fun x : jsstring => ~ In LF x) L ->
  let st := fold_left (parseLine md) L initialState in
  subsectionInSection st /\
  fold_left (parseLine md) (contentLines (finishParse md st)) initialState = st /\
  Forall (fun x => ~ In LF x) (contentLines (finishParse md st)).
Proof.
  intros Hmd. induction L as [|l L IH] using rev_ind; intros HL; cbv zeta.
  - split; [intros _; reflexivity|]. split; [reflexivity|constructor].
  - apply Forall_app in HL as [HL Hl]. inversion Hl as [|? ? Hl' _]; subst.
    destruct (IH HL) as [Hinv [Hre Hlf]]. rewrite fold_left_app.
    cbn [fold_left]. cbv zeta in Hinv, Hre, Hlf.
    split; [apply subsectionInSection_step, Hinv|].
    rewrite (contentLines_step md _ l Hinv). split.
    + rewrite fold_left_app, Hre. apply reparse_line, Hmd.
    + apply Forall_app. split; [exact Hlf|]. apply rewritten_noLF; assumption.
Qed.

(** *** From lines to text *)

Lemma parseLines_beforeSeparator md lines : forall st,
  parseLines md st lines = fold_left (parseLine md) (beforeSeparator lines) st.
Proof.
  induction lines as [|l rest IH]; intros st; [reflexivity|].
  cbn [parseLines beforeSeparator]. destruct (isSeparatorLine l); [reflexivity|].
  cbn [fold_left]. apply IH.
Qed.

Lemma beforeSeparator_Forall (P : jsstring -> Prop) lines :
  Forall P lines -> Forall P (beforeSeparator lines).
Proof.
  induction 1 as [|l rest Hl _ IH]; [constructor|]. cbn [beforeSeparator].
  destruct (isSeparatorLine l); constructor; assumption.
Qed.

Lemma split_noLF s : Forall (fun l => ~ In LF l) (JS.split LF s).
Proof.
  induction s as [|c s IH]; [constructor; [intros []|constructor]|].
  cbn [JS.split]. destruct (N.eqb c LF) eqn:E.
  - constructor; [intros []|exact IH].
  - pose proof (split_nonempty LF s) as Hne.
    destruct (JS.split LF s) as [|cur more]; [congruence|].
    inversion IH as [|? ? Hcur Hmore]; subst. constructor; [|exact Hmore].
    intros [Hc|Hc]; [|exact (Hcur Hc)]. subst c. rewrite N.eqb_refl in E.
    discriminate.
Qed.

Lemma rebuiltLines_Forall (P : jsstring -> Prop) data :
  P [] -> Forall P (contentLines data) -> Forall P (rebuiltLines data).
Proof.
  unfold contentLines, rebuiltLines. intros Hnil.
  induction (sections data) as [|s rest IH]; intros H; [constructor|].
  cbn [flat_map] in *. apply Forall_app in H as [Hs Hrest].
  apply Forall_app. split; [|apply IH, Hrest].
  unfold sectionLines. inversion Hs as [|? ? Hh Hitems]; subst.
  constructor; [exact Hh|]. apply Forall_app. split; [exact Hitems|].
  constructor; [exact Hnil|constructor].
Qed.

Lemma blank_not_separator : JS.trim [] <> JS.lit "---".
Proof. vm_compute. discriminate. Qed.

(** Parsing a text made of written lines and a suffix that begins with a
    separator line, or of written lines alone, reads exactly the written
    lines. *)
Lemma parse_written md lines suffix :
  Forall (fun l => ~ In LF l) lines ->
  Forall (fun l => JS.trim l <> JS.lit "---") lines ->
  suffix = [] \/
  (exists tail, suffix = LF :: tail /\
                JS.trim (hd [] (JS.split LF tail)) = JS.lit "---") ->
  parseLines md initialState (JS.split LF (JS.join [LF] lines ++ suffix)) =
  fold_left (parseLine md) lines initialState.
Proof.
  intros Hlf Hns [->|[tail [-> Hsep]]].
  - rewrite app_nil_r. destruct lines as [|l rest].
    + cbn [JS.join JS.split parseLines fold_left].
      rewrite (proj2 (isSeparatorLine_false []) blank_not_separator).
      apply parseLine_blank.
    + rewrite split_join by (try discriminate; exact Hlf).
      apply parseLines_no_separator, Hns.
  - rewrite split_app_LF. pose proof (split_nonempty LF tail) as Hne.
    destruct (JS.split LF tail) as [|sep post]; [congruence|]. cbn [hd] in Hsep.
    destruct lines as [|l rest].
    + assert (Hb : Forall (fun l : jsstring => JS.trim l <> JS.lit "---") [[]])
        by (constructor; [exact blank_not_separator|constructor]).
      cbn [JS.join JS.split].
      rewrite (parseLines_stops md [[]] initialState sep post Hb Hsep).
      cbn [fold_left]. apply parseLine_blank.
    + rewrite split_join by (try discriminate; exact Hlf).
      apply parseLines_stops; assumption.
Qed.

Lemma parse_written_back :
  forall (md : Metadata) (text : jsstring),
    cleanMetadata md ->
    suffixOf text = [] \/
    (exists tail, suffixOf text = LF :: tail /\
                  JS.trim (hd [] (JS.split LF tail)) = JS.lit "---") ->
    parseContent md (writeContent (parseContent md text) text) =
    parseContent md text.
Proof.
  intros md text Hmd Hsuffix. unfold parseContent at 1 3.
  rewrite (parseLines_beforeSeparator md (JS.split LF text)).
  set (L := beforeSeparator (JS.split LF text)).
  assert (HL : Forall (fun x => ~ In LF x) L)
    by apply beforeSeparator_Forall, split_noLF.
  destruct (reparse_state md L Hmd HL) as [_ [Hre Hlf]].
  set (st := fold_left (parseLine md) L initialState) in *.
  f_equal. unfold writeContent, parseContent.
  rewrite (parseLines_beforeSeparator md (JS.split LF text)).
  fold L. fold st. rewrite parse_written.
  - rewrite fold_rebuilt. exact Hre.
  - apply rebuiltLines_Forall; [intros []|exact Hlf].
  - eapply Forall_impl; [|apply rebuiltLines_shape].
    apply writtenLineShape_not_separator.
  - exact Hsuffix.
Qed.

(** X19: The round trip holds wherever the writer and the parser agree on the
    separator: when the text has no line feed followed by three dashes, or
    when the line that starts at the first of them is [---] after trimming,
    and no frontmatter emoji holds a line feed or two opening brackets,
    parsing what the writer wrote gives the document that was written:
    sections, subsections, entries, and the unlisted projects. *)
Theorem roundtrip_when_separators_agree :
  forall (md : Metadata) (text : jsstring),
    cleanMetadata md ->
    suffixOf text = [] \/
    (exists tail, suffixOf text = LF :: tail /\
                  JS.trim (hd [] (JS.split LF tail)) = JS.lit "---") ->
    parseContent md (writeContent (parseContent md text) text) =
    parseContent md text.
Proof. exact parse_written_back. Qed.

Lemma noMetadata_clean : cleanMetadata noMetadata.
Proof. intros name e H. discriminate. Qed.

Lemma roundtrip_when_separators_agree_witness :
  let text :=
    JS.lit "# Priorities\n## Active\n- * [[Alpha|A]]\n### Later\n-  [[Beta]] x\n---\nnotes" in
  cleanMetadata noMetadata /\
  (suffixOf text = [] \/
   (exists tail, suffixOf text = LF :: tail /\
                 JS.trim (hd [] (JS.split LF tail)) = JS.lit "---")) /\
  parseContent noMetadata (writeContent (parseContent noMetadata text) text) =
  parseContent noMetadata text.
Proof.
  cbv zeta.
  assert (Hs : suffixOf (JS.lit "# Priorities\n## Active\n- * [[Alpha|A]]\n### Later\n-  [[Beta]] x\n---\nnotes")
               = [] \/
               (exists tail,
                  suffixOf (JS.lit "# Priorities\n## Active\n- * [[Alpha|A]]\n### Later\n-  [[Beta]] x\n---\nnotes")
                  = LF :: tail /\
                  JS.trim (hd [] (JS.split LF tail)) = JS.lit "---")).
  { right. exists (JS.lit "---\nnotes"). split; vm_compute; reflexivity. }
  split; [exact noMetadata_clean|]. split; [exact Hs|].
  apply (roundtrip_when_separators_agree noMetadata _ noMetadata_clean Hs).
Defined.

(** ** The trailing region, for every text *)

Lemma suffixOf_none text :
  JS.find text (JS.lit "\n---") = None -> suffixOf text = [].
Proof. intros H. unfold suffixOf, JS.indexOf. rewrite H. reflexivity. Qed.

Lemma find_split p : forall s i,
  JS.find s p = Some i ->
  exists rest, s = firstn i s ++ p ++ rest /\ length (firstn i s) = i.
Proof.
  induction s as [|c s IH]; intros i; cbn [JS.find].
  - destruct (JS.startsWith [] p) eqn:E; [|discriminate].
    intros [= <-]. apply startsWith_prefix in E as [rest E].
    exists rest. split; [exact E|reflexivity].
  - destruct (JS.startsWith (c :: s) p) eqn:E.
    + intros [= <-]. apply startsWith_prefix in E as [rest E].
      exists rest. split; [exact E|reflexivity].
    + destruct (JS.find s p) as [j|] eqn:F; [|discriminate].
      intros [= <-]. destruct (IH j eq_refl) as (rest & Hs & Hl).
      exists rest. cbn [firstn app length]. split; [f_equal; exact Hs|].
      f_equal. exact Hl.
Qed.

Lemma find_occurs p : forall u v, exists i,
  JS.find (u ++ p ++ v) p = Some i /\ i <= length u.
Proof.
  induction u as [|x u IH]; intros v.
  - exists 0. split; [|cbn; lia]. apply find_here.
    apply startsWith_prefix. exists v. reflexivity.
  - cbn [app JS.find length].
    destruct (JS.startsWith (x :: u ++ p ++ v) p).
    + exists 0. split; [reflexivity|lia].
    + destruct (IH v) as (i & -> & Hi). exists (S i).
      split; [reflexivity|lia].
Qed.

(** The first [\n---] of a text that has one: the text before it holds
    none, and is the beginning of whatever else stands before a line feed
    and [---]. *)
Lemma first_separator head tail :
  JS.startsWith tail (JS.lit "---") = true ->
  exists h t m,
    head ++ LF :: tail = h ++ LF :: t /\
    JS.find h (JS.lit "\n---") = None /\
    JS.startsWith t (JS.lit "---") = true /\
    (head = h \/ head = h ++ LF :: m).
Proof.
  intros Ht. apply startsWith_prefix in Ht as [rest ->].
  destruct (find_occurs (JS.lit "\n---") head rest) as (i & F & Hi).
  change (JS.lit "\n---" ++ rest) with (LF :: JS.lit "---" ++ rest) in F.
  destruct (find_split _ _ _ F) as (r & Hs & Hl).
  pose proof (find_firstn (JS.lit "\n---") ltac:(discriminate) _ _ F) as Hn.
  set (text := head ++ LF :: JS.lit "---" ++ rest) in *.
  set (h := firstn i text) in *.
  change (JS.lit "\n---" ++ r) with (LF :: JS.lit "---" ++ r) in Hs.
  exists h, (JS.lit "---" ++ r), (skipn (S i) head).
  split; [exact Hs|]. split; [exact Hn|].
  split; [apply startsWith_prefix; exists r; reflexivity|].
  assert (Hh : h = firstn i head).
  { unfold h, text. rewrite firstn_app.
    replace (i - length head) with 0 by lia. cbn [firstn].
    apply app_nil_r. }
  destruct (Nat.eq_dec i (length head)) as [E|E].
  - left. rewrite Hh, E, firstn_all. reflexivity.
  - right. rewrite Hh.
    assert (Hlt : i < length head) by lia.
    assert (Hc : nth_error head i = Some LF).
    { assert (Hx : nth_error text i = Some LF).
      { rewrite Hs. rewrite nth_error_app2 by lia.
        rewrite Hl, Nat.sub_diag. reflexivity. }
      unfold text in Hx. rewrite nth_error_app1 in Hx by exact Hlt. exact Hx. }
    rewrite <- (firstn_skipn i head) at 1. f_equal.
    clear - Hc. revert i Hc. induction head as [|c hd IH]; intros i Hc.
    + destruct i; discriminate.
    + destruct i as [|i]; cbn in Hc |- *.
      * injection Hc as ->. reflexivity.
      * apply IH. exact Hc.
Qed.

Lemma noSeparator_prefix (h m : jsstring) :
  Forall (fun l => JS.trim l <> JS.lit "---") (JS.split LF (h ++ LF :: m)) ->
  Forall (fun l => JS.trim l <> JS.lit "---") (JS.split LF h).
Proof. rewrite split_app_LF. intros H. apply Forall_app in H. apply H. Qed.

Lemma fromSeparator_none lines :
  Forall (fun l => JS.trim l <> JS.lit "---") lines -> fromSeparator lines = [].
Proof.
  intros H. rewrite <- (app_nil_r lines). rewrite fromSeparator_skip by exact H.
  reflexivity.
Qed.

(** The lines of the rebuilt region hold no separator line. *)
Lemma rebuilt_no_separator data :
  Forall (fun l => ~ In LF l) (rebuiltLines data) ->
  Forall (fun l => JS.trim l <> JS.lit "---")
         (JS.split LF (JS.join [LF] (rebuiltLines data))).
Proof.
  intros Hclean. destruct (rebuiltLines data) as [|l rest] eqn:El.
  - constructor; [|constructor]. vm_compute. discriminate.
  - rewrite split_join by (try discriminate; exact Hclean).
    rewrite <- El. eapply Forall_impl; [|apply rebuiltLines_shape].
    apply writtenLineShape_not_separator.
Qed.

Lemma region_after_rebuilt data t :
  Forall (fun l => ~ In LF l) (rebuiltLines data) ->
  trailingRegion (JS.join [LF] (rebuiltLines data) ++ LF :: t) =
  trailingRegion t.
Proof.
  intros Hclean. unfold trailingRegion.
  rewrite split_app_LF, fromSeparator_skip by (apply rebuilt_no_separator, Hclean).
  reflexivity.
Qed.

Lemma region_of_rebuilt data :
  Forall (fun l => ~ In LF l) (rebuiltLines data) ->
  trailingRegion (JS.join [LF] (rebuiltLines data)) = [].
Proof.
  intros Hclean. unfold trailingRegion.
  rewrite fromSeparator_none by (apply rebuilt_no_separator, Hclean).
  reflexivity.
Qed.

Lemma region_skip h t :
  Forall (fun l => JS.trim l <> JS.lit "---") (JS.split LF h) ->
  trailingRegion (h ++ LF :: t) = trailingRegion t.
Proof.
  intros H. unfold trailingRegion.
  rewrite split_app_LF, fromSeparator_skip by exact H. reflexivity.
Qed.

Lemma join_app (a b : list jsstring) :
  a <> [] -> b <> [] ->
  JS.join [LF] (a ++ b) = JS.join [LF] a ++ LF :: JS.join [LF] b.
Proof.
  intros Ha Hb. induction a as [|x a IH]; [congruence|].
  destruct a as [|y a].
  - destruct b as [|z b]; [congruence|]. reflexivity.
  - change (JS.join [LF] ((x :: y :: a) ++ b))
      with (x ++ [LF] ++ JS.join [LF] ((y :: a) ++ b)).
    rewrite IH by discriminate.
    change (JS.join [LF] (x :: y :: a)) with (x ++ [LF] ++ JS.join [LF] (y :: a)).
    rewrite <- !app_assoc. reflexivity.
Qed.

Lemma fromSeparator_suffix lines :
  exists pre, lines = pre ++ fromSeparator lines.
Proof.
  induction lines as [|l rest IH]; [exists []; reflexivity|].
  cbn [fromSeparator]. destruct (isSeparatorLine l).
  - exists []. reflexivity.
  - destruct IH as [pre IH]. exists (l :: pre). cbn [app]. f_equal. exact IH.
Qed.

Lemma region_length t : length (trailingRegion t) <= length t.
Proof.
  unfold trailingRegion.
  destruct (fromSeparator_suffix (JS.split LF t)) as [pre Hpre].
  remember (fromSeparator (JS.split LF t)) as fs eqn:Efs. clear Efs.
  apply (f_equal (JS.join [LF])) in Hpre. rewrite join_split in Hpre.
  rewrite Hpre. destruct fs as [|l rest]; [cbn; lia|].
  destruct pre as [|p pre]; [cbn [app]; lia|].
  rewrite join_app by discriminate. rewrite length_app. cbn [length]. lia.
Qed.

Lemma separator_exists lines :
  ~ Forall (fun l => JS.trim l <> JS.lit "---") lines ->
  exists l rest, fromSeparator lines = l :: rest /\ l <> [].
Proof.
  induction lines as [|l rest IH]; intros H; [exfalso; apply H; constructor|].
  cbn [fromSeparator]. destruct (isSeparatorLine l) eqn:E.
  - exists l, rest. split; [reflexivity|]. intros ->. vm_compute in E.
    discriminate.
  - apply IH. intros Hr. apply H. constructor; [|exact Hr].
    apply isSeparatorLine_false, E.
Qed.

Lemma fromSeparator_app_hit pre rest :
  ~ Forall (fun l => JS.trim l <> JS.lit "---") pre ->
  fromSeparator (pre ++ rest) = fromSeparator pre ++ rest.
Proof.
  induction pre as [|l pre IH]; intros H; [exfalso; apply H; constructor|].
  cbn [app fromSeparator]. destruct (isSeparatorLine l) eqn:E; [reflexivity|].
  apply IH. intros Hr. apply H. constructor; [|exact Hr].
  apply isSeparatorLine_false, E.
Qed.

Lemma noSeparator_dec lines :
  {Forall (fun l => JS.trim l <> JS.lit "---") lines} +
  {~ Forall (fun l => JS.trim l <> JS.lit "---") lines}.
Proof.
  induction lines as [|l rest [IH|IH]].
  - left. constructor.
  - destruct (isSeparatorLine l) eqn:E.
    + right. intros H. apply Forall_cons_iff in H as [H _].
      apply isSeparatorLine_false in H. congruence.
    + left. constructor; [apply isSeparatorLine_false, E|exact IH].
  - right. intros H. apply Forall_cons_iff in H as [_ H]. exact (IH H).
Qed.

Lemma join_nonempty l rest : l <> [] -> JS.join [LF] (l :: rest) <> [].
Proof.
  intros Hl. destruct rest as [|x rest]; [exact Hl|].
  change (JS.join [LF] (l :: x :: rest))
    with (l ++ [LF] ++ JS.join [LF] (x :: rest)).
  destruct l; [congruence|discriminate].
Qed.

Lemma region_kept data text :
  Forall (fun l => ~ In LF l) (rebuiltLines data) ->
  keepsRegion text ->
  trailingRegion (writeContent data text) = trailingRegion text.
Proof.
  intros Hclean [Hno|(head & tail & -> & Hhead & Htail)].
  - unfold trailingRegion at 2. rewrite (fromSeparator_none _ Hno).
    unfold writeContent.
    destruct (JS.find text (JS.lit "\n---")) as [i|] eqn:F.
    + destruct (find_split _ _ _ F) as (r & Hs & Hl).
      pose proof (find_firstn (JS.lit "\n---") ltac:(discriminate) _ _ F) as Hn.
      change (JS.lit "\n---" ++ r) with (LF :: JS.lit "---" ++ r) in Hs.
      rewrite Hs at 1.
      rewrite suffixOf_separator;
        [|exact Hn|apply startsWith_prefix; exists r; reflexivity].
      rewrite region_after_rebuilt by exact Hclean.
      unfold trailingRegion. rewrite fromSeparator_none; [reflexivity|].
      rewrite Hs, split_app_LF in Hno. apply Forall_app in Hno. apply Hno.
    + rewrite suffixOf_none by exact F. rewrite app_nil_r.
      apply region_of_rebuilt, Hclean.
  - destruct (first_separator head tail Htail)
      as (h & t & m & Hsplit & Hn & Ht & Hm).
    rewrite Hsplit.
    assert (Hh : Forall (fun l => JS.trim l <> JS.lit "---") (JS.split LF h)).
    { destruct Hm as [-> | ->]; [exact Hhead|].
      exact (noSeparator_prefix _ _ Hhead). }
    unfold writeContent. rewrite suffixOf_separator by assumption.
    rewrite region_after_rebuilt by exact Hclean.
    symmetry. apply region_skip, Hh.
Qed.

Lemma region_lost data text :
  Forall (fun l => ~ In LF l) (rebuiltLines data) ->
  trailingRegion (writeContent data text) = trailingRegion text ->
  keepsRegion text.
Proof.
  intros Hclean Heq.
  destruct (noSeparator_dec (JS.split LF text)) as [Hno|Hsep];
    [left; exact Hno|].
  unfold writeContent in Heq.
  destruct (JS.find text (JS.lit "\n---")) as [i|] eqn:F.
  - destruct (find_split _ _ _ F) as (r & Hs & Hl).
    pose proof (find_firstn (JS.lit "\n---") ltac:(discriminate) _ _ F) as Hn.
    change (JS.lit "\n---" ++ r) with (LF :: JS.lit "---" ++ r) in Hs.
    set (h := firstn i text) in *. set (t := JS.lit "---" ++ r) in *.
    assert (Ht : JS.startsWith t (JS.lit "---") = true)
      by (apply startsWith_prefix; exists r; reflexivity).
    destruct (noSeparator_dec (JS.split LF h)) as [Hh|Hh].
    + right. exists h, t. split; [exact Hs|]. split; assumption.
    + exfalso. rewrite Hs in Heq.
      rewrite suffixOf_separator in Heq by assumption.
      rewrite region_after_rebuilt in Heq by exact Hclean.
      pose proof (region_length t) as Hlen. rewrite Heq in Hlen.
      unfold trailingRegion in Hlen.
      rewrite split_app_LF, fromSeparator_app_hit in Hlen by exact Hh.
      destruct (separator_exists _ Hh) as (l & rest & E & _).
      rewrite E in Hlen. pose proof (split_nonempty LF t) as Hne.
      rewrite join_app in Hlen by (try discriminate; exact Hne).
      rewrite join_split, length_app in Hlen. cbn [length] in Hlen. lia.
  - exfalso. rewrite suffixOf_none in Heq by exact F.
    rewrite app_nil_r, region_of_rebuilt in Heq by exact Hclean.
    destruct (separator_exists _ Hsep) as (l & rest & E & Hl).
    unfold trailingRegion in Heq. rewrite E in Heq.
    symmetry in Heq. exact (join_nonempty l rest Hl Heq).
Qed.

(** C2, amended: the writer's output is the rebuilt region followed by the
    text from the line feed before the first line, other than the first,
    that begins with [---], or by nothing when there is no such line; this
    holds for every model.  For a model whose written lines hold no line
    feed, the trailing region of the output is that of the input exactly
    when the text has no separator line, or has a line other than the first
    that begins with [---] with no separator line before it. *)
Theorem writeContent_keeps_trailing_region :
  forall (data : DashboardData) (text : jsstring),
    (forall head tail,
       text = head ++ LF :: tail ->
       JS.find head (JS.lit "\n---") = None ->
       JS.startsWith tail (JS.lit "---") = true ->
       writeContent data text =
       JS.join [LF] (rebuiltLines data) ++ LF :: tail) /\
    (JS.find text (JS.lit "\n---") = None ->
     writeContent data text = JS.join [LF] (rebuiltLines data)) /\
    (forall head tail,
       text = head ++ LF :: tail ->
       Forall (fun l => JS.trim l <> JS.lit "---") (JS.split LF head) ->
       JS.trim (hd [] (JS.split LF tail)) = JS.lit "---" ->
       trailingRegion text = tail) /\
    (Forall (fun l => ~ In LF l) (rebuiltLines data) ->
     (trailingRegion (writeContent data text) = trailingRegion text <->
      keepsRegion text)).
Proof.
  intros data text. split; [|split; [|split]].
  - intros head tail -> Hfind Hstart. unfold writeContent.
    rewrite suffixOf_separator by assumption. reflexivity.
  - intros Hfind. unfold writeContent. rewrite suffixOf_none by exact Hfind.
    apply app_nil_r.
  - intros head tail -> Hhead Hsep. rewrite region_skip by exact Hhead.
    unfold trailingRegion. rewrite fromSeparator_here by exact Hsep.
    apply join_split.
  - intros Hclean. split; [apply region_lost|apply region_kept]; exact Hclean.
Qed.

Lemma writeContent_keeps_trailing_region_witness :
  let text := JS.lit "## A\n----\n## B\n---\nnotes" in
  let data := parseContent noMetadata text in
  writeContent data text =
    JS.join [LF] (rebuiltLines data) ++ LF :: JS.lit "----\n## B\n---\nnotes" /\
  trailingRegion text = JS.lit "---\nnotes" /\
  trailingRegion (writeContent data text) = trailingRegion text.
Proof.
  cbv zeta.
  pose proof (writeContent_keeps_trailing_region
                (parseContent noMetadata (JS.lit "## A\n----\n## B\n---\nnotes"))
                (JS.lit "## A\n----\n## B\n---\nnotes"))
    as (Hwrite & _ & Hregion & Hkeep).
  split; [|split].
  - apply (Hwrite (JS.lit "## A")); vm_compute; reflexivity.
  - apply (Hregion (JS.lit "## A\n----\n## B")).
    + vm_compute. reflexivity.
    + vm_compute.
      repeat (constructor; [intros H; discriminate|]). constructor.
    + vm_compute. reflexivity.
  - apply Hkeep.
    + vm_compute.
      repeat (constructor;
              [let H := fresh in
               intros H; repeat (destruct H as [H|H]; [discriminate|]); exact H|]).
      constructor.
    + right. exists (JS.lit "## A"), (JS.lit "----\n## B\n---\nnotes").
      split; [vm_compute; reflexivity|].
      split; [vm_compute; repeat (constructor; [intros H; discriminate|]);
              constructor|vm_compute; reflexivity].
Defined.

(** ** The write queue *)

Module WriteQueueFacts.
Import WriteQueue.

Section Facts.

Variables Shared Local : Type.
Variable s0 : Shared.

Local Abbreviation sys := (sys Shared Local).
Local Abbreviation job := (job Shared Local).
Local Abbreviation activation := (activation Shared Local).
Local Abbreviation phase := (phase Shared Local).
Local Abbreviation Inv := (WriteQueue.Inv s0).

Lemma pid_eqb_eq a b : pid_eqb a b = true <-> a = b.
Proof.
  destruct a, b; cbn [pid_eqb]; try rewrite Nat.eqb_eq;
    split; intros H; try discriminate; try reflexivity;
    try (injection H as ->; reflexivity); try (f_equal; exact H).
Qed.

Lemma upd_same p v s : upd p v s p = v.
Proof.
  unfold upd. replace (pid_eqb p p) with true; [reflexivity|].
  symmetry. apply pid_eqb_eq. reflexivity.
Qed.

Lemma upd_other p q v s : p <> q -> upd p v s q = s q.
Proof.
  intros H. unfold upd. destruct (pid_eqb p q) eqn:E; [|reflexivity].
  apply pid_eqb_eq in E. contradiction.
Qed.

Lemma predecessor_not_then m k : PThen k <> predecessor m.
Proof. destruct m; discriminate. Qed.

Lemma predecessor_not_call m k : PCall k <> predecessor m.
Proof. destruct m; discriminate. Qed.

Lemma predecessor_not_catch m k : m <= k -> PCatch k <> predecessor m.
Proof. destruct m; [discriminate|]. intros H [= E]. lia. Qed.

Lemma serial_nil : serial [].
Proof. intros k t1 t2 H. destruct t1; discriminate. Qed.

(** Appending an event keeps the order when a start comes after the
    completion of every earlier job. *)
Lemma serial_snoc tr e :
  serial tr ->
  (forall k, e = Started k -> forall i, i < k -> exists ok, In (Completed i ok) tr) ->
  serial (tr ++ [e]).
Proof.
  intros Hs He k t1 t2 H i Hi.
  destruct (rev t2) as [|x t2r] eqn:Er.
  - apply (f_equal (@rev _)) in Er. rewrite rev_involutive in Er.
    cbn [rev] in Er. subst t2.
    apply app_inj_tail in H as [-> ->]. apply (He k eq_refl i Hi).
  - apply (f_equal (@rev _)) in Er. rewrite rev_involutive in Er.
    cbn [rev] in Er. subst t2.
    change (t1 ++ Started k :: rev t2r ++ [x])
      with (t1 ++ (Started k :: rev t2r) ++ [x]) in H.
    rewrite app_assoc in H. apply app_inj_tail in H as [-> ->].
    apply (Hs k t1 (rev t2r) eq_refl i Hi).
Qed.

Lemma runInOrder_snoc (js : list job) (j : job) :
  runInOrder (js ++ [j]) s0 = runJob (runInOrder js s0) j.
Proof. unfold runInOrder. rewrite fold_left_app. reflexivity. Qed.

Lemma firstn_succ_nth (js : list job) m j :
  nth_error js m = Some j -> firstn (S m) js = firstn m js ++ [j].
Proof.
  revert m. induction js as [|x js IH]; intros [|m]; cbn [nth_error firstn];
    try discriminate.
  - intros [= ->]. reflexivity.
  - intros H. cbn [app]. f_equal. apply IH, H.
Qed.


Ltac pid_neq :=
  first [ discriminate
        | apply predecessor_not_then
        | apply predecessor_not_call
        | apply predecessor_not_catch; lia
        | apply not_eq_sym, predecessor_not_then
        | apply not_eq_sym, predecessor_not_call
        | apply not_eq_sym, predecessor_not_catch; lia
        | let H := fresh in intros H; injection H; lia ].

Ltac store_simpl :=
  repeat first [ rewrite upd_same | rewrite upd_other by pid_neq ].

Lemma successors_last n : successors n n = [].
Proof. unfold successors. rewrite Nat.ltb_irrefl. reflexivity. Qed.

Lemma successors_lt n k : k < n -> successors n k = [ThenCall k (PThen k)].
Proof.
  intros H. unfold successors. apply Nat.ltb_lt in H. rewrite H. reflexivity.
Qed.

(** [enqueueWrite] while the queue is idle: the call of the job is queued
    at once. *)
Lemma enqueue_idle fn (st : sys) :
  writeQueue st = predecessor (length (jobs st)) ->
  store st (predecessor (length (jobs st))) = Fulfilled ->
  let n := length (jobs st) in
  enqueueWrite fn st =
  Sys (upd (PThen n) (Pending [CatchReport (PCatch n)])
         (upd (PCatch n) (Pending []) (upd (PThen n) (Pending []) (store st))))
      (microtasks st ++ [(ThenCall n (PThen n), true)]) (running st) (PCatch n)
      (jobs st ++ [fn]) (shared st) (trace st).
Proof.
  intros Hwq Hst n. subst n. unfold enqueueWrite.
  unfold subscribe at 2, alloc at 2. unfold addJob, setStore.
  cbn [store writeQueue jobs microtasks running shared trace].
  rewrite Hwq. store_simpl. rewrite Hst.
  unfold subscribe, alloc, setStore, pushMicrotasks, setWriteQueue.
  cbn [store writeQueue jobs microtasks running shared trace].
  store_simpl. reflexivity.
Qed.

(** [enqueueWrite] while a job is pending: the call is registered on the
    promise of the job before. *)
Lemma enqueue_busy fn (st : sys) rs :
  writeQueue st = predecessor (length (jobs st)) ->
  store st (predecessor (length (jobs st))) = Pending rs ->
  let n := length (jobs st) in
  enqueueWrite fn st =
  Sys (upd (PThen n) (Pending [CatchReport (PCatch n)])
         (upd (PCatch n) (Pending [])
            (upd (predecessor n) (Pending (rs ++ [ThenCall n (PThen n)]))
               (upd (PThen n) (Pending []) (store st)))))
      (microtasks st) (running st) (PCatch n)
      (jobs st ++ [fn]) (shared st) (trace st).
Proof.
  intros Hwq Hst n. subst n. unfold enqueueWrite.
  unfold subscribe at 2, alloc at 2. unfold addJob, setStore.
  cbn [store writeQueue jobs microtasks running shared trace].
  rewrite Hwq. store_simpl. rewrite Hst.
  unfold subscribe, alloc, setStore, pushMicrotasks, setWriteQueue.
  cbn [store writeQueue jobs microtasks running shared trace].
  store_simpl. reflexivity.
Qed.


Lemma firstn_app_le {A : Type} k (l l' : list A) :
  k <= length l -> firstn k (l ++ l') = firstn k l.
Proof.
  intros H. rewrite firstn_app. replace (k - length l) with 0 by lia.
  cbn [firstn]. apply app_nil_r.
Qed.

Lemma inv_enqueue fn (st : sys) m ph :
  Inv st m ph ->
  Inv (enqueueWrite fn st) m (match ph with Idle => Ready | _ => ph end).
Proof.
  intros (Hm & Hwq & Hpred & Hcatch & Hthen & Hser & Hdone & Hph).
  remember (length (jobs st)) as n eqn:En.
  assert (Hlen : length (jobs st ++ [fn]) = S n)
    by (rewrite length_app, <- En; cbn [length]; lia).
  destruct (Nat.eq_dec m n) as [Hmn|Hmn].
  - (* the queue is idle *)
    assert (Hidle : ph = Idle /\ microtasks st = [] /\ running st = [] /\
                    shared st = runInOrder (jobs st) s0).
    { destruct ph; try (destruct Hph as [Hlt _]; lia).
      split; [reflexivity|]. apply Hph. }
    destruct Hidle as (-> & Hmt & Hrun & Hsh).
    subst m. rewrite En in Hpred, Hwq.
    rewrite (enqueue_idle fn st Hwq Hpred). cbv zeta.
    rewrite <- En in Hpred, Hwq |- *.
    unfold Inv. cbn [store microtasks running writeQueue jobs shared trace].
    rewrite Hlen, Hmt, Hrun.
    split; [lia|]. split; [reflexivity|]. split; [store_simpl; exact Hpred|].
    split.
    { intros k Hk. assert (k = n) by lia. subst k. store_simpl.
      rewrite successors_last. reflexivity. }
    split; [intros k Hk; lia|]. split; [exact Hser|]. split; [exact Hdone|].
    split; [lia|]. split; [reflexivity|]. split; [reflexivity|].
    split; [store_simpl; reflexivity|].
    rewrite firstn_app_le, firstn_all2 by lia. exact Hsh.
  - (* a job is pending *)
    assert (Hlt : m < n) by lia.
    destruct n as [|n']; [lia|].
    assert (Hp : store st (predecessor (S n')) = Pending [])
      by (cbn [predecessor]; rewrite Hcatch by lia; rewrite successors_last;
          reflexivity).
    rewrite En in Hp, Hwq.
    rewrite (enqueue_busy fn st [] Hwq Hp). cbv zeta.
    rewrite <- En in Hp, Hwq |- *.
    cbn [predecessor app].
    assert (Hpm : predecessor m <> PCatch n')
      by (destruct m; [discriminate|]; intros [= E]; lia).
    assert (Hshared : forall k, k <= S n' ->
              firstn k (jobs st ++ [fn]) = firstn k (jobs st))
      by (intros k Hk; apply firstn_app_le; lia).
    unfold Inv. cbn [store microtasks running writeQueue jobs shared trace].
    rewrite Hlen.
    split; [lia|]. split; [reflexivity|].
    split; [store_simpl; exact Hpred|].
    split.
    { intros k Hk. destruct (Nat.eq_dec k (S n')) as [->|Hk1].
      - store_simpl. rewrite successors_last. reflexivity.
      - destruct (Nat.eq_dec k n') as [->|Hk2].
        + store_simpl. rewrite successors_lt by lia. reflexivity.
        + store_simpl. rewrite Hcatch by lia.
          rewrite !successors_lt by lia. reflexivity. }
    split.
    { intros k Hk. destruct (Nat.eq_dec k (S n')) as [->|Hk1].
      - store_simpl. reflexivity.
      - store_simpl. apply Hthen. lia. }
    split; [exact Hser|]. split; [exact Hdone|].
    destruct ph; try (destruct Hph as [Heq _]; lia).
    + destruct Hph as (_ & Hmt & Hrun & Hst & Hsh).
      split; [lia|]. split; [exact Hmt|]. split; [exact Hrun|].
      split; [store_simpl; exact Hst|]. rewrite Hshared by lia. exact Hsh.
    + destruct Hph as (_ & Hmt & Hrun & Hj & Hp' & Hrest & Hcall & Hst & Hsh).
      split; [lia|]. split; [exact Hmt|]. split; [exact Hrun|].
      split; [exact Hj|]. split; [exact Hp'|]. split; [exact Hrest|].
      split; [store_simpl; exact Hcall|]. split; [store_simpl; exact Hst|].
      rewrite Hshared by lia. exact Hsh.
    + destruct Hph as (_ & Hmt & Hrun & Hst & Hc & Hsh).
      split; [lia|]. split; [exact Hmt|]. split; [exact Hrun|].
      split; [store_simpl; exact Hst|]. split; [exact Hc|].
      rewrite Hshared by lia. exact Hsh.
    + destruct Hph as (_ & Hmt & Hrun & Hc & Hsh).
      split; [lia|]. split; [exact Hmt|]. split; [exact Hrun|].
      split; [exact Hc|]. rewrite Hshared by lia. exact Hsh.
Qed.


Lemma settle_pending (st : sys) p ok rs :
  store st p = Pending rs ->
  settle p ok st =
  Sys (upd p (if ok then Fulfilled else Rejected) (store st))
      (microtasks st ++ map (fun r => (r, ok)) rs) (running st)
      (writeQueue st) (jobs st) (shared st) (trace st).
Proof. intros H. unfold settle. rewrite H. reflexivity. Qed.

(** The call of a job without [await] returns a fulfilled promise. *)
Lemma call_returns (st : sys) m j :
  nth_error (jobs st) m = Some j -> j_actions j = [] ->
  runReaction (ThenCall m (PThen m)) true st =
  Sys (upd (PCall m) Fulfilled (upd (PCall m) (Pending []) (store st)))
      (microtasks st ++ [(Adopt (PThen m), true)]) (running st)
      (writeQueue st) (jobs st) (shared st)
      ((trace st ++ [Started m]) ++ [Completed m true]).
Proof.
  intros Hj Ha. cbn [runReaction]. rewrite Hj. unfold callJob. rewrite Ha.
  unfold alloc, log, setStore. cbn [store microtasks running writeQueue jobs shared trace].
  erewrite settle_pending
    by (cbn [store]; apply upd_same).
  cbn [store microtasks running writeQueue jobs shared trace map].
  unfold subscribe. cbn [store]. rewrite upd_same.
  unfold pushMicrotasks. cbn [store microtasks running writeQueue jobs shared trace].
  rewrite app_nil_r. reflexivity.
Qed.

(** The call of a job with an [await] suspends there. *)
Lemma call_suspends (st : sys) m j act rest :
  nth_error (jobs st) m = Some j -> j_actions j = act :: rest ->
  runReaction (ThenCall m (PThen m)) true st =
  Sys (upd (PCall m) (Pending [Adopt (PThen m)])
         (upd (PCall m) (Pending []) (store st)))
      (microtasks st)
      (running st ++ [Activation m (PCall m) (j_local j) (act :: rest)])
      (writeQueue st) (jobs st) (shared st) (trace st ++ [Started m]).
Proof.
  intros Hj Ha. cbn [runReaction]. rewrite Hj. unfold callJob. rewrite Ha.
  unfold alloc, log, setStore, setRunning, subscribe.
  cbn [store microtasks running writeQueue jobs shared trace].
  rewrite upd_same. unfold setStore.
  cbn [store microtasks running writeQueue jobs shared trace app].
  reflexivity.
Qed.

Lemma runJob_snoc (js : list job) m j :
  nth_error js m = Some j ->
  runInOrder (firstn (S m) js) s0 =
  runActions (j_actions j) (runInOrder (firstn m js) s0) (j_local j).
Proof.
  intros H. rewrite (firstn_succ_nth _ _ _ H), runInOrder_snoc.
  reflexivity.
Qed.

Lemma in_snoc {A : Type} (x y : A) l : In x l -> In x (l ++ [y]).
Proof. intros H. apply in_or_app. left. exact H. Qed.

Lemma in_last {A : Type} (x : A) l : In x (l ++ [x]).
Proof. apply in_or_app. right. left. reflexivity. Qed.

Lemma done_snoc (tr : list event) e m :
  (forall i, i < m -> exists ok, In (Completed i ok) tr) ->
  forall i, i < m -> exists ok, In (Completed i ok) (tr ++ [e]).
Proof.
  intros H i Hi. destruct (H i Hi) as [ok Hok]. exists ok.
  apply in_snoc, Hok.
Qed.

(** From [Ready]: the call of job [m] runs. *)
Lemma inv_ready (st : sys) m :
  Inv st m Ready ->
  let st' := runReaction (ThenCall m (PThen m)) true (setMicrotasks [] st) in
  jobs st' = jobs st /\
  ((exists a, Inv st' m (Running a)) \/ Inv st' m (Adopting true)).
Proof.
  intros (Hm & Hwq & Hpred & Hcatch & Hthen & Hser & Hdone & Hph).
  destruct Hph as (Hlt & Hmt & Hrun & Hst & Hsh).
  destruct (nth_error (jobs st) m) as [j|] eqn:Hj;
    [|apply nth_error_None in Hj; lia].
  assert (Hser' : serial (trace st ++ [Started m])).
  { apply serial_snoc; [exact Hser|]. intros k [= <-]. exact Hdone. }
  cbv zeta. destruct (j_actions j) as [|act rest] eqn:Ha.
  - rewrite (call_returns (setMicrotasks [] st) m j Hj Ha).
    cbn [setMicrotasks store microtasks running writeQueue jobs shared trace].
    split; [reflexivity|]. right. unfold Inv.
    cbn [store microtasks running writeQueue jobs shared trace].
    split; [exact Hm|]. split; [exact Hwq|]. split; [store_simpl; exact Hpred|].
    split; [intros k Hk; store_simpl; apply Hcatch, Hk|].
    split; [intros k Hk; store_simpl; apply Hthen, Hk|].
    split.
    { apply serial_snoc; [exact Hser'|]. intros k [=]. }
    split; [apply done_snoc, done_snoc, Hdone|].
    split; [exact Hlt|]. split; [reflexivity|]. split; [exact Hrun|].
    split; [store_simpl; exact Hst|].
    split; [exists true; apply in_last|].
    rewrite (runJob_snoc _ _ _ Hj), Ha. exact Hsh.
  - rewrite (call_suspends (setMicrotasks [] st) m j act rest Hj Ha).
    cbn [setMicrotasks store microtasks running writeQueue jobs shared trace].
    split; [reflexivity|]. left.
    exists (Activation m (PCall m) (j_local j) (act :: rest)). unfold Inv.
    cbn [store microtasks running writeQueue jobs shared trace].
    split; [exact Hm|]. split; [exact Hwq|]. split; [store_simpl; exact Hpred|].
    split; [intros k Hk; store_simpl; apply Hcatch, Hk|].
    split; [intros k Hk; store_simpl; apply Hthen, Hk|].
    split; [exact Hser'|]. split; [apply done_snoc, Hdone|].
    split; [exact Hlt|]. split; [reflexivity|].
    split; [rewrite Hrun; reflexivity|].
    cbn [a_job a_promise a_rest a_local].
    split; [reflexivity|]. split; [reflexivity|]. split; [discriminate|].
    split; [store_simpl; reflexivity|]. split; [store_simpl; exact Hst|].
    rewrite (runJob_snoc _ _ _ Hj), Ha, Hsh. reflexivity.
Qed.


(** From [Running]: the host finishes the awaited call. *)
Lemma inv_running (st : sys) m a :
  Inv st m (Running a) ->
  let st' := resume 0 a st in
  jobs st' = jobs st /\
  ((exists a', Inv st' m (Running a') /\
               length (a_rest a') < length (a_rest a)) \/
   (exists ok, Inv st' m (Adopting ok))).
Proof.
  intros (Hm & Hwq & Hpred & Hcatch & Hthen & Hser & Hdone & Hph).
  destruct Hph as (Hlt & Hmt & Hrun & Hj & Hp & Hrest & Hcall & Hst & Hsh).
  destruct a as [aj ap al ar]. cbn [a_job a_promise a_rest a_local] in *.
  subst aj ap. destruct ar as [|act rest]; [congruence|]. clear Hrest.
  cbv zeta. unfold resume. cbn [a_job a_promise a_rest a_local].
  cbn [runActions] in Hsh.
  assert (Hfinish : forall ok s',
    s' = runInOrder (firstn (S m) (jobs st)) s0 ->
    let st' := settle (PCall m) ok
                 (log (Completed m ok)
                    (setRunning (removeAt 0 (running st)) (setShared s' st))) in
    jobs st' = jobs st /\ Inv st' m (Adopting ok)).
  { intros ok s' Hs'. cbv zeta.
    erewrite settle_pending
      by (cbn [log setRunning setShared store]; exact Hcall).
    cbn [log setRunning setShared store microtasks running writeQueue jobs
         shared trace map].
    split; [reflexivity|]. unfold Inv.
    cbn [store microtasks running writeQueue jobs shared trace].
    split; [exact Hm|]. split; [exact Hwq|]. split; [store_simpl; exact Hpred|].
    split; [intros k Hk; store_simpl; apply Hcatch, Hk|].
    split; [intros k Hk; store_simpl; apply Hthen, Hk|].
    split; [apply serial_snoc; [exact Hser|]; intros k [=]|].
    split; [apply done_snoc, Hdone|].
    split; [exact Hlt|]. split; [rewrite Hmt; reflexivity|].
    split; [rewrite Hrun; reflexivity|].
    split; [store_simpl; exact Hst|].
    split; [exists ok; apply in_last|]. exact Hs'. }
  destruct (act (shared st) al) as [[s' l']|] eqn:Ea.
  - destruct rest as [|act2 rest2].
    + destruct (Hfinish true s' Hsh) as [Hjobs Hinv].
      split; [exact Hjobs|]. right. exists true. exact Hinv.
    + split; [reflexivity|]. left.
      exists (Activation m (PCall m) l' (act2 :: rest2)).
      split; [|cbn [a_rest length]; lia].
      unfold Inv, setRunning, setShared.
      cbn [store microtasks running writeQueue jobs shared trace].
      split; [exact Hm|]. split; [exact Hwq|]. split; [exact Hpred|].
      split; [exact Hcatch|]. split; [exact Hthen|]. split; [exact Hser|].
      split; [exact Hdone|]. split; [exact Hlt|]. split; [exact Hmt|].
      split; [rewrite Hrun; reflexivity|].
      cbn [a_job a_promise a_rest a_local].
      split; [reflexivity|]. split; [reflexivity|]. split; [discriminate|].
      split; [exact Hcall|]. split; [exact Hst|]. exact Hsh.
  - assert (Hsame : setShared (shared st) st = st) by (destruct st; reflexivity).
    pose proof (Hfinish false (shared st) Hsh) as Hf.
    cbv zeta in Hf. rewrite Hsame in Hf. destruct Hf as [Hjobs Hinv].
    split; [exact Hjobs|]. right. exists false. exact Hinv.
Qed.

Lemma runReaction_adopt (st : sys) d ok :
  runReaction (Adopt d) ok st = settle d ok st.
Proof. destruct ok; reflexivity. Qed.

(** From [Adopting]: the promise of [then] settles like the job. *)
Lemma inv_adopting (st : sys) m ok :
  Inv st m (Adopting ok) ->
  let st' := runReaction (Adopt (PThen m)) ok (setMicrotasks [] st) in
  jobs st' = jobs st /\ Inv st' m (Catching ok).
Proof.
  intros (Hm & Hwq & Hpred & Hcatch & Hthen & Hser & Hdone & Hph).
  destruct Hph as (Hlt & Hmt & Hrun & Hst & Hc & Hsh).
  cbv zeta. rewrite runReaction_adopt.
  erewrite settle_pending by (cbn [setMicrotasks store]; exact Hst).
  cbn [setMicrotasks store microtasks running writeQueue jobs shared trace
       map app].
  split; [reflexivity|]. unfold Inv.
  cbn [store microtasks running writeQueue jobs shared trace].
  split; [exact Hm|]. split; [exact Hwq|]. split; [store_simpl; exact Hpred|].
  split; [intros k Hk; store_simpl; apply Hcatch, Hk|].
  split; [intros k Hk; store_simpl; apply Hthen, Hk|].
  split; [exact Hser|]. split; [exact Hdone|].
  split; [exact Hlt|]. split; [reflexivity|]. split; [exact Hrun|].
  split; [exact Hc|]. exact Hsh.
Qed.

(** From [Catching]: a failure is reported, the promise of [catch] is
    fulfilled, and the next job, if there is one, is due. *)
Lemma inv_catching (st : sys) m ok :
  Inv st m (Catching ok) ->
  let st' := runReaction (CatchReport (PCatch m)) ok (setMicrotasks [] st) in
  jobs st' = jobs st /\
  Inv st' (S m) (if S m <? length (jobs st) then Ready else Idle).
Proof.
  intros (Hm & Hwq & Hpred & Hcatch & Hthen & Hser & Hdone & Hph).
  destruct Hph as (Hlt & Hmt & Hrun & Hc & Hsh).
  cbv zeta.
  assert (Hgen : forall st1 : sys,
    store st1 = store st -> microtasks st1 = [] -> running st1 = [] ->
    writeQueue st1 = writeQueue st -> jobs st1 = jobs st ->
    shared st1 = shared st -> serial (trace st1) ->
    (forall i, i < S m -> exists ok', In (Completed i ok') (trace st1)) ->
    jobs (settle (PCatch m) true st1) = jobs st /\
    Inv (settle (PCatch m) true st1) (S m)
        (if S m <? length (jobs st) then Ready else Idle)).
  { intros st1 Es Emt Erun Ewq Ej Esh Hser1 Hdone1.
    erewrite settle_pending by (rewrite Es; apply Hcatch; lia).
    cbn [store microtasks running writeQueue jobs shared trace].
    split; [exact Ej|]. unfold Inv.
    cbn [store microtasks running writeQueue jobs shared trace].
    rewrite Es, Emt, Erun, Ewq, Ej, Esh.
    split; [lia|]. split; [exact Hwq|].
    split; [cbn [predecessor]; store_simpl; reflexivity|].
    split; [intros k Hk; store_simpl; apply Hcatch; lia|].
    split; [intros k Hk; store_simpl; apply Hthen; lia|].
    split; [exact Hser1|]. split; [exact Hdone1|].
    destruct (S m <? length (jobs st)) eqn:El.
    - apply Nat.ltb_lt in El. rewrite successors_lt by exact El.
      split; [exact El|]. split; [reflexivity|]. split; [reflexivity|].
      split; [store_simpl; apply Hthen; lia|]. exact Hsh.
    - apply Nat.ltb_ge in El. assert (En : S m = length (jobs st)) by lia.
      rewrite En, successors_last.
      split; [reflexivity|]. split; [reflexivity|]. split; [reflexivity|].
      rewrite Hsh, En, firstn_all. reflexivity. }
  assert (Hdone' : forall i, i < S m ->
                   exists ok', In (Completed i ok') (trace st)).
  { intros i Hi. destruct (Nat.eq_dec i m) as [->|Hne]; [exact Hc|].
    apply Hdone. lia. }
  destruct ok; cbn [runReaction].
  - apply Hgen; try reflexivity; assumption.
  - apply Hgen; try reflexivity; try assumption.
    + cbn [log setMicrotasks trace]. apply serial_snoc; [exact Hser|].
      intros k [=].
    + cbn [log setMicrotasks trace]. apply done_snoc, Hdone'.
Qed.


Lemma inv_initial : Inv (initial Local s0) 0 Idle.
Proof.
  unfold Inv, initial.
  cbn [store microtasks running writeQueue jobs shared trace length predecessor].
  split; [lia|]. split; [reflexivity|]. split; [reflexivity|].
  split; [intros k Hk; lia|]. split; [intros k Hk; lia|].
  split; [apply serial_nil|]. split; [intros i Hi; lia|].
  split; [reflexivity|]. split; [reflexivity|]. split; reflexivity.
Qed.

(** What a quiet step can be in each phase. *)
Lemma quietStep_inv (st st' : sys) m ph :
  Inv st m ph -> quietStep st st' ->
  match ph with
  | Idle => False
  | Ready =>
      st' = runReaction (ThenCall m (PThen m)) true (setMicrotasks [] st)
  | Running a => st' = resume 0 a st
  | Adopting ok =>
      st' = runReaction (Adopt (PThen m)) ok (setMicrotasks [] st)
  | Catching ok =>
      st' = runReaction (CatchReport (PCatch m)) ok (setMicrotasks [] st)
  end.
Proof.
  intros (_ & _ & _ & _ & _ & _ & _ & Hph) Hstep.
  destruct Hstep as [r ok rest st Hmt|i a st Hrun].
  - destruct ph.
    + destruct Hph as (_ & Hmt' & _). congruence.
    + destruct Hph as (_ & Hmt' & _). rewrite Hmt' in Hmt.
      injection Hmt as <- <- <-. reflexivity.
    + destruct Hph as (_ & Hmt' & _). congruence.
    + destruct Hph as (_ & Hmt' & _). rewrite Hmt' in Hmt.
      injection Hmt as <- <- <-. reflexivity.
    + destruct Hph as (_ & Hmt' & _). rewrite Hmt' in Hmt.
      injection Hmt as <- <- <-. reflexivity.
  - assert (Hnil : running st = [] -> False)
      by (intros E; rewrite E in Hrun; destruct i; discriminate).
    destruct ph.
    + apply Hnil, Hph.
    + exfalso. apply Hnil, Hph.
    + destruct Hph as (_ & _ & Hrun' & _). rewrite Hrun' in Hrun.
      destruct i as [|i]; [|destruct i; discriminate].
      injection Hrun as <-. reflexivity.
    + exfalso. apply Hnil, Hph.
    + exfalso. apply Hnil, Hph.
Qed.

Lemma inv_quietStep (st st' : sys) m ph :
  Inv st m ph -> quietStep st st' ->
  jobs st' = jobs st /\ exists m' ph', Inv st' m' ph'.
Proof.
  intros Hinv Hstep. pose proof (quietStep_inv _ _ _ _ Hinv Hstep) as H.
  destruct ph; [contradiction| | | |]; subst st'.
  - destruct (inv_ready _ _ Hinv) as [Hj [[a Ha]|Ha]];
      (split; [exact Hj|]); eexists; eexists; exact Ha.
  - destruct (inv_running _ _ _ Hinv) as [Hj [[a' [Ha _]]|[ok Ha]]];
      (split; [exact Hj|]); eexists; eexists; exact Ha.
  - destruct (inv_adopting _ _ _ Hinv) as [Hj Ha].
    split; [exact Hj|]. eexists; eexists; exact Ha.
  - destruct (inv_catching _ _ _ Hinv) as [Hj Ha].
    split; [exact Hj|]. eexists; eexists; exact Ha.
Qed.

Lemma step_quiet_or_enqueue (st st' : sys) :
  step st st' -> quietStep st st' \/ exists fn, st' = enqueueWrite fn st.
Proof.
  intros [fn st0|r ok rest st0 H|i a st0 H].
  - right. exists fn. reflexivity.
  - left. apply QuietMicrotask, H.
  - left. apply QuietHost, H.
Qed.

Lemma reachable_inv (st : sys) :
  reachable s0 st -> exists m ph, Inv st m ph.
Proof.
  induction 1 as [|st st' _ (m & ph & Hinv) Hstep].
  - exists 0, Idle. apply inv_initial.
  - destruct (step_quiet_or_enqueue _ _ Hstep) as [Hq|[fn ->]].
    + apply (inv_quietStep _ _ _ _ Hinv Hq).
    + eexists; eexists. apply inv_enqueue, Hinv.
Qed.

Lemma quietSteps_trans (a b c : sys) :
  quietSteps a b -> quietSteps b c -> quietSteps a c.
Proof.
  induction 1 as [|x y z Hxy _ IH]; intros Hbc; [exact Hbc|].
  apply (QuietNext Hxy). apply IH, Hbc.
Qed.

Lemma quietSteps_one (a b : sys) : quietStep a b -> quietSteps a b.
Proof. intros H. apply (QuietNext H). apply QuietDone. Qed.

Lemma running_to_adopting k : forall (st : sys) m a,
  length (a_rest a) <= k -> Inv st m (Running a) ->
  exists st1 ok,
    quietSteps st st1 /\ Inv st1 m (Adopting ok) /\ jobs st1 = jobs st.
Proof.
  induction k as [|k IH]; intros st m a Hk Hinv.
  - destruct Hinv as (_ & _ & _ & _ & _ & _ & _ & Hph).
    destruct Hph as (_ & _ & _ & _ & _ & Hrest & _).
    destruct (a_rest a); [congruence|cbn [length] in Hk; lia].
  - assert (Hstep : quietStep st (resume 0 a st)).
    { apply QuietHost. destruct Hinv as (_ & _ & _ & _ & _ & _ & _ & Hph).
      destruct Hph as (_ & _ & Hrun & _). rewrite Hrun. reflexivity. }
    destruct (inv_running _ _ _ Hinv) as [Hj [(a' & Ha' & Hlen)|[ok Hok]]].
    + destruct (IH _ _ a' ltac:(lia) Ha') as (st1 & ok & Hsteps & Hinv1 & Hj1).
      exists st1, ok. split; [|split; [exact Hinv1|congruence]].
      apply (QuietNext Hstep Hsteps).
    + exists (resume 0 a st), ok.
      split; [apply quietSteps_one, Hstep|]. split; assumption.
Qed.

Lemma microtask_step (st : sys) r ok :
  microtasks st = [(r, ok)] ->
  quietStep st (runReaction r ok (setMicrotasks [] st)).
Proof. intros H. apply QuietMicrotask, H. Qed.

Lemma to_catching (st : sys) m ph :
  Inv st m ph -> ph <> Idle ->
  exists st1 ok,
    quietSteps st st1 /\ Inv st1 m (Catching ok) /\ jobs st1 = jobs st.
Proof.
  intros Hinv Hne.
  assert (Hadopt : forall (st1 : sys) ok,
    Inv st1 m (Adopting ok) ->
    exists st2 ok',
      quietSteps st1 st2 /\ Inv st2 m (Catching ok') /\ jobs st2 = jobs st1).
  { intros st1 ok H1. destruct (inv_adopting _ _ _ H1) as [Hj Hc].
    eexists; exists ok. split; [|split; [exact Hc|exact Hj]].
    apply quietSteps_one, microtask_step.
    destruct H1 as (_ & _ & _ & _ & _ & _ & _ & Hph). apply Hph. }
  assert (Hrunning : forall (st1 : sys) a,
    Inv st1 m (Running a) ->
    exists st2 ok',
      quietSteps st1 st2 /\ Inv st2 m (Catching ok') /\ jobs st2 = jobs st1).
  { intros st1 a H1.
    destruct (running_to_adopting _ _ _ a (le_n _) H1)
      as (st2 & ok & Hs & H2 & Hj).
    destruct (Hadopt _ _ H2) as (st3 & ok' & Hs' & H3 & Hj').
    exists st3, ok'. split; [apply (quietSteps_trans _ _ _ Hs Hs')|].
    split; [exact H3|congruence]. }
  destruct ph as [| |a|ok|ok]; [congruence| | | |].
  - assert (Hstep : quietStep st
      (runReaction (ThenCall m (PThen m)) true (setMicrotasks [] st))).
    { apply microtask_step.
      destruct Hinv as (_ & _ & _ & _ & _ & _ & _ & Hph). apply Hph. }
    destruct (inv_ready _ _ Hinv) as [Hj [[a Ha]|Ha]].
    + destruct (Hrunning _ _ Ha) as (st2 & ok & Hs & H2 & Hj2).
      exists st2, ok. split; [apply (QuietNext Hstep Hs)|].
      split; [exact H2|congruence].
    + destruct (Hadopt _ _ Ha) as (st2 & ok & Hs & H2 & Hj2).
      exists st2, ok. split; [apply (QuietNext Hstep Hs)|].
      split; [exact H2|congruence].
  - apply (Hrunning _ _ Hinv).
  - apply (Hadopt _ _ Hinv).
  - exists st, ok. split; [apply QuietDone|]. split; [exact Hinv|reflexivity].
Qed.

Lemma phase_idle_dec (ph : phase) : ph = Idle \/ ph <> Idle.
Proof. destruct ph; [left; reflexivity| | | |]; right; discriminate. Qed.

(** Left alone, the queue runs every job that was submitted. *)
Lemma quiesce d : forall (st : sys) m ph,
  Inv st m ph -> length (jobs st) - m <= d ->
  exists st',
    quietSteps st st' /\ Inv st' (length (jobs st)) Idle /\
    jobs st' = jobs st.
Proof.
  induction d as [|d IH]; intros st m ph Hinv Hd.
  - assert (Hm : m = length (jobs st)) by (destruct Hinv as [Hm _]; lia).
    assert (ph = Idle) as ->.
    { destruct Hinv as (_ & _ & _ & _ & _ & _ & _ & Hph).
      destruct ph; try (destruct Hph as [Hlt _]; lia). reflexivity. }
    exists st. split; [apply QuietDone|]. split; [|reflexivity].
    rewrite <- Hm. exact Hinv.
  - destruct (phase_idle_dec ph) as [->|Hne].
    + assert (Hm : m = length (jobs st))
        by (destruct Hinv as (_ & _ & _ & _ & _ & _ & _ & Hph); apply Hph).
      exists st. split; [apply QuietDone|]. split; [|reflexivity].
      rewrite <- Hm. exact Hinv.
    + destruct (to_catching _ _ _ Hinv Hne) as (st1 & ok & Hs1 & H1 & Hj1).
      assert (Hstep : quietStep st1
        (runReaction (CatchReport (PCatch m)) ok (setMicrotasks [] st1))).
      { apply microtask_step.
        destruct H1 as (_ & _ & _ & _ & _ & _ & _ & Hph). apply Hph. }
      assert (Hlt : m < length (jobs st1))
        by (destruct H1 as (_ & _ & _ & _ & _ & _ & _ & Hph); apply Hph).
      destruct (inv_catching _ _ _ H1) as [Hj2 H2].
      destruct (IH _ _ _ H2) as (st3 & Hs3 & H3 & Hj3);
        [rewrite Hj2, Hj1; lia|].
      exists st3. rewrite Hj2, Hj1 in H3, Hj3.
      split; [|split; [exact H3|exact Hj3]].
      apply (quietSteps_trans _ _ _ Hs1). apply (QuietNext Hstep Hs3).
Qed.


Lemma quietStep_deterministic (st st1 st2 : sys) m ph :
  Inv st m ph -> quietStep st st1 -> quietStep st st2 -> st1 = st2.
Proof.
  intros Hinv H1 H2.
  pose proof (quietStep_inv _ _ _ _ Hinv H1) as E1.
  pose proof (quietStep_inv _ _ _ _ Hinv H2) as E2.
  destruct ph; [contradiction| | | |]; congruence.
Qed.

(** *** Jobs submitted during a run *)

Lemma settle_frame p ok (st : sys) :
  trace (settle p ok st) = trace st /\
  running (settle p ok st) = running st /\
  jobs (settle p ok st) = jobs st.
Proof. unfold settle. destruct (store st p); repeat split; reflexivity. Qed.

Lemma subscribe_frame p r (st : sys) :
  trace (subscribe p r st) = trace st /\
  running (subscribe p r st) = running st /\
  jobs (subscribe p r st) = jobs st.
Proof. unfold subscribe. destruct (store st p); repeat split; reflexivity. Qed.

Lemma enqueue_frame fn (st : sys) :
  trace (enqueueWrite fn st) = trace st /\
  running (enqueueWrite fn st) = running st /\
  jobs (enqueueWrite fn st) = jobs st ++ [fn].
Proof.
  pose proof (fun p r s => proj1 (subscribe_frame p r s)) as Ht.
  pose proof (fun p r s => proj1 (proj2 (subscribe_frame p r s))) as Hr.
  pose proof (fun p r s => proj2 (proj2 (subscribe_frame p r s))) as Hj.
  unfold enqueueWrite. cbv zeta. unfold setWriteQueue.
  cbn [trace running jobs].
  repeat first [ rewrite Ht | rewrite Hr | rewrite Hj
               | progress (unfold alloc, setStore, addJob)
               | progress cbn [trace running jobs] ].
  repeat split; reflexivity.
Qed.

Lemma in_removeAt {A : Type} (x : A) : forall i l,
  In x (removeAt i l) -> In x l.
Proof.
  intros i l. revert i. induction l as [|y l IH]; intros [|i] H;
    cbn [removeAt] in H; try contradiction.
  - right. exact H.
  - destruct H as [<-|H]; [left; reflexivity|right; exact (IH i H)].
Qed.

Lemma in_replaceAt {A : Type} (x y : A) : forall i l,
  In x (replaceAt i y l) -> x = y \/ In x l.
Proof.
  intros i l. revert i. induction l as [|z l IH]; intros [|i] H;
    cbn [replaceAt] in H; try contradiction.
  - destruct H as [<-|H]; [left; reflexivity|right; right; exact H].
  - destruct H as [<-|H]; [right; left; reflexivity|].
    destruct (IH i H) as [->|Hin]; [left; reflexivity|right; right; exact Hin].
Qed.

Lemma startsLogged_initial : startsLogged (initial Local s0).
Proof. split; intros ? ; cbn; try intros ? ; contradiction. Qed.

Lemma startsLogged_quiet (st st' : sys) :
  quietStep st st' -> startsLogged st -> startsLogged st'.
Proof.
  intros Hstep [Hc Hr]. destruct Hstep as [r ok rest st Hmt|i a st Ha].
  - assert (Hbase : startsLogged (setMicrotasks rest st)) by (split; assumption).
    clear Hmt. set (st1 := setMicrotasks rest st) in *.
    assert (Hsettle : forall p b (s : sys), startsLogged s ->
                        startsLogged (settle p b s)).
    { intros p b s [H1 H2]. unfold startsLogged.
      destruct (settle_frame p b s) as (-> & -> & _). split; assumption. }
    assert (Hlog : forall e (s : sys),
               (forall k ok', e = Completed k ok' -> In (Started k) (trace s)) ->
               startsLogged s -> startsLogged (log e s)).
    { intros e s He [H1 H2]. unfold startsLogged, log. cbn [trace running].
      split.
      - intros k ok' H. apply in_app_or in H as [H|[H|[]]]; apply in_or_app.
        + left. exact (H1 k ok' H).
        + left. exact (He k ok' H).
      - intros a H. apply in_or_app. left. exact (H2 a H). }
    destruct r as [fn d|d|d]; destruct ok; cbn [runReaction];
      try (apply Hsettle; try apply Hlog; try discriminate; exact Hbase).
    destruct (nth_error (jobs st1) fn) as [j|]; [|exact Hbase].
    unfold startsLogged.
    destruct (subscribe_frame (PCall fn) (Adopt d) (callJob fn j st1))
      as (-> & -> & _).
    destruct Hbase as [H1 H2]. unfold callJob. cbv zeta.
    destruct (j_actions j) as [|act acts].
    + destruct (settle_frame (PCall fn) true
                  (log (Completed fn true)
                     (log (Started fn) (alloc (PCall fn) st1))))
        as (-> & -> & _).
      cbn [log alloc setStore trace running]. split.
      * intros k ok' H.
        apply in_app_or in H as [H|[H|[]]].
        -- apply in_app_or in H as [H|[H|[]]]; [|discriminate].
           apply in_or_app. left. apply in_or_app. left. exact (H1 k ok' H).
        -- injection H as <- _. apply in_or_app. left. apply in_or_app.
           right. left. reflexivity.
      * intros a H. apply in_or_app. left. apply in_or_app. left.
        exact (H2 a H).
    + cbn [setRunning log alloc setStore trace running]. split.
      * intros k ok' H. apply in_app_or in H as [H|[H|[]]]; [|discriminate].
        apply in_or_app. left. exact (H1 k ok' H).
      * intros a H. apply in_app_or in H as [H|[<-|[]]]; apply in_or_app.
        -- left. exact (H2 a H).
        -- right. left. reflexivity.
  - assert (Hin : In a (running st)) by (eapply nth_error_In; exact Ha).
    pose proof (Hr a Hin) as Hstart.
    unfold resume. destruct (a_rest a) as [|act rest]; [split; assumption|].
    destruct (act (shared st) (a_local a)) as [[s' l']|].
    + destruct rest as [|act' rest'].
      * unfold startsLogged.
        match goal with
        | |- context [settle ?p ?b ?s] =>
            destruct (settle_frame p b s) as (-> & -> & _)
        end.
        cbn [log setRunning setShared trace running]. split.
        -- intros k ok' H. apply in_or_app. left.
           apply in_app_or in H as [H|[H|[]]]; [exact (Hc k ok' H)|].
           injection H as <- _. exact Hstart.
        -- intros a' H. apply in_or_app. left. apply Hr.
           exact (in_removeAt _ _ _ H).
      * unfold startsLogged.
        cbn [setRunning setShared trace running]. split; [exact Hc|].
        intros a' H. destruct (in_replaceAt _ _ _ _ H) as [->|H'];
          [exact Hstart|exact (Hr a' H')].
    + unfold startsLogged.
      match goal with
      | |- context [settle ?p ?b ?s] =>
          destruct (settle_frame p b s) as (-> & -> & _)
      end.
      cbn [log setRunning trace running]. split.
      * intros k ok' H. apply in_or_app. left.
        apply in_app_or in H as [H|[H|[]]]; [exact (Hc k ok' H)|].
        injection H as <- _. exact Hstart.
      * intros a' H. apply in_or_app. left. apply Hr.
        exact (in_removeAt _ _ _ H).
Qed.

Lemma startsLogged_steps (st st' : sys) :
  quietSteps st st' -> startsLogged st -> startsLogged st'.
Proof.
  induction 1 as [|st st1 st2 Hstep _ IH]; intros H; [exact H|].
  apply IH. exact (startsLogged_quiet _ _ Hstep H).
Qed.

Lemma quietStep_step (st st' : sys) : quietStep st st' -> step st st'.
Proof.
  intros [r ok rest st0 H|i a st0 H];
    [apply StepMicrotask; exact H|apply StepHost; exact H].
Qed.

Lemma submitted_reachable (js : list job) (st : sys) :
  submitted s0 js st ->
  reachable s0 st /\ jobs st = js /\ startsLogged st.
Proof.
  induction 1 as [|js fn st _ (Hr & Hj & Hl)|js st st' _ (Hr & Hj & Hl) Hstep].
  - split; [apply ReachInitial|]. split; [reflexivity|].
    apply startsLogged_initial.
  - split; [eapply ReachStep; [exact Hr|apply StepEnqueue]|].
    destruct (enqueue_frame fn st) as (Ht & Hrun & Hjobs).
    split; [rewrite Hjobs, Hj; reflexivity|].
    unfold startsLogged. rewrite Ht, Hrun. exact Hl.
  - split; [eapply ReachStep; [exact Hr|apply quietStep_step, Hstep]|].
    destruct (reachable_inv _ Hr) as (m & ph & Hinv).
    destruct (inv_quietStep _ _ _ _ Hinv Hstep) as [Hjobs _].
    split; [rewrite Hjobs; exact Hj|].
    exact (startsLogged_quiet _ _ Hstep Hl).
Qed.

End Facts.

(** C4: however the jobs [js] are submitted during a run of the event loop,
    and whenever the host answers, no job has started before all jobs
    submitted earlier completed, by success or by failure; the next step of
    the event loop is determined; and the loop, left alone, starts and
    completes every submitted job, failed jobs included, leaving the
    resource as if the submitted jobs had run one after the other in the
    order of submission. *)
Theorem write_queue_runs_jobs_in_order :
  forall (Shared Local : Type) (s0 : Shared) (js : list (job Shared Local))
         (st : sys Shared Local),
    submitted s0 js st ->
    serial (trace st) /\
    (forall st1 st2, quietStep st st1 -> quietStep st st2 -> st1 = st2) /\
    exists st',
      quietSteps st st' /\ microtasks st' = [] /\ running st' = [] /\
      jobs st' = jobs st /\ serial (trace st') /\
      (forall k, k < length js ->
                 In (Started k) (trace st') /\
                 exists ok, In (Completed k ok) (trace st')) /\
      shared st' = runInOrder js s0.
Proof.
  intros Shared Local s0 js st Hsub.
  destruct (submitted_reachable _ _ _ _ _ Hsub) as (Hreach & Hjs & Hlog).
  destruct (reachable_inv _ _ _ _ Hreach) as (m & ph & Hinv).
  split; [apply Hinv|].
  split; [intros st1 st2; apply (quietStep_deterministic _ _ _ _ _ _ _ _ Hinv)|].
  destruct (quiesce _ _ _ _ _ _ _ Hinv (le_n _)) as (st' & Hsteps & Hinv' & Hjobs).
  exists st'. split; [exact Hsteps|].
  pose proof (startsLogged_steps _ _ _ _ Hsteps Hlog) as [Hstarted _].
  destruct Hinv' as (_ & _ & _ & _ & _ & Hser & Hdone & Hidle).
  destruct Hidle as (Hn & Hmt & Hrun & Hsh).
  split; [exact Hmt|]. split; [exact Hrun|]. split; [exact Hjobs|].
  split; [exact Hser|]. split.
  - intros k Hk. rewrite <- Hjs in Hk. destruct (Hdone k Hk) as [ok Hok].
    split; [exact (Hstarted k ok Hok)|exists ok; exact Hok].
  - rewrite Hsh, Hjobs, Hjs. reflexivity.
Qed.

Lemma write_queue_runs_jobs_in_order_witness :
  let js := [Job [] [readFile; failingWrite];
             Job [] [readFile; writeAppended 2]] in
  submitted [7] js twoJobs /\
  serial (trace twoJobs) /\
  (forall st1 st2, quietStep twoJobs st1 -> quietStep twoJobs st2 -> st1 = st2) /\
  exists st',
    quietSteps twoJobs st' /\ microtasks st' = [] /\ running st' = [] /\
    jobs st' = jobs twoJobs /\ serial (trace st') /\
    (forall k, k < length js ->
               In (Started k) (trace st') /\
               exists ok, In (Completed k ok) (trace st')) /\
    shared st' = runInOrder js [7].
Proof.
  cbv zeta.
  assert (H : submitted [7]
                [Job [] [readFile; failingWrite];
                 Job [] [readFile; writeAppended 2]] twoJobs).
  { unfold twoJobs.
    apply (SubmittedJob (js := [Job [] [readFile; failingWrite]])
             (Job [] [readFile; writeAppended 2])).
    apply (SubmittedJob (js := []) (Job [] [readFile; failingWrite])).
    apply SubmittedNone. }
  split; [exact H|].
  apply (write_queue_runs_jobs_in_order (list nat) (list nat) [7] _ twoJobs H).
Defined.

(** The run of [twoJobs]: the failure of the first job is reported, then
    the second job runs and appends to the file as the first left it. *)
Example twoJobs_run :
  let st := runLoop 20 twoJobs in
  trace st = [Started 0; Completed 0 false; Reported;
              Started 1; Completed 1 true] /\
  shared st = [7; 2] /\ microtasks st = [] /\ running st = [].
Proof. cbv zeta. repeat split; reflexivity. Qed.

(** Without the queue the model lets the two jobs interleave: both read
    before either writes, and the first write is lost. *)
Example twoCalls_lose_an_update :
  let st1 := resume 0 (Activation 0 (PCall 0) [] [readFile; writeAppended 1])
               twoCalls in
  let st2 := resume 1 (Activation 1 (PCall 1) [] [readFile; writeAppended 2])
               st1 in
  let st3 := resume 0 (Activation 0 (PCall 0) [7] [writeAppended 1]) st2 in
  let st4 := resume 0 (Activation 1 (PCall 1) [7] [writeAppended 2]) st3 in
  quietSteps twoCalls st4 /\ running st4 = [] /\ shared st4 = [7; 2].
Proof.
  cbv zeta. split; [|split; reflexivity].
  eapply QuietNext; [apply (QuietHost 0); reflexivity|].
  eapply QuietNext; [apply (QuietHost 1); reflexivity|].
  eapply QuietNext; [apply (QuietHost 0); reflexivity|].
  eapply QuietNext; [apply (QuietHost 0); reflexivity|].
  apply QuietDone.
Qed.

End WriteQueueFacts.

(* ================================================================== *)
(** * Further properties of the dashboard, the settings and the parser *)
(* ================================================================== *)

Lemma count_fold items : forall n,
  fold_left
    (fun count item =>
       match item with
       | ItemEntry _ => S count
       | ItemSubsection sub => count + length (entries sub)
       end) items n = n + length (flat_map itemEntries items).
Proof.
  induction items as [|item rest IH]; intros n; cbn [fold_left flat_map length].
  - lia.
  - rewrite IH, length_app. destruct item; cbn [itemEntries length]; lia.
Qed.

Lemma countSectionEntries_length s :
  countSectionEntries s = length (sectionEntries s).
Proof. unfold countSectionEntries, sectionEntries. rewrite count_fold. lia. Qed.

Lemma occursIn_itemEntries entry item :
  occursIn entry item = existsb (fun e => sameObject e entry) (itemEntries item).
Proof. destruct item; cbn; [reflexivity|]. rewrite orb_false_r. reflexivity. Qed.

Lemma sectionEntries_withItems s items :
  sectionEntries (withItems s items) = flat_map itemEntries items.
Proof. reflexivity. Qed.

Lemma holds_false_items entry items :
  (forall it, In it items -> occursIn entry it = false) ->
  existsb (occursIn entry) items = false.
Proof.
  intros H. destruct (existsb (occursIn entry) items) eqn:E; [|reflexivity].
  apply existsb_exists in E as [it [Hin Hit]]. rewrite (H it Hin) in Hit.
  discriminate.
Qed.

Lemma holds_app entry pre item post :
  occursIn entry item = true ->
  existsb (occursIn entry) (pre ++ item :: post) = true.
Proof.
  intros H. rewrite existsb_app. cbn [existsb]. rewrite H.
  rewrite orb_true_l. apply orb_true_r.
Qed.

(** X1: The count shown in a section header drops by one when an entry of the
    section is removed, and stays when the section does not hold it. *)
Theorem removeEntryFromSection_count :
  forall (section : PrioritySection) (entry : PriorityEntry),
    countSectionEntries (removeEntryFromSection section entry) =
    countSectionEntries section - (if holds entry section then 1 else 0).
Proof.
  intros section entry. unfold holds, removeEntryFromSection.
  rewrite !countSectionEntries_length, sectionEntries_withItems.
  unfold sectionEntries.
  destruct (removeEntryFromItems_spec (orderedItems section) entry)
    as [[Hno Heq]|[(pre & e & post & Hitems & Hpre & He & Heq)|
                   (pre & sub & es1 & e & es2 & post & Hitems & Hsub & Hpre
                    & Hes1 & He & Heq)]].
  - rewrite (holds_false_items _ _ Hno), Heq. lia.
  - rewrite Heq, Hitems, holds_app by exact He.
    rewrite !flat_map_app, !length_app. cbn [flat_map itemEntries length app].
    rewrite ?length_app. cbn [length]. lia.
  - rewrite Heq, Hitems, holds_app.
    + rewrite !flat_map_app, !length_app. cbn [flat_map itemEntries withEntries entries].
      rewrite Hsub, ?length_app. cbn [length]. rewrite ?length_app. lia.
    + cbn [occursIn]. rewrite Hsub, existsb_app. cbn [existsb]. rewrite He.
      rewrite orb_true_l. apply orb_true_r.
Qed.

(** *** [insertEntryNearTarget] *)

Lemma indexOfEntry_lt es entry idx :
  indexOfEntry es entry = Some idx -> idx < length es.
Proof.
  revert idx. induction es as [|e rest IH]; intros idx; [discriminate|].
  cbn [indexOfEntry length]. destruct (sameObject e entry); [intros [= <-]; lia|].
  destruct (indexOfEntry rest entry) as [j|]; [|discriminate].
  intros [= <-]. specialize (IH j eq_refl). lia.
Qed.

Lemma indexOfEntry_split es entry idx :
  indexOfEntry es entry = Some idx ->
  exists es1 e es2,
    es = es1 ++ e :: es2 /\ length es1 = idx /\
    (forall x, In x es1 -> sameObject x entry = false) /\
    sameObject e entry = true.
Proof.
  revert idx. induction es as [|e rest IH]; intros idx; [discriminate|].
  cbn [indexOfEntry]. destruct (sameObject e entry) eqn:E.
  - intros [= <-]. exists [], e, rest.
    split; [reflexivity|]. split; [reflexivity|]. split; [intros x []|exact E].
  - destruct (indexOfEntry rest entry) as [j|]; [|discriminate].
    intros [= <-]. destruct (IH j eq_refl) as (es1 & x & es2 & -> & Hl & Hn & Hx).
    exists (e :: es1), x, es2. split; [reflexivity|].
    split; [cbn [length]; rewrite Hl; reflexivity|]. split; [|exact Hx].
    intros y [<-|Hy]; [exact E|apply Hn, Hy].
Qed.

Lemma spliceIn_at {A : Type} (l1 l2 : list A) x :
  spliceIn (length l1) x (l1 ++ l2) = l1 ++ x :: l2.
Proof.
  unfold spliceIn. rewrite firstn_app, firstn_all, Nat.sub_diag.
  rewrite skipn_app, skipn_all, Nat.sub_diag. cbn [firstn skipn app].
  rewrite app_nil_r. reflexivity.
Qed.

Lemma spliceIn_after {A : Type} (l1 l2 : list A) x y :
  spliceIn (S (length l1)) x (l1 ++ y :: l2) = l1 ++ y :: x :: l2.
Proof.
  replace (l1 ++ y :: l2) with ((l1 ++ [y]) ++ l2)
    by (rewrite <- app_assoc; reflexivity).
  replace (S (length l1)) with (length (l1 ++ [y]))
    by (rewrite length_app; cbn [length]; lia).
  rewrite spliceIn_at, <- app_assoc. reflexivity.
Qed.

Lemma insertNearInItems_spec items newEntry targetEntry insertBefore :
  ((forall item, In item items -> occursIn targetEntry item = false) /\
   insertNearInItems items newEntry targetEntry insertBefore = None)
  \/
  (exists pre e post,
     items = pre ++ ItemEntry e :: post /\
     (forall item, In item pre -> occursIn targetEntry item = false) /\
     sameObject e targetEntry = true /\
     insertNearInItems items newEntry targetEntry insertBefore =
     Some (pre ++ (if insertBefore
                   then [ItemEntry newEntry; ItemEntry e]
                   else [ItemEntry e; ItemEntry newEntry]) ++ post))
  \/
  (exists pre sub es1 e es2 post,
     items = pre ++ ItemSubsection sub :: post /\
     entries sub = es1 ++ e :: es2 /\
     (forall item, In item pre -> occursIn targetEntry item = false) /\
     (forall x, In x es1 -> sameObject x targetEntry = false) /\
     sameObject e targetEntry = true /\
     insertNearInItems items newEntry targetEntry insertBefore =
     Some (pre ++ ItemSubsection
                    (withEntries sub
                       (es1 ++ (if insertBefore then [newEntry; e]
                                else [e; newEntry]) ++ es2)) :: post)).
Proof.
  induction items as [|item rest IH].
  - left. split; [intros ? []|reflexivity].
  - cbn [insertNearInItems].
    assert (Hcons : occursIn targetEntry item = false ->
      ((forall it, In it (item :: rest) -> occursIn targetEntry it = false) /\
       option_map (cons item)
         (insertNearInItems rest newEntry targetEntry insertBefore) = None)
      \/
      (exists pre e post,
         item :: rest = pre ++ ItemEntry e :: post /\
         (forall it, In it pre -> occursIn targetEntry it = false) /\
         sameObject e targetEntry = true /\
         option_map (cons item)
           (insertNearInItems rest newEntry targetEntry insertBefore) =
         Some (pre ++ (if insertBefore
                       then [ItemEntry newEntry; ItemEntry e]
                       else [ItemEntry e; ItemEntry newEntry]) ++ post))
      \/
      (exists pre sub es1 e es2 post,
         item :: rest = pre ++ ItemSubsection sub :: post /\
         entries sub = es1 ++ e :: es2 /\
         (forall it, In it pre -> occursIn targetEntry it = false) /\
         (forall x, In x es1 -> sameObject x targetEntry = false) /\
         sameObject e targetEntry = true /\
         option_map (cons item)
           (insertNearInItems rest newEntry targetEntry insertBefore) =
         Some (pre ++ ItemSubsection
                        (withEntries sub
                           (es1 ++ (if insertBefore then [newEntry; e]
                                    else [e; newEntry]) ++ es2)) :: post))).
    { intros Hitem.
      destruct IH as [[Hn Heq]|[(pre & e & post & -> & Hn & He & Heq)
                               |(pre & sub & es1 & e & es2 & post & -> & Hes
                                 & Hn & Hn1 & He & Heq)]].
      - left. split; [|rewrite Heq; reflexivity].
        intros it [<-|Hit]; [exact Hitem|apply Hn, Hit].
      - right. left. exists (item :: pre), e, post.
        split; [reflexivity|]. split; [|split; [exact He|]].
        + intros it [<-|Hit]; [exact Hitem|apply Hn, Hit].
        + rewrite Heq. reflexivity.
      - right. right. exists (item :: pre), sub, es1, e, es2, post.
        split; [reflexivity|]. split; [exact Hes|]. split; [|split; [exact Hn1|]].
        + intros it [<-|Hit]; [exact Hitem|apply Hn, Hit].
        + split; [exact He|]. rewrite Heq. reflexivity. }
    destruct item as [sub|e].
    + destruct (indexOfEntry (entries sub) targetEntry) as [idx|] eqn:Ei.
      * apply indexOfEntry_split in Ei as (es1 & e & es2 & Hes & Hl & Hn1 & He).
        right. right. exists [], sub, es1, e, es2, rest.
        split; [reflexivity|]. split; [exact Hes|].
        split; [intros ? []|]. split; [exact Hn1|]. split; [exact He|].
        cbn [app]. f_equal. f_equal. f_equal. f_equal. rewrite Hes, <- Hl.
        destruct insertBefore; [apply spliceIn_at|apply spliceIn_after].
      * apply Hcons. cbn [occursIn]. apply indexOfEntry_none, Ei.
    + destruct (sameObject e targetEntry) eqn:E.
      * right. left. exists [], e, rest. split; [reflexivity|].
        split; [intros ? []|]. split; [exact E|].
        destruct insertBefore; reflexivity.
      * apply Hcons. exact E.
Qed.

(** X2: Where [insertEntryNearTarget] puts the new entry: next to the first
    occurrence of the target, before or after it, in the container that
    holds the target; at the end of the top level when the section does not
    hold the target. *)
Theorem insertEntryNearTarget_places :
  forall (section : PrioritySection) (newEntry targetEntry : PriorityEntry)
         (insertBefore : bool),
    let section' :=
      insertEntryNearTarget section newEntry targetEntry insertBefore in
    sectionName section' = sectionName section /\
    (((forall item, In item (orderedItems section) ->
                    occursIn targetEntry item = false) /\
      orderedItems section' = orderedItems section ++ [ItemEntry newEntry])
     \/
     (exists pre e post,
        orderedItems section = pre ++ ItemEntry e :: post /\
        (forall item, In item pre -> occursIn targetEntry item = false) /\
        sameObject e targetEntry = true /\
        orderedItems section' =
        pre ++ (if insertBefore
                then [ItemEntry newEntry; ItemEntry e]
                else [ItemEntry e; ItemEntry newEntry]) ++ post)
     \/
     (exists pre sub es1 e es2 post,
        orderedItems section = pre ++ ItemSubsection sub :: post /\
        entries sub = es1 ++ e :: es2 /\
        (forall item, In item pre -> occursIn targetEntry item = false) /\
        (forall x, In x es1 -> sameObject x targetEntry = false) /\
        sameObject e targetEntry = true /\
        orderedItems section' =
        pre ++ ItemSubsection
                 {| subsectionName := subsectionName sub;
                    entries := es1 ++ (if insertBefore then [newEntry; e]
                                       else [e; newEntry]) ++ es2 |} :: post)).
Proof.
  intros section newEntry targetEntry insertBefore. cbv zeta.
  unfold insertEntryNearTarget.
  destruct (insertNearInItems_spec (orderedItems section) newEntry targetEntry
              insertBefore)
    as [[Hno ->]|[(pre & e & post & Hitems & Hpre & He & ->)|
                  (pre & sub & es1 & e & es2 & post & Hitems & Hsub & Hpre
                   & Hes1 & He & ->)]].
  - split; [reflexivity|]. left. split; [exact Hno|reflexivity].
  - split; [reflexivity|]. right. left. exists pre, e, post.
    split; [exact Hitems|]. split; [exact Hpre|]. split; [exact He|reflexivity].
  - split; [reflexivity|]. right. right. exists pre, sub, es1, e, es2, post.
    split; [exact Hitems|]. split; [exact Hsub|]. split; [exact Hpre|].
    split; [exact Hes1|]. split; [exact He|reflexivity].
Qed.

Lemma perm_front {A : Type} (x : A) a b :
  Permutation (a ++ x :: b) (x :: a ++ b).
Proof. apply Permutation_sym, Permutation_middle. Qed.

Lemma perm_front2 {A : Type} (x : A) a b c :
  Permutation (a ++ b ++ x :: c) (x :: a ++ b ++ c).
Proof. rewrite !app_assoc. apply perm_front. Qed.

Lemma perm_front3 {A : Type} (x y : A) a b c :
  Permutation (a ++ b ++ y :: x :: c) (x :: a ++ b ++ y :: c).
Proof.
  replace (a ++ b ++ y :: x :: c) with ((a ++ b ++ [y]) ++ x :: c)
    by (rewrite <- !app_assoc; reflexivity).
  replace (a ++ b ++ y :: c) with ((a ++ b ++ [y]) ++ c)
    by (rewrite <- !app_assoc; reflexivity).
  apply perm_front.
Qed.

Lemma insertEntryNearTarget_name section newEntry targetEntry insertBefore :
  sectionName (insertEntryNearTarget section newEntry targetEntry insertBefore)
  = sectionName section.
Proof.
  unfold insertEntryNearTarget.
  destruct (insertNearInItems _ _ _ _); reflexivity.
Qed.

Lemma insertEntryNearTarget_perm section newEntry targetEntry insertBefore :
  Permutation
    (sectionEntries
       (insertEntryNearTarget section newEntry targetEntry insertBefore))
    (newEntry :: sectionEntries section).
Proof.
  unfold insertEntryNearTarget, sectionEntries.
  destruct (insertNearInItems_spec (orderedItems section) newEntry
              targetEntry insertBefore)
    as [[Hno ->]|[(pre & e & post & Hitems & Hpre & He & ->)|
                  (pre & sub & es1 & e & es2 & post & Hitems & Hsub & Hpre
                   & Hes1 & He & ->)]].
  - cbn [pushItem orderedItems]. rewrite flat_map_app.
    cbn [flat_map itemEntries app].
    apply Permutation_sym, Permutation_cons_append.
  - cbn [withItems orderedItems]. rewrite Hitems, !flat_map_app.
    destruct insertBefore; cbn [flat_map itemEntries app].
    + apply perm_front.
    + apply (perm_front3 newEntry e _ []).
  - cbn [withItems orderedItems]. rewrite Hitems, !flat_map_app.
    cbn [flat_map itemEntries withEntries entries]. rewrite Hsub.
    rewrite <- !app_assoc.
    destruct insertBefore; cbn [app].
    + apply perm_front2.
    + apply perm_front3.
Qed.

(** X3: [insertEntryNearTarget] adds the new entry once and keeps every entry
    of the section: the count in the header goes up by one. *)
Theorem insertEntryNearTarget_adds_one :
  forall (section : PrioritySection) (newEntry targetEntry : PriorityEntry)
         (insertBefore : bool),
    let section' :=
      insertEntryNearTarget section newEntry targetEntry insertBefore in
    Permutation (sectionEntries section') (newEntry :: sectionEntries section) /\
    countSectionEntries section' = S (countSectionEntries section).
Proof.
  intros section newEntry targetEntry insertBefore. cbv zeta.
  pose proof (insertEntryNearTarget_perm section newEntry targetEntry
                insertBefore) as H.
  split; [exact H|]. rewrite !countSectionEntries_length.
  apply Permutation_length in H. exact H.
Qed.

(** *** Insertion undone by removal *)

Lemma sameObject_refl e : sameObject e e = true.
Proof. apply Nat.eqb_refl. Qed.

Lemma indexOfEntry_inserted es1 es2 n :
  (forall x, In x es1 -> sameObject x n = false) ->
  indexOfEntry (es1 ++ n :: es2) n = Some (length es1).
Proof.
  intros H. induction es1 as [|e es1 IH]; cbn [app indexOfEntry length].
  - rewrite sameObject_refl. reflexivity.
  - rewrite (H e (or_introl eq_refl)), IH; [reflexivity|].
    intros x Hx. apply H. right. exact Hx.
Qed.

Lemma splice1_at {A : Type} (l1 l2 : list A) x :
  splice1 (length l1) (l1 ++ x :: l2) = l1 ++ l2.
Proof.
  unfold splice1. rewrite firstn_app, firstn_all, Nat.sub_diag.
  cbn [firstn]. rewrite app_nil_r.
  replace (l1 ++ x :: l2) with ((l1 ++ [x]) ++ l2)
    by (rewrite <- app_assoc; reflexivity).
  replace (S (length l1)) with (length (l1 ++ [x]))
    by (rewrite length_app; cbn [length]; lia).
  rewrite skipn_app, skipn_all, Nat.sub_diag. reflexivity.
Qed.

Lemma existsb_false_all {A : Type} (f : A -> bool) l :
  existsb f l = false -> forall x, In x l -> f x = false.
Proof.
  intros H x Hx. destruct (f x) eqn:E; [|reflexivity].
  assert (existsb f l = true) by (apply existsb_exists; exists x; split; assumption).
  congruence.
Qed.

Lemma removeEntryFromItems_skip pre rest n :
  (forall it, In it pre -> occursIn n it = false) ->
  removeEntryFromItems (pre ++ rest) n = pre ++ removeEntryFromItems rest n.
Proof.
  intros H. induction pre as [|it pre IH]; [reflexivity|].
  cbn [app removeEntryFromItems].
  pose proof (H it (or_introl eq_refl)) as Hit.
  assert (IH' : removeEntryFromItems (pre ++ rest) n =
                pre ++ removeEntryFromItems rest n)
    by (apply IH; intros x Hx; apply H; right; exact Hx).
  destruct it as [sub|e]; cbn [occursIn] in Hit.
  - destruct (indexOfEntry (entries sub) n) as [idx|] eqn:Ei.
    + apply indexOfEntry_some in Ei as (es1 & e & es2 & Hes & _ & He & _).
      rewrite Hes, existsb_app in Hit. cbn [existsb] in Hit. rewrite He in Hit.
      rewrite orb_true_l, orb_true_r in Hit. discriminate.
    + rewrite IH'. reflexivity.
  - rewrite Hit, IH'. reflexivity.
Qed.

(** X4: Removing the entry that [insertEntryNearTarget] has just put into a
    section that did not hold it gives the section back. *)
Theorem insert_then_remove :
  forall (section : PrioritySection) (newEntry targetEntry : PriorityEntry)
         (insertBefore : bool),
    holds newEntry section = false ->
    removeEntryFromSection
      (insertEntryNearTarget section newEntry targetEntry insertBefore)
      newEntry = section.
Proof.
  intros [name items] n t b Hn. unfold holds in Hn. cbn [orderedItems] in Hn.
  pose proof (existsb_false_all _ _ Hn) as Hall.
  unfold removeEntryFromSection, insertEntryNearTarget. cbn [orderedItems].
  destruct (insertNearInItems_spec items n t b)
    as [[Hno ->]|[(pre & e & post & Hitems & Hpre & He & ->)|
                  (pre & sub & es1 & e & es2 & post & Hitems & Hsub & Hpre
                   & Hes1 & He & ->)]];
    unfold withItems, pushItem; cbn [orderedItems sectionName]; f_equal.
  - rewrite removeEntryFromItems_skip by exact Hall.
    cbn [removeEntryFromItems]. rewrite sameObject_refl. apply app_nil_r.
  - subst items.
    rewrite removeEntryFromItems_skip
      by (intros it Hit; apply Hall, in_or_app; left; exact Hit).
    assert (Hen : sameObject e n = false)
      by (apply (Hall (ItemEntry e)), in_or_app; right; left; reflexivity).
    destruct b; cbn [app removeEntryFromItems].
    + rewrite sameObject_refl. reflexivity.
    + rewrite Hen, sameObject_refl. reflexivity.
  - subst items.
    rewrite removeEntryFromItems_skip
      by (intros it Hit; apply Hall, in_or_app; left; exact Hit).
    assert (Hsubn : existsb (fun x => sameObject x n) (entries sub) = false)
      by (apply (Hall (ItemSubsection sub)), in_or_app; right; left; reflexivity).
    pose proof (existsb_false_all _ _ Hsubn) as Hsuball. rewrite Hsub in Hsuball.
    cbn [removeEntryFromItems withEntries entries].
    destruct b.
    + cbn [app]. rewrite indexOfEntry_inserted
        by (intros x Hx; apply Hsuball, in_or_app; left; exact Hx).
      rewrite splice1_at. cbn [subsectionName]. rewrite <- Hsub.
      destruct sub; reflexivity.
    + replace (es1 ++ [e; n] ++ es2) with ((es1 ++ [e]) ++ n :: es2)
        by (rewrite <- app_assoc; reflexivity).
      rewrite indexOfEntry_inserted.
      * rewrite splice1_at.
        replace ((es1 ++ [e]) ++ es2) with (es1 ++ e :: es2)
          by (rewrite <- app_assoc; reflexivity).
        rewrite <- Hsub. destruct sub; reflexivity.
      * intros x Hx. apply Hsuball. apply in_app_or in Hx as [Hx|[<-|[]]];
          apply in_or_app; [left; exact Hx|right; left; reflexivity].
Qed.

(** *** Drag and drop *)

Lemma updateAt_nth {A : Type} (f : A -> A) l i x :
  nth_error l i = Some x ->
  exists a b, l = a ++ x :: b /\ length a = i /\
              updateAt i f l = a ++ f x :: b.
Proof.
  intros H. apply nth_error_split in H as (a & b & -> & <-).
  exists a, b. split; [reflexivity|]. split; [reflexivity|].
  apply updateAt_middle.
Qed.

Lemma updateAt_length {A : Type} (f : A -> A) l : forall i,
  length (updateAt i f l) = length l.
Proof.
  induction l as [|x l IH]; intros [|i]; cbn [updateAt length];
    try reflexivity. rewrite IH. reflexivity.
Qed.

Lemma updateAt_names f secs : forall i,
  (forall s, sectionName (f s) = sectionName s) ->
  map sectionName (updateAt i f secs) = map sectionName secs.
Proof.
  induction secs as [|x l IH]; intros [|i] H; cbn [updateAt map];
    try reflexivity.
  - rewrite H. reflexivity.
  - rewrite IH by exact H. reflexivity.
Qed.

Lemma removeEntryFromSection_perm s e :
  holds e s = true ->
  exists e', sameObject e' e = true /\
             Permutation (sectionEntries s)
               (e' :: sectionEntries (removeEntryFromSection s e)).
Proof.
  unfold holds, removeEntryFromSection, sectionEntries.
  cbn [withItems orderedItems]. intros H.
  destruct (removeEntryFromItems_spec (orderedItems s) e)
    as [[Hno Heq]|[(pre & x & post & Hitems & Hpre & He & Heq)|
                   (pre & sub & es1 & x & es2 & post & Hitems & Hsub & Hpre
                    & Hes1 & He & Heq)]].
  - rewrite (holds_false_items _ _ Hno) in H. discriminate.
  - exists x. split; [exact He|]. rewrite Heq, Hitems, !flat_map_app.
    cbn [flat_map itemEntries app]. apply perm_front.
  - exists x. split; [exact He|]. rewrite Heq, Hitems, !flat_map_app.
    cbn [flat_map itemEntries withEntries entries]. rewrite Hsub.
    rewrite <- !app_assoc. cbn [app]. apply perm_front2.
Qed.

Lemma allEntries_update data a s b s' :
  sections data = a ++ s :: b ->
  allEntries (withSections data (a ++ s' :: b)) =
  flat_map sectionEntries a ++ sectionEntries s' ++ flat_map sectionEntries b.
Proof.
  intros _. unfold allEntries, withSections. cbn [sections].
  rewrite flat_map_app. reflexivity.
Qed.

Lemma allEntries_split data a s b :
  sections data = a ++ s :: b ->
  allEntries data =
  flat_map sectionEntries a ++ sectionEntries s ++ flat_map sectionEntries b.
Proof.
  intros H. unfold allEntries. rewrite H, flat_map_app. reflexivity.
Qed.

Lemma perm_in_middle {A : Type} (x : A) a l l' b :
  Permutation l (x :: l') -> Permutation (a ++ l ++ b) (x :: a ++ l' ++ b).
Proof.
  intros H. transitivity (a ++ (x :: l') ++ b).
  - apply Permutation_app_head, Permutation_app_tail, H.
  - cbn [app]. apply perm_front.
Qed.

Lemma sections_add_perm secs i f x :
  i < length secs ->
  (forall s, Permutation (sectionEntries (f s)) (x :: sectionEntries s)) ->
  Permutation (flat_map sectionEntries (updateAt i f secs))
    (x :: flat_map sectionEntries secs).
Proof.
  intros Hi Hf. destruct (nth_error secs i) as [s|] eqn:En.
  2:{ apply nth_error_None in En. lia. }
  destruct (updateAt_nth f secs i s En) as (a & b & -> & _ & ->).
  rewrite !flat_map_app. cbn [flat_map]. apply perm_in_middle, Hf.
Qed.

Lemma sections_remove_perm secs i s e :
  nth_error secs i = Some s -> holds e s = true ->
  exists e', sameObject e' e = true /\
    Permutation (flat_map sectionEntries secs)
      (e' :: flat_map sectionEntries
               (updateAt i (fun x => removeEntryFromSection x e) secs)).
Proof.
  intros En Hh.
  destruct (updateAt_nth (fun x => removeEntryFromSection x e) secs i s En)
    as (a & b & -> & _ & ->).
  destruct (removeEntryFromSection_perm s e Hh) as [e' [He' Hp]].
  exists e'. split; [exact He'|]. rewrite !flat_map_app. cbn [flat_map].
  apply perm_in_middle, Hp.
Qed.

Lemma sameObject_oid a b : sameObject a b = true -> oid a = oid b.
Proof. apply Nat.eqb_eq. Qed.

(** X5: A drop on an entry row neither loses nor duplicates an entry: when the
    dragged entry is in the section it was dragged from, the document holds
    the same entry objects afterwards, in sections of the same names. *)
Theorem dropOnEntry_keeps_entries :
  forall (data : DashboardData) (fromSectionIdx sectionIndex : nat)
         (draggedEntry entry : PriorityEntry) (insertBefore : bool)
         (fromSection : PrioritySection),
    nth_error (sections data) fromSectionIdx = Some fromSection ->
    sectionIndex < length (sections data) ->
    holds draggedEntry fromSection = true ->
    exists data',
      dropOnEntry data fromSectionIdx sectionIndex draggedEntry entry
        insertBefore = Done data' /\
      unlisted data' = unlisted data /\
      map sectionName (sections data') = map sectionName (sections data) /\
      Permutation (map oid (allEntries data')) (map oid (allEntries data)).
Proof.
  intros data from to dragged target b s Hfrom Hto Hholds.
  unfold dropOnEntry. rewrite Hfrom.
  destruct (nth_error (sections data) to) as [t|] eqn:Et.
  2:{ apply nth_error_None in Et. lia. }
  eexists. split; [reflexivity|]. split; [reflexivity|]. split.
  - cbn [withSections sections].
    rewrite !updateAt_names; [reflexivity| |]; intros x.
    + reflexivity.
    + apply insertEntryNearTarget_name.
  - unfold allEntries. cbn [withSections sections].
    destruct (sections_remove_perm _ _ _ dragged Hfrom Hholds) as [e' [He' Hp]].
    set (removed := updateAt from (fun x => removeEntryFromSection x dragged)
                      (sections data)) in *.
    assert (Hadd : Permutation
                     (flat_map sectionEntries
                        (updateAt to
                           (fun x => insertEntryNearTarget x dragged target b)
                           removed))
                     (dragged :: flat_map sectionEntries removed)).
    { apply sections_add_perm.
      - unfold removed. rewrite updateAt_length. exact Hto.
      - intros x. apply insertEntryNearTarget_perm. }
    apply (Permutation_map oid) in Hadd. apply (Permutation_map oid) in Hp.
    cbn [map] in *. rewrite (sameObject_oid _ _ He') in Hp.
    rewrite Hadd. symmetry. exact Hp.
Qed.

Lemma updateAt_twice {A : Type} (f g : A -> A) l : forall i,
  updateAt i g (updateAt i f l) = updateAt i (fun x => g (f x)) l.
Proof.
  induction l as [|x l IH]; intros [|i]; cbn [updateAt]; try reflexivity.
  rewrite IH. reflexivity.
Qed.

Lemma updateAt_ext_at {A : Type} (f g : A -> A) l i x :
  nth_error l i = Some x -> f x = g x -> updateAt i f l = updateAt i g l.
Proof.
  intros Hn Hx. destruct (updateAt_nth f l i x Hn) as (a & b & Hl & Hi & ->).
  subst l i. rewrite updateAt_middle, Hx. reflexivity.
Qed.

Lemma insertEntryNearTarget_absent section newEntry targetEntry insertBefore :
  holds targetEntry section = false ->
  insertEntryNearTarget section newEntry targetEntry insertBefore =
  pushItem section (ItemEntry newEntry).
Proof.
  unfold holds, insertEntryNearTarget. intros H.
  destruct (insertNearInItems_spec (orderedItems section) newEntry
              targetEntry insertBefore)
    as [[Hno ->]|[(pre & e & post & Hitems & Hpre & He & _)|
                  (pre & sub & es1 & e & es2 & post & Hitems & Hsub & Hpre
                   & Hes1 & He & _)]]; [reflexivity| |].
  - rewrite Hitems, holds_app in H by exact He. discriminate.
  - rewrite Hitems, holds_app in H; [discriminate|].
    cbn [occursIn]. rewrite Hsub, existsb_app. cbn [existsb]. rewrite He.
    rewrite orb_true_l. apply orb_true_r.
Qed.

(** X6: An entry dropped on its own row goes to the end of the top level of its
    section, out of the subsection it was in: the removal comes first, and
    the insertion no longer finds the target. *)
Theorem dropOnEntry_itself :
  forall (data : DashboardData) (sectionIndex : nat) (entry : PriorityEntry)
         (insertBefore : bool) (section : PrioritySection),
    nth_error (sections data) sectionIndex = Some section ->
    holds entry (removeEntryFromSection section entry) = false ->
    dropOnEntry data sectionIndex sectionIndex entry entry insertBefore =
    Done (withSections data
            (updateAt sectionIndex
               (fun s => pushItem (removeEntryFromSection s entry)
                           (ItemEntry entry))
               (sections data))).
Proof.
  intros data i e b s Hn Hh. unfold dropOnEntry. rewrite Hn.
  rewrite updateAt_twice. f_equal. f_equal.
  apply (updateAt_ext_at _ _ _ _ s Hn).
  apply insertEntryNearTarget_absent, Hh.
Qed.

(** *** The status menu *)

Lemma findIndex_none {A : Type} (p : A -> bool) l :
  (forall x, In x l -> p x = false) -> findIndex p l = None.
Proof.
  induction l as [|x l IH]; intros H; cbn [findIndex]; [reflexivity|].
  rewrite (H x (or_introl eq_refl)), IH; [reflexivity|].
  intros y Hy. apply H. right. exact Hy.
Qed.

Lemma findIndex_lt {A : Type} (p : A -> bool) l i :
  findIndex p l = Some i -> i < length l.
Proof.
  revert i. induction l as [|x l IH]; intros i; cbn [findIndex length];
    [discriminate|].
  destruct (p x); [intros [= <-]; lia|].
  destruct (findIndex p l) as [j|]; [|discriminate].
  intros [= <-]. specialize (IH j eq_refl). lia.
Qed.

(** X7: A status chosen from the menu moves the entry in memory only when the
    document has a section of the target's name, and never creates one; in
    every case the document holds the same entry objects afterwards, in
    sections of the same names. *)
Theorem chooseStatus_keeps_entries :
  forall (data : DashboardData) (sectionIndex : nat) (entry : PriorityEntry)
         (targetSection : jsstring) (section : PrioritySection),
    nth_error (sections data) sectionIndex = Some section ->
    holds entry section = true ->
    exists data',
      chooseStatus data sectionIndex entry targetSection = Done data' /\
      unlisted data' = unlisted data /\
      map sectionName (sections data') = map sectionName (sections data) /\
      Permutation (map oid (allEntries data')) (map oid (allEntries data)) /\
      ((forall s, In s (sections data) ->
                  JS.eqb (sectionName s) targetSection = false) ->
       data' = data).
Proof.
  intros data i e target s Hn Hh. unfold chooseStatus.
  assert (Hsame : exists data',
            Done data = Done data' /\ unlisted data' = unlisted data /\
            map sectionName (sections data') = map sectionName (sections data) /\
            Permutation (map oid (allEntries data')) (map oid (allEntries data)) /\
            ((forall s, In s (sections data) ->
                        JS.eqb (sectionName s) target = false) ->
             data' = data)).
  { exists data. split; [reflexivity|]. split; [reflexivity|].
    split; [reflexivity|]. split; [apply Permutation_refl|]. intros _.
    reflexivity. }
  destruct (JS.truthy target); [|exact Hsame].
  destruct (findIndex _ (sections data)) as [toIdx|] eqn:Ef; [|exact Hsame].
  destruct (Nat.eqb toIdx i); cbn [negb]; [exact Hsame|]. rewrite Hn.
  eexists. split; [reflexivity|]. split; [reflexivity|]. split; [|split].
  - cbn [withSections sections].
    rewrite !updateAt_names; [reflexivity| |]; intros x; reflexivity.
  - unfold allEntries. cbn [withSections sections].
    destruct (sections_remove_perm _ _ _ e Hn Hh) as [e' [He' Hp]].
    set (removed := updateAt i (fun x => removeEntryFromSection x e)
                      (sections data)) in *.
    assert (Hadd : Permutation
                     (flat_map sectionEntries
                        (updateAt toIdx
                           (fun x => pushItem x (ItemEntry e)) removed))
                     (e :: flat_map sectionEntries removed)).
    { apply sections_add_perm.
      - unfold removed. rewrite updateAt_length.
        eapply findIndex_lt, Ef.
      - intros x. unfold sectionEntries. cbn [pushItem orderedItems].
        rewrite flat_map_app. cbn [flat_map itemEntries app].
        apply Permutation_sym, Permutation_cons_append. }
    apply (Permutation_map oid) in Hadd. apply (Permutation_map oid) in Hp.
    cbn [map] in *. rewrite (sameObject_oid _ _ He') in Hp.
    rewrite Hadd. symmetry. exact Hp.
  - intros Hnone. apply findIndex_none in Hnone. congruence.
Qed.

(** *** The theorems above at concrete sections *)

Lemma insert_then_remove_witness :
  holds (sampleEntry 3 "Delta") sampleSection = false /\
  removeEntryFromSection
    (insertEntryNearTarget sampleSection (sampleEntry 3 "Delta")
       (sampleEntry 2 "Gamma") false)
    (sampleEntry 3 "Delta") = sampleSection.
Proof.
  split; [reflexivity|]. apply insert_then_remove. reflexivity.
Defined.

Lemma dropOnEntry_keeps_entries_witness :
  nth_error (sections sampleData) 1 =
    Some {| sectionName := JS.lit "On Hold";
            orderedItems := [ItemEntry (sampleEntry 3 "Delta")] |} /\
  0 < length (sections sampleData) /\
  exists data',
    dropOnEntry sampleData 1 0 (sampleEntry 3 "Delta") (sampleEntry 1 "Beta")
      true = Done data' /\
    unlisted data' = unlisted sampleData /\
    map sectionName (sections data') = map sectionName (sections sampleData) /\
    Permutation (map oid (allEntries data')) (map oid (allEntries sampleData)).
Proof.
  split; [reflexivity|]. split; [cbn; lia|].
  apply (dropOnEntry_keeps_entries sampleData 1 0 (sampleEntry 3 "Delta")
           (sampleEntry 1 "Beta") true
           {| sectionName := JS.lit "On Hold";
              orderedItems := [ItemEntry (sampleEntry 3 "Delta")] |}).
  - reflexivity.
  - cbn. lia.
  - reflexivity.
Defined.

Lemma dropOnEntry_itself_witness :
  nth_error (sections sampleData) 0 = Some sampleSection /\
  holds (sampleEntry 1 "Beta")
    (removeEntryFromSection sampleSection (sampleEntry 1 "Beta")) = false /\
  dropOnEntry sampleData 0 0 (sampleEntry 1 "Beta") (sampleEntry 1 "Beta")
    true =
  Done (withSections sampleData
          (updateAt 0
             (fun s => pushItem (removeEntryFromSection s (sampleEntry 1 "Beta"))
                         (ItemEntry (sampleEntry 1 "Beta")))
             (sections sampleData))).
Proof.
  split; [reflexivity|]. split; [reflexivity|].
  apply (dropOnEntry_itself sampleData 0 (sampleEntry 1 "Beta") true
           sampleSection); reflexivity.
Defined.

Lemma chooseStatus_keeps_entries_witness :
  nth_error (sections sampleData) 0 = Some sampleSection /\
  holds (sampleEntry 2 "Gamma") sampleSection = true /\
  exists data',
    chooseStatus sampleData 0 (sampleEntry 2 "Gamma") (JS.lit "On Hold") =
      Done data' /\
    unlisted data' = unlisted sampleData /\
    map sectionName (sections data') = map sectionName (sections sampleData) /\
    Permutation (map oid (allEntries data')) (map oid (allEntries sampleData)) /\
    ((forall s, In s (sections sampleData) ->
                JS.eqb (sectionName s) (JS.lit "On Hold") = false) ->
     data' = sampleData).
Proof.
  split; [reflexivity|]. split; [reflexivity|].
  apply (chooseStatus_keeps_entries sampleData 0 (sampleEntry 2 "Gamma")
           (JS.lit "On Hold") sampleSection); reflexivity.
Defined.

(** *** Settings *)

Lemma indexOfString_none arr key :
  indexOfString arr key = None -> contains arr key = false.
Proof.
  unfold contains. induction arr as [|s rest IH]; [reflexivity|].
  cbn [indexOfString existsb]. destruct (JS.eqb s key) eqn:E; [discriminate|].
  destruct (indexOfString rest key); [discriminate|]. intros _.
  rewrite (IH eq_refl), orb_false_r.
  destruct (JS.eqb key s) eqn:E2; [|reflexivity].
  apply jseqb_eq in E2. subst s.
  assert (JS.eqb key key = true) by (apply jseqb_eq; reflexivity). congruence.
Qed.

Lemma indexOfString_some arr key idx :
  indexOfString arr key = Some idx ->
  exists a b, arr = a ++ key :: b /\ length a = idx /\ ~ In key a.
Proof.
  revert idx. induction arr as [|s rest IH]; intros idx; [discriminate|].
  cbn [indexOfString]. destruct (JS.eqb s key) eqn:E.
  - intros [= <-]. apply jseqb_eq in E. subst s. exists [], rest.
    split; [reflexivity|]. split; [reflexivity|]. intros [].
  - destruct (indexOfString rest key) as [j|]; [|discriminate].
    intros [= <-]. destruct (IH j eq_refl) as (a & b & -> & Hl & Hn).
    exists (s :: a), b. split; [reflexivity|].
    split; [cbn [length]; rewrite Hl; reflexivity|].
    intros [->|Hin]; [|exact (Hn Hin)].
    assert (JS.eqb key key = true) by (apply jseqb_eq; reflexivity). congruence.
Qed.

Lemma contains_In arr k : contains arr k = true <-> In k arr.
Proof.
  unfold contains. rewrite existsb_exists. split.
  - intros [x [Hx E]]. apply jseqb_eq in E. subst x. exact Hx.
  - intros H. exists k. split; [exact H|]. apply jseqb_eq. reflexivity.
Qed.

Lemma contains_iff arr arr' k :
  (In k arr' <-> In k arr) -> contains arr' k = contains arr k.
Proof.
  intros H. destruct (contains arr k) eqn:E.
  - apply contains_In, H, contains_In, E.
  - destruct (contains arr' k) eqn:E'; [|reflexivity].
    apply contains_In, H, contains_In in E'. congruence.
Qed.

(** X8: On an array without duplicates, [toggleCollapsed] makes the key a member
    exactly when the section is collapsed, keeps the membership of every
    other key, and leaves the array without duplicates. *)
Theorem toggleCollapsed_sets :
  forall (arr : list jsstring) (key : jsstring) (collapsed : bool),
    NoDup arr ->
    NoDup (toggleCollapsed arr key collapsed) /\
    forall k, contains (toggleCollapsed arr key collapsed) k =
              if JS.eqb k key then collapsed else contains arr k.
Proof.
  intros arr key collapsed Hnd. unfold toggleCollapsed.
  assert (Hkey : forall k, JS.eqb k key = true -> k = key)
    by (intros k; apply jseqb_eq).
  assert (Hnkey : forall k, JS.eqb k key = false -> k <> key)
    by (intros k E ->; assert (JS.eqb key key = true)
          by (apply jseqb_eq; reflexivity); congruence).
  destruct (indexOfString arr key) as [idx|] eqn:Ei.
  - apply indexOfString_some in Ei as (a & b & -> & <- & Hna).
    assert (Hnb : ~ In key b).
    { apply NoDup_remove_2 in Hnd. intros H. apply Hnd, in_or_app. right.
      exact H. }
    destruct collapsed.
    + split; [exact Hnd|]. intros k. destruct (JS.eqb k key) eqn:E; [|reflexivity].
      apply Hkey in E. subst k. apply contains_In, in_or_app. right. left.
      reflexivity.
    + rewrite splice1_at. split; [apply NoDup_remove_1 in Hnd; exact Hnd|].
      intros k. destruct (JS.eqb k key) eqn:E.
      * apply Hkey in E. subst k. destruct (contains (a ++ b) key) eqn:C;
          [|reflexivity].
        apply contains_In, in_app_or in C. tauto.
      * apply Hnkey in E. apply contains_iff. rewrite !in_app_iff. cbn [In].
        split; [tauto|]. intros [H|[H|H]]; [tauto|congruence|tauto].
  - pose proof (indexOfString_none _ _ Ei) as Hc. destruct collapsed.
    + split.
      * apply NoDup_app; [exact Hnd|constructor; [intros []|constructor]|].
        intros x Hx [<-|[]]. apply contains_In in Hx. congruence.
      * intros k. destruct (JS.eqb k key) eqn:E.
        -- apply Hkey in E. subst k. apply contains_In, in_or_app. right. left.
           reflexivity.
        -- apply Hnkey in E. apply contains_iff. rewrite in_app_iff. cbn [In].
           split; [|tauto]. intros [H|[H|[]]]; [exact H|congruence].
    + split; [exact Hnd|]. intros k. destruct (JS.eqb k key) eqn:E; [|reflexivity].
      apply Hkey in E. subst k. exact Hc.
Qed.

(** *** [updateFrontmatter] *)

Lemma updateFrontmatter_other {V : Type} (updates : list (jsstring * option V)) :
  forall fm k, ~ In k (map fst updates) ->
               updateFrontmatter updates fm k = fm k.
Proof.
  unfold updateFrontmatter.
  induction updates as [|[key v] rest IH]; intros fm k Hk; [reflexivity|].
  cbn [fold_left]. rewrite IH by (intros H; apply Hk; right; exact H).
  cbn [fst snd]. destruct (JS.eqb k key) eqn:E; [|reflexivity].
  apply jseqb_eq in E. subst k. exfalso. apply Hk. left. reflexivity.
Qed.

(** X9: [updateFrontmatter] gives every key of the updates its value, deletes
    the keys whose value is null, and leaves every other key of the
    frontmatter as it was. *)
Theorem updateFrontmatter_sets :
  forall (V : Type) (updates : list (jsstring * option V))
         (frontmatter : jsstring -> option V),
    NoDup (map fst updates) ->
    (forall key value, In (key, value) updates ->
                       updateFrontmatter updates frontmatter key = value) /\
    (forall key, ~ In key (map fst updates) ->
                 updateFrontmatter updates frontmatter key = frontmatter key).
Proof.
  intros V updates fm Hnd. split; [|intros key; apply updateFrontmatter_other].
  revert fm Hnd. induction updates as [|[k v] rest IH]; intros fm Hnd key value;
    [intros []|].
  inversion Hnd as [|? ? Hk Hrest]; subst. intros [[= -> ->]|Hin].
  - unfold updateFrontmatter. cbn [fold_left].
    fold (updateFrontmatter rest
            (fun k0 => if JS.eqb k0 (fst (key, value)) then snd (key, value)
                       else fm k0)).
    rewrite updateFrontmatter_other by exact Hk. cbn [fst snd].
    replace (JS.eqb key key) with true
      by (symmetry; apply jseqb_eq; reflexivity).
    reflexivity.
  - unfold updateFrontmatter. cbn [fold_left]. apply IH; assumption.
Qed.

(** *** [formatRelativeTime] *)

(** X10: For a time stamp in the past the label is a count and a unit: minutes
    below 60, hours from 1 to 23, days from 1 to 13, weeks from 2 to 7,
    months from 1 on; each count is the integer quotient of the elapsed
    milliseconds, months counting 30 days. *)
Theorem formatRelativeTime_units :
  forall now timestamp : Z,
    (0 < timestamp <= now)%Z -> (now < 2 ^ 53)%Z ->
    let diff := (now - timestamp)%Z in
    exists (n : Z) (unit : jsstring),
      formatRelativeTime now timestamp = numberToString n ++ unit /\
      ((unit = JS.lit "m" /\ n = diff / 60000 /\ 0 <= n < 60) \/
       (unit = JS.lit "h" /\ n = diff / 3600000 /\ 1 <= n < 24) \/
       (unit = JS.lit "d" /\ n = diff / 86400000 /\ 1 <= n < 14) \/
       (unit = JS.lit "w" /\ n = diff / 604800000 /\ 2 <= n < 8) \/
       (unit = JS.lit "mo" /\ n = diff / 2592000000 /\ 1 <= n))%Z.
Proof.
  intros now ts Hts _. cbv zeta. unfold formatRelativeTime.
  replace (ts =? 0)%Z with false by (symmetry; apply Z.eqb_neq; lia).
  set (diff := (now - ts)%Z). assert (Hd : (0 <= diff)%Z) by (unfold diff; lia).
  assert (Hh : (diff / 60000 / 60 = diff / 3600000)%Z)
    by (rewrite Z.div_div by lia; reflexivity).
  assert (Hdays : (diff / 60000 / 60 / 24 = diff / 86400000)%Z)
    by (rewrite !Z.div_div by lia; reflexivity).
  assert (Hw : (diff / 60000 / 60 / 24 / 7 = diff / 604800000)%Z)
    by (rewrite !Z.div_div by lia; reflexivity).
  assert (Hm : (diff / 60000 / 60 / 24 / 30 = diff / 2592000000)%Z)
    by (rewrite !Z.div_div by lia; reflexivity).
  pose proof (Z.div_pos diff 60000 Hd ltac:(lia)) as Hmin0.
  destruct (diff / 60000 <? 60)%Z eqn:E1.
  { apply Z.ltb_lt in E1. eexists _, _. split; [reflexivity|]. left.
    split; [reflexivity|]. split; [reflexivity|]. lia. }
  apply Z.ltb_ge in E1.
  assert (H1 : (1 <= diff / 60000 / 60)%Z)
    by (apply Z.div_le_lower_bound; lia).
  destruct (diff / 60000 / 60 <? 24)%Z eqn:E2.
  { apply Z.ltb_lt in E2. eexists _, _. split; [reflexivity|]. right. left.
    split; [reflexivity|]. split; [exact Hh|]. lia. }
  apply Z.ltb_ge in E2.
  assert (H2 : (1 <= diff / 60000 / 60 / 24)%Z)
    by (apply Z.div_le_lower_bound; lia).
  destruct (diff / 60000 / 60 / 24 <? 14)%Z eqn:E3.
  { apply Z.ltb_lt in E3. eexists _, _. split; [reflexivity|]. right. right.
    left. split; [reflexivity|]. split; [exact Hdays|]. lia. }
  apply Z.ltb_ge in E3.
  assert (H3 : (2 <= diff / 60000 / 60 / 24 / 7)%Z)
    by (apply Z.div_le_lower_bound; lia).
  destruct (diff / 60000 / 60 / 24 / 7 <? 8)%Z eqn:E4.
  { apply Z.ltb_lt in E4. eexists _, _. split; [reflexivity|]. right. right.
    right. left. split; [reflexivity|]. split; [exact Hw|]. lia. }
  apply Z.ltb_ge in E4.
  assert (H4 : (56 <= diff / 60000 / 60 / 24)%Z).
  { destruct (Z_lt_le_dec (diff / 60000 / 60 / 24) 56) as [Hlt|Hge];
      [|exact Hge].
    assert (diff / 60000 / 60 / 24 / 7 < 8)%Z
      by (apply Z.div_lt_upper_bound; lia). lia. }
  eexists _, _. split; [reflexivity|]. right. right. right. right.
  split; [reflexivity|]. split; [exact Hm|].
  apply Z.div_le_lower_bound; lia.
Qed.

(** *** The status tables *)

Lemma lookup_in k v (m : list (jsstring * jsstring)) :
  lookup k m = Some v -> In (k, v) m.
Proof.
  induction m as [|[k' v'] rest IH]; cbn [lookup]; [discriminate|].
  destruct (JS.eqb k k') eqn:E.
  - intros [= <-]. apply jseqb_eq in E. subst k'. left. reflexivity.
  - intros H. right. apply IH, H.
Qed.

(** X11: The three status tables agree: a status moves a project to the section
    whose drop zone writes that status back, the status menu names the same
    section, and a section outside the table writes no status string. *)
Theorem status_tables_agree :
  (forall status section : jsstring,
     getStatusSection status = Own section <->
     statusOfSection section = Own status) /\
  (forall value label target : jsstring,
     In (value, label, target) statusChoices ->
     getStatusSection value = Own target).
Proof.
  split.
  - intros status section. split.
    + unfold getStatusSection, member. intros H.
      destruct (lookup status statusSectionMap) as [v|] eqn:E;
        [|destruct (contains inheritedNames status); discriminate].
      apply lookup_in in E.
      destruct (JS.truthy v); [|discriminate]. injection H as ->.
      cbn [statusSectionMap In] in E.
      destruct E as [E|[E|[E|[E|[]]]]]; apply pair_equal_spec in E as [<- <-];
        vm_compute; reflexivity.
    + unfold statusOfSection, member. intros H.
      destruct (lookup section SECTION_STATUS_MAP) as [v|] eqn:E.
      * injection H as ->. apply lookup_in in E.
        cbn [SECTION_STATUS_MAP In] in E.
        destruct E as [E|[E|[E|[E|[]]]]]; apply pair_equal_spec in E as [<- <-];
          vm_compute; reflexivity.
      * destruct (contains inheritedNames section); discriminate.
  - intros value label target H. cbn [statusChoices In] in H.
    destruct H as [E|[E|[E|[E|[]]]]]; apply pair_equal_spec in E as [E <-];
      apply pair_equal_spec in E as [<- _]; vm_compute; reflexivity.
Qed.

(** *** [validateSettings] *)

Lemma normalizePath_fixpoint p : normalizePath (normalizePath p) = normalizePath p.
Proof.
  rewrite (normalizePath_closed (normalizePath p)).
  rewrite toSlash_id by apply normalizePath_no_backslash.
  rewrite stripTrailing_id by apply normalizePath_last.
  apply collapse_id, normalizePath_no_double.
Qed.

Lemma jseqb_refl a : JS.eqb a a = true.
Proof. apply jseqb_eq. reflexivity. Qed.

Lemma jseqb_neq a b : JS.eqb a b = false <-> a <> b.
Proof.
  split.
  - intros E ->. rewrite jseqb_refl in E. discriminate.
  - intros H. destruct (JS.eqb a b) eqn:E; [|reflexivity].
    apply jseqb_eq in E. contradiction.
Qed.

Ltac settings_simpl :=
  cbn [projectFolder archiveFolder prioritiesFile collapsedSections
       setProjectFolder setArchiveFolder setPrioritiesFile fst snd negb].

Lemma validateSettings_by_setting s :
  let r := fst (fst (validateSettings s)) in
  let saved := snd (fst (validateSettings s)) in
  let pf := validateSetting (projectFolder s) (projectFolder DEFAULT_SETTINGS) in
  let af := validateSetting (archiveFolder s) (archiveFolder DEFAULT_SETTINGS) in
  let file :=
    validateSetting (prioritiesFile s) (prioritiesFile DEFAULT_SETTINGS) in
  r = {| projectFolder := fst pf; archiveFolder := fst af;
         prioritiesFile := fst file;
         collapsedSections := collapsedSections s |} /\
  saved = snd pf || snd af || snd file.
Proof.
  destruct s as [pf af file cs]. cbv zeta.
  unfold validateSettings, validateSetting. settings_simpl.
  destruct (isBlank pf); settings_simpl;
    destruct (isBlank af); settings_simpl;
    destruct (isBlank file); settings_simpl;
    repeat match goal with
           | |- context [JS.eqb (normalizePath ?x) ?x] =>
               destruct (JS.eqb (normalizePath x) x); settings_simpl
           end;
    split; reflexivity.
Qed.

Lemma validateSetting_spec value default :
  isBlank default = false -> normalizePath default = default ->
  normalizePath (fst (validateSetting value default)) =
    fst (validateSetting value default) /\
  (snd (validateSetting value default) = false <->
   fst (validateSetting value default) = value) /\
  fst (validateSetting value default) =
    normalizePath (if isBlank value then default else value).
Proof.
  intros Hb Hn. unfold validateSetting. destruct (isBlank value) eqn:Ev.
  - rewrite Hn, jseqb_refl. cbn [negb fst snd]. split; [exact Hn|].
    split; [|reflexivity]. split; [discriminate|]. intros ->. congruence.
  - destruct (JS.eqb (normalizePath value) value) eqn:E; cbn [negb fst snd].
    + apply jseqb_eq in E. split; [exact E|]. split; [|symmetry; exact E].
      split; reflexivity.
    + split; [apply normalizePath_fixpoint|]. split; [|reflexivity].
      split; [discriminate|]. intros H. apply jseqb_neq in E. contradiction.
Qed.

Lemma defaults_valid :
  (isBlank (projectFolder DEFAULT_SETTINGS) = false /\
   normalizePath (projectFolder DEFAULT_SETTINGS) =
     projectFolder DEFAULT_SETTINGS) /\
  (isBlank (archiveFolder DEFAULT_SETTINGS) = false /\
   normalizePath (archiveFolder DEFAULT_SETTINGS) =
     archiveFolder DEFAULT_SETTINGS) /\
  (isBlank (prioritiesFile DEFAULT_SETTINGS) = false /\
   normalizePath (prioritiesFile DEFAULT_SETTINGS) =
     prioritiesFile DEFAULT_SETTINGS).
Proof. repeat split; vm_compute; reflexivity. Qed.

(** X12: After [validateSettings] the three path settings are normalized paths,
    the collapsed sections are as they were, and [needsSave] is set exactly
    when a setting has changed. *)
Theorem validateSettings_normalizes :
  forall settings : ProjectControlSettings,
    let settings' := fst (fst (validateSettings settings)) in
    let needsSave := snd (fst (validateSettings settings)) in
    normalizePath (projectFolder settings') = projectFolder settings' /\
    normalizePath (archiveFolder settings') = archiveFolder settings' /\
    normalizePath (prioritiesFile settings') = prioritiesFile settings' /\
    collapsedSections settings' = collapsedSections settings /\
    (needsSave = false <-> settings' = settings).
Proof.
  intros s. cbv zeta.
  destruct (validateSettings_by_setting s) as [-> ->].
  destruct defaults_valid as [[B1 N1] [[B2 N2] [B3 N3]]].
  destruct (validateSetting_spec (projectFolder s) _ B1 N1) as [P1 [P2 _]].
  destruct (validateSetting_spec (archiveFolder s) _ B2 N2) as [A1 [A2 _]].
  destruct (validateSetting_spec (prioritiesFile s) _ B3 N3) as [F1 [F2 _]].
  cbn [projectFolder archiveFolder prioritiesFile collapsedSections].
  split; [exact P1|]. split; [exact A1|]. split; [exact F1|].
  split; [reflexivity|]. split.
  - intros H. apply orb_false_elim in H as [H H3].
    apply orb_false_elim in H as [H1 H2].
    apply P2 in H1. apply A2 in H2. apply F2 in H3. rewrite H1, H2, H3.
    destruct s; reflexivity.
  - intros H. destruct s as [pf af file cs].
    cbn [projectFolder archiveFolder prioritiesFile collapsedSections] in *.
    pose proof (f_equal projectFolder H) as H1.
    pose proof (f_equal archiveFolder H) as H2.
    pose proof (f_equal prioritiesFile H) as H3.
    cbn [projectFolder archiveFolder prioritiesFile] in H1, H2, H3.
    apply P2 in H1. apply A2 in H2. apply F2 in H3.
    rewrite H1, H2, H3. reflexivity.
Qed.

Lemma forallb_isSlash_map p :
  forallb isSlash (map toSlash p) = true <->
  Forall (fun c => c = slash \/ c = backslash) p.
Proof.
  induction p as [|c p IH]; cbn [map forallb].
  - split; [constructor|reflexivity].
  - rewrite andb_true_iff, IH. unfold toSlash.
    split.
    + intros [Hc Hp]. constructor; [|exact Hp].
      destruct (N.eqb backslash c) eqn:E.
      * right. apply N.eqb_eq in E. symmetry. exact E.
      * left. apply isSlash_eq, Hc.
    + intros H. inversion H as [|? ? Hc Hp]; subst. split; [|exact Hp].
      destruct Hc as [->| ->]; reflexivity.
Qed.

Lemma collapse_nil s : collapse s = [] -> s = [].
Proof.
  intros H. pose proof (collapse_hd s) as Hh. rewrite H in Hh.
  destruct s; [reflexivity|discriminate].
Qed.

Lemma normalizePath_empty p :
  normalizePath p = [] <-> Forall (fun c => c = slash \/ c = backslash) p.
Proof.
  rewrite normalizePath_closed. split.
  - intros H. apply collapse_nil, stripTrailing_nil in H as [H|H].
    + destruct p; [constructor|discriminate].
    + apply forallb_isSlash_map, H.
  - intros H. apply forallb_isSlash_map in H.
    destruct (map toSlash p) as [|c rest] eqn:E; [reflexivity|].
    cbn [stripTrailing]. rewrite H. reflexivity.
Qed.

(** X13: Validation does not make a folder setting non-empty: the project folder
    is the empty string afterwards exactly when the loaded value is not
    blank and is made of slashes and backslashes only. *)
Theorem validateSettings_empty_folder :
  forall settings : ProjectControlSettings,
    projectFolder (fst (fst (validateSettings settings))) = [] <->
    isBlank (projectFolder settings) = false /\
    Forall (fun c => c = slash \/ c = backslash) (projectFolder settings).
Proof.
  intros s. destruct (validateSettings_by_setting s) as [-> _].
  cbn [projectFolder].
  destruct defaults_valid as [[B1 N1] _].
  destruct (validateSetting_spec (projectFolder s) _ B1 N1) as [_ [_ ->]].
  destruct (isBlank (projectFolder s)) eqn:E.
  - rewrite N1. split; [intros H; vm_compute in H; discriminate|].
    intros [H _]. discriminate.
  - rewrite normalizePath_empty. split; [intros H; split; [reflexivity|exact H]|].
    intros [_ H]. exact H.
Qed.

(** *** The theorems above at concrete values *)

Lemma toggleCollapsed_sets_witness :
  let arr := [JS.lit "section:Active"; JS.lit "section:On Hold"] in
  let key := JS.lit "section:Active" in
  NoDup arr /\
  NoDup (toggleCollapsed arr key false) /\
  forall k, contains (toggleCollapsed arr key false) k =
            if JS.eqb k key then false else contains arr k.
Proof.
  cbv zeta.
  assert (Hnd : NoDup [JS.lit "section:Active"; JS.lit "section:On Hold"]).
  { constructor; [intros [H|[]]; vm_compute in H; discriminate|].
    constructor; [intros []|constructor]. }
  split; [exact Hnd|].
  apply (toggleCollapsed_sets _ (JS.lit "section:Active") false Hnd).
Defined.

Lemma updateFrontmatter_sets_witness :
  let updates :=
    [ (JS.lit "status", Some (JS.lit "on-hold")); (JS.lit "emoji", None) ] in
  let frontmatter :=
    fun k => if JS.eqb k (JS.lit "emoji") then Some (JS.lit "x") else None in
  NoDup (map fst updates) /\
  (forall key value, In (key, value) updates ->
                     updateFrontmatter updates frontmatter key = value) /\
  (forall key, ~ In key (map fst updates) ->
               updateFrontmatter updates frontmatter key = frontmatter key).
Proof.
  cbv zeta.
  assert (Hnd : NoDup (map fst [ (JS.lit "status", Some (JS.lit "on-hold"));
                                 (JS.lit "emoji", @None jsstring) ])).
  { constructor; [intros [H|[]]; vm_compute in H; discriminate|].
    constructor; [intros []|constructor]. }
  split; [exact Hnd|]. apply (updateFrontmatter_sets jsstring _ _ Hnd).
Defined.

Lemma formatRelativeTime_units_witness :
  let now := 1700000000000%Z in
  let timestamp := 1699990000000%Z in
  (0 < timestamp <= now)%Z /\ (now < 2 ^ 53)%Z /\
  exists (n : Z) (unit : jsstring),
    formatRelativeTime now timestamp = numberToString n ++ unit /\
    ((unit = JS.lit "m" /\ n = (now - timestamp) / 60000 /\ 0 <= n < 60) \/
     (unit = JS.lit "h" /\ n = (now - timestamp) / 3600000 /\ 1 <= n < 24) \/
     (unit = JS.lit "d" /\ n = (now - timestamp) / 86400000 /\ 1 <= n < 14) \/
     (unit = JS.lit "w" /\ n = (now - timestamp) / 604800000 /\ 2 <= n < 8) \/
     (unit = JS.lit "mo" /\ n = (now - timestamp) / 2592000000 /\ 1 <= n))%Z.
Proof.
  cbv zeta. split; [lia|]. split; [reflexivity|].
  apply (formatRelativeTime_units 1700000000000 1699990000000);
    [lia|reflexivity].
Defined.

Example formatRelativeTime_examples :
  formatRelativeTime 1700000000000 1699990000000 = JS.lit "2h" /\
  formatRelativeTime 1700000000000 1695000000000 = JS.lit "1mo" /\
  formatRelativeTime 1700000000000 1695800000000 = JS.lit "6w" /\
  formatRelativeTime 1700000000000 0 = [] /\
  formatRelativeTime 1700000000000 1700000300000 = JS.lit "-5m".
Proof. repeat split; vm_compute; reflexivity. Qed.

Ltac entries_eq :=
  repeat first
    [ progress cbn [sections currentSection currentSubsection ps_sections
                    optionList pushItem pushEntry flat_map sectionName
                    orderedItems itemEntries subsectionName entries map app
                    allEntries sectionEntries]
    | progress unfold allEntries, sectionEntries
    | rewrite flat_map_app
    | rewrite app_nil_r
    | rewrite <- app_assoc ];
  reflexivity.

Lemma allEntries_step md st l :
  subsectionInSection st ->
  allEntries (finishParse md (parseLine md st l)) =
  allEntries (finishParse md st) ++ lineEntries md st l.
Proof.
  unfold subsectionInSection, finishParse, parseLine, lineEntries.
  intros H.
  destruct (Re.exec false sectionRegex l) as [m|].
  { destruct (currentSection st) as [s|], (currentSubsection st) as [sub|];
      try (specialize (H eq_refl); discriminate); entries_eq. }
  destruct (Re.exec false subsectionRegex l) as [m|].
  { destruct (currentSection st) as [s|] eqn:Ec;
      [|rewrite ?Ec, !app_nil_r; reflexivity].
    destruct (currentSubsection st) as [sub|]; entries_eq. }
  destruct (Re.exec false linkRegex l) as [m|];
    [|rewrite !app_nil_r; reflexivity].
  destruct (currentSection st) as [s|] eqn:Ec;
    [|rewrite ?Ec, !app_nil_r; reflexivity].
  fold (entryOfLine md (nextOid st) l m).
  destruct (currentSubsection st) as [sub|]; entries_eq.
Qed.

Lemma found_step md st l :
  foundProjectNames (parseLine md st l) =
  foundProjectNames st ++ map projectName (lineEntries md st l).
Proof.
  unfold parseLine, lineEntries.
  destruct (Re.exec false sectionRegex l) as [m|].
  { destruct (currentSection st), (currentSubsection st);
      cbn [foundProjectNames map]; rewrite app_nil_r; reflexivity. }
  destruct (Re.exec false subsectionRegex l) as [m|].
  { destruct (currentSection st); cbn [foundProjectNames map];
      rewrite app_nil_r; reflexivity. }
  destruct (Re.exec false linkRegex l) as [m|];
    [|cbn [map]; rewrite app_nil_r; reflexivity].
  destruct (currentSection st); [reflexivity|].
  cbn [map]. rewrite app_nil_r. reflexivity.
Qed.

(** The parser's loop, line by line: the invariant of the subsection, the
    entries of the document and the names found. *)
Lemma parse_fold md (L : list jsstring) :
  let st := fold_left (parseLine md) L initialState in
  subsectionInSection st /\
  foundProjectNames st = map projectName (allEntries (finishParse md st)).
Proof.
  induction L as [|l L IH] using rev_ind; cbv zeta.
  - split; [intros _; reflexivity|reflexivity].
  - destruct IH as [Hinv Hf]. rewrite fold_left_app. cbn [fold_left].
    split; [apply subsectionInSection_step, Hinv|].
    rewrite found_step, (allEntries_step md _ l Hinv), map_app, Hf.
    reflexivity.
Qed.

Lemma parseContent_fold md text :
  parseContent md text =
  finishParse md
    (fold_left (parseLine md) (beforeSeparator (JS.split LF text))
       initialState).
Proof. unfold parseContent. rewrite parseLines_beforeSeparator. reflexivity. Qed.

(** X14: The unlisted projects are the tagged projects that no entry of the
    parsed document names. *)
Theorem unlisted_are_the_tagged_not_listed :
  forall (md : Metadata) (text : jsstring),
    let data := parseContent md text in
    unlisted data =
    filter (fun p => negb (contains (map projectName (allEntries data)) p))
      (taggedProjects md).
Proof.
  intros md text. cbv zeta. rewrite parseContent_fold.
  destruct (parse_fold md (beforeSeparator (JS.split LF text))) as [_ Hf].
  cbv zeta in Hf. rewrite <- Hf. reflexivity.
Qed.

(** *** What an entry of the parsed document looks like *)

Lemma in_linkText_parts c name al p q l :
  l = p ++ linkText name al ++ q ->
  (In c name -> In c l) /\
  (forall a, al = Some a -> In c a -> In c l).
Proof.
  intros ->. unfold linkText. split.
  - intros H. apply in_or_app. right. apply in_or_app. left.
    apply in_or_app. right. apply in_or_app. left. exact H.
  - intros a -> H. apply in_or_app. right. apply in_or_app. left.
    apply in_or_app. right. apply in_or_app. right.
    apply in_or_app. right. apply in_or_app. left. exact H.
Qed.

Lemma lineEntries_wellformed md st l :
  ~ In LF l -> Forall entryFromLine (lineEntries md st l).
Proof.
  intros Hl. unfold lineEntries.
  destruct (Re.exec false sectionRegex l); [constructor|].
  destruct (Re.exec false subsectionRegex l); [constructor|].
  destruct (Re.exec false linkRegex l) as [m|] eqn:Hm; [|constructor].
  destruct (currentSection st) as [s|]; [|constructor].
  constructor; [|constructor].
  destruct (entryOfLine_shape md (nextOid st) l m Hm)
    as [name [al [Hp [[p [q Hpq]] ->]]]].
  destruct (in_linkText_parts LF name al p q l Hpq) as [Hn Ha].
  destruct Hp as [Hp1 [Hp2 Hp3]].
  unfold entryFromLine. cbn [projectName alias].
  split; [exact Hp1|]. split; [exact Hp2|]. split; [intros H; apply Hl, Hn, H|].
  destruct al as [a|]; [|exact I]. destruct Hp3 as [Ha1 Ha2].
  split; [exact Ha1|]. split; [exact Ha2|]. intros H. apply Hl.
  apply (Ha a eq_refl H).
Qed.

Lemma parse_fold_entries md (L : list jsstring) :
  Forall (fun l : jsstring => ~ In LF l) L ->
  Forall entryFromLine
    (allEntries (finishParse md (fold_left (parseLine md) L initialState))).
Proof.
  induction L as [|l L IH] using rev_ind; intros HL; [constructor|].
  apply Forall_app in HL as [HL Hl]. inversion Hl as [|? ? Hl' _]; subst.
  rewrite fold_left_app. cbn [fold_left].
  rewrite allEntries_step by apply (parse_fold md L).
  apply Forall_app. split; [apply IH, HL|].
  apply lineEntries_wellformed, Hl'.
Qed.

(** X15: Every entry of a parsed document has a project name that is not empty
    and holds no closing bracket, no bar and no line feed; its alias is null
    or a string that is not empty and holds no closing bracket and no line
    feed. *)
Theorem parsed_entries_wellformed :
  forall (md : Metadata) (text : jsstring),
    Forall
      (fun e =>
         projectName e <> [] /\
         forallb notBracketOrBar (projectName e) = true /\
         ~ In LF (projectName e) /\
         match alias e with
         | Some a => a <> [] /\ forallb notBracket a = true /\ ~ In LF a
         | None => True
         end)
      (allEntries (parseContent md text)).
Proof.
  intros md text. rewrite parseContent_fold.
  apply (parse_fold_entries md (beforeSeparator (JS.split LF text))
           (beforeSeparator_Forall _ _ (split_noLF text))).
Qed.

(** *** Entries before subsections *)

Lemma entriesOnly_shaped items :
  entriesOnly items -> entriesThenSubsections items.
Proof. intros [es ->]. exists es, []. rewrite app_nil_r. reflexivity. Qed.

Lemma shaped_push_subsection items sub :
  entriesThenSubsections items ->
  entriesThenSubsections (items ++ [ItemSubsection sub]).
Proof.
  intros [es [subs ->]]. exists es, (subs ++ [sub]).
  rewrite map_app, app_assoc. reflexivity.
Qed.

Lemma entriesOnly_push items e :
  entriesOnly items -> entriesOnly (items ++ [ItemEntry e]).
Proof. intros [es ->]. exists (es ++ [e]). rewrite map_app. reflexivity. Qed.

Lemma entriesOnly_nil : entriesOnly [].
Proof. exists []. reflexivity. Qed.

Lemma shapedState_flushed st :
  shapedState st ->
  Forall (fun s => entriesThenSubsections (orderedItems s))
    (ps_sections st ++
     optionList match currentSection st, currentSubsection st with
                | Some s, Some sub => Some (pushItem s (ItemSubsection sub))
                | cs, _ => cs
                end).
Proof.
  intros [Hps Hcur]. apply Forall_app. split; [exact Hps|].
  destruct (currentSection st) as [s|]; [|constructor].
  destruct (currentSubsection st) as [sub|]; (constructor; [|constructor]).
  - cbn [pushItem orderedItems]. apply shaped_push_subsection, Hcur.
  - apply entriesOnly_shaped, Hcur.
Qed.

Lemma shapedState_step md st l :
  shapedState st -> shapedState (parseLine md st l).
Proof.
  intros H. pose proof (shapedState_flushed st H) as Hfl.
  destruct H as [Hps Hcur]. unfold parseLine.
  destruct (Re.exec false sectionRegex l) as [m|].
  { destruct (currentSection st) as [s|], (currentSubsection st) as [sub|];
      (split; [exact Hfl|]);
      cbn [currentSection currentSubsection orderedItems];
      first [apply entriesOnly_nil | apply entriesOnly_shaped, entriesOnly_nil]. }
  destruct (Re.exec false subsectionRegex l) as [m|].
  { destruct (currentSection st) as [s|] eqn:Ec.
    - split; [exact Hps|]. cbn [currentSection currentSubsection].
      destruct (currentSubsection st) as [sub|].
      + cbn [pushItem orderedItems]. apply shaped_push_subsection, Hcur.
      + apply entriesOnly_shaped, Hcur.
    - split; [exact Hps|]. rewrite Ec. exact I. }
  destruct (Re.exec false linkRegex l) as [m|].
  2:{ split; [exact Hps|exact Hcur]. }
  destruct (currentSection st) as [s|] eqn:Ec.
  2:{ split; [exact Hps|]. rewrite Ec. exact I. }
  split; [exact Hps|]. cbn [currentSection currentSubsection].
  destruct (currentSubsection st) as [sub|]; [exact Hcur|].
  cbn [pushItem orderedItems]. apply entriesOnly_push, Hcur.
Qed.

Lemma shapedState_fold md (L : list jsstring) :
  shapedState (fold_left (parseLine md) L initialState).
Proof.
  induction L as [|l L IH] using rev_ind.
  - split; [constructor|exact I].
  - rewrite fold_left_app. apply shapedState_step, IH.
Qed.

(** X16: In every section of a parsed document the top-level entries come first
    and the subsections after them: an entry line below a subsection header
    belongs to that subsection until the next section header. *)
Theorem parsed_sections_entries_first :
  forall (md : Metadata) (text : jsstring),
    Forall
      (fun s =>
         exists es subs,
           orderedItems s = map ItemEntry es ++ map ItemSubsection subs)
      (sections (parseContent md text)).
Proof.
  intros md text. rewrite parseContent_fold.
  apply (shapedState_flushed _
           (shapedState_fold md (beforeSeparator (JS.split LF text)))).
Qed.

(** *** Lines before the first section header *)

Lemma parseLine_no_section md l :
  Re.exec false sectionRegex l = None ->
  parseLine md initialState l = initialState.
Proof.
  intros H. unfold parseLine. rewrite H.
  destruct (Re.exec false subsectionRegex l); [reflexivity|].
  destruct (Re.exec false linkRegex l); reflexivity.
Qed.

Lemma parseLines_skip md pre rest :
  Forall (fun l => Re.exec false sectionRegex l = None /\
                   isSeparatorLine l = false) pre ->
  parseLines md initialState (pre ++ rest) = parseLines md initialState rest.
Proof.
  induction 1 as [|l pre [Hs Hn] _ IH]; [reflexivity|].
  cbn [app parseLines]. rewrite Hn, parseLine_no_section by exact Hs. exact IH.
Qed.

(** X17: Whatever stands before the first section header is not part of the
    document: lines that are neither a section header nor the separator can
    be taken away from the start of the text, entry lines and subsection
    headers among them. *)
Theorem lines_before_first_section_ignored :
  forall (md : Metadata) (head tail : jsstring),
    Forall (fun l => Re.exec false sectionRegex l = None /\
                     isSeparatorLine l = false) (JS.split LF head) ->
    parseContent md (head ++ LF :: tail) = parseContent md tail.
Proof.
  intros md head tail H. unfold parseContent.
  rewrite split_app_LF, parseLines_skip by exact H. reflexivity.
Qed.

(** *** A move keeps the entries *)

Lemma removedFirst_perm name items e items' :
  removedFirst name items e items' ->
  Permutation (flat_map itemEntries items) (e :: flat_map itemEntries items').
Proof.
  intros H. destruct H as [pre x post _ _|pre sub es1 x es2 post _ Hes _ _];
    rewrite !flat_map_app; cbn [flat_map itemEntries entries].
  - cbn [app]. apply perm_front.
  - rewrite Hes, <- !app_assoc. cbn [app]. apply perm_front2.
Qed.

Lemma placeEntry_perm section targetGroup e :
  Permutation (sectionEntries (placeEntry section targetGroup e))
    (e :: sectionEntries section).
Proof.
  destruct (placeEntry_spec section targetGroup e) as [_ H].
  unfold sectionEntries.
  destruct (orNull targetGroup) as [g|].
  - destruct H as [pre sub post _ _|items _]; rewrite !flat_map_app;
      cbn [flat_map itemEntries entries app].
    + rewrite <- !app_assoc. cbn [app].
      apply perm_front2.
    + apply Permutation_sym, Permutation_cons_append.
  - destruct H as [pre sub post _|items _]; rewrite !flat_map_app;
      cbn [flat_map itemEntries entries app].
    + apply perm_front.
    + apply Permutation_sym, Permutation_cons_append.
Qed.

(** X18: [moveProjectToSubsection] neither loses nor duplicates an entry: the
    document it writes holds the entries of the parsed document, in sections
    of the same names, and it writes nothing exactly when no entry has the
    name: when it writes, an entry of the parsed document has the name. *)
Theorem moveInData_keeps_entries :
  forall (data : DashboardData) (name : jsstring)
         (targetGroup : option jsstring),
    match moveInData data name targetGroup with
    | Some data' =>
        (exists e, In e (allEntries data) /\
                   JS.eqb (projectName e) name = true) /\
        Permutation (allEntries data') (allEntries data) /\
        map sectionName (sections data') = map sectionName (sections data) /\
        unlisted data' = unlisted data
    | None =>
        forall e, In e (allEntries data) -> JS.eqb (projectName e) name = false
    end.
Proof.
  intros data name tg. unfold moveInData.
  destruct (takeFromSections (sections data) name) as [[[e si] secs']|] eqn:Et.
  - apply takeFromSections_some in Et
      as (before & section & after & items' & Hsecs & _ & Hr & -> & ->).
    rewrite updateAt_middle. cbn [sections unlisted].
    split; [|split; [|split; [|reflexivity]]].
    + exists e. split.
      * unfold allEntries. rewrite Hsecs, flat_map_app. cbn [flat_map].
        apply in_or_app. right. apply in_or_app. left.
        unfold sectionEntries.
        apply (Permutation_in e (Permutation_sym (removedFirst_perm _ _ _ _ Hr))).
        left. reflexivity.
      * assert (Hn : projectName e = name)
          by (destruct Hr; assumption).
        rewrite Hn. apply jseqb_refl.
    + unfold allEntries. cbn [sections]. rewrite Hsecs, !flat_map_app.
      cbn [flat_map]. apply Permutation_app_head, Permutation_app_tail.
      rewrite placeEntry_perm. apply Permutation_sym.
      apply (removedFirst_perm _ _ _ _ Hr).
    + rewrite Hsecs, !map_app. cbn [map]. f_equal. f_equal.
      apply (placeEntry_spec (withItems section items') tg e).
  - apply takeFromSections_none in Et. intros e He.
    unfold allEntries in He. apply in_flat_map in He as [s [Hs He]].
    unfold sectionEntries in He. apply in_flat_map in He as [it [Hit He]].
    pose proof (existsb_false_all _ _ Et s Hs) as Hsn.
    unfold sectionHasName in Hsn.
    pose proof (existsb_false_all _ _ Hsn it Hit) as Hin.
    destruct it as [sub|x]; cbn [itemEntries itemHasName] in *.
    + apply (existsb_false_all _ _ Hin e He).
    + destruct He as [<-|[]]. exact Hin.
Qed.

Lemma lines_before_first_section_ignored_witness :
  let head := JS.lit "# Priorities\n- [[Stray]]\n### Loose" in
  let tail := JS.lit "## Active\n- [[Alpha]]" in
  Forall (fun l => Re.exec false sectionRegex l = None /\
                   isSeparatorLine l = false) (JS.split LF head) /\
  parseContent noMetadata (head ++ LF :: tail) = parseContent noMetadata tail.
Proof.
  cbv zeta.
  assert (H : Forall (fun l => Re.exec false sectionRegex l = None /\
                               isSeparatorLine l = false)
                (JS.split LF (JS.lit "# Priorities\n- [[Stray]]\n### Loose"))).
  { vm_compute. repeat (constructor; [split; reflexivity|]). constructor. }
  split; [exact H|].
  apply (lines_before_first_section_ignored noMetadata _ _ H).
Defined.

(** *** The written text is stable *)

Lemma find_noLF l p : ~ In LF l -> JS.find l (LF :: p) = None.
Proof.
  induction l as [|c l IH]; intros H; [reflexivity|].
  cbn [JS.find JS.startsWith].
  destruct (N.eqb LF c) eqn:E.
  - apply N.eqb_eq in E. exfalso. apply H. left. symmetry. exact E.
  - cbn [andb]. rewrite IH by (intros Hin; apply H; right; exact Hin).
    reflexivity.
Qed.

Lemma find_app_noLF l Y p :
  ~ In LF l -> JS.find Y (LF :: p) = None ->
  JS.find (l ++ Y) (LF :: p) = None.
Proof.
  intros H HY. induction l as [|c l IH]; [exact HY|].
  cbn [app JS.find JS.startsWith].
  destruct (N.eqb LF c) eqn:E.
  - apply N.eqb_eq in E. exfalso. apply H. left. symmetry. exact E.
  - cbn [andb]. rewrite IH by (intros Hin; apply H; right; exact Hin).
    reflexivity.
Qed.

Lemma written_line_no_dashes l rest :
  writtenLineShape l ->
  JS.startsWith (l ++ LF :: rest) (JS.lit "---") = false /\
  JS.startsWith l (JS.lit "---") = false.
Proof.
  intros [->|[[r ->]|[r ->]]]; split; reflexivity.
Qed.

Lemma find_in_written (lines : list jsstring) :
  Forall (fun l => ~ In LF l) lines -> Forall writtenLineShape lines ->
  JS.find (JS.join [LF] lines) (JS.lit "\n---") = None.
Proof.
  change (JS.lit "\n---") with (LF :: JS.lit "---").
  induction lines as [|l rest IH]; intros Hlf Hsh; [reflexivity|].
  inversion Hlf as [|? ? Hl Hlf']; subst.
  inversion Hsh as [|? ? Hs Hsh']; subst.
  destruct rest as [|l2 more].
  - cbn [JS.join]. apply find_noLF, Hl.
  - change (JS.join [LF] (l :: l2 :: more))
      with (l ++ LF :: JS.join [LF] (l2 :: more)).
    apply find_app_noLF; [exact Hl|].
    specialize (IH Hlf' Hsh').
    cbn [JS.find JS.startsWith]. rewrite N.eqb_refl. cbn [andb].
    rewrite IH.
    inversion Hsh' as [|? ? Hs2 _]; subst.
    destruct more as [|l3 more'].
    + cbn [JS.join]. rewrite (proj2 (written_line_no_dashes l2 [] Hs2)).
      reflexivity.
    + change (JS.join [LF] (l2 :: l3 :: more'))
        with (l2 ++ LF :: JS.join [LF] (l3 :: more')).
      rewrite (proj1 (written_line_no_dashes l2 _ Hs2)). reflexivity.
Qed.

Lemma find_skipn p : forall s i,
  JS.find s p = Some i -> JS.startsWith (skipn i s) p = true.
Proof.
  induction s as [|c s IH]; intros i H; cbn [JS.find] in H.
  - destruct (JS.startsWith [] p) eqn:E; [|discriminate].
    injection H as <-. exact E.
  - destruct (JS.startsWith (c :: s) p) eqn:E.
    + injection H as <-. exact E.
    + destruct (JS.find s p) as [j|] eqn:Ef; [|discriminate].
      injection H as <-. cbn [skipn]. apply IH. reflexivity.
Qed.

Lemma suffixOf_cases text :
  (JS.find text (JS.lit "\n---") = None /\ suffixOf text = []) \/
  (exists tail, suffixOf text = LF :: tail /\
                JS.startsWith tail (JS.lit "---") = true).
Proof.
  unfold suffixOf, JS.indexOf.
  destruct (JS.find text (JS.lit "\n---")) as [i|] eqn:E.
  - right. replace (0 <=? Z.of_nat i)%Z with true
      by (symmetry; apply Z.leb_le; lia).
    unfold JS.substringFrom, JS.clamp. rewrite Nat2Z.id.
    pose proof (find_le _ _ _ E) as Hle.
    replace (Nat.min (length text) i) with i by lia.
    apply find_skipn in E. change (JS.lit "\n---") with (LF :: JS.lit "---") in E.
    destruct (skipn i text) as [|c tail]; [discriminate|].
    cbn [JS.startsWith] in E. apply andb_prop in E as [Ec Et].
    apply N.eqb_eq in Ec. subst c. exists tail. split; [reflexivity|exact Et].
  - left. split; reflexivity.
Qed.

Lemma rebuilt_noLF md text :
  cleanMetadata md ->
  Forall (fun l => ~ In LF l) (rebuiltLines (parseContent md text)).
Proof.
  intros Hmd. rewrite parseContent_fold.
  apply rebuiltLines_Forall; [intros []|].
  apply (reparse_state md (beforeSeparator (JS.split LF text)) Hmd).
  apply beforeSeparator_Forall, split_noLF.
Qed.

Lemma suffixOf_written md text :
  cleanMetadata md ->
  suffixOf (writeContent (parseContent md text) text) = suffixOf text.
Proof.
  intros Hmd. unfold writeContent.
  pose proof (find_in_written _ (rebuilt_noLF md text Hmd)
                (rebuiltLines_shape (parseContent md text))) as Hfind.
  destruct (suffixOf_cases text) as [[_ ->]|[tail [-> Ht]]].
  - rewrite app_nil_r. unfold suffixOf, JS.indexOf. rewrite Hfind. reflexivity.
  - apply suffixOf_separator; assumption.
Qed.

(** X20: What the writer has written it writes again: when the writer and the
    parser agree on the separator, parsing the written text and writing the
    result back against it gives the written text itself. *)
Theorem written_text_is_stable :
  forall (md : Metadata) (text : jsstring),
    cleanMetadata md ->
    suffixOf text = [] \/
    (exists tail, suffixOf text = LF :: tail /\
                  JS.trim (hd [] (JS.split LF tail)) = JS.lit "---") ->
    let text' := writeContent (parseContent md text) text in
    writeContent (parseContent md text') text' = text'.
Proof.
  intros md text Hmd Hs. cbv zeta.
  unfold writeContent at 1.
  rewrite (parse_written_back md text Hmd Hs).
  rewrite (suffixOf_written md text Hmd). reflexivity.
Qed.

Lemma written_text_is_stable_witness :
  let text := JS.lit "intro\n## Active\n-  [[Alpha|A]] x\n---\nnotes" in
  cleanMetadata noMetadata /\
  (suffixOf text = [] \/
   (exists tail, suffixOf text = LF :: tail /\
                 JS.trim (hd [] (JS.split LF tail)) = JS.lit "---")) /\
  let text' := writeContent (parseContent noMetadata text) text in
  writeContent (parseContent noMetadata text') text' = text'.
Proof.
  cbv zeta.
  assert (Hs : suffixOf (JS.lit "intro\n## Active\n-  [[Alpha|A]] x\n---\nnotes")
               = [] \/
               (exists tail,
                  suffixOf (JS.lit "intro\n## Active\n-  [[Alpha|A]] x\n---\nnotes")
                  = LF :: tail /\
                  JS.trim (hd [] (JS.split LF tail)) = JS.lit "---")).
  { right. exists (JS.lit "---\nnotes"). split; vm_compute; reflexivity. }
  split; [exact noMetadata_clean|]. split; [exact Hs|].
  apply (written_text_is_stable noMetadata _ noMetadata_clean Hs).
Defined.

(** *** What the patterns of the text edits match *)

Lemma in_runStates p c : forall a b e,
  In e (runStates p b a c) <->
  exists x y, a = x ++ y /\ forallb p x = true /\
              e = Re.MState (rev x ++ b) y c.
Proof.
  induction a as [|h a IH]; intros b e; cbn [runStates].
  - split.
    + intros [<-|[]]. exists [], []. repeat split.
    + intros (x & y & E & _ & ->). symmetry in E.
      apply app_eq_nil in E as [-> ->]. left. reflexivity.
  - destruct (p h) eqn:Hp.
    + rewrite in_app_iff, IH. split.
      * intros [(x & y & -> & Hx & ->)|[<-|[]]].
        -- exists (h :: x), y. cbn [forallb app rev]. rewrite Hp, Hx.
           rewrite <- app_assoc. repeat split.
        -- exists [], (h :: a). repeat split.
      * intros (x & y & E & Hx & ->). destruct x as [|h' x].
        -- right. left. cbn in E. subst y. reflexivity.
        -- left. cbn [app] in E. injection E as <- ->.
           cbn [forallb] in Hx. apply andb_prop in Hx as [_ Hx].
           exists x, y. cbn [rev]. rewrite <- app_assoc. repeat split.
           exact Hx.
    + split.
      * intros [<-|[]]. exists [], (h :: a). repeat split.
      * intros (x & y & E & Hx & ->). destruct x as [|h' x].
        -- left. cbn in E. subst y. reflexivity.
        -- cbn [app] in E. injection E as <- ->.
           cbn [forallb] in Hx. rewrite Hp in Hx. discriminate.
Qed.

Lemma matchesAs_star_cls ml p :
  matchesAs ml (Re.Star (Re.Cls p)) (fun _ w _ => forallb p w = true).
Proof.
  intros b a c. rewrite ends_star. cbn [Re.m_after].
  rewrite star_cls by lia. split.
  - intros e He. apply in_runStates in He as (x & y & -> & Hx & ->).
    exists x, y. repeat split. exact Hx.
  - intros w rest -> Hw. exists (Re.MState (rev w ++ b) rest c).
    split; [|split; reflexivity].
    apply in_runStates. exists w, rest. repeat split. exact Hw.
Qed.

Lemma matchesAs_cls ml p :
  matchesAs ml (Re.Cls p) (fun _ w _ => exists x, w = [x] /\ p x = true).
Proof.
  intros b a c. rewrite ends_cls. split.
  - intros e He. destruct a as [|x a]; [destruct He|].
    destruct (p x) eqn:Hp; [|destruct He]. destruct He as [<-|[]].
    exists [x], a. repeat split. exists x. split; [reflexivity|exact Hp].
  - intros w rest -> (x & -> & Hp). cbn [app]. rewrite Hp.
    exists (Re.MState (x :: b) rest c). split; [left; reflexivity|].
    split; reflexivity.
Qed.

Lemma matchesAs_str ml s :
  matchesAs ml (Re.str s) (fun _ w _ => w = s).
Proof.
  intros b a c. rewrite ends_str. split.
  - intros e He. destruct (JS.startsWith a s) eqn:Hs; [|destruct He].
    destruct He as [<-|[]]. apply startsWith_prefix in Hs as [rest ->].
    exists s, rest. repeat split. cbn [Re.m_after].
    rewrite skipn_app, Nat.sub_diag, skipn_all. reflexivity.
  - intros w rest -> ->.
    assert (Hs : JS.startsWith (s ++ rest) s = true)
      by (apply startsWith_prefix; exists rest; reflexivity).
    rewrite Hs. exists (Re.MState (rev s ++ b) (skipn (length s) (s ++ rest)) c).
    split; [left; reflexivity|]. split; [reflexivity|].
    cbn [Re.m_after]. rewrite skipn_app, Nat.sub_diag, skipn_all. reflexivity.
Qed.

Lemma matchesAs_bol ml :
  matchesAs ml Re.Bol
    (fun b w _ => w = [] /\ Re.at_bol ml (Re.MState b [] []) = true).
Proof.
  intros b a c. cbn [Re.ends]. unfold Re.at_bol. cbn [Re.m_before]. split.
  - intros e He.
    destruct (match b with [] => true | x :: _ => ml && JS.is_line_terminator x end)
      eqn:Hb; [|destruct He].
    destruct He as [<-|[]]. exists [], a. repeat split.
  - intros w rest -> [-> Hb]. rewrite Hb.
    exists (Re.MState b rest c). split; [left; reflexivity|].
    split; reflexivity.
Qed.

Lemma matchesAs_eol ml :
  matchesAs ml Re.Eol
    (fun _ w rest => w = [] /\ Re.at_eol ml (Re.MState [] rest []) = true).
Proof.
  intros b a c. cbn [Re.ends]. unfold Re.at_eol. cbn [Re.m_after]. split.
  - intros e He.
    destruct (match a with [] => true | x :: _ => ml && JS.is_line_terminator x end)
      eqn:Ha; [|destruct He].
    destruct He as [<-|[]]. exists [], a. repeat split. exact Ha.
  - intros w rest -> [-> Ha]. cbn [app]. rewrite Ha.
    exists (Re.MState b rest c). split; [left; reflexivity|].
    split; reflexivity.
Qed.

Lemma matchesAs_eps ml : matchesAs ml Re.Eps (fun _ w _ => w = []).
Proof.
  intros b a c. rewrite ends_eps. split.
  - intros e [<-|[]]. exists [], a. repeat split.
  - intros w rest -> ->. exists (Re.MState b rest c).
    split; [left; reflexivity|]. split; reflexivity.
Qed.

Lemma matchesAs_seq ml r1 r2 L1 L2 :
  matchesAs ml r1 L1 -> matchesAs ml r2 L2 ->
  matchesAs ml (Re.Seq r1 r2)
    (fun b w rest =>
       exists u v, w = u ++ v /\ L1 b u (v ++ rest) /\ L2 (rev u ++ b) v rest).
Proof.
  intros H1 H2 b a c. rewrite ends_seq. split.
  - intros e He. apply in_flat_map in He as (mid & Hmid & He).
    apply (H1 b a c) in Hmid as (u & r1' & -> & Hu & Hb & Ha).
    destruct mid as [mb ma mc]. cbn [Re.m_before Re.m_after] in Hb, Ha.
    subst mb ma.
    apply (H2 (rev u ++ b) r1' mc) in He as (v & rest & -> & Hv & Hb & Ha).
    exists (u ++ v), rest. rewrite <- app_assoc. split; [reflexivity|].
    split; [exists u, v; repeat split; assumption|].
    split; [|exact Ha]. rewrite Hb, rev_app_distr, <- app_assoc. reflexivity.
  - intros w rest -> (u & v & -> & Hu & Hv).
    destruct (proj2 (H1 b ((u ++ v) ++ rest) c) u (v ++ rest))
      as (mid & Hmid & Hb & Ha);
      [rewrite <- app_assoc; reflexivity|exact Hu|].
    destruct mid as [mb ma mc]. cbn [Re.m_before Re.m_after] in Hb, Ha.
    subst mb ma.
    destruct (proj2 (H2 (rev u ++ b) (v ++ rest) mc) v rest)
      as (e & He & Hb & Ha); [reflexivity|exact Hv|].
    exists e. split; [apply in_flat_map; exists (Re.MState (rev u ++ b) (v ++ rest) mc);
                      split; assumption|].
    split; [|exact Ha]. rewrite Hb, rev_app_distr, <- app_assoc. reflexivity.
Qed.

Lemma matchesAs_alt ml r1 r2 L1 L2 :
  matchesAs ml r1 L1 -> matchesAs ml r2 L2 ->
  matchesAs ml (Re.Alt r1 r2) (fun b w rest => L1 b w rest \/ L2 b w rest).
Proof.
  intros H1 H2 b a c. rewrite ends_alt. split.
  - intros e He. apply in_app_or in He as [He|He].
    + apply (H1 b a c) in He as (w & rest & E & Hw & Hb & Ha).
      exists w, rest. repeat split; try assumption. left. exact Hw.
    + apply (H2 b a c) in He as (w & rest & E & Hw & Hb & Ha).
      exists w, rest. repeat split; try assumption. right. exact Hw.
  - intros w rest E [Hw|Hw].
    + destruct (proj2 (H1 b a c) w rest E Hw) as (e & He & Hb & Ha).
      exists e. split; [apply in_or_app; left; exact He|]. split; assumption.
    + destruct (proj2 (H2 b a c) w rest E Hw) as (e & He & Hb & Ha).
      exists e. split; [apply in_or_app; right; exact He|]. split; assumption.
Qed.

Lemma matchesAs_grp ml i r L :
  matchesAs ml r L -> matchesAs ml (Re.Grp i r) L.
Proof.
  intros H b a c. rewrite ends_grp. split.
  - intros e He. apply in_map_iff in He as (e' & <- & He').
    apply (H b a c) in He' as (w & rest & E & Hw & Hb & Ha).
    exists w, rest. repeat split; assumption.
  - intros w rest E Hw.
    destruct (proj2 (H b a c) w rest E Hw) as (e & He & Hb & Ha).
    exists (Re.MState (Re.m_before e) (Re.m_after e)
              ((i, Re.consumed (Re.MState b a c) e) :: Re.m_caps e)).
    split; [|split; assumption].
    apply in_map_iff. exists e. split; [reflexivity|exact He].
Qed.

Lemma matchesAs_ext ml r (L L' : list N -> jsstring -> list N -> Prop) :
  (forall b w rest, L b w rest <-> L' b w rest) ->
  matchesAs ml r L -> matchesAs ml r L'.
Proof.
  intros HL H b a c. split.
  - intros e He. apply (H b a c) in He as (w & rest & E & Hw & Hb & Ha).
    exists w, rest. repeat split; try assumption. apply HL. exact Hw.
  - intros w rest E Hw. apply (proj2 (H b a c) w rest E). apply HL. exact Hw.
Qed.

Lemma plainLinkLine_matches name :
  matchesAs true (plainLinkLine name) (linkLine (plainLink name)).
Proof.
  pose proof
    (matchesAs_seq _ _ _ _ _ (matchesAs_bol true)
    (matchesAs_seq _ _ _ _ _ (matchesAs_star_cls true dotp)
    (matchesAs_seq _ _ _ _ _ (matchesAs_str true (JS.lit "[["))
    (matchesAs_seq _ _ _ _ _ (matchesAs_str true name)
    (matchesAs_seq _ _ _ _ _ (matchesAs_str true (JS.lit "]]"))
    (matchesAs_seq _ _ _ _ _ (matchesAs_star_cls true dotp)
    (matchesAs_seq _ _ _ _ _ (matchesAs_eol true)
       (matchesAs_eps true)))))))) as H.
  refine (matchesAs_ext _ _ _ _ _ H). clear H.
  intros b w rest. unfold linkLine, plainLink, linkText. split.
  - intros (u0 & v0 & -> & [-> Hb] & u1 & v1 & -> & H1 & u2 & v2 & -> & ->
            & u3 & v3 & -> & -> & u4 & v4 & -> & -> & u5 & v5 & -> & H5
            & u6 & v6 & -> & [-> He] & ->).
    cbn [app] in He. split; [exact Hb|]. split; [exact He|].
    exists u1, (JS.lit "[[" ++ name ++ JS.lit "]]"), u5.
    split; [reflexivity|]. split; [|split; assumption].
    cbn [app]. rewrite !app_nil_r, <- !app_assoc. reflexivity.
  - intros (Hb & He & x & k & y & -> & -> & Hx & Hy).
    exists [], (x ++ (JS.lit "[[" ++ name ++ JS.lit "]]") ++ y).
    split; [reflexivity|]. split; [split; [reflexivity|exact Hb]|].
    exists x, ((JS.lit "[[" ++ name ++ JS.lit "]]") ++ y).
    split; [reflexivity|]. split; [exact Hx|].
    exists (JS.lit "[["), (name ++ JS.lit "]]" ++ y).
    split; [rewrite <- !app_assoc; reflexivity|]. split; [reflexivity|].
    exists name, (JS.lit "]]" ++ y). split; [reflexivity|].
    split; [reflexivity|].
    exists (JS.lit "]]"), y. split; [reflexivity|]. split; [reflexivity|].
    exists y, []. split; [rewrite app_nil_r; reflexivity|]. split; [exact Hy|].
    exists [], []. split; [reflexivity|]. split; [|reflexivity].
    split; [reflexivity|exact He].
Qed.

Lemma aliasLinkLine_matches name :
  matchesAs true (aliasLinkLine name) (linkLine (aliasLink name)).
Proof.
  pose proof
    (matchesAs_seq _ _ _ _ _ (matchesAs_bol true)
    (matchesAs_seq _ _ _ _ _ (matchesAs_star_cls true dotp)
    (matchesAs_seq _ _ _ _ _ (matchesAs_str true (JS.lit "[["))
    (matchesAs_seq _ _ _ _ _ (matchesAs_str true name)
    (matchesAs_seq _ _ _ _ _ (matchesAs_cls true (N.eqb 124))
    (matchesAs_seq _ _ _ _ _
       (matchesAs_seq _ _ _ _ _ (matchesAs_cls true notBracket)
                                (matchesAs_star_cls true notBracket))
    (matchesAs_seq _ _ _ _ _ (matchesAs_str true (JS.lit "]]"))
    (matchesAs_seq _ _ _ _ _ (matchesAs_star_cls true dotp)
    (matchesAs_seq _ _ _ _ _ (matchesAs_eol true)
       (matchesAs_eps true)))))))))) as H.
  refine (matchesAs_ext _ _ _ _ _ H). clear H.
  intros b w rest. unfold linkLine, aliasLink, linkText. split.
  - intros (u0 & v0 & -> & [-> Hb] & u1 & v1 & -> & H1 & u2 & v2 & -> & ->
            & u3 & v3 & -> & -> & u4 & v4 & -> & (bar & -> & Hbar)
            & u5 & v5 & -> & (a1 & a2 & -> & (a0 & -> & Ha0) & Ha2)
            & u6 & v6 & -> & -> & u7 & v7 & -> & H7
            & u8 & v8 & -> & [-> He] & ->).
    cbn [app] in He. apply N.eqb_eq in Hbar. subst bar.
    split; [exact Hb|]. split; [exact He|].
    exists u1, (JS.lit "[[" ++ name ++ JS.lit "|" ++ (a0 :: a2) ++ JS.lit "]]"), u7.
    split; [|split; [|split; assumption]].
    + exists (a0 :: a2). split; [reflexivity|]. split; [discriminate|].
      cbn [forallb]. rewrite Ha0, Ha2. reflexivity.
    + change (JS.lit "|") with [124%N]. rewrite !app_nil_r.
      repeat first [rewrite <- app_assoc | progress cbn [app]]. reflexivity.
  - intros (Hb & He & x & k & y & (al & -> & Hne & Hal) & -> & Hx & Hy).
    destruct al as [|a0 a2]; [congruence|].
    cbn [forallb] in Hal. apply andb_prop in Hal as [Ha0 Ha2].
    exists [], (x ++ (JS.lit "[[" ++ name ++ JS.lit "|" ++ (a0 :: a2) ++ JS.lit "]]") ++ y).
    split; [reflexivity|]. split; [split; [reflexivity|exact Hb]|].
    exists x, ((JS.lit "[[" ++ name ++ JS.lit "|" ++ (a0 :: a2) ++ JS.lit "]]") ++ y).
    split; [reflexivity|]. split; [exact Hx|].
    exists (JS.lit "[["), (name ++ JS.lit "|" ++ (a0 :: a2) ++ JS.lit "]]" ++ y).
    split; [rewrite <- !app_assoc; reflexivity|]. split; [reflexivity|].
    exists name, (JS.lit "|" ++ (a0 :: a2) ++ JS.lit "]]" ++ y).
    split; [reflexivity|]. split; [reflexivity|].
    exists [124%N], ((a0 :: a2) ++ JS.lit "]]" ++ y).
    split; [reflexivity|].
    split; [exists 124%N; split; reflexivity|].
    exists (a0 :: a2), (JS.lit "]]" ++ y). split; [reflexivity|].
    split; [exists [a0], a2; split; [reflexivity|];
            split; [exists a0; split; [reflexivity|exact Ha0]|exact Ha2]|].
    exists (JS.lit "]]"), y. split; [reflexivity|]. split; [reflexivity|].
    exists y, []. split; [rewrite app_nil_r; reflexivity|]. split; [exact Hy|].
    exists [], []. split; [reflexivity|]. split; [|reflexivity].
    split; [reflexivity|exact He].
Qed.

Lemma rev_head_dotp (w y : jsstring) (z : N) (b : list N) :
  dotp z = true -> forallb dotp y = true ->
  exists h t, rev (w ++ z :: y) ++ b = h :: t /\ dotp h = true.
Proof.
  intros Hz Hy. rewrite rev_app_distr. cbn [rev].
  destruct (rev y) as [|h t] eqn:E.
  - exists z, (rev w ++ b). split; [rewrite <- !app_assoc; reflexivity|exact Hz].
  - exists h, ((t ++ [z]) ++ rev w ++ b).
    split; [rewrite <- !app_assoc; reflexivity|].
    assert (Hin : In h y) by (apply in_rev; rewrite E; left; reflexivity).
    exact (proj1 (forallb_forall _ _) Hy h Hin).
Qed.

Lemma lineAnchored_of P K :
  (forall k, K k -> exists k', k = k' ++ [93%N]) ->
  matchesAs true P (linkLine K) -> lineAnchored P.
Proof.
  intros HK H b a e He.
  apply (H b a []) in He as (w & rest & -> & (Hb & Heol & x & k & y & Hk & -> & Hx & Hy) & Hbe & Hae).
  destruct (HK k Hk) as [k' ->].
  split; [exact Hb|]. split.
  { unfold Re.at_eol in *. rewrite Hae. exact Heol. }
  split.
  - rewrite Hbe.
    replace (x ++ (k' ++ [93%N]) ++ y) with ((x ++ k') ++ 93%N :: y)
      by (rewrite <- !app_assoc; reflexivity).
    apply rev_head_dotp; [reflexivity|exact Hy].
  - exists (x ++ (k' ++ [93%N]) ++ y). rewrite Hae. split; [|reflexivity].
    intros E. apply app_eq_nil in E as [_ E]. apply app_eq_nil in E as [E _].
    apply app_eq_nil in E as [_ E]. discriminate.
Qed.

Lemma forallb_app_inv {A : Type} (p : A -> bool) (x y : list A) :
  forallb p (x ++ y) = true -> forallb p x = true /\ forallb p y = true.
Proof. rewrite forallb_app. apply andb_prop. Qed.

Lemma matchesLines_of P K :
  matchesAs true P (linkLine K) -> matchesLines P (holdsOneOf K).
Proof.
  intros H b l rest Hb Hl Hrest (x & k & y & Hk & ->) E.
  apply forallb_app_inv in Hl as [Hx Hl].
  apply forallb_app_inv in Hl as [_ Hy].
  destruct (proj2 (H b ((x ++ k ++ y) ++ rest) []) (x ++ k ++ y) rest)
    as (e & He & _); [reflexivity| |rewrite E in He; destruct He].
  split; [exact Hb|]. split.
  - unfold Re.at_eol. cbn [Re.m_after].
    destruct Hrest as [->|[r ->]]; reflexivity.
  - exists x, k, y. repeat split; assumption.
Qed.

Lemma plainLink_ends name k : plainLink name k -> exists k', k = k' ++ [93%N].
Proof.
  intros ->. exists (JS.lit "[[" ++ name ++ [93%N]).
  unfold linkText. rewrite <- !app_assoc. reflexivity.
Qed.

Lemma aliasLink_ends name k : aliasLink name k -> exists k', k = k' ++ [93%N].
Proof.
  intros (al & -> & _). exists (JS.lit "[[" ++ name ++ JS.lit "|" ++ al ++ [93%N]).
  unfold linkText. rewrite <- !app_assoc. reflexivity.
Qed.

(** *** Lines erased by a pattern that matches whole lines *)

Lemma terminator_is_LF x :
  JS.is_line_terminator x = true -> otherTerminator x = false -> x = LF.
Proof.
  unfold JS.is_line_terminator, otherTerminator. intros H1 H2.
  destruct (N.eqb x 10) eqn:E; [apply N.eqb_eq in E; exact E|].
  cbn [orb] in H1. congruence.
Qed.

Lemma dotp_noLF l : forallb dotp l = true -> ~ In LF l.
Proof.
  intros H Hin. apply (proj1 (forallb_forall _ _) H) in Hin. discriminate.
Qed.

Lemma ends_off_line P :
  lineAnchored P ->
  forall x b a, dotp x = true -> Re.ends true P (Re.MState (x :: b) a []) = [].
Proof.
  intros HA x b a Hx.
  destruct (Re.ends true P (Re.MState (x :: b) a [])) as [|e tl] eqn:E;
    [reflexivity|].
  destruct (HA (x :: b) a e) as [Hb _]; [rewrite E; left; reflexivity|].
  unfold Re.at_bol in Hb. cbn [Re.m_before andb] in Hb.
  unfold dotp in Hx. rewrite Hb in Hx. discriminate.
Qed.

Lemma loop_at_end f ml P repl b :
  Re.ends ml P (Re.MState b [] []) = [] ->
  Re.replace_loop f ml P repl b [] = [].
Proof.
  intros E. destruct f as [|f]; [reflexivity|].
  cbn [Re.replace_loop Re.search]. rewrite E. reflexivity.
Qed.

Lemma skip_line P repl f :
  lineAnchored P ->
  forall l0 b rest,
    forallb dotp l0 = true ->
    Re.ends true P (Re.MState b (l0 ++ rest) []) = [] ->
    Re.replace_loop (S f) true P repl b (l0 ++ rest) =
    l0 ++ Re.replace_loop (S f) true P repl (rev l0 ++ b) rest /\
    Re.ends true P (Re.MState (rev l0 ++ b) rest []) = [].
Proof.
  intros HA. induction l0 as [|x l0 IH]; intros b rest Hl E.
  - split; [reflexivity|exact E].
  - cbn [forallb] in Hl. apply andb_prop in Hl as [Hx Hl].
    cbn [app] in *. rewrite (ReFacts.replace_loop_miss _ _ _ _ _ _ _ E).
    destruct (IH (x :: b) rest Hl (ends_off_line P HA x b _ Hx)) as [IH1 IH2].
    cbn [rev]. rewrite <- app_assoc. cbn [app]. rewrite IH1.
    split; [reflexivity|exact IH2].
Qed.

Lemma consumed_app b w c e :
  Re.consumed (Re.MState b (w ++ Re.m_after e) c) e = w.
Proof.
  unfold Re.consumed. cbn [Re.m_after].
  rewrite length_app, Nat.add_sub, firstn_app, Nat.sub_diag, firstn_all.
  cbn [firstn]. apply app_nil_r.
Qed.

Lemma erase_lines P hit :
  lineAnchored P -> matchesLines P hit ->
  forall n a, length a = n -> forall f b,
    length a < f ->
    existsb otherTerminator a = false ->
    Re.at_bol true (Re.MState b a []) = true ->
    forall l, In l (JS.split LF (Re.replace_loop f true P [] b a)) ->
      l = [] \/ (In l (JS.split LF a) /\ ~ hit l).
Proof.
  intros HA HM n. induction n as [n IH] using lt_wf_ind.
  intros a Hn f b Hf Ht Hb l Hl.
  destruct f as [|f]; [lia|].
  destruct (Re.ends true P (Re.MState b a [])) as [|e tl] eqn:E.
  - pose proof (takeWhile_dropWhile dotp a) as Ha.
    pose proof (takeWhile_all dotp a) as Hl0.
    set (l0 := takeWhile dotp a) in *.
    destruct (dropWhile dotp a) as [|x r] eqn:Hd.
    + rewrite app_nil_r in Ha. rewrite <- Ha in Hl, E |- *.
      rewrite <- (app_nil_r l0) in Hl, E.
      destruct (skip_line P [] f HA l0 b [] Hl0 E) as [S1 S2].
      rewrite S1, (loop_at_end _ _ _ _ _ S2), app_nil_r in Hl.
      rewrite split_single in Hl |- * by (apply dotp_noLF; exact Hl0).
      destruct Hl as [<-|[]]. right. split; [left; reflexivity|].
      intros Hh.
      exact (HM b l0 [] Hb Hl0 (or_introl eq_refl) Hh E).
    + assert (Hx : x = LF).
      { apply terminator_is_LF.
        - apply dropWhile_head in Hd. unfold dotp in Hd.
          destruct (JS.is_line_terminator x); [reflexivity|discriminate].
        - rewrite <- Ha, existsb_app in Ht. apply orb_false_elim in Ht as [_ Ht].
          cbn [existsb] in Ht. apply orb_false_elim in Ht as [Ht _]. exact Ht. }
      subst x. rewrite <- Ha in Hl, E, Ht, Hn, Hf |- *.
      destruct (skip_line P [] f HA l0 b (LF :: r) Hl0 E) as [S1 S2].
      rewrite S1, (ReFacts.replace_loop_miss _ _ _ _ _ _ _ S2) in Hl.
      rewrite split_app_LF in Hl |- *.
      rewrite split_single in Hl |- * by (apply dotp_noLF; exact Hl0).
      destruct Hl as [<-|Hl].
      * right. split; [left; reflexivity|].
        intros Hh.
        exact (HM b l0 (LF :: r) Hb Hl0
                 (or_intror (ex_intro _ r eq_refl)) Hh E).
      * rewrite length_app in Hn, Hf. cbn [length] in Hn, Hf.
        rewrite existsb_app in Ht. apply orb_false_elim in Ht as [_ Ht].
        cbn [existsb] in Ht. apply orb_false_elim in Ht as [_ Ht].
        destruct (IH (length r) ltac:(lia) r eq_refl (S f) (LF :: rev l0 ++ b)
                    ltac:(lia) Ht eq_refl l Hl) as [->|[Hin Hno]].
        -- left. reflexivity.
        -- right. split; [right; exact Hin|exact Hno].
  - destruct (HA b a e) as (_ & Heol & (x & t & Hbe & Hx) & w & Hw & Ha);
      [rewrite E; left; reflexivity|].
    destruct w as [|w0 w]; [congruence|].
    assert (Hc : Re.consumed (Re.MState b a []) e = w0 :: w).
    { rewrite Ha. apply consumed_app. }
    rewrite (ReFacts.replace_loop_hit _ _ _ _ _ _ _ _ _ _ E Hc) in Hl.
    cbn [app] in Hl. rewrite Hbe in Hl.
    destruct (Re.m_after e) as [|y r] eqn:Hma.
    + rewrite loop_at_end in Hl by (apply ends_off_line; assumption).
      destruct Hl as [<-|[]]. left. reflexivity.
    + assert (Hy : y = LF).
      { apply terminator_is_LF.
        - unfold Re.at_eol in Heol. rewrite Hma in Heol. exact Heol.
        - rewrite Ha, existsb_app in Ht. apply orb_false_elim in Ht as [_ Ht].
          cbn [existsb] in Ht. apply orb_false_elim in Ht as [Ht _]. exact Ht. }
      subst y. rewrite Ha in Hn, Hf, Ht |- *.
      rewrite length_app in Hn, Hf. cbn [length] in Hn, Hf.
      destruct f as [|f]; [lia|].
      rewrite ReFacts.replace_loop_miss in Hl by (apply ends_off_line; assumption).
      cbn [JS.split] in Hl. change (N.eqb LF LF) with true in Hl. cbn iota in Hl.
      destruct Hl as [<-|Hl]; [left; reflexivity|].
      rewrite existsb_app in Ht. apply orb_false_elim in Ht as [_ Ht].
      cbn [existsb] in Ht. apply orb_false_elim in Ht as [_ Ht].
      destruct (IH (length r) ltac:(lia) r eq_refl (S f) (LF :: x :: t)
                  ltac:(lia) Ht eq_refl l Hl) as [->|[Hin Hno]].
      * left. reflexivity.
      * right. split; [|exact Hno].
        change (w0 :: w ++ LF :: r) with ((w0 :: w) ++ LF :: r).
        rewrite split_app_LF. apply in_or_app. right. exact Hin.
Qed.

Lemma erased_lines P hit s :
  lineAnchored P -> matchesLines P hit ->
  existsb otherTerminator s = false ->
  forall l, In l (JS.split LF (Re.replaceGlobal true P [] s)) ->
    l = [] \/ (In l (JS.split LF s) /\ ~ hit l).
Proof.
  intros HA HM Ht l Hl. unfold Re.replaceGlobal in Hl.
  apply (erase_lines P hit HA HM (length s) s eq_refl (S (length s)) []);
    [lia|exact Ht|reflexivity|exact Hl].
Qed.

Lemma in_split_in s : forall l c, In l (JS.split LF s) -> In c l -> In c s.
Proof.
  induction s as [|x s IH]; intros l c Hl Hc.
  - destruct Hl as [<-|[]]. destruct Hc.
  - cbn [JS.split] in Hl. destruct (N.eqb x LF).
    + destruct Hl as [<-|Hl]; [destruct Hc|]. right. exact (IH l c Hl Hc).
    + pose proof (split_nonempty LF s) as Hne.
      destruct (JS.split LF s) as [|cur more] eqn:E; [congruence|].
      destruct Hl as [<-|Hl].
      * destruct Hc as [<-|Hc]; [left; reflexivity|].
        right. apply (IH cur c); [left; reflexivity|exact Hc].
      * right. apply (IH l c); [right; exact Hl|exact Hc].
Qed.

Lemma in_string_split s : forall c,
  In c s -> c = LF \/ exists l, In l (JS.split LF s) /\ In c l.
Proof.
  induction s as [|x s IH]; intros c Hc; [destruct Hc|].
  cbn [JS.split]. destruct (N.eqb x LF) eqn:Hx.
  - destruct Hc as [<-|Hc]; [left; apply N.eqb_eq; exact Hx|].
    destruct (IH c Hc) as [->|(l & Hl & Hin)]; [left; reflexivity|].
    right. exists l. split; [right; exact Hl|exact Hin].
  - pose proof (split_nonempty LF s) as Hne.
    destruct (JS.split LF s) as [|cur more] eqn:E; [congruence|].
    destruct Hc as [<-|Hc].
    + right. exists (x :: cur). split; left; reflexivity.
    + destruct (IH c Hc) as [->|(l & [<-|Hl] & Hin)]; [left; reflexivity| |].
      * right. exists (x :: cur). split; [left; reflexivity|right; exact Hin].
      * right. exists l. split; [right; exact Hl|exact Hin].
Qed.

Lemma existsb_false_forall {A : Type} (p : A -> bool) (l : list A) :
  existsb p l = false <-> forall x, In x l -> p x = false.
Proof.
  split.
  - intros H x Hx. destruct (p x) eqn:E; [|reflexivity].
    rewrite <- H. symmetry. apply existsb_exists. exists x. split; assumption.
  - intros H. destruct (existsb p l) eqn:E; [|reflexivity].
    apply existsb_exists in E as (x & Hx & Hp). rewrite (H x Hx) in Hp.
    discriminate.
Qed.

(** A text whose lines are lines of another, or empty, has no terminator
    that the other has not. *)
Lemma lines_keep_terminators s t :
  (forall l, In l (JS.split LF t) -> l = [] \/ In l (JS.split LF s)) ->
  existsb otherTerminator s = false -> existsb otherTerminator t = false.
Proof.
  intros H Hs. apply existsb_false_forall. intros c Hc.
  destruct (in_string_split t c Hc) as [->|(l & Hl & Hin)]; [reflexivity|].
  destruct (H l Hl) as [->|Hl']; [destruct Hin|].
  apply (proj1 (existsb_false_forall _ _) Hs). exact (in_split_in s l c Hl' Hin).
Qed.

Lemma lines_dotp s l :
  existsb otherTerminator s = false -> In l (JS.split LF s) ->
  forallb dotp l = true.
Proof.
  intros Hs Hl. apply forallb_forall. intros c Hc. unfold dotp.
  destruct (JS.is_line_terminator c) eqn:E; [|reflexivity].
  assert (Hc' : c = LF).
  { apply terminator_is_LF; [exact E|].
    apply (proj1 (existsb_false_forall _ _) Hs).
    exact (in_split_in s l c Hl Hc). }
  subst c. exfalso.
  exact (proj1 (Forall_forall _ _) (split_noLF s) l Hl Hc).
Qed.

(** *** Blank lines collapsed *)

Lemma search_some ml r : forall a b m,
  Re.search ml r b a = Some m ->
  exists a',
    a = Re.r_skipped m ++ a' /\
    In (Re.r_end m)
       (Re.ends ml r (Re.MState (rev (Re.r_skipped m) ++ b) a' [])) /\
    Re.r_matched m =
    Re.consumed (Re.MState (rev (Re.r_skipped m) ++ b) a' []) (Re.r_end m).
Proof.
  induction a as [|x a IH]; intros b m; cbn [Re.search].
  - destruct (Re.ends ml r (Re.MState b [] [])) as [|e tl] eqn:E;
      [discriminate|].
    intros [= <-]. exists []. cbn [Re.r_skipped Re.r_end Re.r_matched rev app].
    rewrite E. repeat split. left. reflexivity.
  - destruct (Re.ends ml r (Re.MState b (x :: a) [])) as [|e tl] eqn:E.
    + destruct (Re.search ml r (x :: b) a) as [m'|] eqn:Hs; [|discriminate].
      intros [= <-]. destruct (IH (x :: b) m' Hs) as (a' & -> & Hin & Hm).
      exists a'. cbn [Re.r_skipped Re.r_end Re.r_matched rev app].
      rewrite <- app_assoc. cbn [app]. repeat split; assumption.
    + intros [= <-]. exists (x :: a).
      cbn [Re.r_skipped Re.r_end Re.r_matched rev app].
      rewrite E. repeat split. left. reflexivity.
Qed.

Lemma blankLinesRegex_matches :
  matchesAs false blankLinesRegex
    (fun _ w _ =>
       exists k, w = LF :: LF :: LF :: k /\ forallb (N.eqb LF) k = true).
Proof.
  pose proof
    (matchesAs_seq _ _ _ _ _ (matchesAs_cls false (N.eqb LF))
    (matchesAs_seq _ _ _ _ _ (matchesAs_cls false (N.eqb LF))
    (matchesAs_seq _ _ _ _ _ (matchesAs_cls false (N.eqb LF))
    (matchesAs_seq _ _ _ _ _ (matchesAs_star_cls false (N.eqb LF))
       (matchesAs_eps false))))) as H.
  refine (matchesAs_ext _ _ _ _ _ H). clear H.
  intros b w rest. split.
  - intros (u0 & v0 & -> & (x0 & -> & H0) & u1 & v1 & -> & (x1 & -> & H1)
            & u2 & v2 & -> & (x2 & -> & H2) & u3 & v3 & -> & H3 & ->).
    apply N.eqb_eq in H0, H1, H2. subst x0 x1 x2.
    exists u3. cbn [app]. rewrite app_nil_r. split; [reflexivity|exact H3].
  - intros (k & -> & Hk).
    exists [LF], (LF :: LF :: k). split; [reflexivity|].
    split; [exists LF; split; reflexivity|].
    exists [LF], (LF :: k). split; [reflexivity|].
    split; [exists LF; split; reflexivity|].
    exists [LF], k. split; [reflexivity|].
    split; [exists LF; split; reflexivity|].
    exists k, []. split; [rewrite app_nil_r; reflexivity|].
    split; [exact Hk|reflexivity].
Qed.

Lemma in_split_after_LFs k rest l :
  forallb (N.eqb LF) k = true ->
  In l (JS.split LF rest) -> In l (JS.split LF (k ++ rest)).
Proof.
  induction k as [|x k IH]; intros Hk Hl; [exact Hl|].
  cbn [forallb] in Hk. apply andb_prop in Hk as [Hx Hk].
  apply N.eqb_eq in Hx. subst x. cbn [app JS.split].
  change (N.eqb LF LF) with true. cbn iota. right. exact (IH Hk Hl).
Qed.

Lemma collapse_lines :
  forall n a, length a = n -> forall f b l,
    In l (JS.split LF
            (Re.replace_loop f false blankLinesRegex (JS.lit "\n\n") b a)) ->
    l = [] \/ In l (JS.split LF a).
Proof.
  induction n as [n IH] using lt_wf_ind. intros a Hn f b l Hl.
  destruct f as [|f]; [right; exact Hl|].
  cbn [Re.replace_loop] in Hl.
  destruct (Re.search false blankLinesRegex b a) as [m|] eqn:Hs;
    [|right; exact Hl].
  destruct (search_some _ _ _ _ _ Hs) as (a' & Ha & Hin & Hm).
  apply (blankLinesRegex_matches _ a' []) in Hin
    as (w & rest & -> & (k & -> & Hk) & _ & Hae).
  rewrite <- Hae, consumed_app in Hm. rewrite Hm in Hl. cbv zeta in Hl.
  cbn iota in Hl. rewrite Hae in Hl.
  change (JS.lit "\n\n") with [LF; LF] in Hl. cbn [app] in Hl.
  rewrite split_app_LF in Hl. apply in_app_or in Hl as [Hl|Hl].
  - right. rewrite Ha. cbn [app]. rewrite split_app_LF.
    apply in_or_app. left. exact Hl.
  - cbn [JS.split] in Hl. change (N.eqb LF LF) with true in Hl.
    cbn iota in Hl. destruct Hl as [<-|Hl]; [left; reflexivity|].
    assert (Hlen : length rest < n).
    { rewrite <- Hn, Ha, !length_app. cbn [length]. lia. }
    destruct (IH (length rest) Hlen rest eq_refl f _ l Hl) as [->|Hl'];
      [left; reflexivity|].
    right. rewrite Ha. cbn [app]. rewrite split_app_LF.
    apply in_or_app. right.
    apply (in_split_after_LFs (LF :: LF :: k) rest l); [|exact Hl'].
    cbn [forallb]. rewrite Hk. reflexivity.
Qed.

(** *** Entries come from lines *)

Lemma lineEntries_link md st l e :
  In e (lineEntries md st l) ->
  exists al p q,
    linkParts (projectName e) al /\ l = p ++ linkText (projectName e) al ++ q.
Proof.
  unfold lineEntries.
  destruct (Re.exec false sectionRegex l); [intros []|].
  destruct (Re.exec false subsectionRegex l); [intros []|].
  destruct (Re.exec false linkRegex l) as [m|] eqn:Hm; [|intros []].
  destruct (currentSection st) as [s|]; [|intros []].
  intros [<-|[]]. unfold entryOfLine. cbn [projectName].
  unfold Re.exec in Hm. pose proof (search_link l []) as S.
  destruct (firstLink l) as [[name al]|] eqn:F; [|congruence].
  destruct S as (m' & Hs & Hg & _). rewrite Hm in Hs. injection Hs as <-.
  unfold groupText. rewrite Hg.
  destruct (firstLink_sound l name al F) as (Hp & p & q & E).
  exists al, p, q. split; assumption.
Qed.

Lemma parse_fold_Forall md (Q : PriorityEntry -> Prop) (L : list jsstring) :
  (forall st l, In l L -> Forall Q (lineEntries md st l)) ->
  Forall Q
    (allEntries (finishParse md (fold_left (parseLine md) L initialState))).
Proof.
  induction L as [|l L IH] using rev_ind; intros HL; [constructor|].
  rewrite fold_left_app. cbn [fold_left].
  rewrite allEntries_step by apply (parse_fold md L).
  apply Forall_app. split.
  - apply IH. intros st l' Hl'. apply HL. apply in_or_app. left. exact Hl'.
  - apply HL. apply in_or_app. right. left. reflexivity.
Qed.

Lemma beforeSeparator_In lines l : In l (beforeSeparator lines) -> In l lines.
Proof.
  induction lines as [|x lines IH]; [intros []|]. cbn [beforeSeparator].
  destruct (isSeparatorLine x); [intros []|].
  intros [<-|H]; [left; reflexivity|right; exact (IH H)].
Qed.

Lemma parsed_entries_from_lines md text :
  Forall
    (fun e =>
       exists l al p q,
         In l (JS.split LF text) /\ linkParts (projectName e) al /\
         l = p ++ linkText (projectName e) al ++ q)
    (allEntries (parseContent md text)).
Proof.
  rewrite parseContent_fold. apply parse_fold_Forall. intros st l Hl.
  apply Forall_forall. intros e He.
  destruct (lineEntries_link md st l e He) as (al & p & q & Hp & E).
  exists l, al, p, q. split; [exact (beforeSeparator_In _ _ Hl)|].
  split; assumption.
Qed.

(** *** [removeFromPriorities] *)

Lemma removed_lines name content result :
  existsb otherTerminator content = false ->
  removeFromPriorities name (Some content) = Some result ->
  forall l, In l (JS.split LF result) ->
    l = [] \/
    (In l (JS.split LF content) /\
     ~ holdsOneOf (plainLink name) l /\ ~ holdsOneOf (aliasLink name) l).
Proof.
  intros Ht [= <-] l Hl.
  set (r1 := Re.replaceGlobal true (plainLinkLine name) [] content) in *.
  set (r2 := Re.replaceGlobal true (aliasLinkLine name) [] r1) in *.
  assert (H1 : forall l, In l (JS.split LF r1) ->
                 l = [] \/ (In l (JS.split LF content) /\
                            ~ holdsOneOf (plainLink name) l)).
  { apply erased_lines; [| |exact Ht].
    - exact (lineAnchored_of _ _ (plainLink_ends name) (plainLinkLine_matches name)).
    - exact (matchesLines_of _ _ (plainLinkLine_matches name)). }
  assert (Ht1 : existsb otherTerminator r1 = false).
  { apply (lines_keep_terminators content); [|exact Ht].
    intros l' Hl'. destruct (H1 l' Hl') as [->|[Hin _]];
      [left; reflexivity|right; exact Hin]. }
  assert (H2 : forall l, In l (JS.split LF r2) ->
                 l = [] \/ (In l (JS.split LF r1) /\
                            ~ holdsOneOf (aliasLink name) l)).
  { apply erased_lines; [| |exact Ht1].
    - exact (lineAnchored_of _ _ (aliasLink_ends name) (aliasLinkLine_matches name)).
    - exact (matchesLines_of _ _ (aliasLinkLine_matches name)). }
  unfold Re.replaceGlobal in Hl at 1.
  destruct (collapse_lines _ _ eq_refl _ _ _ Hl) as [->|Hl2];
    [left; reflexivity|].
  destruct (H2 l Hl2) as [->|[Hl1 Hno2]]; [left; reflexivity|].
  destruct (H1 l Hl1) as [->|[Hl0 Hno1]]; [left; reflexivity|].
  right. repeat split; assumption.
Qed.

(** X21: What [removeFromPriorities] leaves: every line of the new text is empty
    or a line of the old text that holds no link of the project, plain or
    with an alias; no line is added or altered.  The text has no line
    terminator but the line feed. *)
Theorem removeFromPriorities_leaves_other_lines :
  forall (name content result : jsstring),
    existsb otherTerminator content = false ->
    removeFromPriorities name (Some content) = Some result ->
    Forall
      (fun l =>
         l = [] \/
         (In l (JS.split LF content) /\
          ~ holdsOneOf (plainLink name) l /\
          ~ holdsOneOf (aliasLink name) l))
      (JS.split LF result).
Proof.
  intros name content result Ht Hr. apply Forall_forall.
  exact (removed_lines name content result Ht Hr).
Qed.

Lemma removeFromPriorities_leaves_other_lines_witness :
  let content :=
    JS.lit "# P\n## Active\n- [[Alpha]]\n- [[Beta|B]]\n\n\n- x [[Alpha|A]] y\n---\nnotes [[Alpha]]\n" in
  let result := JS.lit "# P\n## Active\n\n- [[Beta|B]]\n\n---\n\n" in
  existsb otherTerminator content = false /\
  removeFromPriorities (JS.lit "Alpha") (Some content) = Some result /\
  Forall
    (fun l =>
       l = [] \/
       (In l (JS.split LF content) /\
        ~ holdsOneOf (plainLink (JS.lit "Alpha")) l /\
        ~ holdsOneOf (aliasLink (JS.lit "Alpha")) l))
    (JS.split LF result).
Proof.
  cbv zeta.
  assert (H1 : existsb otherTerminator
                 (JS.lit "# P\n## Active\n- [[Alpha]]\n- [[Beta|B]]\n\n\n- x [[Alpha|A]] y\n---\nnotes [[Alpha]]\n")
               = false) by (vm_compute; reflexivity).
  assert (H2 : removeFromPriorities (JS.lit "Alpha")
                 (Some (JS.lit "# P\n## Active\n- [[Alpha]]\n- [[Beta|B]]\n\n\n- x [[Alpha|A]] y\n---\nnotes [[Alpha]]\n"))
               = Some (JS.lit "# P\n## Active\n\n- [[Beta|B]]\n\n---\n\n"))
    by (vm_compute; reflexivity).
  split; [exact H1|]. split; [exact H2|].
  exact (removeFromPriorities_leaves_other_lines _ _ _ H1 H2).
Defined.

Lemma removed_not_listed (md : Metadata) (name content result : jsstring) :
  existsb otherTerminator content = false ->
  removeFromPriorities name (Some content) = Some result ->
  Forall (fun e => projectName e <> name)
         (allEntries (parseContent md result)).
Proof.
  intros Ht Hr.
  pose proof (parsed_entries_from_lines md result) as H.
  apply Forall_forall. intros e He.
  apply (proj1 (Forall_forall _ _) H) in He as (l & al & p & q & Hl & Hp & E).
  intros Hn. rewrite Hn in *.
  destruct (removed_lines name content result Ht Hr l Hl)
    as [->|(_ & Hno1 & Hno2)].
  - symmetry in E. apply app_eq_nil in E as [_ E].
    apply app_eq_nil in E as [E _]. destruct al; discriminate.
  - destruct al as [a|].
    + apply Hno2. exists p, (linkText name (Some a)), q.
      split; [|exact E]. exists a. destruct Hp as (_ & _ & Ha1 & Ha2).
      repeat split; assumption.
    + apply Hno1. exists p, (linkText name None), q.
      split; [reflexivity|exact E].
Qed.

(** X22: After [removeFromPriorities] the parsed document lists the project in no
    section, when the text has no line terminator but the line feed. *)
Theorem removeFromPriorities_unlists :
  forall (md : Metadata) (name content result : jsstring),
    existsb otherTerminator content = false ->
    removeFromPriorities name (Some content) = Some result ->
    Forall (fun e => projectName e <> name)
           (allEntries (parseContent md result)).
Proof. exact removed_not_listed. Qed.

Lemma removeFromPriorities_unlists_witness :
  let content :=
    JS.lit "# P\n## Active\n- [[Alpha]]\n- [[Beta|B]]\n\n\n- x [[Alpha|A]] y\n---\nnotes [[Alpha]]\n" in
  let result := JS.lit "# P\n## Active\n\n- [[Beta|B]]\n\n---\n\n" in
  existsb otherTerminator content = false /\
  removeFromPriorities (JS.lit "Alpha") (Some content) = Some result /\
  Forall (fun e => projectName e <> JS.lit "Alpha")
         (allEntries (parseContent noMetadata result)).
Proof.
  cbv zeta.
  assert (H1 : existsb otherTerminator
                 (JS.lit "# P\n## Active\n- [[Alpha]]\n- [[Beta|B]]\n\n\n- x [[Alpha|A]] y\n---\nnotes [[Alpha]]\n")
               = false) by (vm_compute; reflexivity).
  assert (H2 : removeFromPriorities (JS.lit "Alpha")
                 (Some (JS.lit "# P\n## Active\n- [[Alpha]]\n- [[Beta|B]]\n\n\n- x [[Alpha|A]] y\n---\nnotes [[Alpha]]\n"))
               = Some (JS.lit "# P\n## Active\n\n- [[Beta|B]]\n\n---\n\n"))
    by (vm_compute; reflexivity).
  split; [exact H1|]. split; [exact H2|].
  exact (removeFromPriorities_unlists noMetadata _ _ _ H1 H2).
Defined.

(** *** [addToPriorities] *)

Lemma join_cons l after : JS.join [LF] (l :: after) = l ++ linesAfter after.
Proof.
  revert l. induction after as [|a after IH]; intros l.
  - cbn. rewrite app_nil_r. reflexivity.
  - change (JS.join [LF] (l :: a :: after))
      with (l ++ [LF] ++ JS.join [LF] (a :: after)).
    rewrite IH. reflexivity.
Qed.

Lemma join_middle before l after :
  JS.join [LF] (before ++ l :: after) =
  linesBefore before ++ l ++ linesAfter after.
Proof.
  induction before as [|x before IH]; [apply join_cons|].
  cbn [app linesBefore flat_map]. fold (linesBefore before).
  rewrite <- !app_assoc, <- IH.
  destruct before as [|y before]; reflexivity.
Qed.

Lemma sectionHeaderLine_matches section :
  matchesAs true (sectionHeaderLine section)
    (fun b w rest =>
       Re.at_bol true (Re.MState b [] []) = true /\
       Re.at_eol true (Re.MState [] rest []) = true /\
       w = JS.lit "## " ++ section).
Proof.
  pose proof
    (matchesAs_seq _ _ _ _ _ (matchesAs_bol true)
    (matchesAs_seq _ _ _ _ _ (matchesAs_str true (JS.lit "## "))
    (matchesAs_seq _ _ _ _ _ (matchesAs_str true section)
    (matchesAs_seq _ _ _ _ _ (matchesAs_eol true)
       (matchesAs_eps true))))) as H.
  refine (matchesAs_ext _ _ _ _ _ H). clear H.
  intros b w rest. split.
  - intros (u0 & v0 & -> & [-> Hb] & u1 & v1 & -> & -> & u2 & v2 & -> & ->
            & u3 & v3 & -> & [-> He] & ->).
    cbn [app] in He. split; [exact Hb|]. split; [exact He|].
    cbn [app]. rewrite !app_nil_r. reflexivity.
  - intros (Hb & He & ->).
    exists [], (JS.lit "## " ++ section). split; [reflexivity|].
    split; [split; [reflexivity|exact Hb]|].
    exists (JS.lit "## "), section. split; [reflexivity|].
    split; [reflexivity|].
    exists section, []. split; [rewrite app_nil_r; reflexivity|].
    split; [reflexivity|].
    exists [], []. split; [reflexivity|]. split; [|reflexivity].
    split; [reflexivity|exact He].
Qed.

Lemma header_anchored section :
  forallb dotp section = true -> lineAnchored (sectionHeaderLine section).
Proof.
  intros Hs b a e He.
  apply (sectionHeaderLine_matches section b a []) in He
    as (w & rest & -> & (Hb & Heol & ->) & Hbe & Hae).
  split; [exact Hb|]. split.
  { unfold Re.at_eol in *. rewrite Hae. exact Heol. }
  split.
  - rewrite Hbe.
    change (JS.lit "## " ++ section) with (JS.lit "##" ++ 32%N :: section).
    apply rev_head_dotp; [reflexivity|exact Hs].
  - exists (JS.lit "## " ++ section). rewrite Hae.
    split; [discriminate|reflexivity].
Qed.

(** Two lines that start the same text are the same line. *)
Lemma line_unique : forall l h rest rest',
  l ++ rest = h ++ rest' ->
  forallb dotp l = true -> forallb dotp h = true ->
  Re.at_eol true (Re.MState [] rest []) = true ->
  Re.at_eol true (Re.MState [] rest' []) = true ->
  l = h /\ rest = rest'.
Proof.
  unfold Re.at_eol. cbn [Re.m_after andb].
  induction l as [|x l IH]; intros h rest rest' E Hl Hh Hr Hr'.
  - destruct h as [|y h]; [split; [reflexivity|exact E]|].
    cbn [app] in E. subst rest. cbn [forallb] in Hh.
    apply andb_prop in Hh as [Hy _]. unfold dotp in Hy.
    rewrite Hr in Hy. discriminate.
  - destruct h as [|y h].
    + cbn [app] in E. subst rest'. cbn [forallb] in Hl.
      apply andb_prop in Hl as [Hx _]. unfold dotp in Hx.
      rewrite Hr' in Hx. discriminate.
    + cbn [app] in E. injection E as <- E. cbn [forallb] in Hl, Hh.
      apply andb_prop in Hl as [_ Hl]. apply andb_prop in Hh as [_ Hh].
      destruct (IH h rest rest' E Hl Hh Hr Hr') as [-> ->].
      split; reflexivity.
Qed.

Lemma eol_cases rest :
  rest = [] \/ (exists r, rest = LF :: r) ->
  Re.at_eol true (Re.MState [] rest []) = true.
Proof. intros [->|[r ->]]; reflexivity. Qed.

Lemma header_miss section b l rest :
  forallb dotp section = true -> forallb dotp l = true ->
  rest = [] \/ (exists r, rest = LF :: r) ->
  l <> JS.lit "## " ++ section ->
  Re.ends true (sectionHeaderLine section) (Re.MState b (l ++ rest) []) = [].
Proof.
  intros Hs Hl Hrest Hne.
  destruct (Re.ends true (sectionHeaderLine section)
              (Re.MState b (l ++ rest) [])) as [|e tl] eqn:E; [reflexivity|].
  destruct (proj1 (sectionHeaderLine_matches section b (l ++ rest) []) e)
    as (w & rest' & Ea & (_ & Heol & ->) & _); [rewrite E; left; reflexivity|].
  exfalso. apply Hne.
  apply (line_unique l (JS.lit "## " ++ section) rest rest' Ea Hl);
    [|apply eol_cases; exact Hrest|exact Heol].
  cbn [forallb app JS.lit]. exact Hs.
Qed.

Lemma header_hit section b rest :
  Re.at_bol true (Re.MState b [] []) = true ->
  rest = [] \/ (exists r, rest = LF :: r) ->
  exists e tl,
    Re.ends true (sectionHeaderLine section)
      (Re.MState b ((JS.lit "## " ++ section) ++ rest) []) = e :: tl /\
    Re.m_after e = rest.
Proof.
  intros Hb Hrest.
  destruct (proj2 (sectionHeaderLine_matches section b
                     ((JS.lit "## " ++ section) ++ rest) [])
              (JS.lit "## " ++ section) rest eq_refl)
    as (e0 & He0 & _); [repeat split; [exact Hb|apply eol_cases; exact Hrest]|].
  destruct (Re.ends true (sectionHeaderLine section)
              (Re.MState b ((JS.lit "## " ++ section) ++ rest) []))
    as [|e tl] eqn:E; [destruct He0|].
  exists e, tl. split; [reflexivity|].
  destruct (proj1 (sectionHeaderLine_matches section b
                     ((JS.lit "## " ++ section) ++ rest) []) e)
    as (w & rest' & Ea & (_ & _ & ->) & _ & Hae);
    [rewrite E; left; reflexivity|].
  apply app_inv_head in Ea. congruence.
Qed.

Lemma search_skip_line P :
  lineAnchored P ->
  forall l0 b rest,
    forallb dotp l0 = true ->
    Re.ends true P (Re.MState b (l0 ++ rest) []) = [] ->
    Re.search true P b (l0 ++ rest) =
    match Re.search true P (rev l0 ++ b) rest with
    | Some m => Some (Re.Result (l0 ++ Re.r_skipped m) (Re.r_matched m)
                                (Re.r_end m))
    | None => None
    end /\
    Re.ends true P (Re.MState (rev l0 ++ b) rest []) = [].
Proof.
  intros HA. induction l0 as [|x l0 IH]; intros b rest Hl E.
  - split; [|exact E]. cbn [app rev].
    destruct (Re.search true P b rest) as [[sk ma e]|]; reflexivity.
  - cbn [forallb] in Hl. apply andb_prop in Hl as [Hx Hl].
    cbn [app] in *. rewrite (ReFacts.search_miss _ _ _ _ _ E).
    destruct (IH (x :: b) rest Hl (ends_off_line P HA x b _ Hx)) as [IH1 IH2].
    cbn [rev]. rewrite <- app_assoc. cbn [app]. rewrite IH1.
    split; [|exact IH2].
    destruct (Re.search true P (rev l0 ++ x :: b) rest) as [m|]; reflexivity.
Qed.

Lemma linesAfter_cases after :
  linesAfter after = [] \/ exists r, linesAfter after = LF :: r.
Proof.
  destruct after as [|a after]; [left; reflexivity|].
  right. exists (a ++ linesAfter after). reflexivity.
Qed.

Lemma search_header section after :
  forallb dotp section = true ->
  forall before b,
    Re.at_bol true (Re.MState b [] []) = true ->
    Forall (fun l => forallb dotp l = true) before ->
    ~ In (JS.lit "## " ++ section) before ->
    exists e,
      Re.search true (sectionHeaderLine section) b
        (linesBefore before ++ (JS.lit "## " ++ section) ++ linesAfter after) =
      Some (Re.Result (linesBefore before) (JS.lit "## " ++ section) e) /\
      Re.m_after e = linesAfter after.
Proof.
  intros Hs. induction before as [|l before IH]; intros b Hb Hd Hno.
  - cbn [linesBefore flat_map app].
    destruct (header_hit section b (linesAfter after) Hb
                (linesAfter_cases after)) as (e & tl & E & Hae).
    exists e. split; [|exact Hae].
    rewrite (ReFacts.search_hit _ _ _ _ _ _ E). f_equal. f_equal.
    rewrite <- Hae. apply consumed_app.
  - inversion Hd as [|? ? Hl Hd']; subst.
    set (R := linesBefore before ++ (JS.lit "## " ++ section) ++ linesAfter after).
    replace (linesBefore (l :: before) ++ (JS.lit "## " ++ section)
               ++ linesAfter after)
      with (l ++ LF :: R)
      by (unfold R; cbn [linesBefore flat_map]; rewrite <- !app_assoc;
          reflexivity).
    assert (E : Re.ends true (sectionHeaderLine section)
                  (Re.MState b (l ++ LF :: R) []) = []).
    { apply header_miss; [exact Hs|exact Hl|right; exists R; reflexivity|].
      intros ->. apply Hno. left. reflexivity. }
    destruct (search_skip_line _ (header_anchored section Hs) l b (LF :: R) Hl E)
      as [S1 S2].
    rewrite S1, (ReFacts.search_miss _ _ _ _ _ S2).
    destruct (IH (LF :: rev l ++ b) eq_refl Hd'
                (fun H => Hno (or_intror H))) as (e & IH1 & IH2).
    fold R in IH1. rewrite IH1. exists e. split; [|exact IH2].
    cbn [Re.r_skipped Re.r_matched Re.r_end linesBefore flat_map].
    rewrite <- !app_assoc. reflexivity.
Qed.

Lemma search_no_header section :
  forallb dotp section = true ->
  forall lines b,
    Re.at_bol true (Re.MState b [] []) = true ->
    lines <> [] ->
    Forall (fun l => forallb dotp l = true) lines ->
    ~ In (JS.lit "## " ++ section) lines ->
    Re.search true (sectionHeaderLine section) b (JS.join [LF] lines) = None.
Proof.
  intros Hs. induction lines as [|l lines IH]; intros b Hb Hne Hd Hno;
    [congruence|].
  inversion Hd as [|? ? Hl Hd']; subst. rewrite join_cons.
  assert (Hl' : l <> JS.lit "## " ++ section)
    by (intros ->; apply Hno; left; reflexivity).
  destruct lines as [|l2 lines].
  - cbn [linesAfter flat_map].
    assert (E : Re.ends true (sectionHeaderLine section)
                  (Re.MState b (l ++ []) []) = [])
      by (apply header_miss; [exact Hs|exact Hl|left; reflexivity|exact Hl']).
    destruct (search_skip_line _ (header_anchored section Hs) l b [] Hl E)
      as [S1 S2].
    rewrite S1. cbn [Re.search]. rewrite S2. reflexivity.
  - set (R := JS.join [LF] (l2 :: lines)).
    replace (l ++ linesAfter (l2 :: lines)) with (l ++ LF :: R)
      by (unfold R; rewrite join_cons; reflexivity).
    assert (E : Re.ends true (sectionHeaderLine section)
                  (Re.MState b (l ++ LF :: R) []) = [])
      by (apply header_miss;
          [exact Hs|exact Hl|right; exists R; reflexivity|exact Hl']).
    destruct (search_skip_line _ (header_anchored section Hs) l b (LF :: R) Hl E)
      as [S1 S2].
    rewrite S1, (ReFacts.search_miss _ _ _ _ _ S2).
    unfold R. rewrite (IH (LF :: rev l ++ b) eq_refl ltac:(discriminate) Hd'
                         (fun H => Hno (or_intror H))).
    reflexivity.
Qed.

Lemma slice_to s n :
  n <= length s -> JS.slice s 0 (Z.of_nat n) = firstn n s.
Proof.
  intros H. unfold JS.slice, JS.sliceIndex, JS.clamp.
  change (0 <? 0)%Z with false. cbn iota.
  assert (Hn : (Z.of_nat n <? 0)%Z = false) by (apply Z.ltb_ge; lia).
  rewrite Hn, Nat2Z.id. change (Z.to_nat 0) with 0.
  rewrite Nat.min_0_r, Nat.sub_0_r, (Nat.min_r _ _ H). reflexivity.
Qed.

Lemma sliceFrom_at s n :
  n <= length s -> JS.sliceFrom s (Z.of_nat n) = skipn n s.
Proof.
  intros H. unfold JS.sliceFrom, JS.sliceIndex, JS.clamp.
  assert (Hn : (Z.of_nat n <? 0)%Z = false) by (apply Z.ltb_ge; lia).
  rewrite Hn, Nat2Z.id, (Nat.min_r _ _ H). reflexivity.
Qed.

Lemma slice_split pre post :
  JS.slice (pre ++ post) 0 (Z.of_nat (length pre)) = pre /\
  JS.sliceFrom (pre ++ post) (Z.of_nat (length pre)) = post.
Proof.
  assert (H : length pre <= length (pre ++ post))
    by (rewrite length_app; lia).
  rewrite (slice_to _ _ H), (sliceFrom_at _ _ H).
  rewrite firstn_app, Nat.sub_diag, firstn_all, skipn_app, Nat.sub_diag,
    skipn_all. cbn [firstn skipn app]. rewrite app_nil_r. split; reflexivity.
Qed.

Lemma split_lines_dotp content :
  existsb otherTerminator content = false ->
  Forall (fun l => forallb dotp l = true) (JS.split LF content).
Proof.
  intros H. apply Forall_forall. intros l Hl.
  exact (lines_dotp content l H Hl).
Qed.

Lemma added_under_header (name section : jsstring) (emoji : option jsstring)
  (content : jsstring) (before after : list jsstring) :
  existsb otherTerminator content = false ->
  JS.split LF content = before ++ (JS.lit "## " ++ section) :: after ->
  ~ In (JS.lit "## " ++ section) before ->
  addToPriorities name section emoji (Some content) =
  Some (JS.join [LF]
          (before ++ (JS.lit "## " ++ section) ::
                     newEntryLine name emoji :: after)).
Proof.
  intros Ht Hsplit Hno.
  pose proof (split_lines_dotp content Ht) as Hd. rewrite Hsplit in Hd.
  apply Forall_app in Hd as [Hb Hd]. apply Forall_cons_iff in Hd as [Hh Ha].
  assert (Hs : forallb dotp section = true)
    by exact Hh.
  assert (Hc : content =
               linesBefore before ++ (JS.lit "## " ++ section) ++ linesAfter after)
    by (rewrite <- (join_split content), Hsplit; apply join_middle).
  destruct (search_header section after Hs before [] eq_refl Hb Hno)
    as (e & Hsearch & Hae).
  rewrite <- Hc in Hsearch. unfold addToPriorities, Re.exec.
  rewrite Hsearch. unfold Re.r_index. cbn [Re.r_skipped Re.r_matched].
  rewrite <- length_app.
  assert (Hc' : content = (linesBefore before ++ JS.lit "## " ++ section)
                            ++ linesAfter after)
    by (rewrite Hc, <- !app_assoc; reflexivity).
  rewrite Hc' at 1 2. destruct (slice_split
    (linesBefore before ++ JS.lit "## " ++ section) (linesAfter after))
    as [-> ->].
  f_equal. rewrite join_middle. unfold newEntryLine.
  cbn [linesAfter flat_map]. fold (linesAfter after).
  change (JS.lit "\n- ") with (LF :: JS.lit "- ").
  rewrite <- !app_assoc. cbn [app]. rewrite <- !app_assoc. reflexivity.
Qed.

(** X23: Under the first line that is the header of the section,
    [addToPriorities] puts a new line with the link of the project; the
    other lines stay as they are.  The section name has no syntax character
    of a pattern, and the text no line terminator but the line feed. *)
Theorem addToPriorities_under_header :
  forall (name section : jsstring) (emoji : option jsstring)
         (content : jsstring) (before after : list jsstring),
    existsb regexMeta section = false ->
    existsb otherTerminator content = false ->
    JS.split LF content = before ++ (JS.lit "## " ++ section) :: after ->
    ~ In (JS.lit "## " ++ section) before ->
    addToPriorities name section emoji (Some content) =
    Some (JS.join [LF]
            (before ++ (JS.lit "## " ++ section) ::
                       newEntryLine name emoji :: after)).
Proof.
  intros name section emoji content before after _.
  apply added_under_header.
Qed.

Lemma addToPriorities_under_header_witness :
  let content := JS.lit "# P\n## Active\n- [[A]]\n## Active\n---\nnotes" in
  let before := [JS.lit "# P"] in
  let after := [JS.lit "- [[A]]"; JS.lit "## Active"; JS.lit "---"; JS.lit "notes"] in
  existsb regexMeta (JS.lit "Active") = false /\
  existsb otherTerminator content = false /\
  JS.split LF content = before ++ (JS.lit "## " ++ JS.lit "Active") :: after /\
  ~ In (JS.lit "## " ++ JS.lit "Active") before /\
  addToPriorities (JS.lit "B") (JS.lit "Active") (Some (JS.lit "*"))
    (Some content) =
  Some (JS.join [LF]
          (before ++ (JS.lit "## " ++ JS.lit "Active") ::
                     newEntryLine (JS.lit "B") (Some (JS.lit "*")) :: after)).
Proof.
  cbv zeta.
  assert (H1 : existsb otherTerminator
                 (JS.lit "# P\n## Active\n- [[A]]\n## Active\n---\nnotes") = false)
    by (vm_compute; reflexivity).
  assert (H2 : JS.split LF (JS.lit "# P\n## Active\n- [[A]]\n## Active\n---\nnotes") =
               [JS.lit "# P"] ++ (JS.lit "## " ++ JS.lit "Active") ::
               [JS.lit "- [[A]]"; JS.lit "## Active"; JS.lit "---"; JS.lit "notes"])
    by (vm_compute; reflexivity).
  assert (H3 : ~ In (JS.lit "## " ++ JS.lit "Active") [JS.lit "# P"])
    by (intros [H|[]]; vm_compute in H; discriminate).
  assert (H0 : existsb regexMeta (JS.lit "Active") = false)
    by (vm_compute; reflexivity).
  split; [exact H0|]. split; [exact H1|]. split; [exact H2|].
  split; [exact H3|].
  exact (addToPriorities_under_header (JS.lit "B") (JS.lit "Active")
           (Some (JS.lit "*")) _ _ _ H0 H1 H2 H3).
Defined.

Lemma findLast_none p : forall s,
  ~ holdsOneOf (eq p) s -> JS.findLast s p = None.
Proof.
  induction s as [|x s IH]; intros H; cbn [JS.findLast].
  - destruct (JS.startsWith [] p) eqn:E; [|reflexivity].
    exfalso. apply H. apply startsWith_prefix in E as [rest E].
    exists [], p, rest. split; [reflexivity|exact E].
  - rewrite IH.
    + destruct (JS.startsWith (x :: s) p) eqn:E; [|reflexivity].
      exfalso. apply H. apply startsWith_prefix in E as [rest E].
      exists [], p, rest. split; [reflexivity|exact E].
    + intros (u & k & v & <- & ->). apply H.
      exists (x :: u), p, v. split; reflexivity.
Qed.

Lemma findLast_at p post : forall pre,
  ~ holdsOneOf (eq p) (tl (p ++ post)) ->
  p <> [] ->
  JS.findLast (pre ++ p ++ post) p = Some (length pre).
Proof.
  intros pre H Hp. induction pre as [|x pre IH].
  - cbn [app length]. destruct (p ++ post) as [|y t] eqn:E.
    + apply app_eq_nil in E as [E _]. congruence.
    + cbn [JS.findLast]. cbn [tl] in H. rewrite (findLast_none p t H).
      assert (Hs : JS.startsWith (y :: t) p = true)
        by (rewrite <- E; apply startsWith_prefix; exists post; reflexivity).
      rewrite Hs. reflexivity.
  - cbn [app length JS.findLast]. rewrite IH. reflexivity.
Qed.

Lemma findLast_sound p : forall s i,
  JS.findLast s p = Some i ->
  exists pre post, s = pre ++ p ++ post /\ length pre = i.
Proof.
  induction s as [|x s IH]; intros i; cbn [JS.findLast].
  - destruct (JS.startsWith [] p) eqn:E; [|discriminate].
    intros [= <-]. apply startsWith_prefix in E as [rest E].
    exists [], rest. split; [exact E|reflexivity].
  - destruct (JS.findLast s p) as [j|] eqn:F.
    + intros [= <-]. destruct (IH j eq_refl) as (pre & post & -> & <-).
      exists (x :: pre), post. split; reflexivity.
    + destruct (JS.startsWith (x :: s) p) eqn:E; [|discriminate].
      intros [= <-]. apply startsWith_prefix in E as [rest E].
      exists [], rest. split; [exact E|reflexivity].
Qed.

Lemma find_holds p : forall u v, JS.find (u ++ p ++ v) p <> None.
Proof.
  induction u as [|x u IH]; intros v.
  - cbn [app]. rewrite find_here; [discriminate|].
    apply startsWith_prefix. exists v. reflexivity.
  - cbn [app JS.find]. destruct (JS.startsWith (x :: u ++ p ++ v) p);
      [discriminate|].
    specialize (IH v). destruct (JS.find (u ++ p ++ v) p);
      [discriminate|congruence].
Qed.

Lemma findLast_ge p post : forall pre,
  exists i, JS.findLast (pre ++ p ++ post) p = Some i /\ length pre <= i.
Proof.
  induction pre as [|x pre IH].
  - cbn [app length].
    assert (Hs : JS.startsWith (p ++ post) p = true)
      by (apply startsWith_prefix; exists post; reflexivity).
    destruct (p ++ post) as [|y t]; cbn [JS.findLast].
    + rewrite Hs. exists 0. split; [reflexivity|lia].
    + destruct (JS.findLast t p) as [i|].
      * exists (S i). split; [reflexivity|lia].
      * rewrite Hs. exists 0. split; [reflexivity|lia].
  - destruct IH as (i & IH & Hi). cbn [app length JS.findLast]. rewrite IH.
    exists (S i). split; [reflexivity|lia].
Qed.

Lemma exec_no_header section content :
  existsb otherTerminator content = false ->
  forallb dotp section = true ->
  ~ In (JS.lit "## " ++ section) (JS.split LF content) ->
  Re.exec true (sectionHeaderLine section) content = None.
Proof.
  intros Ht Hs Hno. unfold Re.exec. rewrite <- (join_split content) at 1.
  apply search_no_header;
    [exact Hs|reflexivity|apply split_nonempty|
     apply split_lines_dotp; exact Ht|exact Hno].
Qed.

(** X24: Where no line is the header of the section, [addToPriorities] puts the
    header and the new entry line, with an empty line behind them, in front
    of the last [---] of the text, when that is not at its very beginning.
    The section name has no syntax character of a pattern; it and the text
    have no line terminator but the line feeds of the text. *)
Theorem addToPriorities_new_section :
  forall (name section : jsstring) (emoji : option jsstring)
         (content pre post : jsstring),
    existsb regexMeta section = false ->
    existsb otherTerminator content = false ->
    forallb dotp section = true ->
    ~ In (JS.lit "## " ++ section) (JS.split LF content) ->
    content = pre ++ JS.lit "---" ++ post ->
    pre <> [] ->
    ~ holdsOneOf (eq (JS.lit "---")) (JS.lit "--" ++ post) ->
    addToPriorities name section emoji (Some content) =
    Some (pre ++ (JS.lit "## " ++ section) ++ [LF] ++
          newEntryLine name emoji ++ [LF; LF] ++ JS.lit "---" ++ post).
Proof.
  intros name section emoji content pre post _ Ht Hs Hno Hc Hpre Hlast.
  unfold addToPriorities. rewrite (exec_no_header section content Ht Hs Hno).
  unfold JS.lastIndexOf. cbv zeta. rewrite Hc.
  rewrite (findLast_at (JS.lit "---") post pre Hlast ltac:(discriminate)).
  assert (Hpos : (0 <? Z.of_nat (length pre))%Z = true)
    by (apply Z.ltb_lt; destruct pre; [congruence|cbn [length]; lia]).
  rewrite Hpos.
  destruct (slice_split pre (JS.lit "---" ++ post)) as [E1 E2].
  rewrite E1, E2.
  f_equal. f_equal. unfold newEntryLine.
  change (JS.lit "\n- ") with (LF :: JS.lit "- ").
  change (JS.lit "]]\n\n") with (JS.lit "]]" ++ [LF; LF]).
  repeat first [rewrite <- app_assoc | progress cbn [app]]. reflexivity.
Qed.

Lemma addToPriorities_new_section_witness :
  let content := JS.lit "# P\n## Active\n- [[A]]\n---\nnotes" in
  let pre := JS.lit "# P\n## Active\n- [[A]]\n" in
  let post := JS.lit "\nnotes" in
  existsb regexMeta (JS.lit "On Hold") = false /\
  existsb otherTerminator content = false /\
  forallb dotp (JS.lit "On Hold") = true /\
  ~ In (JS.lit "## " ++ JS.lit "On Hold") (JS.split LF content) /\
  content = pre ++ JS.lit "---" ++ post /\
  pre <> [] /\
  ~ holdsOneOf (eq (JS.lit "---")) (JS.lit "--" ++ post) /\
  addToPriorities (JS.lit "B") (JS.lit "On Hold") None (Some content) =
  Some (pre ++ (JS.lit "## " ++ JS.lit "On Hold") ++ [LF] ++
        newEntryLine (JS.lit "B") None ++ [LF; LF] ++ JS.lit "---" ++ post).
Proof.
  cbv zeta.
  assert (H1 : existsb otherTerminator
                 (JS.lit "# P\n## Active\n- [[A]]\n---\nnotes") = false)
    by (vm_compute; reflexivity).
  assert (H2 : forallb dotp (JS.lit "On Hold") = true)
    by (vm_compute; reflexivity).
  assert (H3 : ~ In (JS.lit "## " ++ JS.lit "On Hold")
                 (JS.split LF (JS.lit "# P\n## Active\n- [[A]]\n---\nnotes"))).
  { vm_compute. intros [H|[H|[H|[H|[H|[]]]]]]; discriminate. }
  assert (H4 : JS.lit "# P\n## Active\n- [[A]]\n---\nnotes" =
               JS.lit "# P\n## Active\n- [[A]]\n" ++ JS.lit "---" ++ JS.lit "\nnotes")
    by (vm_compute; reflexivity).
  assert (H5 : JS.lit "# P\n## Active\n- [[A]]\n" <> []) by discriminate.
  assert (H6 : ~ holdsOneOf (eq (JS.lit "---")) (JS.lit "--" ++ JS.lit "\nnotes")).
  { intros (u & k & v & <- & E).
    apply (find_holds (JS.lit "---") u v). rewrite <- E.
    vm_compute. reflexivity. }
  assert (H0 : existsb regexMeta (JS.lit "On Hold") = false)
    by (vm_compute; reflexivity).
  split; [exact H0|]. split; [exact H1|]. split; [exact H2|].
  split; [exact H3|]. split; [exact H4|]. split; [exact H5|].
  split; [exact H6|].
  exact (addToPriorities_new_section (JS.lit "B") (JS.lit "On Hold") None
           _ _ _ H0 H1 H2 H3 H4 H5 H6).
Defined.

(** X25: Where no line is the header of the section and the text holds no [---]
    behind its first code unit, [addToPriorities] leaves the text as it is:
    the project is not added.  The section name has no syntax character of
    a pattern and no line terminator, and the text no line terminator but
    the line feed. *)
Theorem addToPriorities_without_separator :
  forall (name section : jsstring) (emoji : option jsstring)
         (content : jsstring),
    existsb regexMeta section = false ->
    existsb otherTerminator content = false ->
    forallb dotp section = true ->
    ~ In (JS.lit "## " ++ section) (JS.split LF content) ->
    (forall pre post, content = pre ++ JS.lit "---" ++ post -> pre = []) ->
    addToPriorities name section emoji (Some content) = Some content.
Proof.
  intros name section emoji content _ Ht Hs Hno Hsep.
  unfold addToPriorities. rewrite (exec_no_header section content Ht Hs Hno).
  unfold JS.lastIndexOf.
  destruct (JS.findLast content (JS.lit "---")) as [i|] eqn:F; [|reflexivity].
  destruct (findLast_sound _ _ _ F) as (pre & post & E & <-).
  rewrite (Hsep pre post E). reflexivity.
Qed.

Lemma addToPriorities_without_separator_witness :
  let content := JS.lit "---\n# P\n## Active\n- [[A]]" in
  existsb regexMeta (JS.lit "On Hold") = false /\
  existsb otherTerminator content = false /\
  forallb dotp (JS.lit "On Hold") = true /\
  ~ In (JS.lit "## " ++ JS.lit "On Hold") (JS.split LF content) /\
  (forall pre post, content = pre ++ JS.lit "---" ++ post -> pre = []) /\
  addToPriorities (JS.lit "B") (JS.lit "On Hold") None (Some content) =
  Some content.
Proof.
  cbv zeta.
  assert (H1 : existsb otherTerminator
                 (JS.lit "---\n# P\n## Active\n- [[A]]") = false)
    by (vm_compute; reflexivity).
  assert (H2 : forallb dotp (JS.lit "On Hold") = true)
    by (vm_compute; reflexivity).
  assert (H3 : ~ In (JS.lit "## " ++ JS.lit "On Hold")
                 (JS.split LF (JS.lit "---\n# P\n## Active\n- [[A]]"))).
  { vm_compute. intros [H|[H|[H|[H|[]]]]]; discriminate. }
  assert (H4 : forall pre post,
             JS.lit "---\n# P\n## Active\n- [[A]]" =
             pre ++ JS.lit "---" ++ post -> pre = []).
  { intros pre post E.
    destruct (findLast_ge (JS.lit "---") post pre) as (i & F & Hi).
    rewrite <- E in F. vm_compute in F. injection F as <-.
    destruct pre; [reflexivity|cbn [length] in Hi; lia]. }
  assert (H0 : existsb regexMeta (JS.lit "On Hold") = false)
    by (vm_compute; reflexivity).
  split; [exact H0|]. split; [exact H1|]. split; [exact H2|].
  split; [exact H3|]. split; [exact H4|].
  exact (addToPriorities_without_separator (JS.lit "B") (JS.lit "On Hold")
           None _ H0 H1 H2 H3 H4).
Defined.

(** *** The project added under a header, parsed *)

Lemma headsWith_push section name s it :
  headsWith section name s -> headsWith section name (pushItem s it).
Proof.
  intros (Hn & e & rest & Hi & He). split; [exact Hn|].
  exists e, (rest ++ [it]). cbn [pushItem orderedItems]. rewrite Hi.
  split; [reflexivity|exact He].
Qed.

Lemma holdsHeaded_step section name md st l :
  holdsHeaded section name st -> holdsHeaded section name (parseLine md st l).
Proof.
  intros H. unfold parseLine.
  destruct (Re.exec false sectionRegex l) as [m|].
  { right. destruct H as [(s & Hs & Hh)|H].
    - rewrite Hs. destruct (currentSubsection st) as [sub|];
        cbn [ps_sections optionList]; apply Exists_app; right;
        constructor; [apply headsWith_push|]; exact Hh.
    - destruct (currentSection st) as [s|], (currentSubsection st) as [sub|];
        cbn [ps_sections]; apply Exists_app; left; exact H. }
  destruct (Re.exec false subsectionRegex l) as [m|].
  { destruct (currentSection st) as [s|] eqn:Hs; [|exact H].
    destruct H as [(s' & Hs' & Hh)|H]; [|right; exact H].
    assert (s' = s) by congruence. subst s'. left. cbn [currentSection].
    destruct (currentSubsection st) as [sub|];
      eexists; (split; [reflexivity|]);
      [apply headsWith_push|]; exact Hh. }
  destruct (Re.exec false linkRegex l) as [m|]; [|exact H].
  destruct (currentSection st) as [s|] eqn:Hs; [|exact H].
  destruct H as [(s' & Hs' & Hh)|H]; [|right; exact H].
  assert (s' = s) by congruence. subst s'. left. cbn [currentSection].
  destruct (currentSubsection st) as [sub|];
    eexists; (split; [reflexivity|]);
    [|apply headsWith_push]; exact Hh.
Qed.

Lemma holdsHeaded_fold section name md (L : list jsstring) : forall st,
  holdsHeaded section name st ->
  holdsHeaded section name (fold_left (parseLine md) L st).
Proof.
  induction L as [|l L IH]; intros st H; [exact H|].
  cbn [fold_left]. apply IH, holdsHeaded_step, H.
Qed.

Lemma holdsHeaded_finish section name md st :
  holdsHeaded section name st ->
  Exists (headsWith section name) (sections (finishParse md st)).
Proof.
  intros H. unfold finishParse. cbn [sections]. apply Exists_app.
  destruct H as [(s & Hs & Hh)|H]; [|left; exact H].
  right. rewrite Hs.
  destruct (currentSubsection st) as [sub|]; cbn [optionList];
    constructor; [apply headsWith_push|]; exact Hh.
Qed.

Lemma beforeSeparator_app pre rest :
  Forall (fun l => isSeparatorLine l = false) pre ->
  beforeSeparator (pre ++ rest) = pre ++ beforeSeparator rest.
Proof.
  induction 1 as [|l pre Hl _ IH]; [reflexivity|].
  cbn [app beforeSeparator]. rewrite Hl, IH. reflexivity.
Qed.

Lemma shape_not_separator l :
  writtenLineShape l -> isSeparatorLine l = false.
Proof.
  intros H. apply isSeparatorLine_false.
  exact (writtenLineShape_not_separator l H).
Qed.

Lemma newEntryLine_text name emoji :
  newEntryLine name emoji =
  (JS.lit "- " ++
   writtenEmoji match orNull emoji with Some e => e | None => [] end) ++
  linkText name None.
Proof.
  unfold newEntryLine, writtenEmoji, linkText, orNull.
  rewrite <- !app_assoc.
  destruct emoji as [e|]; [|reflexivity].
  destruct (JS.truthy e) eqn:E; [rewrite E|]; reflexivity.
Qed.

Lemma newEntryLine_link name emoji :
  linkParts name None ->
  (forall e, orNull emoji = Some e -> JS.find e (JS.lit "[[") = None) ->
  exists m,
    Re.exec false linkRegex (newEntryLine name emoji) = Some m /\
    groupText 1 m = name.
Proof.
  intros Hp He. rewrite newEntryLine_text.
  set (e0 := match orNull emoji with Some e => e | None => [] end).
  assert (He0 : JS.find e0 (JS.lit "[[") = None).
  { unfold e0. destruct (orNull emoji) as [e|]; [apply He; reflexivity|].
    reflexivity. }
  pose proof (search_link ((JS.lit "- " ++ writtenEmoji e0) ++ linkText name None) [])
    as S.
  assert (F : firstLink ((JS.lit "- " ++ writtenEmoji e0) ++ linkText name None)
              = Some (name, None)).
  { rewrite firstLink_skip by (apply (written_find e0 (name ++ JS.lit "]]")); exact He0).
    apply (firstLink_here _ name None []).
    rewrite <- (app_nil_r (linkText name None)).
    apply linkAt_linkText. exact Hp. }
  rewrite F in S. destruct S as (m & Hs & Hg & _).
  exists m. split; [exact Hs|]. unfold groupText. rewrite Hg. reflexivity.
Qed.

Lemma takeWhile_forallb p s :
  forallb p s = true -> takeWhile p s = s /\ dropWhile p s = [].
Proof.
  induction s as [|x r IH]; intros H; [split; reflexivity|].
  cbn [forallb] in H. apply andb_prop in H as [Hx Hr].
  cbn [takeWhile dropWhile]. rewrite Hx. destruct (IH Hr) as [-> ->].
  split; reflexivity.
Qed.

Lemma exec_section_header section :
  section <> [] -> forallb dotp section = true ->
  exists m,
    Re.exec false sectionRegex (JS.lit "## " ++ section) = Some m /\
    groupText 1 m = section.
Proof.
  intros Hne Hd. unfold sectionRegex. rewrite exec_header.
  assert (Hs : JS.startsWith (JS.lit "## " ++ section) (JS.lit "## ") = true)
    by (apply startsWith_prefix; exists section; reflexivity).
  rewrite Hs. rewrite skipn_app, skipn_all, Nat.sub_diag. cbn [skipn app].
  destruct (takeWhile_forallb dotp section Hd) as [-> ->]. destruct section as [|x r]; [congruence|].
  eexists. split; [reflexivity|]. reflexivity.
Qed.

Lemma added_entry_parsed md name section emoji st :
  subsectionInSection st ->
  section <> [] -> forallb dotp section = true ->
  linkParts name None ->
  (forall e, orNull emoji = Some e -> JS.find e (JS.lit "[[") = None) ->
  holdsHeaded section name
    (parseLine md (parseLine md st (JS.lit "## " ++ section))
       (newEntryLine name emoji)).
Proof.
  intros Hinv Hne Hd Hp He.
  destruct (exec_section_header section Hne Hd) as (m & Hm & Hg).
  destruct (newEntryLine_link name emoji Hp He) as (m' & Hm' & Hg').
  set (st1 := parseLine md st (JS.lit "## " ++ section)).
  assert (H1 : currentSection st1 =
               Some {| sectionName := section; orderedItems := [] |} /\
               currentSubsection st1 = None).
  { unfold st1, parseLine. rewrite Hm, Hg.
    pose proof Hinv as Hi. unfold subsectionInSection in Hi.
    destruct (currentSection st) as [s|], (currentSubsection st) as [sub|];
      cbn [currentSection currentSubsection]; split; try reflexivity.
    specialize (Hi eq_refl). discriminate. }
  destruct H1 as [Hc Hs].
  assert (Hns : Re.exec false sectionRegex (newEntryLine name emoji) = None)
    by (apply exec_header_none; reflexivity).
  assert (Hnss : Re.exec false subsectionRegex (newEntryLine name emoji) = None)
    by (apply exec_header_none; reflexivity).
  rewrite (parseLine_entry md st1 _ m' _ Hns Hnss Hm' Hc).
  left. unfold addEntry. cbn [currentSection]. rewrite Hs.
  eexists. split; [reflexivity|]. split; [reflexivity|].
  eexists. exists []. cbn [pushItem orderedItems app].
  split; [reflexivity|]. unfold entryOfLine. cbn [projectName]. exact Hg'.
Qed.

Lemma newEntryLine_noLF name emoji :
  ~ In LF name ->
  (forall e, orNull emoji = Some e -> ~ In LF e) ->
  ~ In LF (newEntryLine name emoji).
Proof.
  intros Hn He. unfold newEntryLine. intros H.
  apply in_app_or in H as [H|H]; [vm_compute in H; intuition discriminate|].
  apply in_app_or in H as [H|H].
  - destruct (orNull emoji) as [e|]; [|destruct H].
    apply in_app_or in H as [H|H]; [exact (He e eq_refl H)|].
    vm_compute in H. intuition discriminate.
  - apply in_app_or in H as [H|H]; [vm_compute in H; intuition discriminate|].
    apply in_app_or in H as [H|H]; [exact (Hn H)|].
    vm_compute in H. intuition discriminate.
Qed.

Lemma added_project_listed (md : Metadata) (name section : jsstring)
  (emoji : option jsstring) (content result : jsstring)
  (before after : list jsstring) :
  existsb otherTerminator content = false ->
  JS.split LF content = before ++ (JS.lit "## " ++ section) :: after ->
  ~ In (JS.lit "## " ++ section) before ->
  Forall (fun l => isSeparatorLine l = false) before ->
  section <> [] ->
  linkParts name None -> ~ In LF name ->
  (forall e, orNull emoji = Some e ->
             ~ In LF e /\ JS.find e (JS.lit "[[") = None) ->
  addToPriorities name section emoji (Some content) = Some result ->
  Exists (headsWith section name) (sections (parseContent md result)).
Proof.
  intros Ht Hsplit Hno Hsep Hne Hp Hn He Hr.
  rewrite (added_under_header name section emoji content before after
             Ht Hsplit Hno) in Hr.
  assert (Hres : result =
                 JS.join [LF] (before ++ (JS.lit "## " ++ section) ::
                                 newEntryLine name emoji :: after))
    by congruence.
  clear Hr. subst result.
  pose proof (split_lines_dotp content Ht) as Hd. rewrite Hsplit in Hd.
  apply Forall_app in Hd as [Hdb Hd]. apply Forall_cons_iff in Hd as [Hdh Hda].
  assert (Hds : forallb dotp section = true) by exact Hdh.
  pose proof (split_noLF content) as Hl. rewrite Hsplit in Hl.
  apply Forall_app in Hl as [Hlb Hl]. apply Forall_cons_iff in Hl as [Hlh Hla].
  unfold parseContent. rewrite split_join.
  2:{ destruct before; discriminate. }
  2:{ apply Forall_app. split; [exact Hlb|].
      constructor; [exact Hlh|]. constructor; [|exact Hla].
      apply newEntryLine_noLF; [exact Hn|].
      intros e E. exact (proj1 (He e E)). }
  rewrite parseLines_beforeSeparator, (beforeSeparator_app _ _ Hsep).
  set (two := @cons jsstring (JS.lit "## " ++ section)
                (@cons jsstring (newEntryLine name emoji) [])).
  change ((JS.lit "## " ++ section) :: newEntryLine name emoji :: after)
    with (@app jsstring two after).
  rewrite (beforeSeparator_app two after); unfold two.
  2:{ constructor; [|constructor; [|constructor]]; apply shape_not_separator.
      - right. left. eexists. reflexivity.
      - right. right. eexists. reflexivity. }
  rewrite fold_left_app. cbn [app fold_left].
  apply holdsHeaded_finish, holdsHeaded_fold.
  apply added_entry_parsed; try assumption.
  - apply (parse_fold md before).
  - intros e E. exact (proj2 (He e E)).
Qed.

(** X26: After [addToPriorities] has put the project under the header of its
    section, the parsed document has a section of that name whose first
    entry is the project.  The section name is not empty and has no syntax
    character of a pattern, the text has no line terminator but the line
    feed, the header is reached by the parser (no separator line before
    it), the name can stand in a link (not empty, without closing bracket,
    bar and line feed), and the emoji holds no line feed and no two opening
    brackets. *)
Theorem addToPriorities_lists_project :
  forall (md : Metadata) (name section : jsstring) (emoji : option jsstring)
         (content result : jsstring) (before after : list jsstring),
    existsb regexMeta section = false ->
    existsb otherTerminator content = false ->
    JS.split LF content = before ++ (JS.lit "## " ++ section) :: after ->
    ~ In (JS.lit "## " ++ section) before ->
    Forall (fun l => isSeparatorLine l = false) before ->
    section <> [] ->
    name <> [] -> forallb notBracketOrBar name = true -> ~ In LF name ->
    (forall e, orNull emoji = Some e ->
               ~ In LF e /\ JS.find e (JS.lit "[[") = None) ->
    addToPriorities name section emoji (Some content) = Some result ->
    Exists (headsWith section name) (sections (parseContent md result)).
Proof.
  intros md name section emoji content result before after _
         Ht Hsplit Hno Hsep Hne Hn1 Hn2.
  apply (added_project_listed md name section emoji content result
           before after Ht Hsplit Hno Hsep Hne).
  split; [exact Hn1|]. split; [exact Hn2|exact I].
Qed.

Lemma addToPriorities_lists_project_witness :
  let content := JS.lit "# P\n## Active\n- [[A]]\n## Active\n---\nnotes" in
  let result :=
    JS.lit "# P\n## Active\n- * [[B]]\n- [[A]]\n## Active\n---\nnotes" in
  let before := [JS.lit "# P"] in
  let after := [JS.lit "- [[A]]"; JS.lit "## Active"; JS.lit "---"; JS.lit "notes"] in
  existsb regexMeta (JS.lit "Active") = false /\
  existsb otherTerminator content = false /\
  JS.split LF content = before ++ (JS.lit "## " ++ JS.lit "Active") :: after /\
  ~ In (JS.lit "## " ++ JS.lit "Active") before /\
  Forall (fun l => isSeparatorLine l = false) before /\
  JS.lit "Active" <> [] /\
  JS.lit "B" <> [] /\ forallb notBracketOrBar (JS.lit "B") = true /\
  ~ In LF (JS.lit "B") /\
  (forall e, orNull (Some (JS.lit "*")) = Some e ->
             ~ In LF e /\ JS.find e (JS.lit "[[") = None) /\
  addToPriorities (JS.lit "B") (JS.lit "Active") (Some (JS.lit "*"))
    (Some content) = Some result /\
  Exists (headsWith (JS.lit "Active") (JS.lit "B"))
         (sections (parseContent noMetadata result)).
Proof.
  cbv zeta.
  assert (H0 : existsb regexMeta (JS.lit "Active") = false)
    by (vm_compute; reflexivity).
  assert (H1 : existsb otherTerminator
                 (JS.lit "# P\n## Active\n- [[A]]\n## Active\n---\nnotes") = false)
    by (vm_compute; reflexivity).
  assert (H2 : JS.split LF (JS.lit "# P\n## Active\n- [[A]]\n## Active\n---\nnotes") =
               [JS.lit "# P"] ++ (JS.lit "## " ++ JS.lit "Active") ::
               [JS.lit "- [[A]]"; JS.lit "## Active"; JS.lit "---"; JS.lit "notes"])
    by (vm_compute; reflexivity).
  assert (H3 : ~ In (JS.lit "## " ++ JS.lit "Active") [JS.lit "# P"])
    by (intros [H|[]]; vm_compute in H; discriminate).
  assert (H4 : Forall (fun l => isSeparatorLine l = false) [JS.lit "# P"])
    by (constructor; [vm_compute; reflexivity|constructor]).
  assert (H5 : JS.lit "Active" <> []) by discriminate.
  assert (H6 : JS.lit "B" <> []) by discriminate.
  assert (H7 : forallb notBracketOrBar (JS.lit "B") = true)
    by (vm_compute; reflexivity).
  assert (H8 : ~ In LF (JS.lit "B"))
    by (intros [H|[]]; vm_compute in H; discriminate).
  assert (H9 : forall e, orNull (Some (JS.lit "*")) = Some e ->
                         ~ In LF e /\ JS.find e (JS.lit "[[") = None).
  { intros e E. vm_compute in E. injection E as <-.
    split; [intros [H|[]]; discriminate|vm_compute; reflexivity]. }
  assert (H10 : addToPriorities (JS.lit "B") (JS.lit "Active") (Some (JS.lit "*"))
                  (Some (JS.lit "# P\n## Active\n- [[A]]\n## Active\n---\nnotes")) =
                Some (JS.lit "# P\n## Active\n- * [[B]]\n- [[A]]\n## Active\n---\nnotes"))
    by (vm_compute; reflexivity).
  repeat (split; [assumption|]).
  exact (addToPriorities_lists_project noMetadata _ _ _ _ _ _ _
           H0 H1 H2 H3 H4 H5 H6 H7 H8 H9 H10).
Defined.

(** *** [getProjectCurrentSection] *)

Lemma projectPattern_matches name :
  matchesAs false (projectPattern name) (fun _ w _ => projectLink name w).
Proof.
  pose proof
    (matchesAs_seq _ _ _ _ _ (matchesAs_str false (JS.lit "[["))
    (matchesAs_seq _ _ _ _ _ (matchesAs_str false name)
    (matchesAs_seq _ _ _ _ _
       (matchesAs_alt _ _ _ _ _
          (matchesAs_grp false 1 _ _
             (matchesAs_seq _ _ _ _ _ (matchesAs_cls false (N.eqb 124))
             (matchesAs_seq _ _ _ _ _
                (matchesAs_seq _ _ _ _ _ (matchesAs_cls false notBracket)
                                         (matchesAs_star_cls false notBracket))
                (matchesAs_eps false))))
          (matchesAs_eps false))
    (matchesAs_seq _ _ _ _ _ (matchesAs_str false (JS.lit "]]"))
       (matchesAs_eps false))))) as H.
  refine (matchesAs_ext _ _ _ _ _ H). clear H.
  intros b w rest. unfold projectLink, plainLink, aliasLink, linkText. split.
  - intros (u0 & v0 & -> & -> & u1 & v1 & -> & -> & u2 & v2 & -> & Hopt
            & u3 & v3 & -> & -> & ->).
    destruct Hopt as [(bar & a & -> & (x & -> & Hx) & a1 & e & ->
                       & (a0 & t & -> & (y & -> & Hy) & Ht) & ->)| ->].
    + right. apply N.eqb_eq in Hx. subst x. exists (y :: t).
      split; [|split; [discriminate|cbn [forallb]; rewrite Hy, Ht; reflexivity]].
      change (JS.lit "|") with [124%N]. rewrite !app_nil_r.
      repeat first [rewrite <- app_assoc | progress cbn [app]]. reflexivity.
    + left. cbn [app]. rewrite !app_nil_r. reflexivity.
  - intros [->|(al & -> & Hne & Hal)].
    + exists (JS.lit "[["), (name ++ JS.lit "]]"). split; [reflexivity|].
      split; [reflexivity|].
      exists name, (JS.lit "]]"). split; [reflexivity|]. split; [reflexivity|].
      exists [], (JS.lit "]]"). split; [reflexivity|].
      split; [right; reflexivity|].
      exists (JS.lit "]]"), []. split; [reflexivity|]. split; reflexivity.
    + destruct al as [|a0 a2]; [congruence|].
      cbn [forallb] in Hal. apply andb_prop in Hal as [Ha0 Ha2].
      exists (JS.lit "[["), (name ++ JS.lit "|" ++ (a0 :: a2) ++ JS.lit "]]").
      split; [reflexivity|]. split; [reflexivity|].
      exists name, (JS.lit "|" ++ (a0 :: a2) ++ JS.lit "]]").
      split; [reflexivity|]. split; [reflexivity|].
      exists (JS.lit "|" ++ (a0 :: a2)), (JS.lit "]]").
      split; [rewrite <- app_assoc; reflexivity|].
      split.
      * left. exists [124%N], (a0 :: a2). split; [reflexivity|].
        split; [exists 124%N; split; reflexivity|].
        exists (a0 :: a2), []. split; [rewrite app_nil_r; reflexivity|].
        split; [|reflexivity].
        exists [a0], a2. split; [reflexivity|].
        split; [exists a0; split; [reflexivity|exact Ha0]|exact Ha2].
      * exists (JS.lit "]]"), []. split; [reflexivity|]. split; reflexivity.
Qed.

Lemma exec_sound ml r L s m :
  matchesAs ml r L -> Re.exec ml r s = Some m ->
  exists x w y, s = x ++ w ++ y /\ L (rev x) w y.
Proof.
  intros H Hs. unfold Re.exec in Hs.
  destruct (search_some _ _ _ _ _ Hs) as (a' & -> & Hin & _).
  apply (H _ a' []) in Hin as (w & rest & -> & Hw & _).
  rewrite app_nil_r in Hw. exists (Re.r_skipped m), w, rest.
  split; [reflexivity|exact Hw].
Qed.

Lemma search_finds ml r : forall x b rest,
  Re.ends ml r (Re.MState (rev x ++ b) rest []) <> [] ->
  Re.search ml r b (x ++ rest) <> None.
Proof.
  induction x as [|c x IH]; intros b rest H.
  - cbn [rev app] in *.
    destruct (Re.ends ml r (Re.MState b rest [])) as [|e tl] eqn:E;
      [congruence|].
    rewrite (ReFacts.search_hit _ _ _ _ _ _ E). discriminate.
  - cbn [app].
    destruct (Re.ends ml r (Re.MState b (c :: x ++ rest) [])) as [|e tl] eqn:E.
    + rewrite (ReFacts.search_miss _ _ _ _ _ E).
      cbn [rev] in H. rewrite <- app_assoc in H. cbn [app] in H.
      specialize (IH (c :: b) rest H).
      destruct (Re.search ml r (c :: b) (x ++ rest)); [discriminate|congruence].
    + rewrite (ReFacts.search_hit _ _ _ _ _ _ E). discriminate.
Qed.

Lemma exec_complete ml r (L : list N -> jsstring -> list N -> Prop) x w y :
  matchesAs ml r L -> L (rev x) w y ->
  Re.exec ml r (x ++ w ++ y) <> None.
Proof.
  intros H Hw. unfold Re.exec. apply search_finds. rewrite app_nil_r.
  destruct (proj2 (H (rev x) (w ++ y) []) w y eq_refl Hw) as (e & He & _).
  intros E. rewrite E in He. destruct He.
Qed.

Lemma projectPattern_miss name l :
  ~ holdsOneOf (projectLink name) l ->
  Re.exec false (projectPattern name) l = None.
Proof.
  intros H. destruct (Re.exec false (projectPattern name) l) as [m|] eqn:E;
    [|reflexivity].
  exfalso. apply H.
  destruct (exec_sound _ _ _ _ _ (projectPattern_matches name) E)
    as (x & w & y & -> & Hw).
  exists x, w, y. split; [exact Hw|reflexivity].
Qed.

Lemma projectPattern_hit name l :
  holdsOneOf (projectLink name) l ->
  Re.exec false (projectPattern name) l <> None.
Proof.
  intros (x & k & y & Hk & ->).
  apply (exec_complete _ _ _ x k y (projectPattern_matches name)). exact Hk.
Qed.

Lemma sectionOfLines_none name : forall lines cur,
  Forall (fun l => ~ holdsOneOf (projectLink name) l) lines ->
  sectionOfLines name lines cur = None.
Proof.
  induction lines as [|l lines IH]; intros cur H; [reflexivity|].
  apply Forall_cons_iff in H as [Hl H]. cbn [sectionOfLines].
  rewrite (projectPattern_miss name l Hl). apply IH. exact H.
Qed.

Lemma sectionOfLines_skip name rest : forall pre cur,
  Forall (fun l => ~ holdsOneOf (projectLink name) l) pre ->
  exists cur', sectionOfLines name (pre ++ rest) cur =
               sectionOfLines name rest cur'.
Proof.
  induction pre as [|l pre IH]; intros cur H; [exists cur; reflexivity|].
  apply Forall_cons_iff in H as [Hl H]. cbn [app sectionOfLines].
  rewrite (projectPattern_miss name l Hl). apply IH. exact H.
Qed.

Lemma noLink_split name l :
  ~ holdsOneOf (projectLink name) l <->
  ~ holdsOneOf (plainLink name) l /\ ~ holdsOneOf (aliasLink name) l.
Proof.
  split.
  - intros H. split; intros (x & k & y & Hk & E); apply H;
      exists x, k, y; (split; [|exact E]); [left|right]; exact Hk.
  - intros [H1 H2] (x & k & y & [Hk|Hk] & E); [apply H1|apply H2];
      exists x, k, y; split; assumption.
Qed.

Lemma empty_holds_no_link name : ~ holdsOneOf (projectLink name) [].
Proof.
  intros (x & k & y & Hk & E). symmetry in E.
  apply app_eq_nil in E as [_ E]. apply app_eq_nil in E as [E _]. subst k.
  destruct Hk as [Hk|(al & Hk & _)]; discriminate.
Qed.

(** X27: After [removeFromPriorities], [getProjectCurrentSection] finds the
    project in no section, when the text has no line terminator but the line
    feed. *)
Theorem removed_project_has_no_section :
  forall (name content result : jsstring),
    existsb otherTerminator content = false ->
    removeFromPriorities name (Some content) = Some result ->
    getProjectCurrentSection name (Some result) = None.
Proof.
  intros name content result Ht Hr. unfold getProjectCurrentSection.
  apply sectionOfLines_none. apply Forall_forall. intros l Hl.
  destruct (removed_lines name content result Ht Hr l Hl) as [->|(_ & H1 & H2)].
  - apply empty_holds_no_link.
  - apply noLink_split. split; assumption.
Qed.

Lemma removed_project_has_no_section_witness :
  let content :=
    JS.lit "# P\n## Active\n- [[Alpha]]\n- [[Beta|B]]\n\n\n- x [[Alpha|A]] y\n---\nnotes [[Alpha]]\n" in
  let result := JS.lit "# P\n## Active\n\n- [[Beta|B]]\n\n---\n\n" in
  existsb otherTerminator content = false /\
  removeFromPriorities (JS.lit "Alpha") (Some content) = Some result /\
  getProjectCurrentSection (JS.lit "Alpha") (Some result) = None.
Proof.
  cbv zeta.
  assert (H1 : existsb otherTerminator
                 (JS.lit "# P\n## Active\n- [[Alpha]]\n- [[Beta|B]]\n\n\n- x [[Alpha|A]] y\n---\nnotes [[Alpha]]\n")
               = false) by (vm_compute; reflexivity).
  assert (H2 : removeFromPriorities (JS.lit "Alpha")
                 (Some (JS.lit "# P\n## Active\n- [[Alpha]]\n- [[Beta|B]]\n\n\n- x [[Alpha|A]] y\n---\nnotes [[Alpha]]\n"))
               = Some (JS.lit "# P\n## Active\n\n- [[Beta|B]]\n\n---\n\n"))
    by (vm_compute; reflexivity).
  split; [exact H1|]. split; [exact H2|].
  exact (removed_project_has_no_section _ _ _ H1 H2).
Defined.

(** X28: After [addToPriorities] has put the project under the header of its
    section, [getProjectCurrentSection] gives that section, when no line
    before the header holds a link of the project.  The section name is not
    empty and has no syntax character of a pattern, the text has no line
    terminator but the line feed, and neither the name nor the emoji holds
    a line feed. *)
Theorem added_project_has_its_section :
  forall (name section : jsstring) (emoji : option jsstring)
         (content result : jsstring) (before after : list jsstring),
    existsb regexMeta section = false ->
    existsb otherTerminator content = false ->
    JS.split LF content = before ++ (JS.lit "## " ++ section) :: after ->
    ~ In (JS.lit "## " ++ section) before ->
    Forall (fun l => ~ holdsOneOf (projectLink name) l) before ->
    section <> [] ->
    ~ In LF name ->
    (forall e, orNull emoji = Some e -> ~ In LF e) ->
    addToPriorities name section emoji (Some content) = Some result ->
    getProjectCurrentSection name (Some result) = Some section.
Proof.
  intros name section emoji content result before after _
         Ht Hsplit Hno Hbefore Hne Hn He Hr.
  rewrite (added_under_header name section emoji content before after
             Ht Hsplit Hno) in Hr.
  assert (Hres : result =
                 JS.join [LF] (before ++ (JS.lit "## " ++ section) ::
                                 newEntryLine name emoji :: after))
    by congruence.
  clear Hr. subst result.
  pose proof (split_lines_dotp content Ht) as Hd. rewrite Hsplit in Hd.
  apply Forall_app in Hd as [Hdb Hd]. apply Forall_cons_iff in Hd as [Hdh Hda].
  assert (Hds : forallb dotp section = true) by exact Hdh.
  pose proof (split_noLF content) as Hl. rewrite Hsplit in Hl.
  apply Forall_app in Hl as [Hlb Hl]. apply Forall_cons_iff in Hl as [Hlh Hla].
  unfold getProjectCurrentSection. rewrite split_join.
  2:{ destruct before; discriminate. }
  2:{ apply Forall_app. split; [exact Hlb|].
      constructor; [exact Hlh|]. constructor; [|exact Hla].
      apply newEntryLine_noLF; assumption. }
  destruct (sectionOfLines_skip name
              ((JS.lit "## " ++ section) :: newEntryLine name emoji :: after)
              before None Hbefore) as [cur ->].
  destruct (exec_section_header section Hne Hds) as (m & Hm & Hg).
  cbn [sectionOfLines]. rewrite Hm, Hg.
  destruct (Re.exec false (projectPattern name) (JS.lit "## " ++ section));
    [reflexivity|].
  assert (Hns : Re.exec false sectionRegex (newEntryLine name emoji) = None)
    by (apply exec_header_none; reflexivity).
  rewrite Hns.
  destruct (Re.exec false (projectPattern name) (newEntryLine name emoji))
    eqn:E; [reflexivity|].
  exfalso. revert E. apply projectPattern_hit. rewrite newEntryLine_text.
  exists (JS.lit "- " ++
          writtenEmoji match orNull emoji with Some e => e | None => [] end),
         (linkText name None), [].
  split; [left; reflexivity|]. rewrite app_nil_r. reflexivity.
Qed.

Lemma added_project_has_its_section_witness :
  let content := JS.lit "# P\n## Active\n- [[A]]\n## Active\n---\nnotes" in
  let result :=
    JS.lit "# P\n## Active\n- * [[B]]\n- [[A]]\n## Active\n---\nnotes" in
  let before := [JS.lit "# P"] in
  let after := [JS.lit "- [[A]]"; JS.lit "## Active"; JS.lit "---"; JS.lit "notes"] in
  existsb regexMeta (JS.lit "Active") = false /\
  existsb otherTerminator content = false /\
  JS.split LF content = before ++ (JS.lit "## " ++ JS.lit "Active") :: after /\
  ~ In (JS.lit "## " ++ JS.lit "Active") before /\
  Forall (fun l => ~ holdsOneOf (projectLink (JS.lit "B")) l) before /\
  JS.lit "Active" <> [] /\
  ~ In LF (JS.lit "B") /\
  (forall e, orNull (Some (JS.lit "*")) = Some e -> ~ In LF e) /\
  addToPriorities (JS.lit "B") (JS.lit "Active") (Some (JS.lit "*"))
    (Some content) = Some result /\
  getProjectCurrentSection (JS.lit "B") (Some result) = Some (JS.lit "Active").
Proof.
  cbv zeta.
  assert (H0 : existsb regexMeta (JS.lit "Active") = false)
    by (vm_compute; reflexivity).
  assert (H1 : existsb otherTerminator
                 (JS.lit "# P\n## Active\n- [[A]]\n## Active\n---\nnotes") = false)
    by (vm_compute; reflexivity).
  assert (H2 : JS.split LF (JS.lit "# P\n## Active\n- [[A]]\n## Active\n---\nnotes") =
               [JS.lit "# P"] ++ (JS.lit "## " ++ JS.lit "Active") ::
               [JS.lit "- [[A]]"; JS.lit "## Active"; JS.lit "---"; JS.lit "notes"])
    by (vm_compute; reflexivity).
  assert (H3 : ~ In (JS.lit "## " ++ JS.lit "Active") [JS.lit "# P"])
    by (intros [H|[]]; vm_compute in H; discriminate).
  assert (H4 : Forall (fun l => ~ holdsOneOf (projectLink (JS.lit "B")) l)
                 [JS.lit "# P"]).
  { constructor; [|constructor]. intros H.
    apply projectPattern_hit in H. apply H. vm_compute. reflexivity. }
  assert (H5 : JS.lit "Active" <> []) by discriminate.
  assert (H6 : ~ In LF (JS.lit "B"))
    by (intros [H|[]]; vm_compute in H; discriminate).
  assert (H7 : forall e, orNull (Some (JS.lit "*")) = Some e -> ~ In LF e).
  { intros e E. vm_compute in E. injection E as <-.
    intros [H|[]]; discriminate. }
  assert (H8 : addToPriorities (JS.lit "B") (JS.lit "Active") (Some (JS.lit "*"))
                 (Some (JS.lit "# P\n## Active\n- [[A]]\n## Active\n---\nnotes")) =
               Some (JS.lit "# P\n## Active\n- * [[B]]\n- [[A]]\n## Active\n---\nnotes"))
    by (vm_compute; reflexivity).
  repeat (split; [assumption|]).
  exact (added_project_has_its_section _ _ _ _ _ _ _
           H0 H1 H2 H3 H4 H5 H6 H7 H8).
Defined.

(** *** A removed project among the unlisted ones *)

(** X29: After [removeFromPriorities] a project that carries the project tag is
    among the unlisted projects of the parsed document, when the text has no
    line terminator but the line feed. *)
Theorem removed_project_is_unlisted :
  forall (md : Metadata) (name content result : jsstring),
    existsb otherTerminator content = false ->
    removeFromPriorities name (Some content) = Some result ->
    In name (taggedProjects md) ->
    In name (unlisted (parseContent md result)).
Proof.
  intros md name content result Ht Hr Htag.
  pose proof (removed_not_listed md name content result Ht Hr) as Hno.
  rewrite parseContent_fold in *.
  destruct (parse_fold md (beforeSeparator (JS.split LF result))) as [_ Hf].
  cbv zeta in Hf. unfold finishParse at 1. cbn [unlisted].
  apply filter_In. split; [exact Htag|]. rewrite Hf.
  apply negb_true_iff. unfold contains. apply existsb_false_forall.
  intros x Hx. apply in_map_iff in Hx as (e & <- & He).
  destruct (JS.eqb name (projectName e)) eqn:E; [|reflexivity].
  apply jseqb_eq in E.
  exfalso. apply (proj1 (Forall_forall _ _) Hno e He). symmetry. exact E.
Qed.

Lemma removed_project_is_unlisted_witness :
  let md := {| frontmatterEmoji := fun _ => None;
               taggedProjects := [JS.lit "Alpha"; JS.lit "Beta"] |} in
  let content :=
    JS.lit "# P\n## Active\n- [[Alpha]]\n- [[Beta|B]]\n\n\n- x [[Alpha|A]] y\n---\nnotes [[Alpha]]\n" in
  let result := JS.lit "# P\n## Active\n\n- [[Beta|B]]\n\n---\n\n" in
  existsb otherTerminator content = false /\
  removeFromPriorities (JS.lit "Alpha") (Some content) = Some result /\
  In (JS.lit "Alpha") (taggedProjects md) /\
  In (JS.lit "Alpha") (unlisted (parseContent md result)).
Proof.
  cbv zeta.
  assert (H1 : existsb otherTerminator
                 (JS.lit "# P\n## Active\n- [[Alpha]]\n- [[Beta|B]]\n\n\n- x [[Alpha|A]] y\n---\nnotes [[Alpha]]\n")
               = false) by (vm_compute; reflexivity).
  assert (H2 : removeFromPriorities (JS.lit "Alpha")
                 (Some (JS.lit "# P\n## Active\n- [[Alpha]]\n- [[Beta|B]]\n\n\n- x [[Alpha|A]] y\n---\nnotes [[Alpha]]\n"))
               = Some (JS.lit "# P\n## Active\n\n- [[Beta|B]]\n\n---\n\n"))
    by (vm_compute; reflexivity).
  assert (H3 : In (JS.lit "Alpha")
                 (taggedProjects
                    {| frontmatterEmoji := fun _ => None;
                       taggedProjects := [JS.lit "Alpha"; JS.lit "Beta"] |}))
    by (left; reflexivity).
  split; [exact H1|]. split; [exact H2|]. split; [exact H3|].
  exact (removed_project_is_unlisted _ _ _ _ H1 H2 H3).
Defined.

(** *** A project that is not listed, synchronised *)

Lemma projectLinePattern_matches name :
  matchesAs true (projectLinePattern name) (linkLine (projectLink name)).
Proof.
  pose proof
    (matchesAs_seq _ _ _ _ _ (matchesAs_bol true)
    (matchesAs_seq _ _ _ _ _
       (matchesAs_grp true 1 _ _
          (matchesAs_seq _ _ _ _ _ (matchesAs_star_cls true dotp)
          (matchesAs_seq _ _ _ _ _ (matchesAs_str true (JS.lit "[["))
          (matchesAs_seq _ _ _ _ _ (matchesAs_str true name)
          (matchesAs_seq _ _ _ _ _
             (matchesAs_alt _ _ _ _ _
                (matchesAs_grp true 2 _ _
                   (matchesAs_seq _ _ _ _ _ (matchesAs_cls true (N.eqb 124))
                   (matchesAs_seq _ _ _ _ _
                      (matchesAs_seq _ _ _ _ _
                         (matchesAs_cls true notBracket)
                         (matchesAs_star_cls true notBracket))
                      (matchesAs_eps true))))
                (matchesAs_eps true))
          (matchesAs_seq _ _ _ _ _ (matchesAs_str true (JS.lit "]]"))
          (matchesAs_seq _ _ _ _ _ (matchesAs_star_cls true dotp)
             (matchesAs_eps true))))))))
    (matchesAs_seq _ _ _ _ _ (matchesAs_eol true)
       (matchesAs_eps true)))) as H.
  refine (matchesAs_ext _ _ _ _ _ H). clear H.
  intros b w rest.
  unfold linkLine, projectLink, plainLink, aliasLink, linkText. split.
  - intros (u0 & v0 & -> & [-> Hb] & g & v1 & -> &
            (x & r1 & -> & Hx & u2 & r2 & -> & -> & u3 & r3 & -> & ->
             & o & r4 & -> & Hopt & u5 & r5 & -> & -> & y & r6 & -> & Hy & ->)
            & u7 & v7 & -> & [-> He] & ->).
    cbn [app] in He. split; [exact Hb|]. split; [exact He|].
    destruct Hopt as [(bar & a & -> & (c & -> & Hc) & a1 & e & ->
                       & (a0 & t & -> & (z & -> & Hz) & Ht) & ->)| ->].
    + apply N.eqb_eq in Hc. subst c.
      exists x, (JS.lit "[[" ++ name ++ JS.lit "|" ++ (z :: t) ++ JS.lit "]]"), y.
      split; [|split; [|split; assumption]].
      * right. exists (z :: t). split; [reflexivity|].
        split; [discriminate|cbn [forallb]; rewrite Hz, Ht; reflexivity].
      * change (JS.lit "|") with [124%N]. rewrite !app_nil_r.
        repeat first [rewrite <- app_assoc | progress cbn [app]]. reflexivity.
    + exists x, (JS.lit "[[" ++ name ++ JS.lit "]]"), y.
      split; [left; reflexivity|]. split; [|split; assumption].
      rewrite !app_nil_r.
      repeat first [rewrite <- app_assoc | progress cbn [app]]. reflexivity.
  - intros (Hb & He & x & k & y & Hk & -> & Hx & Hy).
    exists [], (x ++ k ++ y). split; [reflexivity|].
    split; [split; [reflexivity|exact Hb]|].
    exists (x ++ k ++ y), []. split; [rewrite app_nil_r; reflexivity|].
    split.
    + exists x, (k ++ y). split; [reflexivity|]. split; [exact Hx|].
      destruct Hk as [->|(al & -> & Hne & Hal)].
      * exists (JS.lit "[["), (name ++ JS.lit "]]" ++ y).
        split; [rewrite <- !app_assoc; reflexivity|]. split; [reflexivity|].
        exists name, (JS.lit "]]" ++ y). split; [reflexivity|].
        split; [reflexivity|].
        exists [], (JS.lit "]]" ++ y). split; [reflexivity|].
        split; [right; reflexivity|].
        exists (JS.lit "]]"), y. split; [reflexivity|]. split; [reflexivity|].
        exists y, []. split; [rewrite app_nil_r; reflexivity|].
        split; [exact Hy|reflexivity].
      * destruct al as [|a0 a2]; [congruence|].
        cbn [forallb] in Hal. apply andb_prop in Hal as [Ha0 Ha2].
        exists (JS.lit "[["),
               (name ++ JS.lit "|" ++ (a0 :: a2) ++ JS.lit "]]" ++ y).
        split; [rewrite <- !app_assoc; reflexivity|]. split; [reflexivity|].
        exists name, (JS.lit "|" ++ (a0 :: a2) ++ JS.lit "]]" ++ y).
        split; [reflexivity|]. split; [reflexivity|].
        exists (JS.lit "|" ++ (a0 :: a2)), (JS.lit "]]" ++ y).
        split; [rewrite <- !app_assoc; reflexivity|].
        split.
        -- left. exists [124%N], (a0 :: a2). split; [reflexivity|].
           split; [exists 124%N; split; reflexivity|].
           exists (a0 :: a2), []. split; [rewrite app_nil_r; reflexivity|].
           split; [|reflexivity].
           exists [a0], a2. split; [reflexivity|].
           split; [exists a0; split; [reflexivity|exact Ha0]|exact Ha2].
        -- exists (JS.lit "]]"), y. split; [reflexivity|]. split; [reflexivity|].
           exists y, []. split; [rewrite app_nil_r; reflexivity|].
           split; [exact Hy|reflexivity].
    + exists [], []. split; [reflexivity|]. split; [|reflexivity].
      split; [reflexivity|exact He].
Qed.

Lemma projectLine_none name content :
  ~ holdsOneOf (projectLink name) content ->
  Re.matchGlobal true (projectLinePattern name) content = [].
Proof.
  intros H. unfold Re.matchGlobal. cbn [Re.match_loop].
  destruct (Re.search true (projectLinePattern name) [] content) as [m|] eqn:E;
    [|reflexivity].
  exfalso. apply H.
  destruct (exec_sound _ _ _ _ _ (projectLinePattern_matches name) E)
    as (x & w & y & -> & _ & _ & x' & k & y' & Hk & -> & _).
  exists (x ++ x'), k, (y' ++ y). split; [exact Hk|].
  rewrite <- !app_assoc. reflexivity.
Qed.

Lemma statusSection_plain newStatus targetSection :
  getStatusSection newStatus = Own targetSection ->
  JS.eqb newStatus (JS.lit "complete") = false /\
  existsb regexMeta targetSection = false.
Proof.
  unfold getStatusSection, member, statusSectionMap. cbn [lookup].
  intros H. split.
  - destruct (JS.eqb newStatus (JS.lit "complete")) eqn:E; [|reflexivity].
    apply jseqb_eq in E. subst newStatus. vm_compute in H. discriminate.
  - repeat match type of H with
           | context [JS.eqb ?a ?b] => destruct (JS.eqb a b)
           end;
      try (destruct (contains inheritedNames newStatus));
      vm_compute in H; try discriminate;
      injection H as <-; vm_compute; reflexivity.
Qed.

(** X30: For a project of which the text holds no link, and a status that has a
    section whose header is a line of the text,
    [syncProjectStatusToPriorities] puts the line [- [[name]]] directly
    under the first such header and leaves the other lines as they are.
    The text has no line terminator but the line feed. *)
Theorem sync_adds_project_not_listed :
  forall (name newStatus targetSection content : jsstring)
         (before after : list jsstring),
    getStatusSection newStatus = Own targetSection ->
    ~ holdsOneOf (projectLink name) content ->
    existsb otherTerminator content = false ->
    JS.split LF content = before ++ (JS.lit "## " ++ targetSection) :: after ->
    ~ In (JS.lit "## " ++ targetSection) before ->
    syncProjectStatusToPriorities name newStatus (Some content) =
    Some (JS.join [LF]
            (before ++ (JS.lit "## " ++ targetSection) ::
                       newEntryLine name None :: after)).
Proof.
  intros name newStatus targetSection content before after
         Hs Hno Ht Hsplit Hbefore.
  unfold syncProjectStatusToPriorities.
  destruct (statusSection_plain _ _ Hs) as [-> _].
  rewrite Hs. unfold moveProjectInPriorities.
  rewrite (projectLine_none name content Hno).
  apply added_under_header; assumption.
Qed.

Lemma sync_adds_project_not_listed_witness :
  let content := JS.lit "# P\n## Active\n- [[A]]\n## On Hold\n---\nnotes" in
  let before := [JS.lit "# P"; JS.lit "## Active"; JS.lit "- [[A]]"] in
  let after := [JS.lit "---"; JS.lit "notes"] in
  getStatusSection (JS.lit "on-hold") = Own (JS.lit "On Hold") /\
  ~ holdsOneOf (projectLink (JS.lit "B")) content /\
  existsb otherTerminator content = false /\
  JS.split LF content = before ++ (JS.lit "## " ++ JS.lit "On Hold") :: after /\
  ~ In (JS.lit "## " ++ JS.lit "On Hold") before /\
  syncProjectStatusToPriorities (JS.lit "B") (JS.lit "on-hold") (Some content) =
  Some (JS.join [LF]
          (before ++ (JS.lit "## " ++ JS.lit "On Hold") ::
                     newEntryLine (JS.lit "B") None :: after)).
Proof.
  cbv zeta.
  assert (H1 : getStatusSection (JS.lit "on-hold") = Own (JS.lit "On Hold"))
    by (vm_compute; reflexivity).
  assert (H2 : ~ holdsOneOf (projectLink (JS.lit "B"))
                 (JS.lit "# P\n## Active\n- [[A]]\n## On Hold\n---\nnotes")).
  { intros H. apply projectPattern_hit in H. apply H. vm_compute. reflexivity. }
  assert (H3 : existsb otherTerminator
                 (JS.lit "# P\n## Active\n- [[A]]\n## On Hold\n---\nnotes") = false)
    by (vm_compute; reflexivity).
  assert (H4 : JS.split LF (JS.lit "# P\n## Active\n- [[A]]\n## On Hold\n---\nnotes") =
               [JS.lit "# P"; JS.lit "## Active"; JS.lit "- [[A]]"] ++
               (JS.lit "## " ++ JS.lit "On Hold") :: [JS.lit "---"; JS.lit "notes"])
    by (vm_compute; reflexivity).
  assert (H5 : ~ In (JS.lit "## " ++ JS.lit "On Hold")
                 [JS.lit "# P"; JS.lit "## Active"; JS.lit "- [[A]]"])
    by (intros [H|[H|[H|[]]]]; vm_compute in H; discriminate).
  split; [exact H1|]. split; [exact H2|]. split; [exact H3|].
  split; [exact H4|]. split; [exact H5|].
  exact (sync_adds_project_not_listed _ _ _ _ _ _ H1 H2 H3 H4 H5).
Defined.
